(** * Garbage-truck route planner: a shallow embedding of the optimisation core

    The development follows the Python sources module by module
    ([graph.py], [astar.py], [greedy_init.py], [two_opt.py],
    [sa_optimizer.py], [vrp_solver.py]).

    Modelling conventions.
    - Python [float] values are idealised in the main development: finite
      values are rationals [Q] (exact arithmetic, compared with
      [Qeq]/[Qlt]), and [float('inf')] is the extra constructor [Inf] of
      [fnum].  [math.sqrt] is a parameter [fsqrt] of the model; nothing is
      assumed about it except where a statement says so.  What is stated
      there about the code is what does not depend on rounding: the shape of
      routes and paths, what is raised, which loops end, which of two
      computed values the code found smaller.  Module [F64] embeds the
      numerical kernels a second time on IEEE binary64 numbers; the
      statements that depend on rounded sums and differences are made
      there.
    - Python [dict]s keyed by strings are [gmap string _]; the one dict whose
      iteration order is observable ([Node.neighbors], iterated by A-star and
      deciding the heap tie-break counter) is an insertion-ordered
      association list.
    - Python [set]s are [gset]; iterating a set uses an enumeration function
      [set_iter] that is a parameter of the model.
    - The global [random] module is an explicit generator state threaded
      through the simulated-annealing code. *)

From Stdlib Require Import QArith Qround Lqa Lia String.
From Stdlib Require OrderedTypeEx.
From Stdlib Require Floats.
From stdpp Require Import base gmap sets list strings sorting pretty.

(** ** Numbers *)

(** A Python float that is either finite or [+inf]. *)
Inductive fnum : Type :=
  | Fin (q : Q)
  | Inf.

Definition Qlt_bool (a b : Q) : bool := negb (Qle_bool b a).

#[global] Instance Q_inhabited : Inhabited Q := populate 0%Q.

(** [a + b] on floats. *)
Definition fadd (a b : fnum) : fnum :=
  match a, b with
  | Fin p, Fin q => Fin (p + q)%Q
  | _, _ => Inf
  end.

(** [a < b] on floats. *)
Definition flt (a b : fnum) : bool :=
  match a, b with
  | Fin p, Fin q => Qlt_bool p q
  | Fin _, Inf => true
  | Inf, _ => false
  end.

(** [a == b] on floats. *)
Definition feq (a b : fnum) : bool :=
  match a, b with
  | Fin p, Fin q => Qeq_bool p q
  | Inf, Inf => true
  | _, _ => false
  end.

(** [a <= b] as a proposition. *)
Definition fle (a b : fnum) : Prop :=
  match a, b with
  | Fin p, Fin q => (p <= q)%Q
  | _, Inf => True
  | Inf, Fin _ => False
  end.

(** ** Python exceptions and results *)

Inductive exn : Type :=
  | ValueError (msg : string)
  | ZeroDivisionError
  | OverflowError.

Inductive result (A : Type) : Type :=
  | Ok (a : A)
  | Raise (e : exn).
Arguments Ok {A} a.
Arguments Raise {A} e.

(** ** graph.py *)

Record Node : Type := mkNode {
  node_id : string;
  node_x : Q;
  node_y : Q;
  neighbors : list (string * Q)   (* {neighbor_id: distance}, insertion order *)
}.

Record Graph : Type := mkGraph {
  nodes : gmap string Node;
  edges : gset (string * string)
}.

(** [Graph()] *)
Definition empty_graph : Graph := mkGraph ∅ ∅.

(** [d[k] = v] on an insertion-ordered dict: an existing key keeps its
    position, a new key goes last. *)
Fixpoint dict_set (k : string) (v : Q) (d : list (string * Q)) : list (string * Q) :=
  match d with
  | [] => [(k, v)]
  | (k', v') :: d' =>
      if decide (k = k') then (k, v) :: d' else (k', v') :: dict_set k v d'
  end.

(** [d.get(k)] on an insertion-ordered dict. *)
Fixpoint dict_get (k : string) (d : list (string * Q)) : option Q :=
  match d with
  | [] => None
  | (k', v') :: d' => if decide (k = k') then Some v' else dict_get k d'
  end.

Definition set_neighbor (k : string) (v : Q) (n : Node) : Node :=
  mkNode (node_id n) (node_x n) (node_y n) (dict_set k v (neighbors n)).

(** [Graph.add_node]: builds a fresh node (empty neighbour dict) and stores it
    under [node_id]; there is no test on [node_id]. *)
Definition add_node (g : Graph) (nid : string) (x y : Q) : result Graph :=
  Ok (mkGraph (<[nid := mkNode nid x y []]> (nodes g)) (edges g)).

(** [tuple(sorted([node_id1, node_id2]))] *)
Definition sorted_pair (a b : string) : string * string :=
  if String.leb a b then (a, b) else (b, a).

(** [Graph.add_edge] *)
Definition add_edge (g : Graph) (id1 id2 : string) (distance : Q) : result Graph :=
  match nodes g !! id1, nodes g !! id2 with
  | Some _, Some _ =>
      let ns1 := alter (set_neighbor id2 distance) id1 (nodes g) in
      let ns2 := alter (set_neighbor id1 distance) id2 ns1 in
      Ok (mkGraph ns2 ({[ sorted_pair id1 id2 ]} ∪ edges g))
  | _, _ => Raise (ValueError "Node tidak ditemukan")
  end.

(** [Graph.get_neighbors] *)
Definition get_neighbors (g : Graph) (nid : string) : list (string * Q) :=
  match nodes g !! nid with
  | None => []
  | Some n => neighbors n
  end.

Section Model.

(** [math.sqrt] *)
Variable fsqrt : Q -> Q.

(** [Graph.euclidean] *)
Definition euclidean (g : Graph) (id1 id2 : string) : fnum :=
  match nodes g !! id1, nodes g !! id2 with
  | Some node1, Some node2 =>
      let dx := (node_x node1 - node_x node2)%Q in
      let dy := (node_y node1 - node_y node2)%Q in
      Fin (fsqrt (dx * dx + dy * dy)%Q)
  | _, _ => Inf
  end.

(** ** astar.py *)

(** A heap entry [(f_score, counter, node_id)]. *)
Definition entry : Type := fnum * nat * string.

(** Python's tuple comparison [e1 < e2]. *)
Definition entry_lt (e1 e2 : entry) : bool :=
  let '(f1, c1, n1) := e1 in
  let '(f2, c2, n2) := e2 in
  flt f1 f2 ||
  (feq f1 f2 && ((c1 <? c2) || ((c1 =? c2) && String.ltb n1 n2))).

(** The least entry of [e :: t] and the remaining entries. *)
Fixpoint extract_min (e : entry) (t : list entry) : entry * list entry :=
  match t with
  | [] => (e, [])
  | c :: t' =>
      let '(m, r) := extract_min c t' in
      if entry_lt m e then (m, e :: r) else (e, c :: t')
  end.

(** [heapq.heappop]: the heap is kept as a bag of entries; popping removes the
    least one.  The counters of the entries are pairwise distinct, so the
    least entry is unique and the order inside the bag is immaterial. *)
Definition heappop (h : list entry) : option (entry * list entry) :=
  match h with
  | [] => None
  | e :: t => Some (extract_min e t)
  end.

(** [heapq.heappush] *)
Definition heappush (h : list entry) (e : entry) : list entry := e :: h.

Record astar_state : Type := mkAstar {
  open_set : list entry;
  counter : nat;
  g_score : gmap string Q;
  f_score : gmap string fnum;
  came_from : gmap string string;
  closed_set : gset string
}.

(** The [while current_id in came_from] loop of [reconstruct_path].  A chain
    without a cycle visits every key of [came_from] at most once, so
    [size came_from] rounds are enough; [None] stands for a walk that never
    leaves the dict. *)
Fixpoint reconstruct_loop (fuel : nat) (cf : gmap string string)
    (current_id : string) (path : list string) : option (list string) :=
  match cf !! current_id with
  | None => Some path
  | Some prev =>
      match fuel with
      | O => None
      | S fuel' => reconstruct_loop fuel' cf prev (path ++ [prev])
      end
  end.

(** [reconstruct_path] *)
Definition reconstruct_path (cf : gmap string string) (current_id : string)
    : option (list string) :=
  reverse <$> reconstruct_loop (size cf) cf current_id [current_id].

(** One round of [for neighbor_id, distance in neighbors.items()].
    [g_score[current_id]] is always present when the loop runs (the node was
    pushed with its score), so the read uses the total lookup. *)
Definition relax (g : Graph) (goal_id current_id : string)
    (st : astar_state) (nb : string * Q) : astar_state :=
  let '(neighbor_id, distance) := nb in
  if decide (neighbor_id ∈ closed_set st) then st
  else
    let tentative_g := ((g_score st !!! current_id) + distance)%Q in
    let better :=
      match g_score st !! neighbor_id with
      | None => true
      | Some old => Qlt_bool tentative_g old
      end in
    if better then
      let f := fadd (Fin tentative_g) (euclidean g neighbor_id goal_id) in
      mkAstar (heappush (open_set st) (f, counter st, neighbor_id))
              (S (counter st))
              (<[neighbor_id := tentative_g]> (g_score st))
              (<[neighbor_id := f]> (f_score st))
              (<[neighbor_id := current_id]> (came_from st))
              (closed_set st)
    else st.

(** The [while open_set] loop.  The outer [None] means that [fuel] rounds
    were not enough (or that [reconstruct_path] does not return); the inner
    option is the Python return value. *)
Fixpoint astar_loop (fuel : nat) (g : Graph) (goal_id : string)
    (st : astar_state) : option (option (list string)) :=
  match fuel with
  | O => None
  | S fuel' =>
      match heappop (open_set st) with
      | None => Some None
      | Some ((_, _, current_id), rest) =>
          if decide (current_id ∈ closed_set st) then
            astar_loop fuel' g goal_id
              (mkAstar rest (counter st) (g_score st) (f_score st)
                       (came_from st) (closed_set st))
          else
            let st1 := mkAstar rest (counter st) (g_score st) (f_score st)
                         (came_from st) ({[ current_id ]} ∪ closed_set st) in
            if decide (current_id = goal_id) then
              Some <$> reconstruct_path (came_from st1) current_id
            else
              astar_loop fuel' g goal_id
                (foldl (relax g goal_id current_id) st1
                       (get_neighbors g current_id))
      end
  end.

(** The state before the loop. *)
Definition astar_init (g : Graph) (start_id goal_id : string) : astar_state :=
  mkAstar [(Fin 0, O, start_id)] 1
          {[ start_id := 0%Q ]}
          {[ start_id := euclidean g start_id goal_id ]}
          ∅ ∅.

(** Total number of neighbour entries of the graph. *)
Definition degree_sum (g : Graph) : nat :=
  map_fold (fun _ n acc => length (neighbors n) + acc) O (nodes g).

(** Every round pops one entry, and entries are pushed only while a node is
    closed for the first time, one per neighbour at most: the loop runs at
    most [degree_sum g + 2] rounds. *)
Definition astar_fuel (g : Graph) : nat := degree_sum g + 2.

(** [astar] *)
Definition astar (g : Graph) (start_id goal_id : string) : option (list string) :=
  match nodes g !! start_id, nodes g !! goal_id with
  | Some _, Some _ =>
      if decide (start_id = goal_id) then Some [start_id]
      else
        match astar_loop (astar_fuel g) g goal_id (astar_init g start_id goal_id) with
        | Some r => r
        | None => None
        end
  | _, _ => None
  end.

(** The loop [for i in range(len(path) - 1): total += euclidean(path[i],
    path[i+1])], starting from [0.0]. *)
Definition sum_hops (g : Graph) (path : list string) : fnum :=
  foldl (fun total '(a, b) => fadd total (euclidean g a b)) (Fin 0)
        (zip path (tail path)).

(** [compute_path_distance] *)
Definition compute_path_distance (g : Graph) (path : list string) : fnum :=
  if length path <? 2 then Fin 0 else sum_hops g path.

(** ** two_opt.py *)

(** The difference of two floats that are finite or [+inf]. *)
Inductive fdiff : Type :=
  | DFin (q : Q)
  | DPosInf
  | DNegInf
  | DNaN.

(** [a - b] *)
Definition fsub (a b : fnum) : fdiff :=
  match a, b with
  | Fin p, Fin q => DFin (p - q)%Q
  | Inf, Fin _ => DPosInf
  | Fin _, Inf => DNegInf
  | Inf, Inf => DNaN
  end.

(** [d > t] for a finite [t]; every comparison with [nan] is false. *)
Definition fdiff_gt (d : fdiff) (t : Q) : bool :=
  match d with
  | DFin q => Qlt_bool t q
  | DPosInf => true
  | DNegInf | DNaN => false
  end.

(** [d < 0] *)
Definition fdiff_neg (d : fdiff) : bool :=
  match d with
  | DFin q => Qlt_bool q 0
  | DNegInf => true
  | DPosInf | DNaN => false
  end.

(** [best_route[i:j+1] = reversed(best_route[i:j+1])] *)
Definition reverse_segment (route : list string) (i j : nat) : list string :=
  take i route ++ reverse (take (S j - i) (drop i route)) ++ drop (S j) route.

(** The inner loop [for j in range(i + 1, len(best_route) - 1)]: the route
    after the first improving reversal, [None] when the loop ends without
    one. *)
Fixpoint scan_j (g : Graph) (best_route : list string) (improvement_threshold : Q)
    (i : nat) (js : list nat) : option (list string) :=
  match js with
  | [] => None
  | j :: js' =>
      let current_dist :=
        fadd (euclidean g (best_route !!! (i - 1)) (best_route !!! i))
             (euclidean g (best_route !!! j) (best_route !!! (j + 1))) in
      let new_dist :=
        fadd (euclidean g (best_route !!! (i - 1)) (best_route !!! j))
             (euclidean g (best_route !!! i) (best_route !!! (j + 1))) in
      if fdiff_gt (fsub current_dist new_dist) improvement_threshold
      then Some (reverse_segment best_route i j)
      else scan_j g best_route improvement_threshold i js'
  end.

(** The outer loop [for i in range(1, len(best_route) - 2)]. *)
Fixpoint scan_i (g : Graph) (best_route : list string) (improvement_threshold : Q)
    (rows : list nat) : option (list string) :=
  match rows with
  | [] => None
  | i :: rows' =>
      match scan_j g best_route improvement_threshold i
              (seq (i + 1) (length best_route - 1 - (i + 1))) with
      | Some r => Some r
      | None => scan_i g best_route improvement_threshold rows'
      end
  end.

(** One full scan: one round of the [while] loop. *)
Definition two_opt_scan (g : Graph) (best_route : list string)
    (improvement_threshold : Q) : option (list string) :=
  scan_i g best_route improvement_threshold (seq 1 (length best_route - 2 - 1)).

(** The loop [while improved and iteration < max_iterations]; [rounds] is
    [max_iterations - iteration].  The result carries the final value of
    [improved]. *)
Fixpoint two_opt_loop (g : Graph) (improvement_threshold : Q) (rounds : nat)
    (best_route : list string) : list string * bool :=
  match rounds with
  | O => (best_route, true)
  | S rounds' =>
      match two_opt_scan g best_route improvement_threshold with
      | Some r => two_opt_loop g improvement_threshold rounds' r
      | None => (best_route, false)
      end
  end.

(** [two_opt_single_route] *)
Definition two_opt_single_route (g : Graph) (route : list string)
    (improvement_threshold : Q) (max_iterations : nat) : list string :=
  fst (two_opt_loop g improvement_threshold max_iterations route).

(** [optimize_routes_2opt] *)
Definition optimize_routes_2opt (g : Graph) (routes : gmap string (list string))
    (improvement_threshold : Q) (max_iterations : nat) : gmap string (list string) :=
  (fun route => two_opt_single_route g route improvement_threshold max_iterations)
    <$> routes.

(** [calculate_route_distance] *)
Definition calculate_route_distance (g : Graph) (route : list string) : fnum :=
  if length route <? 2 then Fin 0 else sum_hops g route.

(** [calculate_total_distance] *)
Definition calculate_total_distance (g : Graph) (routes : gmap string (list string)) : fnum :=
  map_fold (fun _ route total => fadd total (calculate_route_distance g route))
           (Fin 0) routes.

(** ** sa_optimizer.py *)

(** [sorted(...)] on strings. *)
Definition py_sorted (l : list string) : list string :=
  merge_sort (fun a b : string => String.leb a b) l.

(** [routes.keys()] *)
Definition keys {A : Type} (m : gmap string A) : list string := (map_to_list m).*1.

(** [tps_order[start:end]] for indices within [0 .. len]. *)
Definition slice (l : list string) (start_idx end_idx : nat) : list string :=
  take (end_idx - start_idx) (drop start_idx l).

(** [routes_to_tps_order] *)
Definition routes_to_tps_order (routes : gmap string (list string)) (depot_id : string)
    : list string * list (nat * nat) :=
  foldl (fun '(all_tps, route_indices) truck_id =>
           let route := routes !!! truck_id in
           let start_idx := length all_tps in
           let all_tps' := all_tps ++ filter (fun node_id => node_id ≠ depot_id) route in
           let end_idx := length all_tps' in
           (all_tps', route_indices ++ [(start_idx, end_idx)]))
        ([], []) (py_sorted (keys routes)).

(** [tps_order_to_routes] *)
Definition tps_order_to_routes (tps_order : list string)
    (route_indices : list (nat * nat)) (truck_ids : list string) (depot_id : string)
    : gmap string (list string) :=
  foldl (fun routes '(truck_id, (start_idx, end_idx)) =>
           <[truck_id := [depot_id] ++ slice tps_order start_idx end_idx ++ [depot_id]]> routes)
        ∅ (zip truck_ids route_indices).

(** The state of the [random] module, [random.random()] and the
    [_randbelow(n)] primitive on which [randint] is built. *)
Context {rng : Type}.
Variable random_random : rng -> Q * rng.
Variable randbelow : nat -> rng -> nat * rng.

(** [random.randint(a, b)], that is [a + _randbelow(b - a + 1)]. *)
Definition randint (a b : nat) (s : rng) : nat * rng :=
  let '(k, s') := randbelow (b - a + 1) s in (a + k, s').

(** [l[i], l[j] = l[j], l[i]] *)
Definition swap_items (l : list string) (i j : nat) : list string :=
  <[j := l !!! i]> (<[i := l !!! j]> l).

(** [x = l.pop(i); l.insert(j, x)] *)
Definition relocate (l : list string) (i j : nat) : list string :=
  let x := l !!! i in
  let l' := delete i l in
  take j l' ++ x :: drop j l'.

(** [generate_neighbor_solution] *)
Definition generate_neighbor_solution (routes : gmap string (list string))
    (depot_id : string) (s : rng) : gmap string (list string) * rng :=
  let truck_ids := py_sorted (keys routes) in
  let '(tps_order, route_indices) := routes_to_tps_order routes depot_id in
  let '(u, s1) := random_random s in
  let '(tps_order', s') :=
    if Qlt_bool u (1 # 2) && (2 <=? length tps_order) then
      let '(idx1, s2) := randint 0 (length tps_order - 1) s1 in
      let '(idx2, s3) := randint 0 (length tps_order - 1) s2 in
      (if decide (idx1 ≠ idx2) then swap_items tps_order idx1 idx2 else tps_order, s3)
    else if 2 <=? length tps_order then
      let '(idx, s2) := randint 0 (length tps_order - 1) s1 in
      let '(new_pos, s3) := randint 0 (length tps_order - 1) s2 in
      (if decide (idx ≠ new_pos) then relocate tps_order idx new_pos else tps_order, s3)
    else (tps_order, s1) in
  (tps_order_to_routes tps_order' route_indices truck_ids depot_id, s').

(** The value of [u < math.exp(-delta / temperature)]; [Raise] when the
    expression raises ([ZeroDivisionError] for a zero temperature,
    [OverflowError] from [math.exp]). *)
Variable metropolis : Q -> fdiff -> Q -> result bool.

Record sa_state : Type := mkSA {
  current_routes : gmap string (list string);
  best_routes : gmap string (list string);
  current_cost : fnum;
  best_cost : fnum;
  sa_rng : rng;
  best_history : list fnum   (* ghost: [best_cost] after every trial, latest first *)
}.

(** The body of [for _ in range(iter_per_temp)]. *)
Definition sa_trial (g : Graph) (depot_id : string) (temperature : Q)
    (st : sa_state) : result sa_state :=
  let '(neighbor_routes, s1) :=
    generate_neighbor_solution (current_routes st) depot_id (sa_rng st) in
  let neighbor_cost := calculate_total_distance g neighbor_routes in
  let delta := fsub neighbor_cost (current_cost st) in
  let decision :=
    if fdiff_neg delta then Ok (true, s1)
    else
      let '(u, s2) := random_random s1 in
      match metropolis u delta temperature with
      | Ok b => Ok (b, s2)
      | Raise e => Raise e
      end in
  match decision with
  | Raise e => Raise e
  | Ok (true, s') =>
      if flt neighbor_cost (best_cost st) then
        Ok (mkSA neighbor_routes neighbor_routes neighbor_cost neighbor_cost s'
                 (neighbor_cost :: best_history st))
      else
        Ok (mkSA neighbor_routes (best_routes st) neighbor_cost (best_cost st) s'
                 (best_cost st :: best_history st))
  | Ok (false, s') =>
      Ok (mkSA (current_routes st) (best_routes st) (current_cost st) (best_cost st) s'
               (best_cost st :: best_history st))
  end.

(** [for _ in range(iter_per_temp)] *)
Fixpoint sa_trials (g : Graph) (depot_id : string) (temperature : Q)
    (iter_per_temp : nat) (st : sa_state) : result sa_state :=
  match iter_per_temp with
  | O => Ok st
  | S n =>
      match sa_trial g depot_id temperature st with
      | Ok st' => sa_trials g depot_id temperature n st'
      | Raise e => Raise e
      end
  end.

(** [while temperature > t_min]; [None] when [fuel] temperature levels were
    not enough. *)
Fixpoint sa_cooling (fuel : nat) (g : Graph) (depot_id : string)
    (cooling_rate : Q) (iter_per_temp : nat) (t_min : Q)
    (temperature : Q) (st : sa_state) : option (result sa_state) :=
  if Qlt_bool t_min temperature then
    match fuel with
    | O => None
    | S fuel' =>
        match sa_trials g depot_id temperature iter_per_temp st with
        | Ok st' =>
            sa_cooling fuel' g depot_id cooling_rate iter_per_temp t_min
                       (temperature * cooling_rate)%Q st'
        | Raise e => Some (Raise e)
        end
    end
  else Some (Ok st).

(** The state before the loop. *)
Definition sa_init (g : Graph) (routes : gmap string (list string)) (s : rng) : sa_state :=
  let cost := calculate_total_distance g routes in
  mkSA routes routes cost cost s [cost].

(** The run of [simulated_annealing_optimize] up to the final state. *)
Definition sa_run (fuel : nat) (g : Graph) (routes : gmap string (list string))
    (depot_id : string) (t0 cooling_rate : Q) (iter_per_temp : nat) (t_min : Q)
    (s : rng) : option (result sa_state) :=
  sa_cooling fuel g depot_id cooling_rate iter_per_temp t_min t0 (sa_init g routes s).

(** [simulated_annealing_optimize]: returns [best_routes]. *)
Definition simulated_annealing_optimize (fuel : nat) (g : Graph)
    (routes : gmap string (list string)) (depot_id : string)
    (t0 cooling_rate : Q) (iter_per_temp : nat) (t_min : Q) (s : rng)
    : option (result (gmap string (list string))) :=
  match sa_run fuel g routes depot_id t0 cooling_rate iter_per_temp t_min s with
  | Some (Ok st) => Some (Ok (best_routes st))
  | Some (Raise e) => Some (Raise e)
  | None => None
  end.

(** ** greedy_init.py *)

Record TPS : Type := mkTPS {
  tps_id : string;
  tps_node_id : string;
  demand : Q
}.

Record Truck : Type := mkTruck {
  truck_id : string;
  capacity : Q
}.

#[global] Instance TPS_inhabited : Inhabited TPS := populate (mkTPS "" "" 0%Q).

(** The order in which [for x in s] enumerates a Python set. *)
Variable set_iter : gset string -> list string.

(** [{truck.id: [] for truck in trucks}] *)
Definition empty_routes (trucks : list Truck) : gmap string (list string) :=
  foldl (fun routes truck => <[truck_id truck := []]> routes) ∅ trucks.

(** [{tps.node_id: tps for tps in tps_list}] *)
Definition make_tps_dict (tps_list : list TPS) : gmap string TPS :=
  foldl (fun d tps => <[tps_node_id tps := tps]> d) ∅ tps_list.

(** [{truck.id: truck.capacity for truck in trucks}] *)
Definition make_capacities (trucks : list Truck) : gmap string Q :=
  foldl (fun d truck => <[truck_id truck := capacity truck]> d) ∅ trucks.

(** The loop [for tps_node_id in remaining_tps] that looks for the nearest
    site that still fits: the final [(best_tps_node, best_distance)]. *)
Definition nearest_feasible (g : Graph) (tps_dict : gmap string TPS)
    (current_location : string) (current_capacity : Q) (candidates : list string)
    : option string * fnum :=
  foldl (fun '(best_tps_node, best_distance) tps_node_id =>
           let tps := tps_dict !!! tps_node_id in
           if Qlt_bool current_capacity (demand tps) then (best_tps_node, best_distance)
           else
             let distance := euclidean g current_location tps_node_id in
             if flt distance best_distance then (Some tps_node_id, distance)
             else (best_tps_node, best_distance))
        (None, Inf) candidates.

(** The loop [while remaining_tps] for one truck.  Every round removes one
    element of [remaining_tps], so [size remaining_tps] rounds are enough. *)
Fixpoint fill_truck (fuel : nat) (g : Graph) (tps_dict : gmap string TPS)
    (tid : string) (routes : gmap string (list string)) (remaining_tps : gset string)
    (current_location : string) (current_capacity : Q)
    : gmap string (list string) * gset string :=
  match fuel with
  | O => (routes, remaining_tps)
  | S fuel' =>
      if decide (remaining_tps = ∅) then (routes, remaining_tps)
      else
        match fst (nearest_feasible g tps_dict current_location current_capacity
                     (set_iter remaining_tps)) with
        | None => (routes, remaining_tps)
        | Some best_tps_node =>
            let tps_obj := tps_dict !!! best_tps_node in
            fill_truck fuel' g tps_dict tid
              (alter (fun r => r ++ [best_tps_node]) tid routes)
              (remaining_tps ∖ {[ best_tps_node ]})
              best_tps_node
              (current_capacity - demand tps_obj)%Q
        end
  end.

(** The first loop [for truck in trucks]: the routes and the sites left. *)
Definition nearest_neighbour_pass (g : Graph) (tps_list : list TPS)
    (depot_id : string) (trucks : list Truck)
    : gmap string (list string) * gset string :=
  let tps_dict := make_tps_dict tps_list in
  let truck_remaining_capacity := make_capacities trucks in
  foldl (fun '(routes, remaining_tps) truck =>
           fill_truck (size remaining_tps) g tps_dict (truck_id truck)
             routes remaining_tps depot_id
             (truck_remaining_capacity !!! truck_id truck))
        (empty_routes trucks, list_to_set (tps_node_id <$> tps_list)) trucks.

(** The loop [for truck in trucks] of the second pass, for one site: the
    first truck whose entry of [truck_remaining_capacity] is large enough
    takes the site. *)
Fixpoint first_fit (trucks : list Truck) (tps_node : string) (tps_demand : Q)
    (routes : gmap string (list string)) (truck_remaining_capacity : gmap string Q)
    : gmap string (list string) * gmap string Q :=
  match trucks with
  | [] => (routes, truck_remaining_capacity)
  | truck :: trucks' =>
      let room := truck_remaining_capacity !!! truck_id truck in
      if Qle_bool tps_demand room then
        (alter (fun r => r ++ [tps_node]) (truck_id truck) routes,
         <[truck_id truck := (room - tps_demand)%Q]> truck_remaining_capacity)
      else first_fit trucks' tps_node tps_demand routes truck_remaining_capacity
  end.

(** The second pass [for tps_node_id in remaining_tps]. *)
Definition leftover_pass (tps_dict : gmap string TPS) (trucks : list Truck)
    (routes : gmap string (list string)) (truck_remaining_capacity : gmap string Q)
    (leftover : list string) : gmap string (list string) * gmap string Q :=
  foldl (fun '(routes, caps) tps_node_id =>
           let tps := tps_dict !!! tps_node_id in
           first_fit trucks tps_node_id (demand tps) routes caps)
        (routes, truck_remaining_capacity) leftover.

(** [greedy_initial_solution] *)
Definition greedy_initial_solution (g : Graph) (tps_list : list TPS)
    (depot_id : string) (trucks : list Truck) : gmap string (list string) :=
  let '(routes, remaining_tps) := nearest_neighbour_pass g tps_list depot_id trucks in
  if decide (remaining_tps = ∅) then routes
  else
    fst (leftover_pass (make_tps_dict tps_list) trucks routes
           (make_capacities trucks) (set_iter remaining_tps)).

(** [format_routes_with_depot] *)
Definition format_routes_with_depot (routes : gmap string (list string))
    (depot_id : string) : gmap string (list string) :=
  (fun tps_nodes => [depot_id] ++ tps_nodes ++ [depot_id]) <$> routes.

(** ** vrp_solver.py *)

(** [astar] with the fallback to the direct connection. *)
Definition segment_path (g : Graph) (start_id end_id : string) : list string :=
  match astar g start_id end_id with
  | Some path => path
  | None => [start_id; end_id]
  end.

(** [VRPSolver.compute_full_paths] *)
Definition compute_full_paths (g : Graph) (routes : gmap string (list string))
    : gmap string (list (list string)) :=
  (fun route => (fun '(a, b) => segment_path g a b) <$> zip route (tail route))
    <$> routes.

(** The loop [for i, path in enumerate(paths)]. *)
Definition flatten_paths (paths : list (list string)) : list string :=
  foldl (fun full_path '(i, path) =>
           if (i =? 0)%nat then full_path ++ path else full_path ++ drop 1 path)
        [] (zip (seq 0 (length paths)) paths).

(** [VRPSolver.compute_full_paths_as_single_list] *)
Definition compute_full_paths_as_single_list (g : Graph)
    (routes : gmap string (list string)) : gmap string (list string) :=
  flatten_paths <$> compute_full_paths g routes.

Record metrics : Type := mkMetrics {
  total_distance : fnum;
  distances_per_truck : gmap string fnum;
  num_trucks : nat;
  num_stops : Z
}.

(** [VRPSolver.evaluate_routes] *)
Definition evaluate_routes (g : Graph) (full_paths : gmap string (list string)) : metrics :=
  let '(distances, total, stops) :=
    map_fold (fun tid path '(distances, total, stops) =>
                let distance := compute_path_distance g path in
                (<[tid := distance]> distances, fadd total distance,
                 (stops + (Z.of_nat (length path) - 2))%Z))
             (∅, Fin 0, 0%Z) full_paths in
  mkMetrics total distances (size full_paths) stops.

(** [VRPSolver.evaluate_routes_simple] *)
Definition evaluate_routes_simple (g : Graph) (depot_id : string)
    (routes : gmap string (list string)) : metrics :=
  let '(distances, total, stops) :=
    map_fold (fun tid route '(distances, total, stops) =>
                let distance := sum_hops g route in
                (<[tid := distance]> distances, fadd total distance,
                 (stops + Z.of_nat (length (filter (fun n => n ≠ depot_id) route)))%Z))
             (∅, Fin 0, 0%Z) routes in
  mkMetrics total distances (size routes) stops.

End Model.

Arguments sa_state : clear implicits.


(** ** graph.py: queries and the grid loader *)

(** [Graph.get_node]: [self.nodes.get(node_id)]. *)
Definition get_node (g : Graph) (nid : string) : option Node := nodes g !! nid.

Section GraphQueries.

(** [math.sqrt] *)
Variable fsqrt : Q -> Q.

(** The order in which [self.nodes.items()] yields the entries of the node
    dict. *)
Variable nodes_items : gmap string Node -> list (string * Node).

(** [Graph.get_all_nodes] *)
Definition get_all_nodes (g : Graph) : list Node := (nodes_items (nodes g)).*2.

(** [Graph.nearest_node_to_coord] *)
Definition nearest_node_to_coord (g : Graph) (x y : Q) : option string :=
  if decide (nodes g = ∅) then None
  else
    snd (foldl (fun '(min_distance, nearest_id) '(nid, node) =>
                  let dx := (node_x node - x)%Q in
                  let dy := (node_y node - y)%Q in
                  let distance := Fin (fsqrt (dx * dx + dy * dy)%Q) in
                  if flt distance min_distance then (distance, Some nid)
                  else (min_distance, nearest_id))
               (Inf, None) (nodes_items (nodes g))).

End GraphQueries.

(** A loop [for a in l] whose body may raise: the first exception ends it. *)
Fixpoint for_each {S A : Type} (body : S -> A -> result S) (s : S) (l : list A)
    : result S :=
  match l with
  | [] => Ok s
  | a :: l' =>
      match body s a with
      | Ok s' => for_each body s' l'
      | Raise e => Raise e
      end
  end.

(** [range(n)] *)
Definition range (n : Z) : list Z := Z.of_nat <$> seq 0 (Z.to_nat n).

(** [f"N{i}_{j}"] *)
Definition cell_id (i j : Z) : string :=
  "N" +:+ pretty i +:+ "_" +:+ pretty j.

(** The first pair of loops of [load_from_grid]: the nodes. *)
Definition grid_add_nodes (g : Graph) (width height : Z) (spacing : Q)
    (obstacles_set : gset (Z * Z)) : result Graph :=
  for_each (fun g i =>
    for_each (fun g j =>
      if decide ((i, j) ∉ obstacles_set) then
        let nid := cell_id i j in
        let x := (inject_Z j * spacing)%Q in
        let y := (inject_Z i * spacing)%Q in
        add_node g nid x y
      else Ok g) g (range width)) g (range height).

(** The second pair of loops of [load_from_grid]: the edges. *)
Definition grid_add_edges (g : Graph) (width height : Z) (spacing : Q)
    (obstacles_set : gset (Z * Z)) : result Graph :=
  for_each (fun g i =>
    for_each (fun g j =>
      if decide ((i, j) ∈ obstacles_set) then Ok g
      else
        let current_id := cell_id i j in
        let neighbors := [(i - 1, j); (i + 1, j); (i, j - 1); (i, j + 1)]%Z in
        for_each (fun g '(ni, nj) =>
          if ((0 <=? ni) && (ni <? height) && ((0 <=? nj) && (nj <? width)))%Z then
            if decide ((ni, nj) ∉ obstacles_set) then
              let neighbor_id := cell_id ni nj in
              let distance := spacing in
              add_edge g current_id neighbor_id distance
            else Ok g
          else Ok g) g neighbors) g (range width)) g (range height).

(** [Graph.load_from_grid]; [None] for [obstacles] is the default of the
    method. *)
Definition load_from_grid (g : Graph) (width height : Z) (spacing : Q)
    (obstacles : option (list (Z * Z))) : result Graph :=
  let obstacles := default [] obstacles in
  let obstacles_set : gset (Z * Z) := list_to_set obstacles in
  match grid_add_nodes g width height spacing obstacles_set with
  | Ok g1 => grid_add_edges g1 width height spacing obstacles_set
  | Raise e => Raise e
  end.

(** ** sa_optimizer.py: the helpers and the wrapper *)

Section Wrappers.

Variable fsqrt : Q -> Q.
Context {rng : Type}.
Variable random_random : rng -> Q * rng.
Variable randbelow : nat -> rng -> nat * rng.
Variable metropolis : Q -> fdiff -> Q -> result bool.
Variable set_iter : gset string -> list string.

(** The order in which [routes.values()] yields the routes of a solution. *)
Variable routes_values : gmap string (list string) -> list (list string).

(** [get_all_tps_from_routes] *)
Definition get_all_tps_from_routes (routes : gmap string (list string))
    (depot_id : string) : list string :=
  foldl (fun all_tps route =>
           foldl (fun all_tps node_id =>
                    if decide (node_id ≠ depot_id) then all_tps ++ [node_id] else all_tps)
                 all_tps route)
        [] (routes_values routes).

(** [create_route_from_tps_order] *)
Definition create_route_from_tps_order (tps_order : list string) (depot_id : string)
    : list string :=
  [depot_id] ++ tps_order ++ [depot_id].

(** [optimize_routes_sa]; the defaults of the keyword arguments are those of
    [simulated_annealing_optimize], which callers of the model pass
    explicitly. *)
Definition optimize_routes_sa (fuel : nat) (g : Graph)
    (routes : gmap string (list string)) (depot_id : string)
    (t0 cooling_rate : Q) (iter_per_temp : nat) (t_min : Q) (s : rng)
    : option (result (gmap string (list string))) :=
  simulated_annealing_optimize fsqrt random_random randbelow metropolis
    fuel g routes depot_id t0 cooling_rate iter_per_temp t_min s.

(** ** run.py: the routes computed by [main] *)

Record plan : Type := mkPlan {
  routes_initial_with_depot : gmap string (list string);
  routes_2opt : gmap string (list string);
  routes_sa : gmap string (list string)
}.

(** Steps 4 to 6 of [main], for the graph, the sites and the fleet that the
    earlier steps have set up: the greedy routes with the depot around them,
    their 2-opt optimisation with threshold [0.001] and at most [1000]
    iterations, and their annealing with [t0 = 100.0], cooling rate [0.995],
    [200] iterations per temperature and [t_min = 0.1]. *)
Definition main_routes (fuel : nat) (g : Graph) (tps_list : list TPS)
    (depot_id : string) (trucks : list Truck) (s : rng) : option (result plan) :=
  let routes_initial :=
    greedy_initial_solution fsqrt set_iter g tps_list depot_id trucks in
  let routes_initial_with_depot := format_routes_with_depot routes_initial depot_id in
  let routes_2opt :=
    optimize_routes_2opt fsqrt g routes_initial_with_depot (1 # 1000) 1000 in
  match optimize_routes_sa fuel g routes_initial_with_depot depot_id
          100 (995 # 1000) 200 (1 # 10) s with
  | Some (Ok routes_sa) =>
      Some (Ok (mkPlan routes_initial_with_depot routes_2opt routes_sa))
  | Some (Raise e) => Some (Raise e)
  | None => None
  end.

End Wrappers.
(** ** Vocabulary of the statements *)

(** A call of one of the two mutators of [Graph]. *)
Inductive graph_op : Type :=
  | AddNode (nid : string) (x y : Q)
  | AddEdge (id1 id2 : string) (distance : Q).

Definition apply_op (g : Graph) (o : graph_op) : result Graph :=
  match o with
  | AddNode nid x y => add_node g nid x y
  | AddEdge id1 id2 distance => add_edge g id1 id2 distance
  end.

(** The graph after a call; a call that raises leaves the graph as it was
    ([add_edge] raises before it writes anything). *)
Definition run_ok (g : Graph) (r : result Graph) : Graph :=
  match r with
  | Ok g' => g'
  | Raise _ => g
  end.

(** The graph after a sequence of calls. *)
Definition run_ops (g : Graph) (ops : list graph_op) : Graph :=
  foldl (fun g o => run_ok g (apply_op g o)) g ops.

(** Node [a] is registered and lists [b] as a neighbour with weight [w]. *)
Definition lists_neighbor (g : Graph) (a b : string) (w : Q) : Prop :=
  exists n, nodes g !! a = Some n /\ dict_get b (neighbors n) = Some w.

Definition adjacency_symmetric (g : Graph) : Prop :=
  forall a b w, lists_neighbor g a b w -> lists_neighbor g b a w.

(** Every [add_node] of the sequence is called with an id that is not
    registered at that moment. *)
Fixpoint fresh_adds (g : Graph) (ops : list graph_op) : Prop :=
  match ops with
  | [] => True
  | o :: ops' =>
      match o with
      | AddNode nid _ _ => nodes g !! nid = None
      | AddEdge _ _ _ => True
      end /\ fresh_adds (run_ok g (apply_op g o)) ops'
  end.

Definition raises {A : Type} (r : result A) : Prop :=
  match r with
  | Raise _ => True
  | Ok _ => False
  end.

(** Equality of float values. *)
Definition fequiv (a b : fnum) : Prop :=
  match a, b with
  | Fin p, Fin q => (p == q)%Q
  | Inf, Inf => True
  | _, _ => False
  end.

(** [math.sqrt] gives equal results on equal values. *)
Definition respects_Qeq (f : Q -> Q) : Prop :=
  forall p q, (p == q)%Q -> (f p == f q)%Q.

Definition registered (g : Graph) (a : string) : Prop := is_Some (nodes g !! a).

(** The straight-line distance as a rational ([0] when it is infinite). *)
Definition qdist (fsqrt : Q -> Q) (g : Graph) (a b : string) : Q :=
  match euclidean fsqrt g a b with
  | Fin q => q
  | Inf => 0%Q
  end.

(** The sum of the straight-line hops along a list of registered nodes. *)
Fixpoint qhops (fsqrt : Q -> Q) (g : Graph) (l : list string) : Q :=
  match l with
  | a :: (b :: _) as rest => (qdist fsqrt g a b + qhops fsqrt g rest)%Q
  | _ => 0%Q
  end.

(** The test of the inner loop of the 2-opt scan at positions [i], [j]. *)
Definition improving (fsqrt : Q -> Q) (g : Graph) (r : list string) (thr : Q)
    (i j : nat) : bool :=
  fdiff_gt
    (fsub (fadd (euclidean fsqrt g (r !!! (i - 1)) (r !!! i))
                (euclidean fsqrt g (r !!! j) (r !!! (j + 1))))
          (fadd (euclidean fsqrt g (r !!! (i - 1)) (r !!! j))
                (euclidean fsqrt g (r !!! i) (r !!! (j + 1)))))
    thr.

(** A depot-framed route: the depot first and last and nowhere else. *)
Definition framed_route (depot_id : string) (r : list string) : Prop :=
  exists stops, r = [depot_id] ++ stops ++ [depot_id] /\ depot_id ∉ stops.

(** A depot-framed solution. *)
Definition depot_framed (routes : gmap string (list string)) (depot_id : string) : Prop :=
  forall tid r, routes !! tid = Some r -> framed_route depot_id r.

(** The number of stops of a route: its entries other than the depot. *)
Definition stop_count (depot_id : string) (r : list string) : nat :=
  length (filter (fun n => n ≠ depot_id) r).

(** The index ranges of consecutive segments laid out from position [start]. *)
Fixpoint offsets (start : nat) (segs : list (list string)) : list (nat * nat) :=
  match segs with
  | [] => []
  | seg :: rest => (start, start + length seg) :: offsets (start + length seg) rest
  end.

(** [_randbelow(n)] answers below [n]. *)
Definition randbelow_in_range {rng : Type} (randbelow : nat -> rng -> nat * rng) : Prop :=
  forall n s, 0 < n -> fst (randbelow n s) < n.

(** Every entry of a list of costs is at most the entry after it (the list
    is read latest first: every check is at most the check before it). *)
Fixpoint each_at_most_next (history : list fnum) : Prop :=
  match history with
  | a :: (b :: _) as rest => fle a b /\ each_at_most_next rest
  | _ => True
  end.

(** The acceptance test does not raise for a positive temperature and a
    cost difference that is not negative. *)
Definition metropolis_defined (metropolis : Q -> fdiff -> Q -> result bool) : Prop :=
  forall u delta temperature,
    (0 < temperature)%Q -> fdiff_neg delta = false ->
    exists b, metropolis u delta temperature = Ok b.

(** What every state of an annealing run satisfies; [c0] is the cost of the
    input solution. *)
Definition sa_inv (fsqrt : Q -> Q) {rng : Type} (g : Graph) (c0 : fnum)
    (st : sa_state rng) : Prop :=
  best_cost st = calculate_total_distance fsqrt g (best_routes st) /\
  head (best_history st) = Some (best_cost st) /\
  last (best_history st) = Some c0 /\
  each_at_most_next (best_history st).

(** The enumeration of a set lists exactly its elements, each once. *)
Definition enumerates (set_iter : gset string -> list string) : Prop :=
  forall s, set_iter s ≡ₚ elements s.

(** The demand carried by a route. *)
Definition route_load (tps_dict : gmap string TPS) (route : list string) : Q :=
  foldr (fun n acc => (demand (tps_dict !!! n) + acc)%Q) 0%Q route.

Definition total_demand (tps_list : list TPS) : Q :=
  foldr (fun tps acc => (demand tps + acc)%Q) 0%Q tps_list.

Definition total_capacity (trucks : list Truck) : Q :=
  foldr (fun truck acc => (capacity truck + acc)%Q) 0%Q trucks.

(** Site [n] is on the route of vehicle [tid]. *)
Definition on_route (routes : gmap string (list string)) (tid n : string) : Prop :=
  exists r, routes !! tid = Some r /\ n ∈ r.

(** No site occupies two positions of the solution. *)
Definition at_most_once (routes : gmap string (list string)) : Prop :=
  forall tid1 tid2 r1 r2 i j n,
    routes !! tid1 = Some r1 -> routes !! tid2 = Some r2 ->
    r1 !! i = Some n -> r2 !! j = Some n -> tid1 = tid2 /\ i = j.

(** Every site is on exactly one route and no vehicle is loaded beyond its
    capacity. *)
Definition all_assigned_within_capacity (tps_list : list TPS) (trucks : list Truck)
    (routes : gmap string (list string)) : Prop :=
  (forall tps, tps ∈ tps_list ->
     exists tid, on_route routes tid (tps_node_id tps) /\
       forall tid', on_route routes tid' (tps_node_id tps) -> tid' = tid) /\
  (forall truck, truck ∈ trucks ->
     exists r, routes !! truck_id truck = Some r /\
       (route_load (make_tps_dict tps_list) r <= capacity truck)%Q).

(** The invariant of the nearest-neighbour pass: [sites] are the site nodes,
    [todo] the vehicles not yet served. *)
Definition pass_inv (d : gmap string TPS) (sites : gset string)
    (trucks todo : list Truck)
    (routes : gmap string (list string)) (remaining : gset string) : Prop :=
  at_most_once routes /\
  remaining ⊆ sites /\
  (forall tid r n, routes !! tid = Some r -> n ∈ r -> (n ∉ remaining) /\ (n ∈ sites)) /\
  (forall n, n ∈ sites -> n ∈ remaining \/ exists tid, on_route routes tid n) /\
  (forall t, t ∈ trucks ->
     exists r, routes !! truck_id t = Some r /\ (route_load d r <= capacity t)%Q) /\
  (forall t, t ∈ todo -> routes !! truck_id t = Some []).

(** *** Paths *)

(** A walk in the graph from [a] to [b]: the list of its steps, each the
    node reached and the weight of the edge taken. *)
Fixpoint walk (g : Graph) (a : string) (steps : list (string * Q)) (b : string) : Prop :=
  match steps with
  | [] => a = b
  | (v, w) :: rest => (v, w) ∈ get_neighbors g a /\ walk g v rest b
  end.

Definition walk_cost (steps : list (string * Q)) : Q :=
  foldr (fun '(_, w) acc => (w + acc)%Q) 0%Q steps.

(** The sum of the weights of the edges traversed by a list of nodes;
    [None] when two consecutive nodes are not linked. *)
Fixpoint path_weight (g : Graph) (path : list string) : option Q :=
  match path with
  | a :: (b :: _) as rest =>
      match dict_get b (get_neighbors g a), path_weight g rest with
      | Some w, Some c => Some (w + c)%Q
      | _, _ => None
      end
  | _ => Some 0%Q
  end.

(** Every neighbour dict has pairwise distinct keys. *)
Definition dicts_wf (g : Graph) : Prop :=
  forall n nd, nodes g !! n = Some nd -> NoDup (neighbors nd).*1.

(** The straight-line distance to [goal] never drops along an edge by more
    than the weight of the edge. *)
Definition consistent (fsqrt : Q -> Q) (g : Graph) (goal : string) : Prop :=
  forall u v w, (v, w) ∈ get_neighbors g u ->
    fle (euclidean fsqrt g u goal) (fadd (Fin w) (euclidean fsqrt g v goal)).

(** The chain of [came_from] links from [start] to a node, start first. *)
Inductive chain (cf : gmap string string) (start : string) : string -> list string -> Prop :=
  | chain_root : chain cf start start [start]
  | chain_step n m p :
      cf !! n = Some m -> chain cf start m p -> chain cf start n (p ++ [n]).

(** *** The invariants of the A-star loop *)

(** The bookkeeping of the search: roots, links and closing order. *)
Record astar_struct (g : Graph) (start : string) (st : astar_state) : Prop := {
  as_start_closed : start ∈ closed_set st;
  as_start_root : came_from st !! start = None;
  as_start_score : g_score st !! start = Some 0%Q;
  as_link : forall n m, came_from st !! n = Some m ->
    m ∈ closed_set st /\
    exists gm w, (n, w) ∈ get_neighbors g m /\
      g_score st !! m = Some gm /\ g_score st !! n = Some (gm + w)%Q;
  as_closed_known : forall n, n ∈ closed_set st ->
    is_Some (g_score st !! n) /\ (n = start \/ is_Some (came_from st !! n));
  as_open_known : forall f c n, (f, c, n) ∈ open_set st ->
    is_Some (g_score st !! n) /\ (n = start \/ is_Some (came_from st !! n));
  as_order : exists cl,
    NoDup cl /\ (forall n, n ∈ cl <-> n ∈ closed_set st) /\ last cl = Some start /\
    forall pre n post, cl = pre ++ n :: post ->
      n = start \/ exists m, came_from st !! n = Some m /\ m ∈ post
}.

(** The scores and the heap; [cur] is the node being expanded and [todo] the
    neighbour entries of [cur] not yet looked at. *)
Record astar_scores (fsqrt : Q -> Q) (g : Graph) (start goal : string)
    (cur : string) (todo : list (string * Q)) (st : astar_state) : Prop := {
  ao_entry_bound : forall f c n gn,
    (f, c, n) ∈ open_set st -> n ∉ closed_set st -> g_score st !! n = Some gn ->
    fle (fadd (Fin gn) (euclidean fsqrt g n goal)) f;
  ao_entry_exact : forall n gn,
    n ∉ closed_set st -> g_score st !! n = Some gn ->
    exists c, (fadd (Fin gn) (euclidean fsqrt g n goal), c, n) ∈ open_set st;
  ao_relaxed : forall u v w,
    u ∈ closed_set st -> (v, w) ∈ get_neighbors g u ->
    (u = cur /\ (v, w) ∈ todo) \/ v ∈ closed_set st \/
    exists gu gv, g_score st !! u = Some gu /\ g_score st !! v = Some gv /\
                  (gv <= gu + w)%Q;
  ao_optimal : forall u gu steps,
    u ∈ closed_set st -> registered g u -> g_score st !! u = Some gu ->
    walk g start steps u -> (gu <= walk_cost steps)%Q
}.

(** The number of neighbour entries of the nodes that are not closed. *)
Definition pending_degree (g : Graph) (closed : gset string) : nat :=
  map_fold (fun k n acc => if decide (k ∈ closed) then acc else length (neighbors n) + acc)
           O (nodes g).

(** The quantity that every round of the loop lowers. *)
Definition astar_measure (g : Graph) (st : astar_state) : nat :=
  length (open_set st) + pending_degree g (closed_set st).

(** The state after [closed_set.add(current_id)] with the popped heap. *)
Definition close_node (st : astar_state) (rest : list entry) (cur : string) : astar_state :=
  mkAstar rest (counter st) (g_score st) (f_score st) (came_from st)
          ({[ cur ]} ∪ closed_set st).

(** One round of the loop that does not return. *)
Inductive astar_step (fsqrt : Q -> Q) (g : Graph) (goal : string)
    : astar_state -> astar_state -> Prop :=
  | step_stale st f c cur rest :
      heappop (open_set st) = Some ((f, c, cur), rest) ->
      cur ∈ closed_set st ->
      astar_step fsqrt g goal st
        (mkAstar rest (counter st) (g_score st) (f_score st) (came_from st)
                 (closed_set st))
  | step_expand st f c cur rest :
      heappop (open_set st) = Some ((f, c, cur), rest) ->
      cur ∉ closed_set st -> cur ≠ goal ->
      astar_step fsqrt g goal st
        (foldl (relax fsqrt g goal cur) (close_node st rest cur) (get_neighbors g cur)).

(** The state after the first round. *)
Definition after_start (fsqrt : Q -> Q) (g : Graph) (start goal : string) : astar_state :=
  foldl (relax fsqrt g goal start) (close_node (astar_init fsqrt g start goal) [] start)
        (get_neighbors g start).

(** *** Full paths *)

(** Segments joined at their junctions: the first segment whole, every later
    one without its first node. *)
Definition join_segments (segs : list (list string)) : list string :=
  match segs with
  | [] => []
  | first :: later => first ++ concat (drop 1 <$> later)
  end.

(** The segments of a route, one per pair of consecutive stops. *)
Definition route_segments (fsqrt : Q -> Q) (g : Graph) (route : list string)
    : list (list string) :=
  (fun '(a, b) => segment_path fsqrt g a b) <$> zip route (tail route).

(** A decision procedure for [consistent] on a given graph. *)
Definition consistent_check (fsqrt : Q -> Q) (g : Graph) (goal : string) : bool :=
  forallb (fun '(u, nd) =>
             forallb (fun '(v, w) =>
                        negb (flt (fadd (Fin w) (euclidean fsqrt g v goal))
                                  (euclidean fsqrt g u goal)))
                     (neighbors nd))
          (map_to_list (nodes g)).


(** *** Reachability bookkeeping of the A-star loop *)

(** What the loop keeps whatever the heuristic is: a node that has a score
    and is not closed has an entry in the heap, and every neighbour entry of
    a closed node has been looked at ([cur] is the node being expanded and
    [todo] the neighbour entries of [cur] not yet looked at). *)
Record astar_reach (g : Graph) (cur : string) (todo : list (string * Q))
    (st : astar_state) : Prop := {
  ar_entry : forall n,
    n ∉ closed_set st -> is_Some (g_score st !! n) ->
    exists f c, (f, c, n) ∈ open_set st;
  ar_relaxed : forall u v w,
    u ∈ closed_set st -> (v, w) ∈ get_neighbors g u ->
    (u = cur /\ (v, w) ∈ todo) \/ v ∈ closed_set st \/ is_Some (g_score st !! v)
}.

(** *** The edge set *)

(** The edge set holds exactly the linked pairs, each once, smaller id
    first. *)
Definition edges_match_links (g : Graph) : Prop :=
  forall a b, (a, b) ∈ edges g <->
    String.leb a b = true /\ exists w, lists_neighbor g a b w.

(** *** Grid graphs and node queries *)

(** The enumeration of the node dict lists exactly its entries, each once. *)
Definition items_enumerate (nodes_items : gmap string Node -> list (string * Node)) : Prop :=
  forall m, nodes_items m ≡ₚ map_to_list m.

(** The distance from a node to the point [(x, y)]. *)
Definition coord_distance (fsqrt : Q -> Q) (n : Node) (x y : Q) : Q :=
  fsqrt ((node_x n - x) * (node_x n - x) + (node_y n - y) * (node_y n - y))%Q.

(** The cell [(i, j)] of a [height] by [width] grid is not blocked. *)
Definition free_cell (width height : Z) (obstacles : list (Z * Z)) (i j : Z) : Prop :=
  (0 <= i < height)%Z /\ (0 <= j < width)%Z /\ (i, j) ∉ obstacles.

(** Two cells share a side. *)
Definition adjacent_cells (i j i' j' : Z) : Prop :=
  (i' = i /\ (j' = j - 1 \/ j' = j + 1))%Z \/ (j' = j /\ (i' = i - 1 \/ i' = i + 1))%Z.

(** The calls of [add_node] made by [load_from_grid], in order. *)
Definition grid_node_ops (width height : Z) (spacing : Q)
    (obstacles_set : gset (Z * Z)) : list graph_op :=
  range height ≫= fun i =>
  range width ≫= fun j =>
  if decide ((i, j) ∉ obstacles_set) then
    [AddNode (cell_id i j) (inject_Z j * spacing)%Q (inject_Z i * spacing)%Q]
  else [].

(** The calls of [add_edge] made for the cell [(i, j)], in order. *)
Definition cell_edge_ops (width height : Z) (spacing : Q)
    (obstacles_set : gset (Z * Z)) (i j : Z) : list graph_op :=
  [(i - 1, j); (i + 1, j); (i, j - 1); (i, j + 1)]%Z ≫= fun '(ni, nj) =>
  if ((0 <=? ni) && (ni <? height) && ((0 <=? nj) && (nj <? width)))%Z then
    if decide ((ni, nj) ∉ obstacles_set) then
      [AddEdge (cell_id i j) (cell_id ni nj) spacing]
    else []
  else [].

(** The calls of [add_edge] made by [load_from_grid], in order. *)
Definition grid_edge_ops (width height : Z) (spacing : Q)
    (obstacles_set : gset (Z * Z)) : list graph_op :=
  range height ≫= fun i =>
  range width ≫= fun j =>
  if decide ((i, j) ∈ obstacles_set) then []
  else cell_edge_ops width height spacing obstacles_set i j.

(** The character ["_"] does not occur in a string. *)
Fixpoint no_separator (s : string) : Prop :=
  match s with
  | EmptyString => True
  | String c s' => String c EmptyString ≠ "_" /\ no_separator s'
  end.

(** *** Greedy routes *)

(** Every entry of every route is one of the nodes [sites]. *)
Definition stops_in (sites : gset string) (routes : gmap string (list string)) : Prop :=
  forall tid r n, routes !! tid = Some r -> n ∈ r -> n ∈ sites.

(** The invariant of the leftover pass: the load of every vehicle plus what
    is left of its entry in the capacity table is at most twice its
    capacity. *)
Definition leftover_inv (d : gmap string TPS) (trucks : list Truck)
    (routes : gmap string (list string)) (caps : gmap string Q) : Prop :=
  forall t, t ∈ trucks ->
    exists r c, routes !! truck_id t = Some r /\ caps !! truck_id t = Some c /\
      (0 <= c)%Q /\ (route_load d r + c <= 2 * capacity t)%Q.

(** Every route of [routes] is the beginning of the route of the same
    vehicle in [routes']. *)
Definition appends_only (routes routes' : gmap string (list string)) : Prop :=
  forall k r0, routes !! k = Some r0 -> exists ext, routes' !! k = Some (r0 ++ ext).

(** The enumeration of the values of a solution lists exactly its routes. *)
Definition values_enumerate
    (routes_values : gmap string (list string) -> list (list string)) : Prop :=
  forall m, routes_values m ≡ₚ (map_to_list m).*2.

(** The least positive normal double, [2 ** -1022]. *)
Definition min_normal : Q := 1 # 2 ^ 1022.

(** * The numerical kernels on IEEE binary64

    In the definitions above a Python [float] is a rational and every sum and
    difference is exact.  That settles what does not depend on rounding (the
    shape of routes and paths, which loops end, what is raised).  The routes
    that [two_opt_single_route] and [greedy_initial_solution] return do
    depend on it: they branch on rounded differences.  This module embeds
    [Graph.euclidean], [calculate_route_distance], [two_opt_single_route] and
    [greedy_initial_solution] once more, on the binary64 numbers of the
    kernel: [+], [-], [*] and [sqrt] round to nearest even as CPython's do,
    an overflow gives [infinity], and every comparison with [nan] is
    false. *)

Module F64.
Import Floats.
#[local] Open Scope float_scope.

#[global] Instance float_inhabited : Inhabited float := populate 0.

(** ** graph.py *)

Record Node : Type := mkNode {
  node_id : string;
  node_x : float;
  node_y : float;
  neighbors : list (string * float)   (* {neighbor_id: distance}, insertion order *)
}.

Record Graph : Type := mkGraph {
  nodes : gmap string Node;
  edges : gset (string * string)
}.

(** [Graph()] *)
Definition empty_graph : Graph := mkGraph ∅ ∅.

(** [Graph.add_node]; it never raises. *)
Definition add_node (g : Graph) (nid : string) (x y : float) : Graph :=
  mkGraph (<[nid := mkNode nid x y []]> (nodes g)) (edges g).

(** [Graph.euclidean] *)
Definition euclidean (g : Graph) (id1 id2 : string) : float :=
  match nodes g !! id1, nodes g !! id2 with
  | Some node1, Some node2 =>
      let dx := node_x node1 - node_x node2 in
      let dy := node_y node1 - node_y node2 in
      sqrt (dx * dx + dy * dy)
  | _, _ => infinity
  end.

(** [d[k] = v] on an insertion-ordered dict: an existing key keeps its
    position, a new key goes last. *)
Fixpoint dict_set (k : string) (v : float) (d : list (string * float))
    : list (string * float) :=
  match d with
  | [] => [(k, v)]
  | (k', v') :: d' =>
      if decide (k = k') then (k, v) :: d' else (k', v') :: dict_set k v d'
  end.

Definition set_neighbor (k : string) (v : float) (n : Node) : Node :=
  mkNode (node_id n) (node_x n) (node_y n) (dict_set k v (neighbors n)).

(** [Graph.add_edge] *)
Definition add_edge (g : Graph) (id1 id2 : string) (distance : float) : result Graph :=
  match nodes g !! id1, nodes g !! id2 with
  | Some _, Some _ =>
      let ns1 := alter (set_neighbor id2 distance) id1 (nodes g) in
      let ns2 := alter (set_neighbor id1 distance) id2 ns1 in
      Ok (mkGraph ns2 ({[ sorted_pair id1 id2 ]} ∪ edges g))
  | _, _ => Raise (ValueError "Node tidak ditemukan")
  end.

(** [Graph.get_neighbors] *)
Definition get_neighbors (g : Graph) (nid : string) : list (string * float) :=
  match nodes g !! nid with
  | None => []
  | Some n => neighbors n
  end.

(** ** astar.py *)

(** A heap entry [(f_score, counter, node_id)]. *)
Definition entry : Type := float * nat * string.

(** Python's tuple comparison [e1 < e2]: the first components that are not
    [==] decide. *)
Definition entry_lt (e1 e2 : entry) : bool :=
  let '(f1, c1, n1) := e1 in
  let '(f2, c2, n2) := e2 in
  if f1 =? f2 then (c1 <? c2)%nat || ((c1 =? c2)%nat && String.ltb n1 n2)
  else f1 <? f2.

(** The least entry of [e :: t] and the remaining entries. *)
Fixpoint extract_min (e : entry) (t : list entry) : entry * list entry :=
  match t with
  | [] => (e, [])
  | c :: t' =>
      let '(m, r) := extract_min c t' in
      if entry_lt m e then (m, e :: r) else (e, c :: t')
  end.

(** [heapq.heappop]: the heap is kept as a bag of entries; popping removes the
    least one.  The counters of the entries are pairwise distinct, so as long
    as no f-score is [nan] the least entry is unique and the order inside
    the bag is immaterial. *)
Definition heappop (h : list entry) : option (entry * list entry) :=
  match h with
  | [] => None
  | e :: t => Some (extract_min e t)
  end.

(** [heapq.heappush] *)
Definition heappush (h : list entry) (e : entry) : list entry := e :: h.

Record astar_state : Type := mkAstar {
  open_set : list entry;
  counter : nat;
  g_score : gmap string float;
  f_score : gmap string float;
  came_from : gmap string string;
  closed_set : gset string
}.

(** One round of [for neighbor_id, distance in neighbors.items()]. *)
Definition relax (g : Graph) (goal_id current_id : string)
    (st : astar_state) (nb : string * float) : astar_state :=
  let '(neighbor_id, distance) := nb in
  if decide (neighbor_id ∈ closed_set st) then st
  else
    let tentative_g := (g_score st !!! current_id) + distance in
    let better :=
      match g_score st !! neighbor_id with
      | None => true
      | Some old => tentative_g <? old
      end in
    if better then
      let f := tentative_g + euclidean g neighbor_id goal_id in
      mkAstar (heappush (open_set st) (f, counter st, neighbor_id))
              (S (counter st))
              (<[neighbor_id := tentative_g]> (g_score st))
              (<[neighbor_id := f]> (f_score st))
              (<[neighbor_id := current_id]> (came_from st))
              (closed_set st)
    else st.

(** The [while open_set] loop.  The outer [None] means that [fuel] rounds
    were not enough (or that [reconstruct_path] does not return); the inner
    option is the Python return value. *)
Fixpoint astar_loop (fuel : nat) (g : Graph) (goal_id : string)
    (st : astar_state) : option (option (list string)) :=
  match fuel with
  | O => None
  | S fuel' =>
      match heappop (open_set st) with
      | None => Some None
      | Some ((_, _, current_id), rest) =>
          if decide (current_id ∈ closed_set st) then
            astar_loop fuel' g goal_id
              (mkAstar rest (counter st) (g_score st) (f_score st)
                       (came_from st) (closed_set st))
          else
            let st1 := mkAstar rest (counter st) (g_score st) (f_score st)
                         (came_from st) ({[ current_id ]} ∪ closed_set st) in
            if decide (current_id = goal_id) then
              Some <$> reconstruct_path (came_from st1) current_id
            else
              astar_loop fuel' g goal_id
                (foldl (relax g goal_id current_id) st1
                       (get_neighbors g current_id))
      end
  end.

(** The state before the loop. *)
Definition astar_init (g : Graph) (start_id goal_id : string) : astar_state :=
  mkAstar [(0, O, start_id)] 1
          {[ start_id := 0 ]}
          {[ start_id := euclidean g start_id goal_id ]}
          ∅ ∅.

(** [astar] with [fuel] rounds of the loop; the outer [None] means that the
    rounds were not enough. *)
Definition astar (fuel : nat) (g : Graph) (start_id goal_id : string)
    : option (option (list string)) :=
  match nodes g !! start_id, nodes g !! goal_id with
  | Some _, Some _ =>
      if decide (start_id = goal_id) then Some (Some [start_id])
      else astar_loop fuel g goal_id (astar_init g start_id goal_id)
  | _, _ => Some None
  end.

(** ** two_opt.py *)

(** [calculate_route_distance] *)
Definition calculate_route_distance (g : Graph) (route : list string) : float :=
  if (length route <? 2)%nat then 0
  else foldl (fun total_distance '(a, b) => total_distance + euclidean g a b) 0
             (zip route (tail route)).

(** The inner loop [for j in range(i + 1, len(best_route) - 1)]: the route
    after the first improving reversal, [None] when the loop ends without
    one. *)
Fixpoint scan_j (g : Graph) (best_route : list string) (improvement_threshold : float)
    (i : nat) (js : list nat) : option (list string) :=
  match js with
  | [] => None
  | j :: js' =>
      let current_dist :=
        euclidean g (best_route !!! (i - 1)%nat) (best_route !!! i) +
        euclidean g (best_route !!! j) (best_route !!! (j + 1)%nat) in
      let new_dist :=
        euclidean g (best_route !!! (i - 1)%nat) (best_route !!! j) +
        euclidean g (best_route !!! i) (best_route !!! (j + 1)%nat) in
      if improvement_threshold <? current_dist - new_dist
      then Some (reverse_segment best_route i j)
      else scan_j g best_route improvement_threshold i js'
  end.

(** The outer loop [for i in range(1, len(best_route) - 2)]. *)
Fixpoint scan_i (g : Graph) (best_route : list string) (improvement_threshold : float)
    (rows : list nat) : option (list string) :=
  match rows with
  | [] => None
  | i :: rows' =>
      match scan_j g best_route improvement_threshold i
              (seq (i + 1) (length best_route - 1 - (i + 1))) with
      | Some r => Some r
      | None => scan_i g best_route improvement_threshold rows'
      end
  end.

(** One full scan: one round of the [while] loop. *)
Definition two_opt_scan (g : Graph) (best_route : list string)
    (improvement_threshold : float) : option (list string) :=
  scan_i g best_route improvement_threshold (seq 1 (length best_route - 2 - 1)).

(** The loop [while improved and iteration < max_iterations]; [rounds] is
    [max_iterations - iteration].  The result carries the final value of
    [improved]. *)
Fixpoint two_opt_loop (g : Graph) (improvement_threshold : float) (rounds : nat)
    (best_route : list string) : list string * bool :=
  match rounds with
  | O => (best_route, true)
  | S rounds' =>
      match two_opt_scan g best_route improvement_threshold with
      | Some r => two_opt_loop g improvement_threshold rounds' r
      | None => (best_route, false)
      end
  end.

(** [two_opt_single_route] *)
Definition two_opt_single_route (g : Graph) (route : list string)
    (improvement_threshold : float) (max_iterations : nat) : list string :=
  fst (two_opt_loop g improvement_threshold max_iterations route).

(** ** greedy_init.py *)

Record TPS : Type := mkTPS {
  tps_id : string;
  tps_node_id : string;
  demand : float
}.

Record Truck : Type := mkTruck {
  truck_id : string;
  capacity : float
}.

#[global] Instance TPS_inhabited : Inhabited TPS := populate (mkTPS "" "" 0).

(** [{truck.id: [] for truck in trucks}] *)
Definition empty_routes (trucks : list Truck) : gmap string (list string) :=
  foldl (fun routes truck => <[truck_id truck := []]> routes) ∅ trucks.

(** [{tps.node_id: tps for tps in tps_list}] *)
Definition make_tps_dict (tps_list : list TPS) : gmap string TPS :=
  foldl (fun d tps => <[tps_node_id tps := tps]> d) ∅ tps_list.

(** [{truck.id: truck.capacity for truck in trucks}] *)
Definition make_capacities (trucks : list Truck) : gmap string float :=
  foldl (fun d truck => <[truck_id truck := capacity truck]> d) ∅ trucks.

Section Greedy.

(** The order in which [for x in s] enumerates a Python set. *)
Variable set_iter : gset string -> list string.

(** The loop [for tps_node_id in remaining_tps] that looks for the nearest
    site that still fits: the final [(best_tps_node, best_distance)]. *)
Definition nearest_feasible (g : Graph) (tps_dict : gmap string TPS)
    (current_location : string) (current_capacity : float) (candidates : list string)
    : option string * float :=
  foldl (fun '(best_tps_node, best_distance) tps_node_id =>
           let tps := tps_dict !!! tps_node_id in
           if current_capacity <? demand tps then (best_tps_node, best_distance)
           else
             let distance := euclidean g current_location tps_node_id in
             if distance <? best_distance then (Some tps_node_id, distance)
             else (best_tps_node, best_distance))
        (None, infinity) candidates.

(** The loop [while remaining_tps] for one truck.  Every round removes one
    element of [remaining_tps], so [size remaining_tps] rounds are enough. *)
Fixpoint fill_truck (fuel : nat) (g : Graph) (tps_dict : gmap string TPS)
    (tid : string) (routes : gmap string (list string)) (remaining_tps : gset string)
    (current_location : string) (current_capacity : float)
    : gmap string (list string) * gset string :=
  match fuel with
  | O => (routes, remaining_tps)
  | S fuel' =>
      if decide (remaining_tps = ∅) then (routes, remaining_tps)
      else
        match fst (nearest_feasible g tps_dict current_location current_capacity
                     (set_iter remaining_tps)) with
        | None => (routes, remaining_tps)
        | Some best_tps_node =>
            let tps_obj := tps_dict !!! best_tps_node in
            fill_truck fuel' g tps_dict tid
              (alter (fun r => r ++ [best_tps_node]) tid routes)
              (remaining_tps ∖ {[ best_tps_node ]})
              best_tps_node
              (current_capacity - demand tps_obj)
        end
  end.

(** The first loop [for truck in trucks]: the routes and the sites left. *)
Definition nearest_neighbour_pass (g : Graph) (tps_list : list TPS)
    (depot_id : string) (trucks : list Truck)
    : gmap string (list string) * gset string :=
  let tps_dict := make_tps_dict tps_list in
  let truck_remaining_capacity := make_capacities trucks in
  foldl (fun '(routes, remaining_tps) truck =>
           fill_truck (size remaining_tps) g tps_dict (truck_id truck)
             routes remaining_tps depot_id
             (truck_remaining_capacity !!! truck_id truck))
        (empty_routes trucks, list_to_set (tps_node_id <$> tps_list)) trucks.

(** The loop [for truck in trucks] of the second pass, for one site: the
    first truck whose entry of [truck_remaining_capacity] is large enough
    takes the site. *)
Fixpoint first_fit (trucks : list Truck) (tps_node : string) (tps_demand : float)
    (routes : gmap string (list string)) (truck_remaining_capacity : gmap string float)
    : gmap string (list string) * gmap string float :=
  match trucks with
  | [] => (routes, truck_remaining_capacity)
  | truck :: trucks' =>
      let room := truck_remaining_capacity !!! truck_id truck in
      if tps_demand <=? room then
        (alter (fun r => r ++ [tps_node]) (truck_id truck) routes,
         <[truck_id truck := room - tps_demand]> truck_remaining_capacity)
      else first_fit trucks' tps_node tps_demand routes truck_remaining_capacity
  end.

(** The second pass [for tps_node_id in remaining_tps]. *)
Definition leftover_pass (tps_dict : gmap string TPS) (trucks : list Truck)
    (routes : gmap string (list string)) (truck_remaining_capacity : gmap string float)
    (leftover : list string) : gmap string (list string) * gmap string float :=
  foldl (fun '(routes, caps) tps_node_id =>
           let tps := tps_dict !!! tps_node_id in
           first_fit trucks tps_node_id (demand tps) routes caps)
        (routes, truck_remaining_capacity) leftover.

(** [greedy_initial_solution] *)
Definition greedy_initial_solution (g : Graph) (tps_list : list TPS)
    (depot_id : string) (trucks : list Truck) : gmap string (list string) :=
  let '(routes, remaining_tps) := nearest_neighbour_pass g tps_list depot_id trucks in
  if decide (remaining_tps = ∅) then routes
  else
    fst (leftover_pass (make_tps_dict tps_list) trucks routes
           (make_capacities trucks) (set_iter remaining_tps)).

End Greedy.

(** ** Vocabulary of the statements *)

(** The test of the inner loop of the 2-opt scan at positions [i], [j]: the
    rounded difference of the two rounded sums exceeds the threshold. *)
Definition improving (g : Graph) (r : list string) (thr : float) (i j : nat) : bool :=
  thr <? (euclidean g (r !!! (i - 1)%nat) (r !!! i) +
          euclidean g (r !!! j) (r !!! (j + 1)%nat)) -
         (euclidean g (r !!! (i - 1)%nat) (r !!! j) +
          euclidean g (r !!! i) (r !!! (j + 1)%nat)).

(** Positions [i], [j] that the two loops of a scan visit on a route of
    length [n]. *)
Definition scanned (n i j : nat) : Prop := 1 <= i /\ i < j /\ j + 1 < n.

(** One reversal that the scan accepts. *)
Inductive two_opt_move (g : Graph) (thr : float) : list string -> list string -> Prop :=
  | move_reverse r i j :
      scanned (length r) i j -> improving g r thr i j = true ->
      two_opt_move g thr r (reverse_segment r i j).

(** A route on which the scan accepts no reversal. *)
Definition two_opt_settled (g : Graph) (thr : float) (r : list string) : Prop :=
  forall i j, scanned (length r) i j -> improving g r thr i j = false.

(** The demands of the sites of a route, in the order of the route. *)
Definition route_demands (tps_dict : gmap string TPS) (route : list string) : list float :=
  (fun n => demand (tps_dict !!! n)) <$> route.

(** The capacity test of the nearest-neighbour loop along a list of demands:
    no demand is above what the demands before it have left of [room], the
    remainder being computed as the loop computes it, one rounded
    subtraction after the other. *)
Fixpoint admitted (room : float) (demands : list float) : Prop :=
  match demands with
  | [] => True
  | d :: ds => (room <? d) = false /\ admitted (room - d) ds
  end.

(** What the nearest-neighbour pass keeps: no site twice, the sites on the
    routes are the sites no longer remaining, and the route of every vehicle
    passed the capacity test stop by stop; [todo] are the vehicles not yet
    served. *)
Definition pass_inv (d : gmap string TPS) (sites : gset string)
    (trucks todo : list Truck)
    (routes : gmap string (list string)) (remaining : gset string) : Prop :=
  at_most_once routes /\
  remaining ⊆ sites /\
  (forall tid r n, routes !! tid = Some r -> n ∈ r -> (n ∉ remaining) /\ (n ∈ sites)) /\
  (forall n, n ∈ sites -> n ∈ remaining \/ exists tid, on_route routes tid n) /\
  (forall t, t ∈ trucks ->
     exists r, routes !! truck_id t = Some r /\
       admitted (capacity t) (route_demands d r)) /\
  (forall t, t ∈ todo -> routes !! truck_id t = Some []).

(** The load of a route as a left-to-right sum of doubles. *)
Definition route_load (tps_dict : gmap string TPS) (route : list string) : float :=
  foldl (fun acc n => acc + demand (tps_dict !!! n)) 0 route.

Definition total_demand (tps_list : list TPS) : float :=
  foldl (fun acc tps => acc + demand tps) 0 tps_list.

Definition total_capacity (trucks : list Truck) : float :=
  foldl (fun acc truck => acc + capacity truck) 0 trucks.

(** Every site is on exactly one route and no vehicle is loaded beyond its
    capacity. *)
Definition all_assigned_within_capacity (tps_list : list TPS) (trucks : list Truck)
    (routes : gmap string (list string)) : Prop :=
  (forall tps, tps ∈ tps_list ->
     exists tid, on_route routes tid (tps_node_id tps) /\
       forall tid', on_route routes tid' (tps_node_id tps) -> tid' = tid) /\
  (forall truck, truck ∈ trucks ->
     exists r, routes !! truck_id truck = Some r /\
       (route_load (make_tps_dict tps_list) r <=? capacity truck) = true).

(** The exact value of a double ([0] for an infinity and for [nan]). *)
Definition exact (x : float) : Q :=
  match Prim2SF x with
  | S754_finite s m e =>
      ((if s then -1 else 1) * inject_Z (Z.pos m) * Qpower 2 e)%Q
  | _ => 0%Q
  end.

(** The straight-line distance to [goal] never drops along an edge by more
    than the weight of the edge, in exact arithmetic on the doubles that the
    code has. *)
Definition consistent_check (g : Graph) (goal : string) : bool :=
  forallb (fun '(u, nd) =>
             forallb (fun '(v, w) =>
                        Qle_bool (exact (euclidean g u goal))
                                 (exact w + exact (euclidean g v goal)))
                     (neighbors nd))
          (map_to_list (nodes g)).

(** ** Concrete instances used by the worked examples *)

(** The graph built by a list of [add_node] calls. *)
Definition build_nodes (locations : list (string * float * float)) : Graph :=
  foldl (fun g '(n, x, y) => add_node g n x y) empty_graph locations.

(** A call of [add_edge] whose weight is the straight-line distance of its
    endpoints; a call that raises leaves the graph as it was. *)
Definition link (g : Graph) (ab : string * string) : Graph :=
  match add_edge g ab.1 ab.2 (euclidean g ab.1 ab.2) with
  | Ok g' => g'
  | Raise _ => g
  end.

(** Four locations, at the doubles nearest to (1.6, 0.3), (1.2, 0.2),
    (1.8, 1.9) and (1.4, 1.8), and the four links of the two ways from
    ["A"] to ["E"]. *)
Definition kite_graph : Graph :=
  foldl link
    (build_nodes [("A", 0x1.999999999999ap+0, 0x1.3333333333333p-2);
                  ("C", 0x1.3333333333333p+0, 0x1.999999999999ap-3);
                  ("D", 0x1.ccccccccccccdp+0, 0x1.e666666666666p+0);
                  ("E", 0x1.6666666666666p+0, 0x1.ccccccccccccdp+0)])
    [("A", "C"); ("A", "D"); ("C", "E"); ("D", "E")].

(** Four locations on the diagonal. *)
Definition diagonal_graph : Graph :=
  build_nodes [("D", 1, 1); ("A", 2, 2); ("B", 3, 3); ("C", 8, 8)].

Definition diagonal_route : list string := ["D"; "A"; "B"; "C"; "D"].

(** Five locations on a line, one unit apart, the depot first. *)
Definition line_graph : Graph :=
  build_nodes [("D", 0, 0); ("A", 1, 0); ("B", 2, 0); ("C", 3, 0); ("E", 4, 0)].

(** Three sites of demand 6 and a fleet of capacities 10, 4, 4, 4: the total
    demand 18 fits the total capacity 22 and every site fits the first
    vehicle. *)
Definition three_sites : list TPS :=
  [mkTPS "TPS_1" "A" 6; mkTPS "TPS_2" "B" 6; mkTPS "TPS_3" "C" 6].

Definition uneven_fleet : list Truck :=
  [mkTruck "T1" 10; mkTruck "T2" 4; mkTruck "T3" 4; mkTruck "T4" 4].

(** A fleet whose first vehicle takes all three sites. *)
Definition roomy_fleet : list Truck := [mkTruck "T1" 20; mkTruck "T2" 4].

(** Three sites of demand [2 ** -54] and one of demand 1, and two vehicles
    of capacity 1. *)
Definition dust_sites : list TPS :=
  [mkTPS "TPS_1" "A" 0x1p-54; mkTPS "TPS_2" "B" 0x1p-54; mkTPS "TPS_3" "C" 0x1p-54;
   mkTPS "TPS_4" "E" 1].

Definition unit_fleet : list Truck := [mkTruck "T1" 1; mkTruck "T2" 1].

End F64.
(** ** Concrete instances used by the worked examples *)

(** A square root that is exact on squares of rationals (and rounds each of
    numerator and denominator down otherwise). *)
Definition Qsqrt (q : Q) : Q :=
  let r := Qred q in (Z.sqrt (Qnum r) # Pos.sqrt (Qden r)).

(** The graph built by a list of [add_node] calls followed by a list of
    [add_edge] calls. *)
Definition build_graph (locations : list (string * Q * Q))
    (links : list (string * string * Q)) : Graph :=
  run_ops empty_graph
    (((fun '(n, x, y) => AddNode n x y) <$> locations) ++
     ((fun '(a, b, w) => AddEdge a b w) <$> links)).

(** Three locations; the direct link [S-G] is dearer than the detour over
    [A], whose links are much shorter than the straight-line distances. *)
Definition detour_graph : Graph :=
  build_graph [("S", 0, 0); ("G", 3, 0); ("A", 0, 4)]%Q
              [("S", "G", 5); ("S", "A", 1); ("A", "G", 1)]%Q.

(** One registered location. *)
Definition one_node_graph : Graph := build_graph [("A", 0, 0)]%Q [].

(** Two linked locations, the first of which is then added a second time. *)
Definition readd_ops : list graph_op :=
  [AddNode "A" 0 0; AddNode "B" 1 0; AddEdge "A" "B" 1; AddNode "A" 0 0]%Q.

(** The same calls without the repeated [add_node]. *)
Definition link_ops : list graph_op :=
  [AddNode "A" 0 0; AddNode "B" 1 0; AddEdge "A" "B" 1]%Q.

(** Four locations on a line, one unit apart, the depot first. *)
Definition line_graph : Graph :=
  build_graph [("D", 0, 0); ("A", 1, 0); ("B", 2, 0); ("C", 3, 0)]%Q [].

(** Three sites of demand 6 and a fleet of capacities 10, 4, 4, 4: the total
    demand 18 fits the total capacity 22 and every site fits the first
    vehicle. *)
Definition three_sites : list TPS :=
  [mkTPS "TPS_1" "A" 6; mkTPS "TPS_2" "B" 6; mkTPS "TPS_3" "C" 6]%Q.

Definition uneven_fleet : list Truck :=
  [mkTruck "T1" 10; mkTruck "T2" 4; mkTruck "T3" 4; mkTruck "T4" 4]%Q.

(** A fleet whose first vehicle takes all three sites. *)
Definition roomy_fleet : list Truck := [mkTruck "T1" 20; mkTruck "T2" 4]%Q.

(** A generator: a linear congruential state, [random.random()] read off its
    last three digits and [_randbelow(n)] off its remainder modulo [n]. *)
Definition lcg_next (s : Z) : Z := ((1103515245 * s + 12345) mod 2147483648)%Z.

Definition lcg_random (s : Z) : Q * Z := (((s mod 1000) # 1000)%Q, lcg_next s).

Definition lcg_randbelow (n : nat) (s : Z) : nat * Z :=
  (Z.to_nat (s mod Z.of_nat n), lcg_next s).

(** An acceptance test with the rational [1 / (1 + x)] in the place of
    [exp(-x)]. *)
Definition metropolis_rational (u : Q) (delta : fdiff) (temperature : Q) : result bool :=
  if Qeq_bool temperature 0 then Raise ZeroDivisionError
  else
    match delta with
    | DFin dq => Ok (Qlt_bool (u * (temperature + dq)) temperature)
    | DNegInf => Ok true
    | DPosInf | DNaN => Ok false
    end.

(** A depot-framed solution of two vehicles on [line_graph]. *)
Definition two_routes : gmap string (list string) :=
  <["T1" := ["D"; "B"; "A"; "D"]]> (<["T2" := ["D"; "C"; "D"]]> ∅).

(** A route on [line_graph] that doubles back. *)
Definition doubling_route : list string := ["D"; "B"; "A"; "C"; "D"].

(** A road of two unit links: depot, junction, site. *)
Definition road_graph : Graph :=
  build_graph [("D", 0, 0); ("X", 1, 0); ("A", 2, 0)]%Q
              [("D", "X", 1); ("X", "A", 1)]%Q.

(** One vehicle that visits the site at the end of the road. *)
Definition visit_routes : gmap string (list string) := {[ "T1" := ["D"; "A"; "D"] ]}.

(** One vehicle that visits the junction next to the depot. *)
Definition hop_routes : gmap string (list string) := {[ "T1" := ["D"; "X"; "D"] ]}.

(** One vehicle that stays at the depot. *)
Definition idle_routes : gmap string (list string) := {[ "T1" := ["D"; "D"] ]}.

(** Two registered locations without a link. *)
Definition pair_graph : Graph := build_graph [("A", 0, 0); ("B", 1, 0)]%Q [].

(** The same two locations with a link of weight 1. *)
Definition linked_pair_graph : Graph := run_ops empty_graph link_ops.

(** One vehicle on the route that doubles back. *)
Definition doubling_routes : gmap string (list string) := {[ "T1" := doubling_route ]}.

(** The entries of a node dict in the order of the map. *)
Definition map_items (m : gmap string Node) : list (string * Node) := map_to_list m.

(** The routes of a solution in the order of the map. *)
Definition map_values (m : gmap string (list string)) : list (list string) :=
  (map_to_list m).*2.

(** A grid of two rows and three columns, one unit apart, whose cell in row
    0 and column 1 is blocked. *)
Definition small_grid : result Graph :=
  load_from_grid empty_graph 3 2 1 (Some [(0, 1)%Z]).
(** * Properties *)

(** ** graph.py *)

Lemma dict_get_set_eq k v d : dict_get k (dict_set k v d) = Some v.
Proof.
  induction d as [|[k' v'] d IH]; simpl.
  - by rewrite decide_True.
  - destruct (decide (k = k')) as [->|Hne]; simpl.
    + by rewrite decide_True.
    + by rewrite decide_False.
Qed.

Lemma dict_get_set_ne k k' v d :
  k ≠ k' -> dict_get k' (dict_set k v d) = dict_get k' d.
Proof.
  intros Hne. induction d as [|[k0 v0] d IH]; simpl.
  - by rewrite decide_False.
  - destruct (decide (k = k0)) as [->|Hk]; simpl.
    + by rewrite !decide_False.
    + destruct (decide (k' = k0)); [done | apply IH].
Qed.

Lemma add_node_ok g nid x y :
  add_node g nid x y = Ok (mkGraph (<[nid := mkNode nid x y []]> (nodes g)) (edges g)).
Proof. reflexivity. Qed.

(** What [add_edge] leaves under every key when it succeeds. *)
Lemma add_edge_lookup g id1 id2 w g' k :
  add_edge g id1 id2 w = Ok g' ->
  nodes g' !! k =
    (fun n => if decide (id2 = k) then set_neighbor id1 w n else n) <$>
    ((fun n => if decide (id1 = k) then set_neighbor id2 w n else n) <$> nodes g !! k).
Proof.
  unfold add_edge. intros H.
  destruct (nodes g !! id1) eqn:H1; [|done].
  destruct (nodes g !! id2) eqn:H2; [|done].
  injection H as <-. simpl.
  rewrite !lookup_alter.
  destruct (decide (id2 = k)) as [->|], (decide (id1 = k)) as [->|];
    by destruct (nodes g !! k).
Qed.

Lemma add_edge_raises_iff g id1 id2 w :
  raises (add_edge g id1 id2 w) <-> nodes g !! id1 = None \/ nodes g !! id2 = None.
Proof.
  unfold add_edge.
  destruct (nodes g !! id1), (nodes g !! id2); simpl; intuition congruence.
Qed.

Lemma add_edge_both_directions g id1 id2 w g' :
  add_edge g id1 id2 w = Ok g' ->
  lists_neighbor g' id1 id2 w /\ lists_neighbor g' id2 id1 w.
Proof.
  intros H.
  assert (is_Some (nodes g !! id1) /\ is_Some (nodes g !! id2)) as [[n1 H1] [n2 H2]].
  { unfold add_edge in H. destruct (nodes g !! id1), (nodes g !! id2); by eauto. }
  unfold lists_neighbor. split.
  - rewrite (add_edge_lookup _ _ _ _ _ id1 H), H1. simpl.
    rewrite (decide_True (P := id1 = id1)) by done.
    destruct (decide (id2 = id1)) as [->|Hne]; eexists; (split; [done|]); simpl.
    + rewrite dict_get_set_eq. done.
    + apply dict_get_set_eq.
  - rewrite (add_edge_lookup _ _ _ _ _ id2 H), H2. simpl.
    rewrite (decide_True (P := id2 = id2)) by done.
    eexists. split; [done|]. simpl. apply dict_get_set_eq.
Qed.

Lemma add_edge_symmetric g id1 id2 w g' :
  adjacency_symmetric g -> add_edge g id1 id2 w = Ok g' -> adjacency_symmetric g'.
Proof.
  intros Hsym H a b v.
  destruct (add_edge_both_directions _ _ _ _ _ H) as [H12 H21].
  assert (Hold : forall c d u,
    (c, d) ≠ (id1, id2) -> (c, d) ≠ (id2, id1) ->
    lists_neighbor g' c d u <-> lists_neighbor g c d u).
  { intros c d u Hn1 Hn2. unfold lists_neighbor.
    rewrite (add_edge_lookup _ _ _ _ _ c H).
    destruct (nodes g !! c) as [n|] eqn:Hc; simpl; [|naive_solver].
    assert (dict_get d (neighbors
              (if decide (id2 = c) then set_neighbor id1 w
                 (if decide (id1 = c) then set_neighbor id2 w n else n)
               else if decide (id1 = c) then set_neighbor id2 w n else n))
            = dict_get d (neighbors n)) as Heq.
    { destruct (decide (id2 = c)) as [->|], (decide (id1 = c)) as [->|]; simpl;
        rewrite ?dict_get_set_ne; try done; congruence. }
    split; intros (m & Hm & Hd).
    - injection Hm as <-. exists n. by rewrite <-Heq.
    - injection Hm as <-. eexists. split; [done|]. by rewrite Heq. }
  assert (Hfun : forall c d u u',
    lists_neighbor g' c d u -> lists_neighbor g' c d u' -> u = u').
  { intros c d u u' (m & Hm & Hd) (m' & Hm' & Hd'). congruence. }
  intros Hab.
  destruct (decide ((a, b) = (id1, id2))) as [[= -> ->]|Hn1].
  { by rewrite (Hfun _ _ _ _ Hab H12). }
  destruct (decide ((a, b) = (id2, id1))) as [[= -> ->]|Hn2].
  { by rewrite (Hfun _ _ _ _ Hab H21). }
  apply Hold; [congruence | congruence |].
  apply Hsym. by apply Hold.
Qed.

Lemma add_node_fresh_symmetric g nid x y g' :
  adjacency_symmetric g -> nodes g !! nid = None ->
  add_node g nid x y = Ok g' -> adjacency_symmetric g'.
Proof.
  intros Hsym Hfresh [= <-] a b w (n & Hn & Hd). simpl in *.
  rewrite lookup_insert in Hn. destruct (decide (nid = a)) as [->|Hne].
  { injection Hn as <-. done. }
  destruct (Hsym a b w) as (m & Hm & Hd'); [by exists n|].
  exists m. split; [|done]. simpl.
  rewrite lookup_insert_ne; [done|]. intros ->. congruence.
Qed.

Lemma empty_graph_symmetric : adjacency_symmetric empty_graph.
Proof. intros a b w (n & Hn & _). simpl in Hn. by rewrite lookup_empty in Hn. Qed.

Lemma run_ops_symmetric ops : forall g,
  adjacency_symmetric g -> fresh_adds g ops -> adjacency_symmetric (run_ops g ops).
Proof.
  induction ops as [|o ops IH]; intros g Hsym Hfresh; [done|].
  destruct Hfresh as [Ho Hrest]. simpl. apply IH; [|done].
  destruct o as [nid x y|id1 id2 w]; simpl.
  - by eapply add_node_fresh_symmetric.
  - destruct (add_edge g id1 id2 w) as [g'|e] eqn:He; simpl; [|done].
    by eapply add_edge_symmetric.
Qed.

(** Neighbour dicts keep pairwise distinct keys. *)
Lemma dict_set_keys k v d :
  (k ∈ d.*1 /\ (dict_set k v d).*1 = d.*1) \/
  ((k ∉ d.*1) /\ (dict_set k v d).*1 = d.*1 ++ [k]).
Proof.
  induction d as [|[k' v'] d IH].
  - right. split; [by inversion 1 | done].
  - cbn [dict_set]. destruct (decide (k = k')) as [->|Hne].
    + left. split; [left | done].
    + rewrite !fmap_cons. cbn [fst].
      destruct IH as [[Hin ->]|[Hin ->]].
      * left. split; [by right | done].
      * right. split; [|done]. by intros [?|?]%elem_of_cons.
Qed.

Lemma dict_set_NoDup k v d : NoDup d.*1 -> NoDup (dict_set k v d).*1.
Proof.
  intros Hnd. destruct (dict_set_keys k v d) as [[_ ->]|[Hin ->]]; [done|].
  apply NoDup_app. split_and!; [done | | apply NoDup_singleton].
  intros x Hx ->%list_elem_of_singleton. done.
Qed.

Lemma add_edge_dicts_wf g id1 id2 w g' :
  dicts_wf g -> add_edge g id1 id2 w = Ok g' -> dicts_wf g'.
Proof.
  intros Hwf H n nd. rewrite (add_edge_lookup _ _ _ _ _ n H).
  destruct (nodes g !! n) as [nd0|] eqn:Hn; [|done]. simpl. intros [= <-].
  specialize (Hwf n nd0 Hn).
  destruct (decide (id2 = n)), (decide (id1 = n)); simpl;
    repeat apply dict_set_NoDup; done.
Qed.

Lemma run_ops_dicts_wf ops : forall g, dicts_wf g -> dicts_wf (run_ops g ops).
Proof.
  induction ops as [|o ops IH]; intros g Hwf; [done|]. simpl. apply IH.
  destruct o as [nid x y|id1 id2 w]; simpl.
  - intros n nd Hn. simpl in Hn. rewrite lookup_insert in Hn.
    destruct (decide (nid = n)).
    + injection Hn as <-. constructor.
    + by eapply Hwf.
  - destruct (add_edge g id1 id2 w) as [g'|e] eqn:He; simpl; [|done].
    by eapply add_edge_dicts_wf.
Qed.

Lemma build_graph_dicts_wf locations links : dicts_wf (build_graph locations links).
Proof.
  apply run_ops_dicts_wf. intros n nd H. simpl in H. by rewrite lookup_empty in H.
Qed.

(** C7, as the code has it: [add_node] on a registered id does not raise; it
    returns normally, and the id is then bound to a fresh node with the new
    coordinates and no neighbours, every other node and the edge set being
    untouched. *)
Theorem add_node_registered_replaces g nid x y :
  is_Some (nodes g !! nid) ->
  exists g', add_node g nid x y = Ok g' /\
    nodes g' !! nid = Some (mkNode nid x y []) /\
    (forall other, other ≠ nid -> nodes g' !! other = nodes g !! other) /\
    edges g' = edges g.
Proof.
  intros _. eexists. split; [reflexivity|]. simpl. split_and!.
  - apply lookup_insert_eq.
  - intros other Hne. by apply lookup_insert_ne.
  - done.
Qed.

(** C8, as the code has it: the adjacency is symmetric in every state reached
    from the empty graph by calls of [add_node] with fresh ids and calls of
    [add_edge]; [add_edge] raises exactly when an endpoint is not registered
    and otherwise records the weight in both directions. *)
Theorem adjacency_symmetric_fresh_adds ops :
  fresh_adds empty_graph ops ->
  adjacency_symmetric (run_ops empty_graph ops) /\
  (forall g id1 id2 w,
     (raises (add_edge g id1 id2 w) <->
      nodes g !! id1 = None \/ nodes g !! id2 = None) /\
     (forall g', add_edge g id1 id2 w = Ok g' ->
        lists_neighbor g' id1 id2 w /\ lists_neighbor g' id2 id1 w)).
Proof.
  intros Hfresh. split.
  - apply run_ops_symmetric; [apply empty_graph_symmetric | done].
  - intros g id1 id2 w. split.
    + apply add_edge_raises_iff.
    + apply add_edge_both_directions.
Qed.

(** ** two_opt.py *)

Lemma Qlt_bool_iff a b : Qlt_bool a b = true <-> (a < b)%Q.
Proof.
  unfold Qlt_bool. rewrite negb_true_iff, <-not_true_iff_false, Qle_bool_iff.
  split; [apply Qnot_le_lt | apply Qlt_not_le].
Qed.

Lemma fle_refl a : fle a a.
Proof. destruct a; simpl; [apply Qle_refl | done]. Qed.

Lemma fle_trans a b c : fle a b -> fle b c -> fle a c.
Proof. destruct a, b, c; simpl; try done. apply Qle_trans. Qed.

Lemma fle_Inf a : fle a Inf.
Proof. by destruct a. Qed.

Lemma flt_fle a b : flt a b = true -> fle a b.
Proof.
  destruct a, b; simpl; try done.
  rewrite Qlt_bool_iff. apply Qlt_le_weak.
Qed.

Lemma fequiv_fle a b c d : fequiv a b -> fequiv c d -> fle a c -> fle b d.
Proof.
  destruct a, b, c, d; simpl; try done. intros -> ->. done.
Qed.

Section TwoOpt.
Context (fsqrt : Q -> Q) (g : Graph).
Hypothesis fsqrt_respects : respects_Qeq fsqrt.

Local Abbreviation E := (euclidean fsqrt g).
Local Abbreviation qd := (qdist fsqrt g).
Local Abbreviation QH := (qhops fsqrt g).

Lemma euclidean_registered a b :
  registered g a -> registered g b -> E a b = Fin (qd a b).
Proof.
  intros [na Ha] [nb Hb]. unfold qdist, euclidean. by rewrite Ha, Hb.
Qed.

Lemma euclidean_Fin_inv a b q : E a b = Fin q -> registered g a /\ registered g b.
Proof.
  unfold euclidean, registered.
  destruct (nodes g !! a), (nodes g !! b); intros ?; by eauto.
Qed.

Lemma qdist_sym a b : (qd a b == qd b a)%Q.
Proof.
  unfold qdist, euclidean.
  destruct (nodes g !! a) as [na|], (nodes g !! b) as [nb|]; try reflexivity.
  apply fsqrt_respects. ring.
Qed.

(** The accumulating loop of [sum_hops] against the recursive sum. *)
Lemma sum_loop_registered l : forall a acc,
  Forall (registered g) (a :: l) ->
  fequiv (foldl (fun total '(a, b) => fadd total (E a b)) (Fin acc) (zip (a :: l) l))
         (Fin (acc + QH (a :: l))).
Proof.
  induction l as [|b l IH]; intros a acc Hreg.
  - simpl. ring.
  - inversion Hreg as [|? ? Ha Hrest]; subst.
    inversion Hrest as [|? ? Hb _]; subst.
    cbn [zip zip_with foldl]. rewrite (euclidean_registered a b Ha Hb).
    cbn [fadd]. specialize (IH b (acc + qd a b)%Q Hrest).
    destruct (foldl _ _ _); [|done]. simpl in *. rewrite IH. ring.
Qed.

Lemma sum_hops_registered l :
  Forall (registered g) l -> fequiv (sum_hops fsqrt g l) (Fin (QH l)).
Proof.
  destruct l as [|a l]; intros Hreg; [simpl; reflexivity|].
  unfold sum_hops. cbn [tail].
  pose proof (sum_loop_registered l a 0%Q Hreg) as H.
  destruct (foldl _ _ _); [|done]. simpl in *. rewrite H. ring.
Qed.

Lemma sum_loop_Inf (l : list (string * string)) :
  foldl (fun total '(a, b) => fadd total (E a b)) Inf l = Inf.
Proof. induction l as [|[a b] l IH]; [done|]. simpl. apply IH. Qed.

Lemma sum_loop_Fin_inv l : forall a acc t,
  foldl (fun total '(a, b) => fadd total (E a b)) (Fin acc) (zip (a :: l) l) = Fin t ->
  l ≠ [] -> Forall (registered g) (a :: l).
Proof.
  induction l as [|b l IH]; intros a acc t H Hne; [done|].
  cbn [zip zip_with foldl] in H.
  destruct (E a b) as [q|] eqn:Hab.
  - destruct (euclidean_Fin_inv _ _ _ Hab) as [Ha Hb].
    cbn [fadd] in H. constructor; [done|].
    destruct l as [|c l]; [by constructor|].
    eapply IH; [exact H | done].
  - cbn [fadd] in H. by rewrite sum_loop_Inf in H.
Qed.

Lemma route_distance_Fin_inv l t :
  calculate_route_distance fsqrt g l = Fin t -> (2 <= length l)%nat ->
  Forall (registered g) l.
Proof.
  unfold calculate_route_distance, sum_hops. intros H Hlen.
  destruct l as [|a [|b l]]; simpl in Hlen; try lia.
  destruct (length (a :: b :: l) <? 2) eqn:Hl; [apply Nat.ltb_lt in Hl; simpl in Hl; lia|].
  cbn [tail] in H. by eapply sum_loop_Fin_inv.
Qed.

Lemma route_distance_registered l :
  Forall (registered g) l ->
  fequiv (calculate_route_distance fsqrt g l) (Fin (QH l)).
Proof.
  intros Hreg. unfold calculate_route_distance.
  destruct (length l <? 2) eqn:Hl; [|by apply sum_hops_registered].
  apply Nat.ltb_lt in Hl. destruct l as [|a [|b l]]; simpl in *; try lia; reflexivity.
Qed.

(** Algebra of the recursive sum. *)
Lemma qhops_app l1 a l2 :
  (QH (l1 ++ a :: l2) == QH (l1 ++ [a]) + QH (a :: l2))%Q.
Proof.
  induction l1 as [|x l1 IH]; [simpl; ring|].
  destruct l1 as [|y l1].
  - simpl. ring.
  - change (qd x y + QH ((y :: l1) ++ a :: l2) ==
            qd x y + QH ((y :: l1) ++ [a]) + QH (a :: l2))%Q.
    rewrite IH. ring.
Qed.

Lemma qhops_snoc l a b :
  (QH (l ++ [a; b]) == QH (l ++ [a]) + qd a b)%Q.
Proof.
  rewrite (qhops_app l a [b]). simpl. ring.
Qed.

Lemma qhops_rev l : (QH (reverse l) == QH l)%Q.
Proof.
  induction l as [|a l IH]; [reflexivity|].
  rewrite reverse_cons. destruct l as [|b l]; [reflexivity|].
  rewrite reverse_cons in *. rewrite <-app_assoc. simpl app.
  rewrite qhops_snoc, IH.
  change (QH (a :: b :: l)) with (qd a b + QH (b :: l))%Q.
  rewrite (qdist_sym b a). ring.
Qed.

End TwoOpt.
Lemma route_window (r : list string) (i j : nat) :
  (1 <= i)%nat -> (i < j)%nat -> (j + 1 < length r)%nat ->
  exists P p a M b n T,
    r = P ++ p :: a :: M ++ b :: n :: T /\
    i = S (length P) /\ j = (length P + 2 + length M)%nat.
Proof.
  intros Hi Hij Hj.
  assert (Hr : r = take (i - 1) r ++ drop (i - 1) r) by (by rewrite take_drop).
  destruct (drop (i - 1) r) as [|p [|a r2]] eqn:Hd.
  { apply (f_equal length) in Hd. rewrite length_drop in Hd. simpl in Hd. lia. }
  { apply (f_equal length) in Hd. rewrite length_drop in Hd. simpl in Hd. lia. }
  assert (Hlen2 : length r2 = (length r - i - 1)%nat).
  { apply (f_equal length) in Hd. rewrite length_drop in Hd. simpl in Hd. lia. }
  assert (Hr2 : r2 = take (j - i - 1) r2 ++ drop (j - i - 1) r2) by (by rewrite take_drop).
  destruct (drop (j - i - 1) r2) as [|b [|n T]] eqn:Hd2.
  { apply (f_equal length) in Hd2. rewrite length_drop in Hd2. simpl in Hd2. lia. }
  { apply (f_equal length) in Hd2. rewrite length_drop in Hd2. simpl in Hd2. lia. }
  exists (take (i - 1) r), p, a, (take (j - i - 1) r2), b, n, T.
  split; [congruence|].
  rewrite !length_take. lia.
Qed.

Ltac flatten_app := simpl; repeat (rewrite <-app_assoc; simpl); try done.

Ltac len_solve :=
  repeat first [rewrite length_app | rewrite length_cons | rewrite length_nil];
  simpl; lia.

Lemma window_lookups (P : list string) p a M b n T :
  let r := P ++ p :: a :: M ++ b :: n :: T in
  let i := S (length P) in
  let j := (length P + 2 + length M)%nat in
  r !!! (i - 1)%nat = p /\ r !!! i = a /\ r !!! j = b /\ r !!! (j + 1)%nat = n /\
  reverse_segment r i j = P ++ p :: b :: reverse M ++ a :: n :: T.
Proof.
  intros r i j. subst r i j.
  assert (H1 : forall k x (l1 l2 : list string), k = length l1 -> (l1 ++ x :: l2) !!! k = x).
  { intros k x l1 l2 ->. rewrite list_lookup_total_alt, list_lookup_middle; done. }
  split_and!.
  - apply H1. lia.
  - rewrite (cons_middle p), app_assoc. apply H1. rewrite length_app. simpl. lia.
  - replace (P ++ p :: a :: M ++ b :: n :: T) with ((P ++ p :: a :: M) ++ b :: n :: T)
      by flatten_app.
    apply H1. rewrite length_app. simpl. lia.
  - replace (P ++ p :: a :: M ++ b :: n :: T) with ((P ++ p :: a :: M ++ [b]) ++ n :: T)
      by flatten_app.
    apply H1. rewrite !length_app. simpl. rewrite length_app. simpl. lia.
  - unfold reverse_segment.
    assert (Ht : take (S (length P)) (P ++ p :: a :: M ++ b :: n :: T) = P ++ [p]).
    { replace (P ++ p :: a :: M ++ b :: n :: T) with ((P ++ [p]) ++ a :: M ++ b :: n :: T)
        by flatten_app.
      apply take_app_length'. len_solve. }
    assert (Hm : drop (S (length P)) (P ++ p :: a :: M ++ b :: n :: T)
                 = (a :: M ++ [b]) ++ n :: T).
    { replace (P ++ p :: a :: M ++ b :: n :: T) with ((P ++ [p]) ++ (a :: M ++ [b]) ++ n :: T)
        by flatten_app.
      apply drop_app_length'. len_solve. }
    assert (Hd : drop (S (length P + 2 + length M)) (P ++ p :: a :: M ++ b :: n :: T)
                 = n :: T).
    { replace (P ++ p :: a :: M ++ b :: n :: T) with ((P ++ p :: a :: M ++ [b]) ++ n :: T)
        by flatten_app.
      apply drop_app_length'. len_solve. }
    rewrite Ht, Hm, Hd.
    rewrite (take_app_length' (a :: M ++ [b])) by len_solve.
    rewrite reverse_cons, reverse_app. flatten_app.
Qed.
Section TwoOptScan.
Context (fsqrt : Q -> Q) (g : Graph).
Hypothesis fsqrt_respects : respects_Qeq fsqrt.

Local Abbreviation E := (euclidean fsqrt g).
Local Abbreviation qd := (qdist fsqrt g).
Local Abbreviation QH := (qhops fsqrt g).
Local Abbreviation D := (calculate_route_distance fsqrt g).

Lemma scan_j_Some r thr i js r' :
  scan_j fsqrt g r thr i js = Some r' ->
  exists j, j ∈ js /\ improving fsqrt g r thr i j = true /\ r' = reverse_segment r i j.
Proof.
  induction js as [|j js IH]; [done|]. simpl.
  fold (improving fsqrt g r thr i j).
  destruct (improving fsqrt g r thr i j) eqn:Himp.
  - intros [= <-]. exists j. split; [left|done].
  - intros H. destruct (IH H) as (j' & Hin & ?). exists j'. split; [by right|done].
Qed.

Lemma scan_j_None r thr i js :
  scan_j fsqrt g r thr i js = None -> forall j, j ∈ js -> improving fsqrt g r thr i j = false.
Proof.
  induction js as [|j js IH]; [intros _ j Hj; by inversion Hj|]. simpl.
  fold (improving fsqrt g r thr i j).
  destruct (improving fsqrt g r thr i j) eqn:Himp; [done|].
  intros H j' [->|Hj']%elem_of_cons; [done | by apply IH].
Qed.

Lemma scan_i_Some r thr rows r' :
  scan_i fsqrt g r thr rows = Some r' ->
  exists i j, i ∈ rows /\ j ∈ seq (i + 1) (length r - 1 - (i + 1)) /\
    improving fsqrt g r thr i j = true /\ r' = reverse_segment r i j.
Proof.
  induction rows as [|i rows IH]; [done|]. simpl.
  destruct (scan_j fsqrt g r thr i _) as [r0|] eqn:Hj.
  - intros [= <-]. destruct (scan_j_Some _ _ _ _ _ Hj) as (j & Hin & Himp & ->).
    exists i, j. split; [left|done].
  - intros H. destruct (IH H) as (i' & j' & Hin & ?). exists i', j'. split; [by right|done].
Qed.

Lemma two_opt_scan_Some r thr r' :
  two_opt_scan fsqrt g r thr = Some r' ->
  exists i j, (1 <= i)%nat /\ (i < j)%nat /\ (j + 1 < length r)%nat /\
    improving fsqrt g r thr i j = true /\ r' = reverse_segment r i j.
Proof.
  intros H. apply scan_i_Some in H as (i & j & Hi & Hj & Himp & ->).
  apply elem_of_seq in Hi. apply elem_of_seq in Hj.
  exists i, j. split_and!; try done; lia.
Qed.

Lemma window_distance (P : list string) p a M b n T :
  Forall (registered g) (P ++ p :: a :: M ++ b :: n :: T) ->
  (QH (P ++ p :: b :: reverse M ++ a :: n :: T) + (qd p a + qd b n)
   == QH (P ++ p :: a :: M ++ b :: n :: T) + (qd p b + qd a n))%Q.
Proof.
  intros _.
  rewrite (qhops_app fsqrt g P p (b :: reverse M ++ a :: n :: T)).
  rewrite (qhops_app fsqrt g P p (a :: M ++ b :: n :: T)).
  change (QH (p :: b :: reverse M ++ a :: n :: T))
    with (qd p b + QH ((b :: reverse M) ++ a :: n :: T))%Q.
  change (QH (p :: a :: M ++ b :: n :: T))
    with (qd p a + QH ((a :: M) ++ b :: n :: T))%Q.
  rewrite (qhops_app fsqrt g (b :: reverse M) a (n :: T)).
  rewrite (qhops_app fsqrt g (a :: M) b (n :: T)).
  change (QH (a :: n :: T)) with (qd a n + QH (n :: T))%Q.
  change (QH (b :: n :: T)) with (qd b n + QH (n :: T))%Q.
  assert (Hrev : (QH ((b :: reverse M) ++ [a]) == QH ((a :: M) ++ [b]))%Q).
  { rewrite <-(qhops_rev fsqrt g fsqrt_respects ((a :: M) ++ [b])).
    replace (reverse ((a :: M) ++ [b])) with ((b :: reverse M) ++ [a]); [reflexivity|].
    by rewrite reverse_app, reverse_singleton, (reverse_cons M a). }
  rewrite Hrev. ring.
Qed.

Lemma two_opt_scan_le r thr r' :
  (0 <= thr)%Q -> two_opt_scan fsqrt g r thr = Some r' -> fle (D r') (D r).
Proof.
  intros Hthr H.
  apply two_opt_scan_Some in H as (i & j & Hi & Hij & Hj & Himp & ->).
  destruct (D r) as [t|] eqn:HD; [|apply fle_Inf].
  assert (Hreg : Forall (registered g) r).
  { eapply route_distance_Fin_inv; [done | lia]. }
  destruct (route_window r i j Hi Hij Hj) as (P & p & a & M & b & n & T & -> & -> & ->).
  destruct (window_lookups P p a M b n T) as (Hp & Ha & Hb & Hn & Hrev).
  cbv zeta in *. unfold improving in Himp.
  rewrite Hp, Ha, Hb, Hn in Himp. rewrite Hrev.
  assert (Hall : Forall (registered g) P /\ registered g p /\ registered g a /\
                 Forall (registered g) M /\ registered g b /\ registered g n /\
                 Forall (registered g) T).
  { rewrite Forall_app, !Forall_cons, Forall_app, !Forall_cons in Hreg. tauto. }
  destruct Hall as (RP & Rp & Ra & RM & Rb & Rn & RT).
  rewrite !(euclidean_registered fsqrt g) in Himp by done.
  simpl in Himp. apply Qlt_bool_iff in Himp.
  assert (Hreg' : Forall (registered g) (P ++ p :: b :: reverse M ++ a :: n :: T)).
  { rewrite Forall_app, !Forall_cons, Forall_app, !Forall_cons, Forall_reverse. tauto. }
  pose proof (route_distance_registered fsqrt g _ Hreg') as H1.
  pose proof (route_distance_registered fsqrt g _ Hreg) as H2.
  rewrite HD in H2.
  destruct (D (P ++ p :: b :: reverse M ++ a :: n :: T)) as [t'|]; [|done].
  simpl in *. pose proof (window_distance P p a M b n T Hreg) as Hw.
  lra.
Qed.

Lemma two_opt_loop_le thr n : forall r,
  (0 <= thr)%Q -> fle (D (fst (two_opt_loop fsqrt g thr n r))) (D r).
Proof.
  induction n as [|n IH]; intros r Hthr; simpl; [apply fle_refl|].
  destruct (two_opt_scan fsqrt g r thr) as [r'|] eqn:Hs; simpl; [|apply fle_refl].
  eapply fle_trans; [by apply IH | by eapply two_opt_scan_le].
Qed.

Lemma two_opt_loop_converged thr n : forall r,
  snd (two_opt_loop fsqrt g thr n r) = false ->
  two_opt_scan fsqrt g (fst (two_opt_loop fsqrt g thr n r)) thr = None.
Proof.
  induction n as [|n IH]; intros r; simpl; [done|].
  destruct (two_opt_scan fsqrt g r thr) as [r'|] eqn:Hs; simpl; [apply IH | done].
Qed.

(** In exact arithmetic: with a non-negative threshold the route returned by
    [two_opt_single_route] is never longer than the input route; and when the
    loop stops with [improved] false (a full scan found no move), running the
    function again on the result returns the result unchanged.  (On doubles
    the first half fails by rounding; see the binary64 kernels below.) *)
Theorem two_opt_never_longer_and_fixed_point route thr max_iterations :
  (0 <= thr)%Q ->
  fle (D (two_opt_single_route fsqrt g route thr max_iterations)) (D route) /\
  (snd (two_opt_loop fsqrt g thr max_iterations route) = false ->
   two_opt_single_route fsqrt g
     (two_opt_single_route fsqrt g route thr max_iterations) thr max_iterations
   = two_opt_single_route fsqrt g route thr max_iterations).
Proof.
  intros Hthr. split; [by apply two_opt_loop_le|].
  intros Hconv. unfold two_opt_single_route.
  pose proof (two_opt_loop_converged thr max_iterations route Hconv) as Hnone.
  destruct max_iterations as [|n]; [done|].
  set (r1 := fst (two_opt_loop fsqrt g thr (S n) route)) in *.
  simpl. by rewrite Hnone.
Qed.

End TwoOptScan.
(** ** sa_optimizer.py: the flattened representation *)

Section Flatten.
Context (depot_id : string).

Local Abbreviation strip := (filter (fun node_id : string => node_id ≠ depot_id)).

Lemma keys_NoDup {A} (m : gmap string A) : NoDup (keys m).
Proof. apply NoDup_fst_map_to_list. Qed.

Lemma elem_of_keys {A} (m : gmap string A) k : k ∈ keys m <-> is_Some (m !! k).
Proof.
  unfold keys. rewrite list_elem_of_fmap. split.
  - intros ([k' v] & -> & Hin). apply elem_of_map_to_list in Hin. by eexists.
  - intros [v Hv]. exists (k, v). split; [done|]. by apply elem_of_map_to_list.
Qed.

Lemma py_sorted_perm l : py_sorted l ≡ₚ l.
Proof. apply merge_sort_Permutation. Qed.

Lemma sorted_keys_NoDup {A} (m : gmap string A) : NoDup (py_sorted (keys m)).
Proof. rewrite py_sorted_perm. apply keys_NoDup. Qed.

Lemma elem_of_sorted_keys {A} (m : gmap string A) k :
  k ∈ py_sorted (keys m) <-> is_Some (m !! k).
Proof. rewrite py_sorted_perm. apply elem_of_keys. Qed.

(** The flattening loop over an arbitrary list of keys. *)
Lemma flatten_loop (routes : gmap string (list string)) ks : forall all_tps idx,
  foldl (fun '(all_tps, route_indices) truck_id =>
           let route := routes !!! truck_id in
           let start_idx := length all_tps in
           let all_tps' := all_tps ++ strip route in
           let end_idx := length all_tps' in
           (all_tps', route_indices ++ [(start_idx, end_idx)]))
        (all_tps, idx) ks
  = (all_tps ++ concat ((fun k => strip (routes !!! k)) <$> ks),
     idx ++ offsets (length all_tps) ((fun k => strip (routes !!! k)) <$> ks)).
Proof.
  induction ks as [|k ks IH]; intros all_tps idx; simpl.
  - by rewrite !app_nil_r.
  - rewrite IH. rewrite length_app, <-!app_assoc. done.
Qed.

Lemma routes_to_tps_order_eq (routes : gmap string (list string)) :
  routes_to_tps_order routes depot_id
  = (concat ((fun k => strip (routes !!! k)) <$> py_sorted (keys routes)),
     offsets 0 ((fun k => strip (routes !!! k)) <$> py_sorted (keys routes))).
Proof. unfold routes_to_tps_order. by rewrite flatten_loop. Qed.

Lemma offsets_length start segs : length (offsets start segs) = length segs.
Proof. revert start. induction segs; intros; simpl; [done | by f_equal]. Qed.

(** Every index range selects its own segment of the concatenation. *)
Lemma offsets_slice segs : forall pre i seg s e rest,
  segs !! i = Some seg ->
  offsets (length pre) segs !! i = Some (s, e) ->
  e = (s + length seg)%nat /\
  (e <= length (pre ++ concat segs))%nat /\
  slice (pre ++ concat segs ++ rest) s e = seg.
Proof.
  induction segs as [|seg0 segs IH]; intros pre i seg s e rest Hseg Hoff; [done|].
  destruct i as [|i]; simpl in *.
  - injection Hseg as ->. injection Hoff as <- <-.
    split; [done|]. split; [rewrite !length_app; lia|].
    unfold slice. rewrite drop_app_length.
    replace (length pre + length seg - length pre)%nat with (length seg) by lia.
    rewrite <-app_assoc. by rewrite take_app_length.
  - specialize (IH (pre ++ seg0) i seg s e rest Hseg).
    rewrite length_app in IH. specialize (IH Hoff).
    rewrite <-!app_assoc in IH. simpl. by rewrite <-app_assoc.
Qed.

Lemma slice_length l s e : (s <= e)%nat -> (e <= length l)%nat -> length (slice l s e) = (e - s)%nat.
Proof. intros. unfold slice. rewrite length_take, length_drop. lia. Qed.

(** The rebuilding loop: what it leaves under every key. *)
Lemma rebuild_loop_lookup (order : list string) kvs : forall (m0 : gmap string (list string)),
  NoDup kvs.*1 ->
  let out := foldl (fun routes '(truck_id, (start_idx, end_idx)) =>
                      <[truck_id := [depot_id] ++ slice order start_idx end_idx ++ [depot_id]]> routes)
                   m0 kvs in
  (forall k s e, (k, (s, e)) ∈ kvs ->
     out !! k = Some ([depot_id] ++ slice order s e ++ [depot_id])) /\
  (forall k, k ∉ kvs.*1 -> out !! k = m0 !! k).
Proof.
  induction kvs as [|[k0 [s0 e0]] kvs IH]; intros m0 Hnd out; subst out.
  - split; [intros k s e Hin; by inversion Hin | done].
  - simpl in *. apply NoDup_cons in Hnd as [Hk0 Hnd].
    destruct (IH (<[k0 := [depot_id] ++ slice order s0 e0 ++ [depot_id]]> m0) Hnd) as [IH1 IH2].
    split.
    + intros k s e [[= -> -> ->]|Hin]%elem_of_cons.
      * rewrite IH2 by done. apply lookup_insert_eq.
      * by apply IH1.
    + intros k [Hne Hk]%not_elem_of_cons. rewrite IH2 by done.
      by apply lookup_insert_ne.
Qed.

Lemma zip_fst_NoDup {B} (ks : list string) (vs : list B) :
  NoDup ks -> NoDup (zip ks vs).*1.
Proof.
  intros Hnd. revert vs. induction Hnd as [|k ks Hk Hnd IH]; intros [|v vs]; simpl;
    try constructor; [|apply IH].
  intros Hin. apply Hk. apply list_elem_of_fmap in Hin as ([k' v'] & -> & Hin).
  apply elem_of_zip_l in Hin. done.
Qed.

(** The routes rebuilt from any order of the right length. *)
Lemma rebuild_lookup (routes : gmap string (list string)) (order : list string) tid r :
  length order = length (concat ((fun k => strip (routes !!! k)) <$> py_sorted (keys routes))) ->
  routes !! tid = Some r ->
  exists s e,
    tps_order_to_routes order
      (offsets 0 ((fun k => strip (routes !!! k)) <$> py_sorted (keys routes)))
      (py_sorted (keys routes)) depot_id !! tid
    = Some ([depot_id] ++ slice order s e ++ [depot_id]) /\
    length (slice order s e) = length (strip r) /\
    slice (concat ((fun k => strip (routes !!! k)) <$> py_sorted (keys routes))) s e = strip r.
Proof.
  intros Hlen Hr.
  set (ks := py_sorted (keys routes)) in *.
  set (segs := (fun k => strip (routes !!! k)) <$> ks) in *.
  assert (Hin : tid ∈ ks) by (apply elem_of_sorted_keys; by eexists).
  apply list_elem_of_lookup in Hin as [i Hi].
  assert (Hseg : segs !! i = Some (strip r)).
  { unfold segs. rewrite list_lookup_fmap, Hi. simpl.
    by rewrite (lookup_total_correct _ _ _ Hr). }
  destruct (offsets 0 segs !! i) as [[s e]|] eqn:Hoff.
  2:{ apply lookup_ge_None in Hoff. rewrite offsets_length in Hoff.
      apply lookup_lt_Some in Hseg. lia. }
  destruct (offsets_slice segs [] i (strip r) s e [] Hseg Hoff) as (He & Hle & Hsl).
  simpl in Hle, Hsl. rewrite app_nil_r in Hsl.
  exists s, e. split_and!.
  - unfold tps_order_to_routes.
    apply (rebuild_loop_lookup order (zip ks (offsets 0 segs)) ∅).
    + apply zip_fst_NoDup, sorted_keys_NoDup.
    + apply list_elem_of_lookup. exists i. rewrite lookup_zip_with, Hi. simpl. by rewrite Hoff.
  - rewrite slice_length; lia.
  - done.
Qed.

Lemma rebuild_lookup_None (routes : gmap string (list string)) (order : list string) idxs tid :
  routes !! tid = None ->
  tps_order_to_routes order idxs (py_sorted (keys routes)) depot_id !! tid = None.
Proof.
  intros Hr. unfold tps_order_to_routes.
  set (ks := py_sorted (keys routes)).
  destruct (rebuild_loop_lookup order (zip ks idxs) ∅) as [_ H2].
  { apply zip_fst_NoDup, sorted_keys_NoDup. }
  rewrite H2; [apply lookup_empty|].
  intros Hin. apply list_elem_of_fmap in Hin as ([k v] & -> & Hin).
  apply elem_of_zip_l in Hin. apply elem_of_sorted_keys in Hin.
  simpl in Hr. rewrite Hr in Hin. by destruct Hin.
Qed.

Lemma strip_all (l : list string) : depot_id ∉ l -> strip l = l.
Proof.
  induction l as [|x l IH]; [done|].
  intros [Hne Hl]%not_elem_of_cons.
  rewrite filter_cons_True by congruence. by rewrite IH.
Qed.

Lemma strip_framed r : framed_route depot_id r ->
  exists stops, r = [depot_id] ++ stops ++ [depot_id] /\ strip r = stops /\
                depot_id ∉ stops.
Proof.
  intros (stops & -> & Hnot). exists stops. split; [done|]. split; [|done].
  rewrite !filter_app.
  rewrite (filter_cons_False _ depot_id []) by (intros H; by apply H).
  rewrite filter_nil, strip_all by done. by rewrite app_nil_r.
Qed.

Lemma strip_no_depot (l : list string) : depot_id ∉ strip l.
Proof. rewrite list_elem_of_filter. intros [H _]. by apply H. Qed.

Lemma concat_strip_no_depot (routes : gmap string (list string)) ks :
  Forall (fun x => x ≠ depot_id) (concat ((fun k => strip (routes !!! k)) <$> ks)).
Proof.
  induction ks as [|k ks IH]; simpl; [constructor|].
  apply Forall_app. split; [|done].
  apply Forall_forall. intros x Hx ->. by apply strip_no_depot in Hx.
Qed.

(** C5, first half: flattening and rebuilding a depot-framed solution. *)
Lemma flatten_rebuild_roundtrip (routes : gmap string (list string)) :
  depot_framed routes depot_id ->
  tps_order_to_routes (routes_to_tps_order routes depot_id).1
                      (routes_to_tps_order routes depot_id).2
                      (py_sorted (keys routes)) depot_id = routes.
Proof.
  intros Hframed. rewrite routes_to_tps_order_eq. simpl.
  apply map_eq. intros tid.
  destruct (routes !! tid) as [r|] eqn:Hr.
  - destruct (rebuild_lookup routes _ tid r eq_refl Hr) as (s & e & -> & _ & Hsl).
    rewrite Hsl.
    destruct (strip_framed r (Hframed _ _ Hr)) as (stops & Heq & Hst & _).
    rewrite Hst. by rewrite Heq.
  - by apply rebuild_lookup_None.
Qed.

End Flatten.
(** ** sa_optimizer.py: neighbour generation *)

Lemma swap_items_length (l : list string) i j : length (swap_items l i j) = length l.
Proof. unfold swap_items. by rewrite !length_insert. Qed.

Lemma swap_items_Forall (P : string -> Prop) (l : list string) i j :
  (i < length l)%nat -> (j < length l)%nat -> Forall P l -> Forall P (swap_items l i j).
Proof.
  intros Hi Hj Hl. unfold swap_items.
  apply Forall_insert; [apply Forall_insert|]; try done.
  - apply (Forall_lookup_1 P l j); [done|]. by apply list_lookup_lookup_total_lt.
  - apply (Forall_lookup_1 P l i); [done|]. by apply list_lookup_lookup_total_lt.
Qed.

Lemma relocate_length (l : list string) i j :
  (i < length l)%nat -> length (relocate l i j) = length l.
Proof.
  intros Hi. unfold relocate.
  assert (Hd : length (delete i l) = (length l - 1)%nat).
  { apply length_delete. by apply lookup_lt_is_Some. }
  rewrite length_app. simpl. rewrite length_take, length_drop. lia.
Qed.

Lemma relocate_Forall (P : string -> Prop) (l : list string) i j :
  (i < length l)%nat -> Forall P l -> Forall P (relocate l i j).
Proof.
  intros Hi Hl. unfold relocate.
  apply Forall_app. split; [apply Forall_take, Forall_delete, Hl|].
  constructor; [|apply Forall_drop, Forall_delete, Hl].
  apply (Forall_lookup_1 P l i); [done|]. by apply list_lookup_lookup_total_lt.
Qed.

Section Neighbor.
Context {rng : Type} (random_random : rng -> Q * rng) (randbelow : nat -> rng -> nat * rng).
Hypothesis randbelow_ok : randbelow_in_range randbelow.

Lemma randint_range a b s :
  (a <= b)%nat ->
  (a <= fst (randint randbelow a b s) <= b)%nat.
Proof.
  intros Hab. unfold randint.
  pose proof (randbelow_ok (b - a + 1) s ltac:(lia)) as H.
  destruct (randbelow (b - a + 1) s) as [k s']. simpl in *. lia.
Qed.

(** The perturbed order has the length and the entries of the old one. *)
Lemma generate_neighbor_solution_order routes depot_id s :
  exists order' s',
    generate_neighbor_solution random_random randbelow routes depot_id s
    = (tps_order_to_routes order' (routes_to_tps_order routes depot_id).2
         (py_sorted (keys routes)) depot_id, s') /\
    length order' = length (routes_to_tps_order routes depot_id).1 /\
    forall P : string -> Prop,
      Forall P (routes_to_tps_order routes depot_id).1 -> Forall P order'.
Proof.
  unfold generate_neighbor_solution.
  destruct (routes_to_tps_order routes depot_id) as [order idxs]. cbn [fst snd].
  destruct (random_random s) as [u s1].
  destruct (2 <=? length order) eqn:Hlen.
  - apply Nat.leb_le in Hlen.
    pose proof (randint_range 0 (length order - 1) s1 ltac:(lia)) as R1.
    destruct (randint randbelow 0 (length order - 1) s1) as [i1 s2].
    pose proof (randint_range 0 (length order - 1) s2 ltac:(lia)) as R2.
    destruct (randint randbelow 0 (length order - 1) s2) as [i2 s3].
    cbn [fst] in R1, R2.
    destruct (Qlt_bool u (1 # 2)); cbn [andb];
      destruct (decide (i1 ≠ i2)); eexists _, _; (split; [reflexivity|]);
      split; try done.
    + apply swap_items_length.
    + intros P. apply swap_items_Forall; lia.
    + apply relocate_length. lia.
    + intros P. apply relocate_Forall. lia.
  - rewrite andb_false_r. eexists _, _. split; [reflexivity|]. done.
Qed.

(** C5: flattening a depot-framed solution and rebuilding it gives the
    solution back; and a neighbour produced by [generate_neighbor_solution]
    has the same vehicles, each with a depot-framed route of the same length
    and the same number of stops as before. *)
Theorem flatten_roundtrip_and_neighbor_shape routes depot_id s :
  depot_framed routes depot_id ->
  tps_order_to_routes (routes_to_tps_order routes depot_id).1
                      (routes_to_tps_order routes depot_id).2
                      (py_sorted (keys routes)) depot_id = routes /\
  let out := fst (generate_neighbor_solution random_random randbelow routes depot_id s) in
  dom out = dom routes /\
  forall tid r, routes !! tid = Some r ->
    exists r', out !! tid = Some r' /\
      framed_route depot_id r' /\
      stop_count depot_id r' = stop_count depot_id r /\
      length r' = length r.
Proof.
  intros Hframed. split; [by apply flatten_rebuild_roundtrip|].
  destruct (generate_neighbor_solution_order routes depot_id s)
    as (order' & s' & -> & Hlen & Hall).
  rewrite routes_to_tps_order_eq in *. simpl in *.
  split.
  - apply set_eq. intros tid. rewrite !elem_of_dom.
    destruct (routes !! tid) as [r|] eqn:Hr.
    + destruct (rebuild_lookup depot_id routes order' tid r Hlen Hr) as (st & e & -> & _).
      split; by eauto.
    + rewrite (rebuild_lookup_None depot_id routes order' _ tid Hr). done.
  - intros tid r Hr.
    destruct (rebuild_lookup depot_id routes order' tid r Hlen Hr)
      as (st & e & -> & Hsl & _).
    eexists. split; [done|].
    assert (Hnd : depot_id ∉ slice order' st e).
    { assert (Forall (fun x => x ≠ depot_id) order') as Hf.
      { apply Hall, concat_strip_no_depot. }
      unfold slice. intros Hin.
      assert (Forall (fun x => x ≠ depot_id) (take (e - st) (drop st order'))) as Hf'
        by (by apply Forall_take, Forall_drop).
      rewrite Forall_forall in Hf'. by apply (Hf' depot_id). }
    assert (Hfr : framed_route depot_id ([depot_id] ++ slice order' st e ++ [depot_id])).
    { by exists (slice order' st e). }
    split; [done|].
    destruct (strip_framed depot_id _ Hfr) as (stops & Heq & Hst & _).
    apply app_inv_head, app_inv_tail in Heq. subst stops.
    destruct (strip_framed depot_id r (Hframed _ _ Hr)) as (stops & -> & Hst' & _).
    unfold stop_count. rewrite Hst, Hsl, Hst'.
    split; [done|]. rewrite !length_app, Hsl, Hst'. done.
Qed.

End Neighbor.
(** ** sa_optimizer.py: the annealing loop *)

Section Annealing.
Context (fsqrt : Q -> Q) {rng : Type}
        (random_random : rng -> Q * rng) (randbelow : nat -> rng -> nat * rng)
        (metropolis : Q -> fdiff -> Q -> result bool)
        (g : Graph) (depot_id : string).

Local Abbreviation cost := (calculate_total_distance fsqrt g).
Local Abbreviation trial := (sa_trial fsqrt random_random randbelow metropolis g depot_id).
Local Abbreviation trials := (sa_trials fsqrt random_random randbelow metropolis g depot_id).
Local Abbreviation cooling fuel := (sa_cooling fsqrt random_random randbelow metropolis fuel g depot_id).

Lemma sa_init_inv routes (s : rng) : sa_inv fsqrt g (cost routes) (sa_init fsqrt g routes s).
Proof. unfold sa_inv, sa_init. simpl. done. Qed.

Lemma sa_trial_inv c0 temperature st st' :
  sa_inv fsqrt g c0 st -> trial temperature st = Ok st' -> sa_inv fsqrt g c0 st'.
Proof.
  intros (Hbest & Hhead & Hlast & Hasc). unfold sa_trial.
  destruct (generate_neighbor_solution _ _ _ _ _) as [nr s1].
  set (nc := cost nr).
  assert (Hh : exists h, best_history st = best_cost st :: h).
  { destruct (best_history st); [done|]. injection Hhead as ->. by eexists. }
  destruct Hh as [h Hh].
  assert (Hkeep : forall s' : rng, sa_inv fsqrt g c0
            (mkSA nr (best_routes st) nc (best_cost st) s' (best_cost st :: best_history st)) /\
          sa_inv fsqrt g c0
            (mkSA (current_routes st) (best_routes st) (current_cost st) (best_cost st) s'
                  (best_cost st :: best_history st))).
  { intros s'. unfold sa_inv; simpl. rewrite Hh in *.
    split; (split_and!; [done | done | exact Hlast | apply fle_refl | done]). }
  assert (Hacc : forall (s' : rng) st',
    (if flt nc (best_cost st)
     then Ok (mkSA nr nr nc nc s' (nc :: best_history st))
     else Ok (mkSA nr (best_routes st) nc (best_cost st) s' (best_cost st :: best_history st)))
    = Ok st' -> sa_inv fsqrt g c0 st').
  { intros s' st0. destruct (flt nc (best_cost st)) eqn:Hlt; intros [= <-].
    - unfold sa_inv; simpl. rewrite Hh in *.
      split_and!; [done | done | exact Hlast | by apply flt_fle | done].
    - apply Hkeep. }
  destruct (fdiff_neg (fsub nc (current_cost st))).
  - apply Hacc.
  - destruct (random_random s1) as [u s2].
    destruct (metropolis u _ temperature) as [[|]|e]; [apply Hacc | | done].
    intros [= <-]. apply Hkeep.
Qed.

Lemma sa_trials_inv c0 temperature n : forall st st',
  sa_inv fsqrt g c0 st -> trials temperature n st = Ok st' -> sa_inv fsqrt g c0 st'.
Proof.
  induction n as [|n IH]; intros st st' Hinv; simpl; [by intros [= <-]|].
  destruct (trial temperature st) as [st1|e] eqn:H1; [|done].
  apply IH. by eapply sa_trial_inv.
Qed.

Lemma sa_cooling_inv c0 rate n t_min fuel : forall temperature st st',
  sa_inv fsqrt g c0 st -> cooling fuel rate n t_min temperature st = Some (Ok st') ->
  sa_inv fsqrt g c0 st'.
Proof.
  induction fuel as [|fuel IH]; intros temperature st st' Hinv; simpl.
  - destruct (Qlt_bool t_min temperature); [done | by intros [= <-]].
  - destruct (Qlt_bool t_min temperature); [|by intros [= <-]].
    destruct (trials temperature n st) as [st1|e] eqn:H1; [|done].
    apply IH. by eapply sa_trials_inv.
Qed.

Lemma each_at_most_next_head_last h a c :
  each_at_most_next h -> head h = Some a -> last h = Some c -> fle a c.
Proof.
  revert a. induction h as [|x h IH]; intros a Hasc Hhead Hlast; [done|].
  injection Hhead as ->. destruct h as [|y h].
  - injection Hlast as ->. apply fle_refl.
  - destruct Hasc as [Hxy Hasc]. eapply fle_trans; [exact Hxy|].
    apply IH; try done.
Qed.

(** Termination of the loop. *)
Lemma sa_trial_returns temperature st :
  metropolis_defined metropolis ->
  (0 < temperature)%Q -> exists st', trial temperature st = Ok st'.
Proof.
  intros metropolis_ok HT. unfold sa_trial.
  destruct (generate_neighbor_solution _ _ _ _ _) as [nr s1].
  destruct (fdiff_neg _) eqn:Hneg.
  - destruct (flt _ _); by eexists.
  - destruct (random_random s1) as [u s2].
    destruct (metropolis_ok u _ temperature HT Hneg) as [b ->].
    destruct b; [destruct (flt _ _)|]; by eexists.
Qed.

Lemma sa_trials_return temperature n : forall st,
  metropolis_defined metropolis ->
  (0 < temperature)%Q -> exists st', trials temperature n st = Ok st'.
Proof.
  induction n as [|n IH]; intros st Hm HT; simpl; [by eexists|].
  destruct (sa_trial_returns temperature st Hm HT) as [st1 ->]. by apply IH.
Qed.

Lemma sa_cooling_returns rate n t_min :
  metropolis_defined metropolis ->
  (0 < t_min)%Q -> (0 < rate)%Q -> (rate < 1)%Q ->
  forall (N : nat) temperature st,
    (temperature <= t_min * (1 + inject_Z (Z.of_nat N) * (1 - rate)))%Q ->
    exists st', cooling N rate n t_min temperature st = Some (Ok st').
Proof.
  intros Hm Hmin Hr0 Hr1. induction N as [|N IH]; intros temperature st Hle; simpl.
  - destruct (Qlt_bool t_min temperature) eqn:Hlt; [|by eexists].
    apply Qlt_bool_iff in Hlt. simpl in Hle.
    assert (Heq : (t_min * (1 + inject_Z 0 * (1 - rate)) == t_min)%Q)
      by (unfold inject_Z; ring).
    rewrite Heq in Hle. lra.
  - destruct (Qlt_bool t_min temperature) eqn:Hlt; [|by eexists].
    apply Qlt_bool_iff in Hlt.
    destruct (sa_trials_return temperature n st Hm ltac:(lra)) as [st1 ->].
    apply IH.
    rewrite Nat2Z.inj_succ in Hle. unfold Z.succ in Hle. rewrite inject_Z_plus in Hle.
    set (k := inject_Z (Z.of_nat N)) in *.
    assert (0 <= k)%Q.
    { unfold k. change 0%Q with (inject_Z 0). rewrite <-Zle_Qle. lia. }
    assert (inject_Z 1 == 1)%Q by reflexivity.
    nra.
Qed.

Lemma enough_levels (t0 t_min rate : Q) :
  (0 < t_min)%Q -> (rate < 1)%Q ->
  exists N : nat, (t0 <= t_min * (1 + inject_Z (Z.of_nat N) * (1 - rate)))%Q.
Proof.
  intros Hmin Hr1.
  set (q := (t0 / (t_min * (1 - rate)))%Q).
  exists (Z.to_nat (Qceiling q)).
  assert (Hq : (q <= inject_Z (Z.of_nat (Z.to_nat (Qceiling q))))%Q).
  { eapply Qle_trans; [apply Qle_ceiling|]. rewrite <-Zle_Qle. lia. }
  set (k := inject_Z _) in *.
  assert (Hpos : (0 < t_min * (1 - rate))%Q) by nra.
  assert (Ht0 : (t0 == q * (t_min * (1 - rate)))%Q).
  { unfold q. field. lra. }
  nra.
Qed.

(** C3: whenever the run returns, the returned solution costs at most the
    input solution, the tracked best cost is the cost of the returned solution,
    and over the whole run the best cost at every check is at most the best
    cost at the check before it, starting from the cost of the input.  And
    the run does return under a floor that is at least the least normal
    double, a cooling rate strictly between 0 and 1 and an acceptance test
    that does not raise.  (Below the least normal double the rounded product
    [temperature * cooling_rate] can give the temperature back, and the loop
    of the code need not end: 100 cooled by 0.995 stays at 99 * 2 ** -1074.) *)
Theorem sa_best_is_monotone routes t0 rate n t_min (s : rng) :
  (forall fuel st,
     sa_run fsqrt random_random randbelow metropolis fuel g routes depot_id
            t0 rate n t_min s = Some (Ok st) ->
     simulated_annealing_optimize fsqrt random_random randbelow metropolis
       fuel g routes depot_id t0 rate n t_min s = Some (Ok (best_routes st)) /\
     fle (cost (best_routes st)) (cost routes) /\
     best_cost st = cost (best_routes st) /\
     head (best_history st) = Some (best_cost st) /\
     last (best_history st) = Some (cost routes) /\
     each_at_most_next (best_history st)) /\
  (metropolis_defined metropolis ->
   (min_normal <= t_min)%Q -> (0 < rate)%Q -> (rate < 1)%Q ->
   exists fuel st,
     sa_run fsqrt random_random randbelow metropolis fuel g routes depot_id
            t0 rate n t_min s = Some (Ok st)).
Proof.
  split.
  - intros fuel st Hrun. unfold simulated_annealing_optimize. rewrite Hrun.
    split; [done|].
    destruct (sa_cooling_inv (cost routes) rate n t_min fuel t0 _ st
                (sa_init_inv routes s) Hrun) as (Hbest & Hhead & Hlast & Hasc).
    split_and!; try done.
    rewrite <-Hbest. by eapply each_at_most_next_head_last.
  - intros Hm Hnormal Hr0 Hr1.
    assert (Hmin : (0 < t_min)%Q) by (eapply Qlt_le_trans; [|exact Hnormal]; done).
    destruct (enough_levels t0 t_min rate Hmin Hr1) as [N HN].
    destruct (sa_cooling_returns rate n t_min Hm Hmin Hr0 Hr1 N t0
                (sa_init fsqrt g routes s) HN) as [st' Hst'].
    by exists N, st'.
Qed.

End Annealing.
(** ** greedy_init.py *)

Lemma foldl_insert_lookup_ne {A B} (key : A -> string) (val : A -> B) l :
  forall (m0 : gmap string B) k,
    k ∉ key <$> l -> foldl (fun m a => <[key a := val a]> m) m0 l !! k = m0 !! k.
Proof.
  induction l as [|a l IH]; intros m0 k Hk; [done|]. simpl in *.
  apply not_elem_of_cons in Hk as [Hne Hk].
  rewrite IH by done. by apply lookup_insert_ne.
Qed.

Lemma foldl_insert_lookup {A B} (key : A -> string) (val : A -> B) l :
  NoDup (key <$> l) ->
  forall (m0 : gmap string B) x,
    x ∈ l -> foldl (fun m a => <[key a := val a]> m) m0 l !! key x = Some (val x).
Proof.
  induction l as [|a l IH]; intros Hnd m0 x Hx; [by inversion Hx|]. simpl in *.
  apply NoDup_cons in Hnd as [Ha Hnd].
  apply elem_of_cons in Hx as [->|Hx].
  - rewrite foldl_insert_lookup_ne by done. apply lookup_insert_eq.
  - by apply IH.
Qed.

Lemma foldl_insert_lookup_Some {A B} (key : A -> string) (val : A -> B) l :
  forall (m0 : gmap string B) k v,
    foldl (fun m a => <[key a := val a]> m) m0 l !! k = Some v ->
    m0 !! k = Some v \/ exists a, a ∈ l /\ key a = k /\ val a = v.
Proof.
  induction l as [|a l IH]; intros m0 k v H; [by left|]. simpl in H.
  apply IH in H as [H|(a' & Hin & <- & <-)].
  - rewrite lookup_insert in H. destruct (decide (key a = k)) as [<-|].
    + injection H as <-. right. exists a. split; [left|done].
    + by left.
  - right. exists a'. split; [by right|done].
Qed.

Lemma route_load_snoc d r n :
  (route_load d (r ++ [n]) == route_load d r + demand (d !!! n))%Q.
Proof.
  induction r as [|x r IH]; simpl; [ring|]. rewrite IH. ring.
Qed.

Lemma at_most_once_append routes tid n :
  at_most_once routes ->
  (forall t r, routes !! t = Some r -> n ∉ r) ->
  at_most_once (alter (fun r => r ++ [n]) tid routes).
Proof.
  intros Hamo Hfresh t1 t2 r1 r2 i j m H1 H2 Hi Hj.
  rewrite lookup_alter in H1, H2.
  assert (Hcase : forall t r k,
    (if decide (tid = t) then (fun r => r ++ [n]) <$> routes !! tid else routes !! t) = Some r ->
    r !! k = Some m ->
    (exists r0, routes !! t = Some r0 /\ r0 !! k = Some m) \/
    (t = tid /\ m = n /\ exists r0, routes !! tid = Some r0 /\ k = length r0)).
  { intros t r k Ht Hk. destruct (decide (tid = t)) as [<-|]; [|left; by eauto].
    destruct (routes !! tid) as [r0|] eqn:Hr0; [|done]. injection Ht as <-.
    apply lookup_app_Some in Hk as [Hk|[Hlen Hk]]; [left; by eauto|].
    right. apply list_lookup_singleton_Some in Hk as [Hk ->].
    split_and!; try done. exists r0. split; [done|lia]. }
  destruct (Hcase _ _ _ H1 Hi) as [(q1 & Hq1 & Hi1)|(-> & -> & q1 & Hq1 & ->)],
           (Hcase _ _ _ H2 Hj) as [(q2 & Hq2 & Hj2)|(-> & Hmn & q2 & Hq2 & ->)].
  - by eapply Hamo.
  - subst m. exfalso. eapply Hfresh; [exact Hq1|]. by eapply list_elem_of_lookup_2.
  - exfalso. eapply Hfresh; [exact Hq2|]. by eapply list_elem_of_lookup_2.
  - split; [done|]. congruence.
Qed.

(** The site picked by the search loop is one of the candidates and fits. *)
Lemma nearest_feasible_Some fsqrt g d loc cap cands b :
  fst (nearest_feasible fsqrt g d loc cap cands) = Some b ->
  b ∈ cands /\ (demand (d !!! b) <= cap)%Q.
Proof.
  unfold nearest_feasible.
  assert (H : forall init,
    (forall b0, fst init = Some b0 -> b0 ∈ cands /\ (demand (d !!! b0) <= cap)%Q) ->
    forall l, Forall (fun x => x ∈ cands) l ->
    fst (foldl (fun '(best_tps_node, best_distance) tps_node_id =>
           let tps := d !!! tps_node_id in
           if Qlt_bool cap (demand tps) then (best_tps_node, best_distance)
           else
             let distance := euclidean fsqrt g loc tps_node_id in
             if flt distance best_distance then (Some tps_node_id, distance)
             else (best_tps_node, best_distance)) init l) = Some b ->
    b ∈ cands /\ (demand (d !!! b) <= cap)%Q).
  { intros init Hinit l. revert init Hinit.
    induction l as [|x l IH]; intros [bn bd] Hinit Hsub; simpl; [apply Hinit|].
    inversion Hsub as [|? ? Hx Hl]; subst.
    apply IH; [|done].
    destruct (Qlt_bool cap (demand (d !!! x))) eqn:Hfit; [done|].
    destruct (flt _ bd); [|done]. simpl. intros b0 [= <-].
    split; [done|].
    apply not_true_iff_false in Hfit. rewrite Qlt_bool_iff in Hfit.
    by apply Qnot_lt_le. }
  apply (H (None, Inf)); [done|]. by apply Forall_forall.
Qed.

Lemma NoDup_fmap_eq {A B} (f : A -> B) (l : list A) x y :
  NoDup (f <$> l) -> x ∈ l -> y ∈ l -> f x = f y -> x = y.
Proof.
  induction l as [|a l IH]; intros Hnd Hx Hy Hf; [by inversion Hx|].
  simpl in Hnd. apply NoDup_cons in Hnd as [Ha Hnd].
  apply elem_of_cons in Hx as [->|Hx], Hy as [->|Hy]; try done.
  - exfalso. apply Ha. rewrite Hf. by apply list_elem_of_fmap_2.
  - exfalso. apply Ha. rewrite <-Hf. by apply list_elem_of_fmap_2.
  - by apply IH.
Qed.

Section GreedyPass.
Context (fsqrt : Q -> Q) (set_iter : gset string -> list string) (g : Graph).
Hypothesis set_iter_ok : enumerates set_iter.
Context (d : gmap string TPS) (sites : gset string) (trucks : list Truck).
Hypothesis trucks_NoDup : NoDup (truck_id <$> trucks).

Lemma set_iter_elem s n : n ∈ set_iter s <-> n ∈ s.
Proof. rewrite (set_iter_ok s). apply elem_of_elements. Qed.

Lemma set_iter_NoDup s : NoDup (set_iter s).
Proof. rewrite (set_iter_ok s). apply NoDup_elements. Qed.

(** The loop of one vehicle. *)
Lemma fill_truck_inv t (routes0 : gmap string (list string)) fuel : forall routes remaining loc cc,
  t ∈ trucks ->
  at_most_once routes ->
  remaining ⊆ sites ->
  (forall tid r n, routes !! tid = Some r -> n ∈ r -> (n ∉ remaining) /\ (n ∈ sites)) ->
  (forall n, n ∈ sites -> n ∈ remaining \/ exists tid, on_route routes tid n) ->
  (exists r, routes !! truck_id t = Some r /\
     (route_load d r + cc <= capacity t)%Q /\ (0 <= cc)%Q) ->
  (forall k, k ≠ truck_id t -> routes !! k = routes0 !! k) ->
  let '(routes', remaining') :=
    fill_truck fsqrt set_iter fuel g d (truck_id t) routes remaining loc cc in
  at_most_once routes' /\
  remaining' ⊆ sites /\
  (forall tid r n, routes' !! tid = Some r -> n ∈ r -> (n ∉ remaining') /\ (n ∈ sites)) /\
  (forall n, n ∈ sites -> n ∈ remaining' \/ exists tid, on_route routes' tid n) /\
  (exists r, routes' !! truck_id t = Some r /\ (route_load d r <= capacity t)%Q) /\
  (forall k, k ≠ truck_id t -> routes' !! k = routes0 !! k).
Proof.
  induction fuel as [|fuel IH]; intros routes remaining loc cc Ht Hamo Hsub Hb Hc Hl Ho.
  { simpl. split_and!; try done. destruct Hl as (r & Hr & Hle & Hcc).
    exists r. split; [done|]. lra. }
  simpl. destruct (decide (remaining = ∅)) as [Hemp|Hne].
  { split_and!; try done. destruct Hl as (r & Hr & Hle & Hcc).
    exists r. split; [done|]. lra. }
  destruct (fst (nearest_feasible fsqrt g d loc cc (set_iter remaining))) as [b|] eqn:Hpick.
  2:{ split_and!; try done. destruct Hl as (r & Hr & Hle & Hcc).
      exists r. split; [done|]. lra. }
  apply nearest_feasible_Some in Hpick as [Hin Hfit].
  apply set_iter_elem in Hin.
  destruct Hl as (r & Hr & Hle & Hcc).
  assert (Hfresh : forall t0 r0, routes !! t0 = Some r0 -> b ∉ r0).
  { intros t0 r0 Hr0 Hb0. by destruct (Hb _ _ _ Hr0 Hb0). }
  assert (Hmem : forall tid r1 n,
    alter (fun r => r ++ [b]) (truck_id t) routes !! tid = Some r1 -> n ∈ r1 ->
    n = b \/ exists r0, routes !! tid = Some r0 /\ n ∈ r0).
  { intros tid r1 n H1 Hn. rewrite lookup_alter in H1.
    destruct (decide (truck_id t = tid)) as [<-|]; [|right; by eauto].
    rewrite Hr in H1. injection H1 as <-.
    apply elem_of_app in Hn as [Hn|Hn%list_elem_of_singleton]; [right; by eauto | by left]. }
  apply IH; try done.
  - by apply at_most_once_append.
  - etrans; [|exact Hsub]. apply subseteq_difference_l. done.
  - intros tid r1 n H1 Hn.
    destruct (Hmem _ _ _ H1 Hn) as [->|(r0 & Hr0 & Hn0)].
    + split; [|by apply Hsub]. rewrite elem_of_difference, elem_of_singleton. tauto.
    + destruct (Hb _ _ _ Hr0 Hn0) as [Hnr Hns]. split; [|done].
      rewrite elem_of_difference. tauto.
  - intros n Hn. destruct (decide (n = b)) as [->|Hnb].
    + right. exists (truck_id t), (r ++ [b]). split.
      * by rewrite lookup_alter_eq, Hr.
      * apply elem_of_app. right. by apply list_elem_of_singleton.
    + destruct (Hc n Hn) as [Hrem|(tid & r0 & Hr0 & Hn0)].
      * left. rewrite elem_of_difference, elem_of_singleton. tauto.
      * right. exists tid. destruct (decide (truck_id t = tid)) as [<-|Hk].
        -- exists (r ++ [b]). rewrite lookup_alter_eq, Hr. split; [done|].
           rewrite Hr in Hr0. injection Hr0 as <-. apply elem_of_app. by left.
        -- exists r0. by rewrite lookup_alter_ne.
  - exists (r ++ [b]). split; [by rewrite lookup_alter_eq, Hr|].
    rewrite route_load_snoc. split; lra.
  - intros k Hk. rewrite lookup_alter_ne by done. by apply Ho.
Qed.

(** The pass over the vehicles. *)
Lemma pass_loop_inv (caps : gmap string Q) loc todo : forall routes remaining,
  (forall t, t ∈ todo -> t ∈ trucks) ->
  NoDup (truck_id <$> todo) ->
  (forall t, t ∈ todo -> caps !!! truck_id t = capacity t /\ (0 <= capacity t)%Q) ->
  pass_inv d sites trucks todo routes remaining ->
  let '(routes', remaining') :=
    foldl (fun '(routes, remaining_tps) truck =>
             fill_truck fsqrt set_iter (size remaining_tps) g d (truck_id truck)
               routes remaining_tps loc (caps !!! truck_id truck))
          (routes, remaining) todo in
  pass_inv d sites trucks [] routes' remaining'.
Proof.
  induction todo as [|t todo IH]; intros routes remaining Hin Hnd Hcap Hinv; [done|].
  simpl. simpl in Hnd. apply NoDup_cons in Hnd as [Ht Hnd].
  destruct Hinv as (Hamo & Hsub & Hb & Hc & He & Htodo).
  destruct (Hcap t) as [Hcapt Hpos]; [left|].
  pose proof (fill_truck_inv t routes (size remaining) routes remaining loc
                (caps !!! truck_id t)) as Hfill.
  destruct (fill_truck fsqrt set_iter (size remaining) g d (truck_id t)
              routes remaining loc (caps !!! truck_id t)) as [routes1 rem1].
  destruct Hfill as (Hamo1 & Hsub1 & Hb1 & Hc1 & Hl1 & Ho1); try done.
  { apply Hin. left. }
  { exists []. split; [apply Htodo; left|]. simpl. rewrite Hcapt. split; lra. }
  apply IH; try done.
  - intros t' Ht'. apply Hin. by right.
  - intros t' Ht'. apply Hcap. by right.
  - split_and!; try done.
    + intros t' Ht'. destruct (decide (truck_id t' = truck_id t)) as [Heq|Hne].
      * assert (t' = t) as ->.
        { eapply (NoDup_fmap_eq truck_id trucks); try done. apply Hin. left. }
        done.
      * rewrite Ho1 by done. by apply He.
    + intros t' Ht'. rewrite Ho1; [apply Htodo; by right|].
      intros Heq. apply Ht. rewrite <-Heq. by apply list_elem_of_fmap_2.
Qed.

End GreedyPass.
Lemma first_fit_routes trucks n dm : forall (routes : gmap string (list string)) caps,
  fst (first_fit trucks n dm routes caps) = routes \/
  exists tid, fst (first_fit trucks n dm routes caps) = alter (fun r => r ++ [n]) tid routes.
Proof.
  induction trucks as [|t trucks IH]; intros routes caps; simpl; [by left|].
  destruct (Qle_bool dm _); [right; by eexists | apply IH].
Qed.

Lemma leftover_pass_at_most_once d trucks leftover : forall routes caps,
  NoDup leftover ->
  at_most_once routes ->
  (forall n t r, n ∈ leftover -> routes !! t = Some r -> n ∉ r) ->
  at_most_once (fst (leftover_pass d trucks routes caps leftover)).
Proof.
  unfold leftover_pass.
  induction leftover as [|n leftover IH]; intros routes caps Hnd Hamo Hfresh; [done|].
  simpl. apply NoDup_cons in Hnd as [Hn Hnd].
  destruct (first_fit trucks n (demand (d !!! n)) routes caps) as [routes1 caps1] eqn:Hff.
  assert (Hr1 : routes1 = routes \/ exists tid, routes1 = alter (fun r => r ++ [n]) tid routes).
  { pose proof (first_fit_routes trucks n (demand (d !!! n)) routes caps) as H.
    by rewrite Hff in H. }
  apply IH; [done | |].
  - destruct Hr1 as [->|[tid ->]]; [done|].
    apply at_most_once_append; [done|]. intros t r Hr. eapply Hfresh; [left|done].
  - intros m t r Hm Hr. destruct Hr1 as [->|[tid ->]].
    + eapply Hfresh; [by right|done].
    + rewrite lookup_alter in Hr.
      destruct (decide (tid = t)) as [<-|]; [|eapply Hfresh; [by right|done]].
      destruct (routes !! tid) as [r0|] eqn:Hr0; [|done]. injection Hr as <-.
      rewrite elem_of_app, list_elem_of_singleton. intros [Hin| ->]; [|done].
      eapply Hfresh; [by right | exact Hr0 | done].
Qed.

Section GreedyTotal.
Context (fsqrt : Q -> Q) (set_iter : gset string -> list string) (g : Graph).
Hypothesis set_iter_ok : enumerates set_iter.

(** The fuel of the loop of one vehicle is never exhausted: one more round
    changes nothing. *)
Lemma fill_truck_fuel_enough d tid fuel : forall routes remaining loc cc,
  size remaining <= fuel ->
  fill_truck fsqrt set_iter (S fuel) g d tid routes remaining loc cc
  = fill_truck fsqrt set_iter fuel g d tid routes remaining loc cc.
Proof.
  induction fuel as [|fuel IH]; intros routes remaining loc cc Hsize.
  - assert (remaining = ∅) as -> by (apply leibniz_equiv, size_empty_iff; lia).
    simpl. by rewrite decide_True.
  - change (fill_truck fsqrt set_iter (S (S fuel)) g d tid routes remaining loc cc)
      with (if decide (remaining = ∅) then (routes, remaining)
            else match fst (nearest_feasible fsqrt g d loc cc (set_iter remaining)) with
                 | None => (routes, remaining)
                 | Some b =>
                     fill_truck fsqrt set_iter (S fuel) g d tid
                       (alter (fun r => r ++ [b]) tid routes) (remaining ∖ {[ b ]}) b
                       (cc - demand (d !!! b))%Q
                 end).
    change (fill_truck fsqrt set_iter (S fuel) g d tid routes remaining loc cc)
      with (if decide (remaining = ∅) then (routes, remaining)
            else match fst (nearest_feasible fsqrt g d loc cc (set_iter remaining)) with
                 | None => (routes, remaining)
                 | Some b =>
                     fill_truck fsqrt set_iter fuel g d tid
                       (alter (fun r => r ++ [b]) tid routes) (remaining ∖ {[ b ]}) b
                       (cc - demand (d !!! b))%Q
                 end).
    destruct (decide (remaining = ∅)); [done|].
    destruct (fst (nearest_feasible fsqrt g d loc cc (set_iter remaining))) as [b|] eqn:Hpick;
      [|done].
    apply IH.
    apply nearest_feasible_Some in Hpick as [Hin _].
    apply (set_iter_elem set_iter set_iter_ok) in Hin.
    assert (size (remaining ∖ {[ b ]}) = size remaining - 1) as ->; [|lia].
    rewrite size_difference by (by apply singleton_subseteq_l).
    by rewrite size_singleton.
Qed.

Lemma empty_routes_lookup trucks tid r : empty_routes trucks !! tid = Some r -> r = [].
Proof.
  unfold empty_routes. intros H.
  apply (foldl_insert_lookup_Some truck_id (fun _ => [])) in H as [H|(a & _ & _ & <-)]; [|done].
  by rewrite lookup_empty in H.
Qed.

(** In exact arithmetic: for sites on distinct nodes and vehicles with
    distinct ids and non-negative capacities, no site is put on two routes
    (or twice on one); and when the nearest-neighbour pass leaves no site
    over, every site is on exactly one route and no vehicle is loaded beyond
    its capacity.  (On doubles the remaining capacity is a chain of rounded
    subtractions and the last half fails; see the binary64 kernels below.) *)
Theorem greedy_assignment tps_list depot_id trucks :
  NoDup (tps_node_id <$> tps_list) ->
  NoDup (truck_id <$> trucks) ->
  (forall t, t ∈ trucks -> (0 <= capacity t)%Q) ->
  at_most_once (greedy_initial_solution fsqrt set_iter g tps_list depot_id trucks) /\
  (snd (nearest_neighbour_pass fsqrt set_iter g tps_list depot_id trucks) = ∅ ->
   all_assigned_within_capacity tps_list trucks
     (greedy_initial_solution fsqrt set_iter g tps_list depot_id trucks)).
Proof.
  intros Hsites Htrucks Hcap.
  set (d := make_tps_dict tps_list).
  set (sites := (list_to_set (tps_node_id <$> tps_list) : gset string)).
  assert (Hinit : pass_inv d sites trucks trucks (empty_routes trucks) sites).
  { split_and!.
    - intros t1 t2 r1 r2 i j n H1 _ Hi _. apply empty_routes_lookup in H1 as ->. done.
    - done.
    - intros tid r n Hr Hn. apply empty_routes_lookup in Hr as ->. by inversion Hn.
    - intros n Hn. by left.
    - intros t Ht. exists []. split; [|simpl; by apply Hcap].
      by apply (foldl_insert_lookup truck_id (fun _ => [])).
    - intros t Ht. by apply (foldl_insert_lookup truck_id (fun _ => [])). }
  pose proof (pass_loop_inv fsqrt set_iter g set_iter_ok d sites trucks Htrucks
                (make_capacities trucks) depot_id trucks (empty_routes trucks) sites) as Hpass.
  unfold greedy_initial_solution, nearest_neighbour_pass.
  fold d. fold sites.
  destruct (foldl _ (empty_routes trucks, sites) trucks) as [routes1 rem1].
  destruct Hpass as (Hamo & Hsub & Hb & Hc & He & _); try done.
  { intros t Ht. split; [|by apply Hcap].
    apply lookup_total_correct.
    by apply (foldl_insert_lookup truck_id capacity). }
  simpl. split.
  - destruct (decide (rem1 = ∅)) as [|Hne]; [done|].
    apply leftover_pass_at_most_once; [by apply set_iter_NoDup | done |].
    intros n t r Hn Hr Hin. apply (set_iter_elem set_iter set_iter_ok) in Hn.
    by destruct (Hb _ _ _ Hr Hin).
  - intros ->. rewrite decide_True by done. split; [|done].
    intros tps Htps.
    destruct (Hc (tps_node_id tps)) as [Hrem|(tid & Hon)].
    { apply elem_of_list_to_set. by apply list_elem_of_fmap_2. }
    { by apply not_elem_of_empty in Hrem. }
    exists tid. split; [done|].
    intros tid' (r' & Hr' & Hin'). destruct Hon as (r & Hr & Hin).
    apply list_elem_of_lookup in Hin as [i Hi]. apply list_elem_of_lookup in Hin' as [j Hj].
    by destruct (Hamo _ _ _ _ _ _ _ Hr' Hr Hj Hi).
Qed.

End GreedyTotal.
(** ** astar.py: the heap *)

Lemma Qlt_bool_false a b : Qlt_bool a b = false -> (b <= a)%Q.
Proof.
  intros H. apply Qnot_lt_le. intros Hlt. apply Qlt_bool_iff in Hlt. congruence.
Qed.

Lemma flt_false_fle a b : flt a b = false -> fle b a.
Proof.
  destruct a, b; simpl; try done. apply Qlt_bool_false.
Qed.

Lemma feq_fle a b : feq a b = true -> fle a b.
Proof.
  destruct a, b; simpl; try done. intros H%Qeq_bool_iff. rewrite H. apply Qle_refl.
Qed.

Lemma entry_lt_fle (e1 e2 : entry) :
  entry_lt e1 e2 = true -> fle e1.1.1 e2.1.1.
Proof.
  destruct e1 as [[f1 c1] n1], e2 as [[f2 c2] n2]. simpl.
  intros [H|[H _]%andb_true_iff]%orb_true_iff; [by apply flt_fle | by apply feq_fle].
Qed.

Lemma entry_lt_false_fle (e1 e2 : entry) :
  entry_lt e1 e2 = false -> fle e2.1.1 e1.1.1.
Proof.
  destruct e1 as [[f1 c1] n1], e2 as [[f2 c2] n2]. simpl.
  intros [H _]%orb_false_iff. by apply flt_false_fle.
Qed.

Lemma extract_min_spec t : forall e m r,
  extract_min e t = (m, r) ->
  e :: t ≡ₚ m :: r /\ Forall (fun x : entry => fle m.1.1 x.1.1) (e :: t).
Proof.
  induction t as [|c t IH]; intros e m r H; simpl in H.
  - injection H as <- <-. split; [done|]. constructor; [apply fle_refl | constructor].
  - destruct (extract_min c t) as [m0 r0] eqn:Hmin.
    destruct (IH c m0 r0 Hmin) as [Hperm Hall].
    destruct (entry_lt m0 e) eqn:Hlt; injection H as <- <-.
    + split.
      * rewrite Hperm. apply perm_swap.
      * constructor; [by apply entry_lt_fle | done].
    + split; [done|].
      constructor; [apply fle_refl|].
      eapply Forall_impl; [exact Hall|]. intros x Hx. simpl in Hx.
      eapply fle_trans; [|exact Hx]. by apply entry_lt_false_fle.
Qed.

Lemma heappop_Some h e rest :
  heappop h = Some (e, rest) ->
  h ≡ₚ e :: rest /\ (forall x, x ∈ h -> fle e.1.1 x.1.1).
Proof.
  destruct h as [|e0 t]; [done|]. simpl. intros [= H].
  destruct (extract_min_spec t e0 e rest H) as [Hperm Hall].
  split; [done|]. by apply Forall_forall.
Qed.

Lemma heappop_None h : heappop h = None -> h = [].
Proof. by destruct h. Qed.

(** ** astar.py: one neighbour *)

(** What [relax] does, case by case. *)
Lemma relax_cases fsqrt g goal cur st nb w :
  relax fsqrt g goal cur st (nb, w) = st \/
  ((nb ∉ closed_set st) /\
   (match g_score st !! nb with
    | None => True
    | Some old => ((g_score st !!! cur) + w < old)%Q
    end) /\
   relax fsqrt g goal cur st (nb, w) =
     mkAstar ((fadd (Fin ((g_score st !!! cur) + w)) (euclidean fsqrt g nb goal),
               counter st, nb) :: open_set st)
             (S (counter st))
             (<[nb := ((g_score st !!! cur) + w)%Q]> (g_score st))
             (<[nb := fadd (Fin ((g_score st !!! cur) + w)) (euclidean fsqrt g nb goal)]>
                (f_score st))
             (<[nb := cur]> (came_from st))
             (closed_set st)).
Proof.
  unfold relax. destruct (decide (nb ∈ closed_set st)); [by left|].
  destruct (g_score st !! nb) as [old|] eqn:Hold.
  - destruct (Qlt_bool _ old) eqn:Hlt; [|by left].
    right. split; [done|]. split; [by apply Qlt_bool_iff|]. done.
  - right. done.
Qed.

(** When [relax] leaves the state alone, the neighbour is closed or its
    score is already at most the tentative one. *)
Lemma relax_unchanged fsqrt g goal cur st nb w :
  relax fsqrt g goal cur st (nb, w) = st ->
  nb ∈ closed_set st \/
  exists old, g_score st !! nb = Some old /\ (old <= (g_score st !!! cur) + w)%Q.
Proof.
  unfold relax. destruct (decide (nb ∈ closed_set st)); [by left|].
  destruct (g_score st !! nb) as [old|] eqn:Hold.
  - destruct (Qlt_bool _ old) eqn:Hlt.
    + intros H. apply (f_equal counter) in H. simpl in H. lia.
    + intros _. right. exists old. split; [done|]. by apply Qlt_bool_false.
  - intros H. apply (f_equal counter) in H. simpl in H. lia.
Qed.
(** ** astar.py: the bookkeeping invariant *)

Lemma relax_closed_set fsqrt g goal cur st nb :
  closed_set (relax fsqrt g goal cur st nb) = closed_set st.
Proof.
  destruct nb as [nb w].
  destruct (relax_cases fsqrt g goal cur st nb w) as [->|(_ & _ & ->)]; done.
Qed.

Lemma relax_fold_closed_set fsqrt g goal cur l : forall st,
  closed_set (foldl (relax fsqrt g goal cur) st l) = closed_set st.
Proof.
  induction l as [|nb l IH]; intros st; cbn [foldl]; [done|].
  by rewrite IH, relax_closed_set.
Qed.

Lemma relax_struct fsqrt g start goal cur st nb w :
  astar_struct g start st ->
  cur ∈ closed_set st -> (nb, w) ∈ get_neighbors g cur ->
  astar_struct g start (relax fsqrt g goal cur st (nb, w)).
Proof.
  intros Hs Hcur Hnb.
  destruct (relax_cases fsqrt g goal cur st nb w) as [->|(Hopen & _ & ->)]; [done|].
  destruct Hs as [Hsc Hroot Hscore Hlink Hck Hok Hord].
  destruct (Hck cur Hcur) as [[gc Hgc] _].
  rewrite (lookup_total_correct _ _ _ Hgc).
  assert (Hns : nb ≠ start) by (intros ->; done).
  assert (Hnc : nb ≠ cur) by (intros ->; done).
  constructor; simpl.
  - done.
  - by rewrite lookup_insert_ne.
  - by rewrite lookup_insert_ne.
  - intros n m. rewrite lookup_insert. destruct (decide (nb = n)) as [<-|Hne].
    + intros [= <-]. split; [done|]. exists gc, w.
      rewrite lookup_insert_ne by done. rewrite lookup_insert_eq. done.
    + intros Hcf. destruct (Hlink n m Hcf) as (Hm & gm & w' & Hedge & Hgm & Hgn).
      split; [done|]. exists gm, w'. split; [done|].
      rewrite !lookup_insert_ne; [done | done |]. intros ->. done.
  - intros n Hn. destruct (Hck n Hn) as [Hg Hc]. split.
    + rewrite lookup_insert. destruct (decide (nb = n)); [by eexists | done].
    + destruct Hc as [->|Hc]; [by left|]. right.
      rewrite lookup_insert. destruct (decide (nb = n)); [by eexists | done].
  - intros f c n [[= -> -> ->]|Hin]%elem_of_cons.
    + rewrite !lookup_insert_eq. split; [by eexists | right; by eexists].
    + destruct (Hok f c n Hin) as [Hg Hc]. split.
      * rewrite lookup_insert. destruct (decide (nb = n)); [by eexists | done].
      * destruct Hc as [->|Hc]; [by left|]. right.
        rewrite lookup_insert. destruct (decide (nb = n)); [by eexists | done].
  - destruct Hord as (cl & Hnd & Hcl & Hlast & Hdec).
    exists cl. split_and!; try done.
    intros pre n post Heq. destruct (Hdec pre n post Heq) as [->|(m & Hm & Hpost)]; [by left|].
    right. exists m. split; [|done].
    rewrite lookup_insert_ne; [done|]. intros ->.
    apply Hopen, Hcl. rewrite Heq. apply elem_of_app. right. left.
Qed.

Lemma relax_fold_struct fsqrt g start goal cur l : forall st,
  astar_struct g start st ->
  cur ∈ closed_set st -> (forall x, x ∈ l -> x ∈ get_neighbors g cur) ->
  astar_struct g start (foldl (relax fsqrt g goal cur) st l).
Proof.
  induction l as [|[nb w] l IH]; intros st Hs Hcur Hl; cbn [foldl]; [done|].
  apply IH.
  - apply relax_struct; [done | done | apply Hl; left].
  - by rewrite relax_closed_set.
  - intros x Hx. apply Hl. by right.
Qed.

Lemma stale_struct g start st rest :
  astar_struct g start st -> (forall x, x ∈ rest -> x ∈ open_set st) ->
  astar_struct g start
    (mkAstar rest (counter st) (g_score st) (f_score st) (came_from st) (closed_set st)).
Proof.
  intros [Hsc Hroot Hscore Hlink Hck Hok Hord] Hrest.
  constructor; simpl; try done.
  intros f c n Hin. by apply (Hok f c n), Hrest.
Qed.

Lemma close_struct g start st f c cur rest :
  astar_struct g start st ->
  (f, c, cur) ∈ open_set st -> cur ∉ closed_set st ->
  (forall x, x ∈ rest -> x ∈ open_set st) ->
  astar_struct g start
    (mkAstar rest (counter st) (g_score st) (f_score st) (came_from st)
             ({[ cur ]} ∪ closed_set st)).
Proof.
  intros [Hsc Hroot Hscore Hlink Hck Hok Hord] Hcur Hnew Hrest.
  constructor; simpl; try done.
  - apply elem_of_union. by right.
  - intros n m Hcf. destruct (Hlink n m Hcf) as [Hm Hex].
    split; [|done]. apply elem_of_union. by right.
  - intros n [->%elem_of_singleton|Hn]%elem_of_union; [by apply (Hok f c) | by apply Hck].
  - intros f' c' n Hin. by apply (Hok f' c' n), Hrest.
  - destruct Hord as (cl & Hnd & Hcl & Hlast & Hdec).
    exists (cur :: cl). split_and!.
    + constructor; [|done]. by rewrite Hcl.
    + intros n. rewrite elem_of_cons, elem_of_union, elem_of_singleton, Hcl. done.
    + destruct cl as [|x cl]; [done|]. done.
    + intros pre n post Heq. destruct pre as [|p pre]; simpl in Heq.
      * injection Heq as <- <-. right.
        destruct (Hok f c cur Hcur) as [_ [->|[m Hm]]]; [done|].
        exists m. split; [done|]. apply Hcl. by apply (Hlink cur m).
      * injection Heq as _ Heq. by apply (Hdec pre n post).
Qed.
(** ** astar.py: path reconstruction *)

Lemma chain_ends cf start n p :
  chain cf start n p -> head p = Some start /\ exists q, p = q ++ [n].
Proof.
  induction 1 as [|n m p Hcf Hch [IHh (q & ->)]].
  - split; [done|]. by exists [].
  - split.
    + destruct q; done.
    + by eexists.
Qed.

Lemma reconstruct_loop_chain cf start n p :
  cf !! start = None -> chain cf start n p ->
  forall fuel acc, length p <= S fuel ->
    reconstruct_loop fuel cf n acc = Some (acc ++ tail (reverse p)).
Proof.
  intros Hroot. induction 1 as [|n m p Hcf Hch IH]; intros fuel acc Hlen.
  - destruct fuel; simpl; rewrite Hroot; by rewrite app_nil_r.
  - destruct (chain_ends _ _ _ _ Hch) as [_ (q & ->)].
    rewrite length_app in Hlen. simpl in Hlen. rewrite length_app in Hlen. simpl in Hlen.
    destruct fuel as [|fuel]; [lia|].
    simpl. rewrite Hcf. rewrite IH by (rewrite length_app; simpl; lia).
    rewrite !reverse_app. simpl. by rewrite <-app_assoc.
Qed.

Lemma reconstruct_path_chain cf start n p :
  cf !! start = None -> chain cf start n p -> length p <= S (size cf) ->
  reconstruct_path cf n = Some p.
Proof.
  intros Hroot Hch Hlen. unfold reconstruct_path.
  rewrite (reconstruct_loop_chain cf start n p Hroot Hch) by done.
  destruct (chain_ends _ _ _ _ Hch) as [_ (q & ->)].
  simpl. rewrite reverse_app. simpl.
  f_equal. rewrite reverse_cons, reverse_involutive. done.
Qed.

Lemma struct_chain g start st n :
  astar_struct g start st -> n ∈ closed_set st ->
  exists p, chain (came_from st) start n p /\ length p <= S (size (came_from st)).
Proof.
  intros [Hsc Hroot Hscore Hlink Hck Hok (cl & Hnd & Hcl & Hlast & Hdec)] Hn.
  assert (Hlen : length cl <= S (size (came_from st))).
  { rewrite <-(size_list_to_set (C := gset string) cl) by done.
    rewrite <-size_dom.
    etrans; [apply (subseteq_size _ ({[ start ]} ∪ dom (came_from st)))|].
    - intros x Hx. apply elem_of_list_to_set in Hx. apply Hcl in Hx.
      destruct (Hck x Hx) as [_ [->|Hx']].
      + apply elem_of_union. left. by apply elem_of_singleton.
      + apply elem_of_union. right. by apply elem_of_dom.
    - rewrite size_union_alt, size_singleton.
      pose proof (subseteq_size (dom (came_from st) ∖ {[start]}) (dom (came_from st))
                    ltac:(apply subseteq_difference_l; done)). lia. }
  assert (Hgen : forall k post pre n0, length post <= k -> cl = pre ++ n0 :: post ->
            exists p, chain (came_from st) start n0 p /\ length p <= S (length post)).
  { induction k as [|k IH]; intros post pre n0 Hk Heq.
    - destruct post; [|simpl in Hk; lia].
      destruct (Hdec pre n0 [] Heq) as [->|(m & _ & Hm)]; [|by inversion Hm].
      exists [start]. split; [constructor | simpl; lia].
    - destruct (Hdec pre n0 post Heq) as [->|(m & Hcf & Hm)].
      + exists [start]. split; [constructor | simpl; lia].
      + apply list_elem_of_split in Hm as (pre' & post' & ->).
        destruct (IH post' (pre ++ n0 :: pre') m) as (p & Hp & Hlp).
        * rewrite length_app in Hk. simpl in Hk. lia.
        * rewrite Heq. by rewrite <-app_assoc.
        * exists (p ++ [n0]). split; [by econstructor|].
          rewrite !length_app. simpl. lia. }
  apply Hcl in Hn. apply list_elem_of_split in Hn as (pre & post & Heq).
  destruct (Hgen (length post) post pre n (le_n _) Heq) as (p & Hp & Hlp).
  exists p. split; [done|].
  rewrite Heq, length_app in Hlen. simpl in Hlen. lia.
Qed.

(** In a bookkeeping state, [reconstruct_path] returns for every closed node
    a list that starts at [start] and ends at the node. *)
Lemma struct_reconstruct g start st n :
  astar_struct g start st -> n ∈ closed_set st ->
  exists p, reconstruct_path (came_from st) n = Some p /\
    chain (came_from st) start n p.
Proof.
  intros Hs Hn. destruct (struct_chain g start st n Hs Hn) as (p & Hp & Hlen).
  exists p. split; [|done].
  eapply reconstruct_path_chain; [apply Hs | done | done].
Qed.

Lemma dict_get_elem (d : list (string * Q)) k v :
  NoDup d.*1 -> (k, v) ∈ d -> dict_get k d = Some v.
Proof.
  induction d as [|[k0 v0] d IH]; intros Hnd Hin; [by inversion Hin|].
  simpl in *. apply NoDup_cons in Hnd as [Hk0 Hnd].
  apply elem_of_cons in Hin as [[= -> ->]|Hin].
  - by rewrite decide_True.
  - rewrite decide_False; [by apply IH|].
    intros ->. apply Hk0. by apply (list_elem_of_fmap_2 fst d (k0, v)).
Qed.

Lemma dict_get_Some_elem (d : list (string * Q)) k v :
  dict_get k d = Some v -> (k, v) ∈ d.
Proof.
  induction d as [|[k0 v0] d IH]; [done|]. simpl.
  destruct (decide (k = k0)) as [->|]; [intros [= ->]; left | intros H; right; by apply IH].
Qed.

Lemma neighbors_NoDup g u : dicts_wf g -> NoDup (get_neighbors g u).*1.
Proof.
  intros Hwf. unfold get_neighbors.
  destruct (nodes g !! u) as [nd|] eqn:Hu; [by eapply Hwf | constructor].
Qed.

Lemma path_weight_snoc g q m n w : forall c,
  dict_get n (get_neighbors g m) = Some w ->
  path_weight g (q ++ [m]) = Some c ->
  exists c', path_weight g (q ++ [m; n]) = Some c' /\ (c' == c + w)%Q.
Proof.
  induction q as [|a q IH]; intros c Hw Hc.
  - simpl in *. rewrite Hw. injection Hc as <-. eexists. split; [done|]. ring.
  - destruct q as [|b q].
    + simpl in *. destruct (dict_get m (get_neighbors g a)) as [wa|]; [|done].
      rewrite Hw. injection Hc as <-. eexists. split; [done|]. ring.
    + change (path_weight g ((a :: b :: q) ++ [m]))
        with (match dict_get b (get_neighbors g a), path_weight g ((b :: q) ++ [m]) with
              | Some w, Some c => Some (w + c)%Q
              | _, _ => None
              end) in Hc.
      change (path_weight g ((a :: b :: q) ++ [m; n]))
        with (match dict_get b (get_neighbors g a), path_weight g ((b :: q) ++ [m; n]) with
              | Some w, Some c => Some (w + c)%Q
              | _, _ => None
              end).
      destruct (dict_get b (get_neighbors g a)) as [wa|]; [|done].
      destruct (path_weight g ((b :: q) ++ [m])) as [c0|] eqn:Hc0; [|done].
      injection Hc as <-.
      destruct (IH c0 Hw eq_refl) as (c' & -> & Hc').
      eexists. split; [done|]. rewrite Hc'. ring.
Qed.

(** The chain to a closed node is a path of the graph whose weight is the
    score of the node. *)
Lemma chain_path_weight g start st n p :
  dicts_wf g -> astar_struct g start st -> chain (came_from st) start n p ->
  exists c gn, path_weight g p = Some c /\ g_score st !! n = Some gn /\ (c == gn)%Q.
Proof.
  intros Hwf Hs. induction 1 as [|n m p Hcf Hch (c & gm & Hc & Hgm & Hcg)].
  - exists 0%Q, 0%Q. split; [done|]. split; [apply Hs | reflexivity].
  - destruct (as_link g start st Hs n m Hcf) as (_ & gm' & w & Hedge & Hgm' & Hgn).
    rewrite Hgm in Hgm'. injection Hgm' as <-.
    destruct (chain_ends _ _ _ _ Hch) as [_ (q & ->)].
    destruct (path_weight_snoc g q m n w c) as (c' & Hc' & Heq); [|done|].
    { apply dict_get_elem; [by apply neighbors_NoDup | done]. }
    exists c', (gm + w)%Q. rewrite <-app_assoc. split; [done|]. split; [done|].
    rewrite Heq, Hcg. reflexivity.
Qed.
(** ** astar.py: termination of the loop *)

Lemma pending_degree_foldr g C :
  pending_degree g C =
  foldr (fun '(k, nd) acc => if decide (k ∈ C) then acc else length (neighbors nd) + acc)
        0 (map_to_list (nodes g)).
Proof.
  unfold pending_degree. rewrite map_fold_foldr.
  induction (map_to_list (nodes g)) as [|[k nd] l IH]; simpl; [done|]. by rewrite IH.
Qed.

Lemma degree_sum_pending g : degree_sum g = pending_degree g ∅.
Proof.
  rewrite pending_degree_foldr. unfold degree_sum. rewrite map_fold_foldr.
  induction (map_to_list (nodes g)) as [|[k nd] l IH]; simpl; [done|]. by rewrite IH.
Qed.

Lemma pending_list_close (C : gset string) cur (l : list (string * Node)) :
  NoDup l.*1 -> cur ∉ C ->
  foldr (fun '(k, nd) acc => if decide (k ∈ {[ cur ]} ∪ C) then acc
                             else length (neighbors nd) + acc) 0 l
  + match list_to_map (M := gmap string Node) l !! cur with
    | Some nd => length (neighbors nd)
    | None => 0
    end
  = foldr (fun '(k, nd) acc => if decide (k ∈ C) then acc
                               else length (neighbors nd) + acc) 0 l.
Proof.
  intros Hnd Hcur. induction l as [|[k nd] l IH]; [done|].
  simpl in *. apply NoDup_cons in Hnd as [Hk Hnd]. specialize (IH Hnd).
  rewrite lookup_insert. destruct (decide (k = cur)) as [->|Hne].
  - rewrite decide_True by (apply elem_of_union; left; by apply elem_of_singleton).
    rewrite decide_False by done.
    assert (list_to_map (M := gmap string Node) l !! cur = None) as Hnone.
    { by apply not_elem_of_list_to_map_1. }
    rewrite Hnone in IH. lia.
  - destruct (decide (k ∈ C)) as [HkC|HkC].
    + rewrite decide_True by (apply elem_of_union; by right). done.
    + rewrite decide_False; [lia|].
      rewrite elem_of_union, elem_of_singleton. tauto.
Qed.

Lemma pending_degree_close g C cur :
  cur ∉ C ->
  pending_degree g ({[ cur ]} ∪ C) + length (get_neighbors g cur) = pending_degree g C.
Proof.
  intros Hcur. rewrite !pending_degree_foldr.
  rewrite <-(pending_list_close C cur (map_to_list (nodes g)))
    by (apply NoDup_fst_map_to_list || done).
  rewrite list_to_map_to_list. unfold get_neighbors.
  by destruct (nodes g !! cur).
Qed.

Lemma relax_fold_open_length fsqrt g goal cur l : forall st,
  length (open_set (foldl (relax fsqrt g goal cur) st l)) <= length (open_set st) + length l.
Proof.
  induction l as [|[nb w] l IH]; intros st; cbn [foldl]; [simpl; lia|].
  etrans; [apply IH|].
  destruct (relax_cases fsqrt g goal cur st nb w) as [->|(_ & _ & ->)]; simpl; lia.
Qed.

Lemma astar_step_measure fsqrt g goal st st' :
  astar_step fsqrt g goal st st' -> astar_measure g st' < astar_measure g st.
Proof.
  intros [st0 f c cur rest Hpop Hcl|st0 f c cur rest Hpop Hcl Hgoal];
    apply heappop_Some in Hpop as [Hperm _]; unfold astar_measure.
  - simpl. rewrite Hperm. simpl. lia.
  - rewrite relax_fold_closed_set.
    pose proof (relax_fold_open_length fsqrt g goal cur (get_neighbors g cur)
                  (close_node st0 rest cur)) as Hlen.
    simpl in *. rewrite Hperm. simpl.
    pose proof (pending_degree_close g (closed_set st0) cur Hcl). lia.
Qed.

(** The loop, round by round. *)
Lemma astar_loop_S fsqrt fuel g goal st :
  astar_loop fsqrt (S fuel) g goal st =
  match heappop (open_set st) with
  | None => Some None
  | Some ((_, _, cur), rest) =>
      if decide (cur ∈ closed_set st) then
        astar_loop fsqrt fuel g goal
          (mkAstar rest (counter st) (g_score st) (f_score st) (came_from st)
                   (closed_set st))
      else if decide (cur = goal) then
        Some <$> reconstruct_path (came_from st) cur
      else
        astar_loop fsqrt fuel g goal
          (foldl (relax fsqrt g goal cur) (close_node st rest cur) (get_neighbors g cur))
  end.
Proof. reflexivity. Qed.

(** A run of the loop from a state of an invariant [J] kept by the rounds:
    either the heap runs empty in a state of [J] and the loop returns [None],
    or the goal is popped in a state of [J] and the loop returns the
    reconstructed path. *)
Lemma astar_loop_run fsqrt g start goal (J : astar_state -> Prop) :
  (forall st st', J st -> astar_step fsqrt g goal st st' -> J st') ->
  (forall st, J st -> astar_struct g start st) ->
  forall fuel st, J st -> astar_measure g st < fuel ->
    (astar_loop fsqrt fuel g goal st = Some None /\
     exists st', J st' /\ open_set st' = []) \/
    (exists st' f c rest p,
       J st' /\ heappop (open_set st') = Some ((f, c, goal), rest) /\
       (goal ∉ closed_set st') /\
       chain (came_from st') start goal p /\
       astar_loop fsqrt fuel g goal st = Some (Some p)).
Proof.
  intros Hstep Hstruct. induction fuel as [|fuel IH]; intros st HJ Hm; [lia|].
  rewrite astar_loop_S.
  destruct (heappop (open_set st)) as [[[[f c] cur] rest]|] eqn:Hpop.
  2:{ left. split; [done|]. exists st. split; [done|]. by apply heappop_None. }
  destruct (decide (cur ∈ closed_set st)) as [Hcl|Hcl].
  { assert (Hs : astar_step fsqrt g goal st
        (mkAstar rest (counter st) (g_score st) (f_score st) (came_from st) (closed_set st)))
      by (by eapply step_stale).
    apply IH; [by eapply Hstep|].
    pose proof (astar_step_measure _ _ _ _ _ Hs). lia. }
  destruct (decide (cur = goal)) as [->|Hne].
  { right.
    destruct (heappop_Some _ _ _ Hpop) as [Hperm _].
    assert (Hin : (f, c, goal) ∈ open_set st) by (rewrite Hperm; left).
    assert (Hrest : forall x, x ∈ rest -> x ∈ open_set st)
      by (intros x Hx; rewrite Hperm; by right).
    pose proof (close_struct g start st f c goal rest (Hstruct _ HJ) Hin Hcl Hrest) as Hs1.
    destruct (struct_reconstruct g start _ goal Hs1) as (p & Hp & Hch).
    { simpl. apply elem_of_union. left. by apply elem_of_singleton. }
    simpl in Hp, Hch.
    exists st, f, c, rest, p. split_and!; try done. by rewrite Hp. }
  assert (Hs : astar_step fsqrt g goal st
      (foldl (relax fsqrt g goal cur) (close_node st rest cur) (get_neighbors g cur)))
    by (by eapply step_expand).
  apply IH; [by eapply Hstep|].
  pose proof (astar_step_measure _ _ _ _ _ Hs). lia.
Qed.

(** Rounds keep the bookkeeping invariant. *)
Lemma astar_step_struct fsqrt g start goal st st' :
  astar_struct g start st -> astar_step fsqrt g goal st st' -> astar_struct g start st'.
Proof.
  intros Hs Hstep. revert Hs.
  destruct Hstep as [st0 f c cur rest Hpop Hcl|st0 f c cur rest Hpop Hcl Hgoal];
    intros Hs; destruct (heappop_Some _ _ _ Hpop) as [Hperm _].
  - apply stale_struct; [done|]. intros x Hx. rewrite Hperm. by right.
  - apply relax_fold_struct; [| |done].
    + eapply close_struct; [done | | done |].
      * rewrite Hperm. left.
      * intros x Hx. rewrite Hperm. by right.
    + simpl. apply elem_of_union. left. by apply elem_of_singleton.
Qed.
(** ** astar.py: the first round and the shape of the result *)

(** The state in which the start node has been closed. *)
Lemma start_closed_struct fsqrt g start goal :
  astar_struct g start (close_node (astar_init fsqrt g start goal) [] start).
Proof.
  constructor; simpl.
  - apply elem_of_union. left. by apply elem_of_singleton.
  - apply lookup_empty.
  - apply lookup_singleton_eq.
  - intros n m H. by rewrite lookup_empty in H.
  - intros n [->%elem_of_singleton|Hn]%elem_of_union; [|by apply not_elem_of_empty in Hn].
    split; [|by left]. rewrite lookup_singleton_eq. by eexists.
  - intros f c n Hin. by inversion Hin.
  - exists [start]. split_and!.
    + apply NoDup_singleton.
    + intros n. rewrite list_elem_of_singleton, elem_of_union, elem_of_singleton.
      split; [by left|]. intros [->|H]; [done|]. by apply not_elem_of_empty in H.
    + done.
    + intros pre n post Heq. destruct pre as [|x [|y pre]]; try done.
      injection Heq as <- <-. by left.
Qed.

Lemma astar_loop_first fsqrt fuel g start goal :
  start ≠ goal ->
  astar_loop fsqrt (S fuel) g goal (astar_init fsqrt g start goal)
  = astar_loop fsqrt fuel g goal (after_start fsqrt g start goal).
Proof.
  intros Hne. rewrite astar_loop_S. simpl heappop. cbv iota beta.
  rewrite decide_False by (simpl; apply not_elem_of_empty).
  by rewrite decide_False.
Qed.

Lemma after_start_struct fsqrt g start goal :
  astar_struct g start (after_start fsqrt g start goal).
Proof.
  apply relax_fold_struct; [apply start_closed_struct | | done].
  simpl. apply elem_of_union. left. by apply elem_of_singleton.
Qed.

Lemma after_start_closed fsqrt g start goal :
  closed_set (after_start fsqrt g start goal) = {[ start ]} ∪ ∅.
Proof. unfold after_start. by rewrite relax_fold_closed_set. Qed.

Lemma after_start_measure fsqrt g start goal :
  astar_measure g (after_start fsqrt g start goal) < S (degree_sum g).
Proof.
  unfold astar_measure. rewrite after_start_closed.
  pose proof (relax_fold_open_length fsqrt g goal start (get_neighbors g start)
                (close_node (astar_init fsqrt g start goal) [] start)) as Hlen.
  fold (after_start fsqrt g start goal) in Hlen. simpl in Hlen.
  pose proof (pending_degree_close g ∅ start ltac:(apply not_elem_of_empty)).
  rewrite degree_sum_pending. lia.
Qed.

Lemma walk_snoc g a steps m n w :
  walk g a steps m -> (n, w) ∈ get_neighbors g m -> walk g a (steps ++ [(n, w)]) n.
Proof.
  revert a. induction steps as [|[v w'] steps IH]; intros a Hw Hedge; simpl in *.
  - by subst.
  - destruct Hw as [He Hw]. split; [done|]. by apply IH.
Qed.

(** The chain to a node is a walk of the graph. *)
Lemma chain_walk g start st n p :
  astar_struct g start st -> chain (came_from st) start n p ->
  exists steps, walk g start steps n.
Proof.
  intros Hs. induction 1 as [|n m p Hcf Hch [steps Hw]].
  - by exists [].
  - destruct (as_link g start st Hs n m Hcf) as (_ & gm & w & Hedge & _).
    exists (steps ++ [(n, w)]). by apply (walk_snoc g start steps m).
Qed.

(** The fuel given to the loop by [astar] is never exhausted, and a returned
    path is a chain of links from the start node to the goal node. *)
Lemma astar_loop_total fsqrt g start goal :
  start ≠ goal ->
  exists r, astar_loop fsqrt (astar_fuel g) g goal (astar_init fsqrt g start goal) = Some r /\
    forall p, r = Some p ->
      exists st, astar_struct g start st /\ chain (came_from st) start goal p.
Proof.
  intros Hne. unfold astar_fuel.
  replace (degree_sum g + 2) with (S (S (degree_sum g))) by lia.
  rewrite astar_loop_first by done.
  destruct (astar_loop_run fsqrt g start goal
              (fun st => astar_struct g start st /\ goal ∉ closed_set st))
    with (fuel := S (degree_sum g)) (st := after_start fsqrt g start goal)
    as [[-> _]|(st' & f & c & rest & p & [Hs' _] & _ & _ & Hch & ->)].
  - intros st st' [Hs Hg] Hstep. split; [by eapply astar_step_struct|].
    revert Hg. destruct Hstep as [st0 f c cur rest Hpop Hcl|st0 f c cur rest Hpop Hcl Hcg];
      intros Hg; [done|].
    rewrite relax_fold_closed_set. simpl.
    rewrite elem_of_union, elem_of_singleton. intros [->|?]; done.
  - by intros st [Hs _].
  - split; [apply after_start_struct|].
    rewrite after_start_closed, elem_of_union, elem_of_singleton.
    intros [->|H]; [done | by apply not_elem_of_empty in H].
  - apply after_start_measure.
  - exists None. done.
  - exists (Some p). split; [done|]. intros p' [= <-]. by exists st'.
Qed.

(** A path returned by [astar] starts at the start node and ends at the goal
    node. *)
Lemma astar_endpoints fsqrt g start goal p :
  astar fsqrt g start goal = Some p -> head p = Some start /\ last p = Some goal.
Proof.
  unfold astar.
  destruct (nodes g !! start); [|done]. destruct (nodes g !! goal); [|done].
  destruct (decide (start = goal)) as [<-|Hne]; [by intros [= <-]|].
  destruct (astar_loop_total fsqrt g start goal Hne) as (r & -> & Hr).
  intros ->. destruct (Hr p eq_refl) as (st & _ & Hch).
  destruct (chain_ends _ _ _ _ Hch) as [Hhead (q & ->)].
  split; [done|]. by rewrite last_snoc.
Qed.

(** A path is returned only when the goal can be reached. *)
Lemma astar_Some_walk fsqrt g start goal p :
  astar fsqrt g start goal = Some p -> exists steps, walk g start steps goal.
Proof.
  unfold astar.
  destruct (nodes g !! start); [|done]. destruct (nodes g !! goal); [|done].
  destruct (decide (start = goal)) as [<-|Hne]; [intros _; by exists []|].
  destruct (astar_loop_total fsqrt g start goal Hne) as (r & -> & Hr).
  intros ->. destruct (Hr p eq_refl) as (st & Hs & Hch). by eapply chain_walk.
Qed.

(** ** astar.py: the scores *)

Lemma walk_cost_app s1 s2 : (walk_cost (s1 ++ s2) == walk_cost s1 + walk_cost s2)%Q.
Proof.
  induction s1 as [|[v w] s1 IH]; simpl; [ring|]. rewrite IH. ring.
Qed.

Lemma walk_registered g a v w : (v, w) ∈ get_neighbors g a -> registered g a.
Proof.
  unfold get_neighbors, registered. destruct (nodes g !! a); [by eexists|].
  intros H. by inversion H.
Qed.

(** The first step of a walk that leaves a set containing its origin. *)
Lemma walk_frontier g (C : gset string) steps : forall a b,
  walk g a steps b -> a ∈ C -> b ∉ C ->
  exists s1 x y w s2,
    steps = s1 ++ (y, w) :: s2 /\ walk g a s1 x /\ x ∈ C /\
    (y, w) ∈ get_neighbors g x /\ (y ∉ C) /\ walk g y s2 b.
Proof.
  induction steps as [|[v w] steps IH]; intros a b Hw Ha Hb; simpl in Hw.
  - by subst.
  - destruct Hw as [Hedge Hw]. destruct (decide (v ∈ C)) as [Hv|Hv].
    + destruct (IH v b Hw Hv Hb) as (s1 & x & y & w' & s2 & -> & H1 & Hx & He & Hy & H2).
      exists ((v, w) :: s1), x, y, w', s2. split_and!; try done.
    + exists [], a, v, w, steps. split_and!; try done.
Qed.

Section Scores.
Context (fsqrt : Q -> Q) (g : Graph) (start goal : string).
Hypothesis Hcons : consistent fsqrt g goal.
Hypothesis Hgoal : registered g goal.

Local Abbreviation h n := (euclidean fsqrt g n goal).

Lemma h_registered n : registered g n -> exists q, h n = Fin q.
Proof.
  intros [nd Hn]. destruct Hgoal as [gd Hg]. unfold euclidean.
  rewrite Hn, Hg. by eexists.
Qed.

(** Along a walk the heuristic drops by at most the cost of the walk. *)
Lemma walk_heuristic steps : forall a b,
  walk g a steps b -> fle (h a) (fadd (Fin (walk_cost steps)) (h b)).
Proof.
  induction steps as [|[v w] steps IH]; intros a b Hw; simpl in Hw.
  - subst. simpl. destruct (h b); simpl; [lra | done].
  - destruct Hw as [Hedge Hw]. specialize (IH v b Hw).
    pose proof (Hcons a v w Hedge) as Hc.
    simpl. destruct (h a), (h v), (h b); simpl in *; try done. lra.
Qed.

Lemma cycle_nonneg steps a :
  registered g a -> walk g a steps a -> (0 <= walk_cost steps)%Q.
Proof.
  intros Ha Hw. destruct (h_registered a Ha) as [q Hq].
  pose proof (walk_heuristic steps a a Hw) as H. rewrite Hq in H. simpl in H. lra.
Qed.

Lemma start_closed_scores :
  registered g start ->
  astar_scores fsqrt g start goal start (get_neighbors g start)
    (close_node (astar_init fsqrt g start goal) [] start).
Proof.
  intros Hstart. constructor; simpl.
  - intros f c n gn Hin. by inversion Hin.
  - intros n gn Hn. rewrite lookup_singleton_Some. intros [<- _].
    exfalso. apply Hn. apply elem_of_union. left. by apply elem_of_singleton.
  - intros u v w [->%elem_of_singleton|Hu]%elem_of_union Hedge;
      [by left | by apply not_elem_of_empty in Hu].
  - intros u gu steps [->%elem_of_singleton|Hu]%elem_of_union Hreg;
      [|by apply not_elem_of_empty in Hu].
    rewrite lookup_singleton_eq. intros [= <-] Hw. by eapply cycle_nonneg.
Qed.

Lemma stale_scores st f c cur rest todo0 :
  astar_scores fsqrt g start goal todo0 [] st ->
  open_set st ≡ₚ (f, c, cur) :: rest -> cur ∈ closed_set st ->
  astar_scores fsqrt g start goal todo0 []
    (mkAstar rest (counter st) (g_score st) (f_score st) (came_from st) (closed_set st)).
Proof.
  intros [Hb He Hr Ho] Hperm Hcur. constructor; simpl; try done.
  - intros f' c' n gn Hin. apply (Hb f' c' n gn). rewrite Hperm. by right.
  - intros n gn Hn Hg. destruct (He n gn Hn Hg) as [c' Hin].
    exists c'. rewrite Hperm in Hin.
    apply elem_of_cons in Hin as [[= _ _ ->]|Hin]; done.
Qed.

Lemma close_scores st f c cur rest cur0 :
  astar_struct g start st ->
  astar_scores fsqrt g start goal cur0 [] st ->
  heappop (open_set st) = Some ((f, c, cur), rest) -> cur ∉ closed_set st ->
  astar_scores fsqrt g start goal cur (get_neighbors g cur) (close_node st rest cur).
Proof.
  intros Hs [Hb He Hr Ho] Hpop Hcur.
  destruct (heappop_Some _ _ _ Hpop) as [Hperm Hmin].
  constructor; simpl.
  - intros f' c' n gn Hin Hn Hg. apply (Hb f' c' n gn); [| |done].
    + rewrite Hperm. by right.
    + intros Hn'. apply Hn. apply elem_of_union. by right.
  - intros n gn Hn Hg.
    assert (n ≠ cur /\ (n ∉ closed_set st)) as [Hne Hn'].
    { rewrite elem_of_union, elem_of_singleton in Hn. tauto. }
    destruct (He n gn Hn' Hg) as [c' Hin].
    exists c'. rewrite Hperm in Hin.
    apply elem_of_cons in Hin as [[= _ _ ->]|Hin]; done.
  - intros u v w [->%elem_of_singleton|Hu]%elem_of_union Hedge; [by left|].
    destruct (Hr u v w Hu Hedge) as [[_ Hin]|[Hv|Hbound]].
    + by inversion Hin.
    + right. left. apply elem_of_union. by right.
    + right. by right.
  - intros u gu steps [->%elem_of_singleton|Hu]%elem_of_union Hreg Hg Hw;
      [|by eapply Ho].
    destruct (walk_frontier g (closed_set st) steps start cur Hw (as_start_closed _ _ _ Hs) Hcur)
      as (s1 & x & y & w & s2 & -> & H1 & Hx & Hedge & Hy & H2).
    destruct (as_closed_known _ _ _ Hs x Hx) as [[gx Hgx] _].
    pose proof (Ho x gx s1 Hx (walk_registered g x y w Hedge) Hgx H1) as Hopt.
    destruct (Hr x y w Hx Hedge) as [[_ Hin]|[Hy'|(gx' & gy & Hgx' & Hgy & Hle)]];
      [by inversion Hin | done |].
    rewrite Hgx in Hgx'. injection Hgx' as <-.
    destruct (He y gy Hy Hgy) as [c' Hentry].
    pose proof (Hmin _ Hentry) as Hfy. simpl in Hfy.
    assert (Hpopped : (f, c, cur) ∈ open_set st) by (rewrite Hperm; left).
    pose proof (Hb f c cur gu Hpopped Hcur Hg) as Hfc.
    pose proof (walk_heuristic s2 y cur H2) as Hh.
    destruct (h_registered cur Hreg) as [hc Hhc]. rewrite Hhc in *.
    rewrite walk_cost_app. simpl.
    destruct (h y) as [hy|], f as [fq|]; simpl in *; try done. lra.
Qed.

Lemma relax_scores st cur nb w todo :
  astar_struct g start st ->
  astar_scores fsqrt g start goal cur ((nb, w) :: todo) st ->
  cur ∈ closed_set st ->
  astar_scores fsqrt g start goal cur todo (relax fsqrt g goal cur st (nb, w)).
Proof.
  intros Hs [Hb He Hr Ho] Hcur.
  destruct (as_closed_known _ _ _ Hs cur Hcur) as [[gc Hgc] _].
  pose proof (lookup_total_correct _ _ _ Hgc) as Htot.
  destruct (relax_cases fsqrt g goal cur st nb w) as [Heq|(Hopen & Hbetter & Heq)].
  - pose proof (relax_unchanged _ _ _ _ _ _ _ Heq) as Hun. rewrite Heq.
    constructor; try done.
    intros u v w' Hu Hedge.
    destruct (Hr u v w' Hu Hedge) as [[-> [[= -> ->]|Hin]%elem_of_cons]|Hrest];
      [| left; by split | right; done].
    right. destruct Hun as [Hcl|(old & Hold & Hle)]; [by left|].
    right. exists gc, old. rewrite Htot in Hle. done.
  - rewrite Heq, Htot. rewrite Htot in Hbetter. clear Heq.
    assert (Hnc : nb ≠ cur) by (intros ->; done).
    constructor; simpl.
    + intros f c n gn [[= -> -> ->]|Hin]%elem_of_cons Hn.
      * rewrite lookup_insert_eq. intros [= <-]. apply fle_refl.
      * rewrite lookup_insert. destruct (decide (nb = n)) as [<-|Hne]; [|by apply (Hb f c n gn)].
        intros [= <-].
        destruct (as_open_known _ _ _ Hs f c nb Hin) as [[old Hold] _].
        rewrite Hold in Hbetter.
        eapply fle_trans; [|by apply (Hb f c nb old)].
        destruct (h nb); simpl; [lra | done].
    + intros n gn Hn. rewrite lookup_insert. destruct (decide (nb = n)) as [<-|Hne].
      * intros [= <-]. exists (counter st). left.
      * intros Hg. destruct (He n gn Hn Hg) as [c Hin]. exists c. by right.
    + intros u v w' Hu Hedge.
      assert (Hun : u ≠ nb) by (intros ->; done).
      destruct (Hr u v w' Hu Hedge)
        as [[-> [[= -> ->]|Hin]%elem_of_cons]|[Hv|(gu & gv & Hgu & Hgv & Hle)]].
      * right. right. exists gc, (gc + w)%Q.
        rewrite lookup_insert_ne by done. rewrite lookup_insert_eq.
        split_and!; try done. apply Qle_refl.
      * left. by split.
      * right. by left.
      * right. right. rewrite lookup_insert_ne by done.
        rewrite lookup_insert. destruct (decide (nb = v)) as [<-|Hne].
        -- exists gu, (gc + w)%Q. split_and!; try done.
           rewrite Hgv in Hbetter. lra.
        -- exists gu, gv. done.
    + intros u gu steps Hu Hreg. rewrite lookup_insert_ne by (intros ->; done).
      by apply Ho.
Qed.

Lemma relax_fold_scores cur l : forall st,
  astar_struct g start st ->
  astar_scores fsqrt g start goal cur l st ->
  cur ∈ closed_set st -> (forall x, x ∈ l -> x ∈ get_neighbors g cur) ->
  astar_scores fsqrt g start goal cur [] (foldl (relax fsqrt g goal cur) st l).
Proof.
  induction l as [|[nb w] l IH]; intros st Hs Hsc Hcur Hl; cbn [foldl]; [done|].
  apply IH.
  - apply relax_struct; [done | done | apply Hl; left].
  - by apply relax_scores.
  - by rewrite relax_closed_set.
  - intros x Hx. apply Hl. by right.
Qed.

End Scores.
(** ** astar.py: optimality under a consistent heuristic *)

Lemma scores_no_todo fsqrt g start goal cur cur' st :
  astar_scores fsqrt g start goal cur [] st ->
  astar_scores fsqrt g start goal cur' [] st.
Proof.
  intros [Hb He Hr Ho]. constructor; try done.
  intros u v w Hu Hedge. destruct (Hr u v w Hu Hedge) as [[_ Hin]|Hrest]; [|by right].
  by inversion Hin.
Qed.

Section Optimal.
Context (fsqrt : Q -> Q) (g : Graph) (start goal : string).
Hypothesis Hwf : dicts_wf g.
Hypothesis Hcons : consistent fsqrt g goal.
Hypothesis Hstart : registered g start.
Hypothesis Hgoal : registered g goal.

(** The invariant of the rounds. *)
Local Abbreviation J :=
  (fun st => astar_struct g start st /\ (goal ∉ closed_set st) /\
             astar_scores fsqrt g start goal start [] st).

Lemma astar_step_J st st' : J st -> astar_step fsqrt g goal st st' -> J st'.
Proof.
  intros (Hs & Hg & Hsc) Hstep.
  split; [by eapply astar_step_struct|].
  revert Hs Hg Hsc.
  destruct Hstep as [st0 f c cur rest Hpop Hcl|st0 f c cur rest Hpop Hcl Hcg];
    intros Hs Hg Hsc; destruct (heappop_Some _ _ _ Hpop) as [Hperm _].
  - split; [done|]. by eapply stale_scores.
  - split.
    + rewrite relax_fold_closed_set. simpl.
      rewrite elem_of_union, elem_of_singleton. intros [->|?]; done.
    + apply (scores_no_todo _ _ _ _ cur).
      apply relax_fold_scores; [ | by eapply close_scores | | done].
      * eapply close_struct; [done | | done |].
        -- rewrite Hperm. left.
        -- intros x Hx. rewrite Hperm. by right.
      * simpl. apply elem_of_union. left. by apply elem_of_singleton.
Qed.

Lemma after_start_J : start ≠ goal -> J (after_start fsqrt g start goal).
Proof.
  intros Hne. split_and!.
  - apply after_start_struct.
  - rewrite after_start_closed, elem_of_union, elem_of_singleton.
    intros [->|H]; [done | by apply not_elem_of_empty in H].
  - apply relax_fold_scores; [apply start_closed_struct
                             | by apply start_closed_scores | | done].
    simpl. apply elem_of_union. left. by apply elem_of_singleton.
Qed.

(** While the goal can be reached, the heap is not empty. *)
Lemma J_open_nonempty st steps :
  J st -> walk g start steps goal -> open_set st ≠ [].
Proof.
  intros (Hs & Hg & [Hb He Hr Ho]) Hw Hopen.
  destruct (walk_frontier g (closed_set st) steps start goal Hw (as_start_closed _ _ _ Hs) Hg)
    as (s1 & x & y & w & s2 & -> & H1 & Hx & Hedge & Hy & H2).
  destruct (Hr x y w Hx Hedge) as [[_ Hin]|[Hy'|(gx & gy & Hgx & Hgy & Hle)]];
    [by inversion Hin | done |].
  destruct (He y gy Hy Hgy) as [c Hin]. rewrite Hopen in Hin. by inversion Hin.
Qed.

(** In exact arithmetic: on a graph whose neighbour dicts are proper
    dicts and whose edges never shorten the straight-line distance to the goal
    by more than their weight, for registered nodes linked by some walk,
    [astar] returns a path from the start node to the goal node whose edges
    exist and whose total weight is at most the weight of every walk from the
    start node to the goal node.  (On doubles the rounded sums [g + h] of two
    nodes can tie and the dearer one be closed first.) *)
Theorem astar_optimal_when_consistent :
  (exists steps, walk g start steps goal) ->
  exists p c,
    astar fsqrt g start goal = Some p /\
    head p = Some start /\ last p = Some goal /\
    path_weight g p = Some c /\
    forall steps, walk g start steps goal -> (c <= walk_cost steps)%Q.
Proof.
  intros [steps0 Hw0]. unfold astar.
  destruct Hstart as [sd Hsd]. destruct Hgoal as [gd Hgd]. rewrite Hsd, Hgd.
  destruct (decide (start = goal)) as [Heq|Hne].
  { exists [start], 0%Q. split_and!; try done.
    - by rewrite <-Heq.
    - intros steps Hw. apply (cycle_nonneg fsqrt g goal Hcons ltac:(by eexists) steps start);
        [by eexists | by rewrite Heq at 2]. }
  unfold astar_fuel.
  replace (degree_sum g + 2) with (S (S (degree_sum g))) by lia.
  rewrite astar_loop_first by done.
  destruct (astar_loop_run fsqrt g start goal J astar_step_J ltac:(by intros st [? _])
              (S (degree_sum g)) (after_start fsqrt g start goal)
              (after_start_J Hne) (after_start_measure fsqrt g start goal))
    as [[_ (st' & HJ & Hopen)]|(st' & f & c & rest & p & HJ & Hpop & Hng & Hch & ->)].
  { exfalso. by eapply J_open_nonempty. }
  destruct HJ as (Hs & _ & Hsc).
  destruct (heappop_Some _ _ _ Hpop) as [Hperm _].
  assert (Hs1 : astar_struct g start (close_node st' rest goal)).
  { eapply close_struct; [done | | done |].
    - rewrite Hperm. left.
    - intros x Hx. rewrite Hperm. by right. }
  destruct (chain_path_weight g start (close_node st' rest goal) goal p Hwf Hs1 Hch)
    as (cw & gn & Hpw & Hgn & Hcgn).
  pose proof (close_scores fsqrt g start goal Hcons ltac:(by eexists)
                st' f c goal rest start Hs Hsc Hpop Hng) as Hsc1.
  exists p, cw. destruct (chain_ends _ _ _ _ Hch) as [Hhead (q & ->)].
  split_and!; try done.
  - by rewrite last_snoc.
  - intros steps Hw. rewrite Hcgn.
    apply (ao_optimal _ _ _ _ _ _ _ Hsc1 goal gn steps); try done.
    simpl. apply elem_of_union. left. by apply elem_of_singleton.
Qed.

End Optimal.

Lemma consistent_check_ok fsqrt g goal :
  consistent_check fsqrt g goal = true -> consistent fsqrt g goal.
Proof.
  unfold consistent_check. rewrite forallb_forall. intros Hall u v w Hin.
  unfold get_neighbors in Hin. destruct (nodes g !! u) as [nd|] eqn:Hu; [|by inversion Hin].
  specialize (Hall (u, nd)). simpl in Hall. rewrite forallb_forall in Hall.
  apply flt_false_fle, negb_true_iff.
  apply (Hall ltac:(apply list_elem_of_In; by apply elem_of_map_to_list) (v, w)).
  by apply list_elem_of_In.
Qed.
(** ** astar.py: unknown endpoints *)

(** C10: when the start id or the goal id is not a registered node, [astar]
    returns [None] (it does not raise, and the answer does not depend on the
    rest of the graph); this is also what it returns when no walk leads from
    the start node to the goal node. *)
Theorem astar_unknown_endpoint fsqrt g start_id goal_id :
  (nodes g !! start_id = None \/ nodes g !! goal_id = None ->
   astar fsqrt g start_id goal_id = None) /\
  ((forall steps, ~ walk g start_id steps goal_id) ->
   astar fsqrt g start_id goal_id = None).
Proof.
  split.
  - intros [H|H]; unfold astar; rewrite H; [done|].
    by destruct (nodes g !! start_id).
  - intros Hno. destruct (astar fsqrt g start_id goal_id) as [p|] eqn:Hp; [|done].
    apply astar_Some_walk in Hp as [steps Hw]. by destruct (Hno steps).
Qed.

(** ** vrp_solver.py *)

Lemma segment_path_endpoints fsqrt g a b :
  head (segment_path fsqrt g a b) = Some a /\ last (segment_path fsqrt g a b) = Some b.
Proof.
  unfold segment_path. destruct (astar fsqrt g a b) as [p|] eqn:Hp; [|done].
  by apply astar_endpoints in Hp.
Qed.

(** The flattening loop: the first path whole, every later path without its
    first node. *)
Lemma flatten_loop_later (paths : list (list string)) : forall k acc,
  foldl (fun full_path '(i, path) =>
           if (i =? 0)%nat then full_path ++ path else full_path ++ drop 1 path)
        acc (zip (seq (S k) (length paths)) paths)
  = acc ++ concat (drop 1 <$> paths).
Proof.
  induction paths as [|p paths IH]; intros k acc; simpl.
  - by rewrite app_nil_r.
  - rewrite IH. by rewrite <-app_assoc.
Qed.

Lemma flatten_paths_join (paths : list (list string)) :
  flatten_paths paths = join_segments paths.
Proof.
  unfold flatten_paths. destruct paths as [|p paths]; [done|].
  simpl. apply flatten_loop_later.
Qed.

Lemma route_segments_lookup fsqrt g route i seg :
  route_segments fsqrt g route !! i = Some seg ->
  exists a b, route !! i = Some a /\ route !! S i = Some b /\
              seg = segment_path fsqrt g a b.
Proof.
  unfold route_segments. rewrite list_lookup_fmap.
  destruct (zip route (tail route) !! i) as [[a b]|] eqn:Hz; [|done].
  intros [= <-]. apply lookup_zip_with_Some in Hz as (a' & b' & [= <- <-] & Ha & Hb).
  exists a, b. split; [done|]. split; [|done].
  by rewrite <-lookup_tail.
Qed.

Lemma route_segments_length fsqrt g route :
  length (route_segments fsqrt g route) = length route - 1.
Proof.
  unfold route_segments. rewrite length_fmap, length_zip_with.
  destruct route as [|a route]; [done|]. cbn [tail length]. lia.
Qed.

(** The joined path of a route with at least two stops runs from its first
    stop to its last. *)
Lemma joined_route_ends fsqrt g rest : forall a b,
  head (join_segments (route_segments fsqrt g (a :: b :: rest))) = Some a /\
  last (join_segments (route_segments fsqrt g (a :: b :: rest)))
  = last (a :: b :: rest).
Proof.
  induction rest as [|c rest IH]; intros a b.
  - unfold route_segments. simpl. rewrite app_nil_r. apply segment_path_endpoints.
  - destruct (IH b c) as [IHh IHl].
    destruct (segment_path_endpoints fsqrt g a b) as [Hh Hl].
    destruct (segment_path_endpoints fsqrt g b c) as [Hh' _].
    change (route_segments fsqrt g (a :: b :: c :: rest))
      with (segment_path fsqrt g a b :: route_segments fsqrt g (b :: c :: rest)).
    change (route_segments fsqrt g (b :: c :: rest))
      with (segment_path fsqrt g b c :: route_segments fsqrt g (c :: rest)) in *.
    cbn [join_segments fmap list_fmap concat] in *.
    destruct (segment_path fsqrt g b c) as [|x t1]; [done|].
    injection Hh' as ->.
    destruct (segment_path fsqrt g a b) as [|y t0]; [done|].
    injection Hh as ->.
    split; [done|].
    change (drop 1 (b :: t1)) with t1.
    set (t := t1 ++ concat (drop 1 <$> route_segments fsqrt g (c :: rest))) in *.
    change ((b :: t1) ++ concat (drop 1 <$> route_segments fsqrt g (c :: rest)))
      with (b :: t) in IHl.
    assert (Hlast : last (a :: b :: c :: rest) = last (b :: c :: rest)) by done.
    rewrite Hlast, <-IHl. clear Hlast IHl. destruct t as [|z t'].
    + by rewrite app_nil_r, Hl.
    + rewrite last_app_cons.
      change (b :: z :: t') with ([b] ++ z :: t'). by rewrite last_app_cons.
Qed.

(** C6: for a depot-framed solution, the path of every vehicle is made of one
    segment per pair of consecutive stops, each running from the one stop to
    the other; the segments are joined with every junction written once (the
    first segment whole, each later one without its first node); and the
    path starts and ends at the depot. *)
Theorem full_path_junctions fsqrt g routes depot_id tid route :
  depot_framed routes depot_id -> routes !! tid = Some route ->
  exists segs full,
    compute_full_paths fsqrt g routes !! tid = Some segs /\
    compute_full_paths_as_single_list fsqrt g routes !! tid = Some full /\
    length segs = length route - 1 /\
    (forall i seg, segs !! i = Some seg ->
       exists a b, route !! i = Some a /\ route !! S i = Some b /\
                   head seg = Some a /\ last seg = Some b) /\
    full = join_segments segs /\
    head full = Some depot_id /\ last full = Some depot_id.
Proof.
  intros Hframed Hr.
  exists (route_segments fsqrt g route), (join_segments (route_segments fsqrt g route)).
  split_and!.
  - unfold compute_full_paths. by rewrite lookup_fmap, Hr.
  - unfold compute_full_paths_as_single_list, compute_full_paths.
    rewrite !lookup_fmap, Hr. simpl. by rewrite flatten_paths_join.
  - apply route_segments_length.
  - intros i seg Hseg.
    apply route_segments_lookup in Hseg as (a & b & Ha & Hb & ->).
    exists a, b. split_and!; try done; apply segment_path_endpoints.
  - done.
  - destruct (Hframed tid route Hr) as (stops & -> & _).
    change ([depot_id] ++ stops ++ [depot_id]) with (depot_id :: stops ++ [depot_id]).
    destruct stops as [|s stops]; apply joined_route_ends.
  - destruct (Hframed tid route Hr) as (stops & -> & _).
    change ([depot_id] ++ stops ++ [depot_id]) with (depot_id :: stops ++ [depot_id]).
    destruct stops as [|s stops].
    + apply joined_route_ends.
    + cbn [app].
      rewrite (proj2 (joined_route_ends fsqrt g (stops ++ [depot_id]) depot_id s)).
      change (depot_id :: s :: stops ++ [depot_id])
        with ([depot_id; s] ++ stops ++ [depot_id]).
      rewrite app_assoc. by rewrite last_snoc.
Qed.

Lemma full_paths_fmap fsqrt g (routes : gmap string (list string)) :
  compute_full_paths_as_single_list fsqrt g routes
  = (fun route => join_segments (route_segments fsqrt g route)) <$> routes.
Proof.
  apply map_eq. intros tid.
  unfold compute_full_paths_as_single_list, compute_full_paths.
  rewrite !lookup_fmap. destruct (routes !! tid); simpl; [|done].
  by rewrite flatten_paths_join.
Qed.

Lemma evaluate_routes_stops fsqrt g (F : list string -> list string)
    (m : gmap string (list string)) :
  num_stops (evaluate_routes fsqrt g (F <$> m)) =
  foldr (fun '(_, route) acc => (acc + (Z.of_nat (length (F route)) - 2))%Z)
        0%Z (map_to_list m).
Proof.
  unfold evaluate_routes. rewrite map_fold_fmap, map_fold_foldr.
  induction (map_to_list m) as [|[tid path] l IH]; [done|].
  simpl in *. destruct (foldr _ _ l) as [[ds tot] stops]. simpl in *. by rewrite IH.
Qed.

Lemma evaluate_routes_simple_stops fsqrt g depot_id (m : gmap string (list string)) :
  num_stops (evaluate_routes_simple fsqrt g depot_id m) =
  foldr (fun '(_, route) acc =>
           (acc + Z.of_nat (length (filter (fun n => n ≠ depot_id) route)))%Z)
        0%Z (map_to_list m).
Proof.
  unfold evaluate_routes_simple. rewrite map_fold_foldr.
  induction (map_to_list m) as [|[tid path] l IH]; [done|].
  simpl in *. destruct (foldr _ _ l) as [[ds tot] stops]. simpl in *. by rewrite IH.
Qed.

Lemma evaluate_routes_trucks fsqrt g (m : gmap string (list string)) :
  num_trucks (evaluate_routes fsqrt g m) = size m.
Proof. unfold evaluate_routes. by destruct (map_fold _ _ m) as [[ds tot] stops]. Qed.

Lemma evaluate_routes_simple_trucks fsqrt g depot_id (m : gmap string (list string)) :
  num_trucks (evaluate_routes_simple fsqrt g depot_id m) = size m.
Proof. unfold evaluate_routes_simple. by destruct (map_fold _ _ m) as [[ds tot] stops]. Qed.

Lemma later_segments_length (later : list (list string)) :
  Forall (fun seg => length seg = 2) later ->
  length (concat (drop 1 <$> later)) = length later.
Proof.
  induction 1 as [|seg later Hseg Hlater IH]; [done|].
  rewrite fmap_cons. cbn [concat]. rewrite length_app, length_drop, Hseg, IH. done.
Qed.

Lemma join_two_node_segments (segs : list (list string)) :
  segs ≠ [] -> Forall (fun seg => length seg = 2) segs ->
  length (join_segments segs) = S (length segs).
Proof.
  destruct segs as [|first later]; [done|]. intros _ Hall.
  inversion Hall as [|? ? Hfirst Hlater]; subst.
  cbn [join_segments]. rewrite length_app, Hfirst, later_segments_length by done.
  done.
Qed.

(** Where the two variants do agree: for a depot-framed solution they report
    the same number of vehicles; they report the same number of stops when
    every pair of consecutive stops expands to a segment of exactly two
    nodes. *)
Theorem evaluate_variants_agree fsqrt g routes depot_id :
  depot_framed routes depot_id ->
  num_trucks (evaluate_routes fsqrt g (compute_full_paths_as_single_list fsqrt g routes))
  = num_trucks (evaluate_routes_simple fsqrt g depot_id routes) /\
  ((forall tid route a b,
      routes !! tid = Some route -> (a, b) ∈ zip route (tail route) ->
      length (segment_path fsqrt g a b) = 2) ->
   num_stops (evaluate_routes fsqrt g (compute_full_paths_as_single_list fsqrt g routes))
   = num_stops (evaluate_routes_simple fsqrt g depot_id routes)).
Proof.
  intros Hframed. rewrite full_paths_fmap. split.
  - by rewrite evaluate_routes_trucks, evaluate_routes_simple_trucks, map_size_fmap.
  - intros Hdirect. rewrite evaluate_routes_stops, evaluate_routes_simple_stops.
    assert (Hall : forall tid route, (tid, route) ∈ map_to_list routes ->
              routes !! tid = Some route)
      by (intros tid route; apply elem_of_map_to_list).
    induction (map_to_list routes) as [|[tid route] l IH]; [done|].
    simpl. rewrite IH by (intros t r Hin; apply Hall; by right). f_equal.
    assert (Hr : routes !! tid = Some route) by (apply Hall; left).
    destruct (strip_framed depot_id route (Hframed _ _ Hr)) as (stops & Heq & -> & _).
    rewrite join_two_node_segments.
    + rewrite route_segments_length, Heq, !length_app. simpl. lia.
    + intros Hnil. apply (f_equal length) in Hnil.
      rewrite route_segments_length, Heq, !length_app in Hnil. simpl in Hnil. lia.
    + unfold route_segments. apply Forall_fmap, Forall_forall.
      intros [a b] Hab. simpl. by eapply Hdirect.
Qed.

(** ** astar.py: what the search returns whatever the heuristic is *)

(** The chain to a node lists the nodes of a walk of the graph. *)
Lemma chain_walk_nodes g start st n p :
  astar_struct g start st -> chain (came_from st) start n p ->
  exists steps, walk g start steps n /\ p = start :: steps.*1.
Proof.
  intros Hs. induction 1 as [|n m p Hcf Hch (steps & Hw & ->)].
  - by exists [].
  - destruct (as_link g start st Hs n m Hcf) as (_ & gm & w & Hedge & _).
    exists (steps ++ [(n, w)]). split; [by apply (walk_snoc g start steps m)|].
    by rewrite fmap_app.
Qed.

(** The chain to a closed node runs through nodes closed before it, each
    once. *)
Lemma chain_closed_order g start st cl :
  astar_struct g start st ->
  NoDup cl ->
  (forall pre n post, cl = pre ++ n :: post ->
     n = start \/ exists m, came_from st !! n = Some m /\ m ∈ post) ->
  forall k pre n post p, length post <= k -> cl = pre ++ n :: post ->
    chain (came_from st) start n p ->
    NoDup p /\ forall x, x ∈ p -> x ∈ n :: post.
Proof.
  intros Hs Hnd Hord. induction k as [|k IH]; intros pre n post p Hlen Hcl Hch.
  - destruct post; [|simpl in Hlen; lia].
    destruct (Hord _ _ _ Hcl) as [->|(m & _ & Hm)]; [|by inversion Hm].
    inversion Hch as [|n' m p' Hcf Hch' Heq]; subst.
    + split; [apply NoDup_singleton|]. intros x Hx. by rewrite list_elem_of_singleton in *.
    + by rewrite (as_start_root _ _ _ Hs) in Hcf.
  - inversion Hch as [|n' m p' Hcf Hch' Heq]; subst.
    + split; [apply NoDup_singleton|]. intros x ->%list_elem_of_singleton. left.
    + destruct (Hord _ _ _ eq_refl) as [->|(m' & Hcf' & Hm)].
      { by rewrite (as_start_root _ _ _ Hs) in Hcf. }
      rewrite Hcf in Hcf'. injection Hcf' as <-.
      apply list_elem_of_split in Hm as (pre2 & post2 & ->).
      destruct (IH (pre ++ n :: pre2) m post2 p') as [Hnd' Hsub].
      * rewrite length_app in Hlen. simpl in Hlen. lia.
      * by rewrite <-app_assoc.
      * done.
      * assert (Hn : n ∉ pre2 ++ m :: post2).
        { apply NoDup_app in Hnd as (_ & _ & Hnd). by apply NoDup_cons in Hnd as [? _]. }
        split.
        -- apply NoDup_app. split_and!; [done | | apply NoDup_singleton].
           intros x Hx ->%list_elem_of_singleton. apply Hn.
           apply elem_of_app. right. by apply Hsub.
        -- intros x [Hx| ->%list_elem_of_singleton]%elem_of_app; [|left].
           right. apply elem_of_app. right. by apply Hsub.
Qed.

(** A chain never visits a node twice. *)
Lemma chain_NoDup g start st n p :
  astar_struct g start st -> chain (came_from st) start n p -> NoDup p.
Proof.
  intros Hs Hch.
  destruct (as_order _ _ _ Hs) as (cl & Hnd & Hcl & _ & Hord).
  assert (Hclosed : forall m q, m ∈ closed_set st -> chain (came_from st) start m q ->
            NoDup q /\ forall x, x ∈ q -> x ∈ closed_set st).
  { intros m q Hm Hq. apply Hcl in Hm. apply list_elem_of_split in Hm as (pre & post & ->).
    destruct (chain_closed_order g start st _ Hs Hnd Hord (length post) pre m post q)
      as [Hq1 Hq2]; try done.
    split; [done|]. intros x Hx. apply Hcl. apply elem_of_app. right. by apply Hq2. }
  destruct (decide (n ∈ closed_set st)) as [Hn|Hn]; [by apply (Hclosed n p)|].
  inversion Hch as [|n' m p' Hcf Hch' Heq]; subst; [apply NoDup_singleton|].
  destruct (as_link _ _ _ Hs n m Hcf) as [Hm _].
  destruct (Hclosed m p' Hm Hch') as [Hnd' Hsub].
  apply NoDup_app. split_and!; [done | | apply NoDup_singleton].
  intros x Hx ->%list_elem_of_singleton. by apply Hn, Hsub.
Qed.

Lemma astar_walk_nodes fsqrt g start goal p :
  astar fsqrt g start goal = Some p ->
  exists steps, walk g start steps goal /\ p = start :: steps.*1.
Proof.
  unfold astar.
  destruct (nodes g !! start); [|done]. destruct (nodes g !! goal); [|done].
  destruct (decide (start = goal)) as [<-|Hne]; [intros [= <-]; by exists []|].
  destruct (astar_loop_total fsqrt g start goal Hne) as (r & -> & Hr).
  intros ->. destruct (Hr p eq_refl) as (st & Hs & Hch). by eapply chain_walk_nodes.
Qed.

(** A path returned by [astar] is the list of the nodes of a walk of the
    graph from the start node to the goal node, and no node occurs twice on
    it. *)
Theorem astar_returns_simple_walk fsqrt g start goal p :
  astar fsqrt g start goal = Some p ->
  NoDup p /\ exists steps, walk g start steps goal /\ p = start :: steps.*1.
Proof.
  unfold astar.
  destruct (nodes g !! start); [|done]. destruct (nodes g !! goal); [|done].
  destruct (decide (start = goal)) as [<-|Hne].
  { intros [= <-]. split; [apply NoDup_singleton|]. by exists []. }
  destruct (astar_loop_total fsqrt g start goal Hne) as (r & -> & Hr).
  intros ->. destruct (Hr p eq_refl) as (st & Hs & Hch).
  split; [by eapply chain_NoDup | by eapply chain_walk_nodes].
Qed.

(** *** Completeness *)

Lemma start_closed_reach fsqrt g start goal :
  astar_reach g start (get_neighbors g start)
    (close_node (astar_init fsqrt g start goal) [] start).
Proof.
  constructor; simpl.
  - intros n Hn [gn Hg]. apply lookup_singleton_Some in Hg as [<- _].
    exfalso. apply Hn. apply elem_of_union. left. by apply elem_of_singleton.
  - intros u v w [->%elem_of_singleton|Hu]%elem_of_union Hedge;
      [by left | by apply not_elem_of_empty in Hu].
Qed.

Lemma stale_reach g st f c cur rest cur0 :
  astar_reach g cur0 [] st ->
  open_set st ≡ₚ (f, c, cur) :: rest -> cur ∈ closed_set st ->
  astar_reach g cur0 []
    (mkAstar rest (counter st) (g_score st) (f_score st) (came_from st) (closed_set st)).
Proof.
  intros [He Hr] Hperm Hcur. constructor; simpl; [|done].
  intros n Hn Hg. destruct (He n Hn Hg) as (f' & c' & Hin).
  exists f', c'. rewrite Hperm in Hin.
  apply elem_of_cons in Hin as [[= _ _ ->]|Hin]; done.
Qed.

Lemma close_reach g st f c cur rest cur0 :
  astar_reach g cur0 [] st ->
  open_set st ≡ₚ (f, c, cur) :: rest ->
  astar_reach g cur (get_neighbors g cur) (close_node st rest cur).
Proof.
  intros [He Hr] Hperm. constructor; simpl.
  - intros n Hn Hg.
    assert (n ≠ cur /\ (n ∉ closed_set st)) as [Hne Hn'].
    { rewrite elem_of_union, elem_of_singleton in Hn. tauto. }
    destruct (He n Hn' Hg) as (f' & c' & Hin).
    exists f', c'. rewrite Hperm in Hin.
    apply elem_of_cons in Hin as [[= _ _ ->]|Hin]; done.
  - intros u v w [->%elem_of_singleton|Hu]%elem_of_union Hedge; [by left|].
    destruct (Hr u v w Hu Hedge) as [[_ Hin]|[Hv|Hknown]].
    + by inversion Hin.
    + right. left. apply elem_of_union. by right.
    + right. by right.
Qed.

Lemma relax_reach fsqrt g goal st cur nb w todo :
  astar_reach g cur ((nb, w) :: todo) st ->
  astar_reach g cur todo (relax fsqrt g goal cur st (nb, w)).
Proof.
  intros [He Hr].
  destruct (relax_cases fsqrt g goal cur st nb w) as [Heq|(Hnb & _ & Heq)].
  - pose proof (relax_unchanged _ _ _ _ _ _ _ Heq) as Hdone. rewrite Heq.
    constructor; [done|].
    intros u v w' Hu Hedge. destruct (Hr u v w' Hu Hedge) as [[-> Hin]|Hrest]; [|by right].
    apply elem_of_cons in Hin as [[= -> ->]|Hin]; [|by left].
    right. destruct Hdone as [?|(old & Hold & _)]; [by left | right; by eexists].
  - rewrite Heq. constructor; simpl.
    + intros n Hn Hg. destruct (decide (n = nb)) as [->|Hne].
      * eexists _, _. left.
      * rewrite lookup_insert_ne in Hg by done.
        destruct (He n Hn Hg) as (f' & c' & Hin). exists f', c'. by right.
    + intros u v w' Hu Hedge.
      assert (Hkeep : forall x, is_Some (g_score st !! x) ->
                is_Some (<[nb := ((g_score st !!! cur) + w)%Q]> (g_score st) !! x)).
      { intros x Hx. destruct (decide (x = nb)) as [->|Hne].
        - rewrite lookup_insert_eq. by eexists.
        - by rewrite lookup_insert_ne. }
      destruct (Hr u v w' Hu Hedge) as [[-> Hin]|[Hv|Hknown]].
      * apply elem_of_cons in Hin as [[= -> ->]|Hin]; [|by left].
        right. right. rewrite lookup_insert_eq. by eexists.
      * right. by left.
      * right. right. by apply Hkeep.
Qed.

Lemma relax_fold_reach fsqrt g goal cur l : forall st,
  astar_reach g cur l st ->
  astar_reach g cur [] (foldl (relax fsqrt g goal cur) st l).
Proof.
  induction l as [|[nb w] l IH]; intros st Hr; [done|].
  simpl. apply IH. by apply relax_reach.
Qed.

Lemma reach_no_todo g cur cur' st :
  astar_reach g cur [] st -> astar_reach g cur' [] st.
Proof.
  intros [He Hr]. constructor; [done|].
  intros u v w Hu Hedge. destruct (Hr u v w Hu Hedge) as [[_ Hin]|Hrest]; [|by right].
  by inversion Hin.
Qed.

Section Complete.
Context (fsqrt : Q -> Q) (g : Graph) (start goal : string).

(** The invariant of the rounds. *)
Local Abbreviation K :=
  (fun st => astar_struct g start st /\ (goal ∉ closed_set st) /\
             astar_reach g start [] st).

Lemma astar_step_K st st' : K st -> astar_step fsqrt g goal st st' -> K st'.
Proof.
  intros (Hs & Hg & Hre) Hstep.
  split; [by eapply astar_step_struct|].
  revert Hs Hg Hre.
  destruct Hstep as [st0 f c cur rest Hpop Hcl|st0 f c cur rest Hpop Hcl Hcg];
    intros Hs Hg Hre; destruct (heappop_Some _ _ _ Hpop) as [Hperm _].
  - split; [done|]. by eapply stale_reach.
  - split.
    + rewrite relax_fold_closed_set. simpl.
      rewrite elem_of_union, elem_of_singleton. intros [->|?]; done.
    + apply (reach_no_todo _ cur). apply relax_fold_reach. by eapply close_reach.
Qed.

Lemma after_start_K : start ≠ goal -> K (after_start fsqrt g start goal).
Proof.
  intros Hne. split_and!.
  - apply after_start_struct.
  - rewrite after_start_closed, elem_of_union, elem_of_singleton.
    intros [->|H]; [done | by apply not_elem_of_empty in H].
  - apply relax_fold_reach, start_closed_reach.
Qed.

(** While the goal can be reached, the heap is not empty. *)
Lemma K_open_nonempty st steps :
  K st -> walk g start steps goal -> open_set st ≠ [].
Proof.
  intros (Hs & Hg & [He Hr]) Hw Hopen.
  destruct (walk_frontier g (closed_set st) steps start goal Hw (as_start_closed _ _ _ Hs) Hg)
    as (s1 & x & y & w & s2 & -> & H1 & Hx & Hedge & Hy & H2).
  destruct (Hr x y w Hx Hedge) as [[_ Hin]|[Hy'|Hknown]];
    [by inversion Hin | done |].
  destruct (He y Hy Hknown) as (f & c & Hin). rewrite Hopen in Hin. by inversion Hin.
Qed.

Lemma astar_connected_Some :
  registered g start -> registered g goal ->
  (exists steps, walk g start steps goal) ->
  exists p, astar fsqrt g start goal = Some p.
Proof.
  intros [sd Hsd] [gd Hgd] [steps0 Hw0]. unfold astar. rewrite Hsd, Hgd.
  destruct (decide (start = goal)) as [Heq|Hne]; [by eexists|].
  unfold astar_fuel.
  replace (degree_sum g + 2) with (S (S (degree_sum g))) by lia.
  rewrite astar_loop_first by done.
  destruct (astar_loop_run fsqrt g start goal K astar_step_K ltac:(by intros st [? _])
              (S (degree_sum g)) (after_start fsqrt g start goal)
              (after_start_K Hne) (after_start_measure fsqrt g start goal))
    as [[_ (st' & HK & Hopen)]|(st' & f & c & rest & p & _ & _ & _ & _ & ->)].
  - exfalso. by eapply K_open_nonempty.
  - by eexists.
Qed.

End Complete.

(** Whatever the edge weights and the coordinates are, [astar] returns a path
    between registered nodes whenever some walk of the graph leads from the
    start node to the goal node. *)
Theorem astar_finds_connected fsqrt g start goal :
  registered g start -> registered g goal ->
  (exists steps, walk g start steps goal) ->
  exists p, astar fsqrt g start goal = Some p /\
    head p = Some start /\ last p = Some goal.
Proof.
  intros Hstart Hgoal Hw.
  destruct (astar_connected_Some fsqrt g start goal Hstart Hgoal Hw) as [p Hp].
  exists p. split; [done|]. by eapply astar_endpoints.
Qed.
(** ** graph.py: the edge set, repeated edges, distances *)

Lemma sorted_pair_sym a b : sorted_pair a b = sorted_pair b a.
Proof.
  unfold sorted_pair.
  destruct (String.leb a b) eqn:Hab, (String.leb b a) eqn:Hba; try done.
  - by rewrite (String.leb_antisym _ _ Hab Hba).
  - destruct (String.leb_total a b); congruence.
Qed.

Lemma sorted_pair_cases a b :
  (sorted_pair a b = (a, b) /\ String.leb a b = true) \/
  (sorted_pair a b = (b, a) /\ String.leb b a = true).
Proof.
  unfold sorted_pair. destruct (String.leb a b) eqn:Hab; [by left|right].
  split; [done|]. destruct (String.leb_total a b); congruence.
Qed.

Lemma lists_neighbor_fun g a b u u' :
  lists_neighbor g a b u -> lists_neighbor g a b u' -> u = u'.
Proof. intros (m & Hm & Hd) (m' & Hm' & Hd'). congruence. Qed.

(** [add_edge] leaves every other link as it was. *)
Lemma add_edge_other_links g id1 id2 w g' c d u :
  add_edge g id1 id2 w = Ok g' ->
  (c, d) ≠ (id1, id2) -> (c, d) ≠ (id2, id1) ->
  lists_neighbor g' c d u <-> lists_neighbor g c d u.
Proof.
  intros H Hn1 Hn2. unfold lists_neighbor.
  rewrite (add_edge_lookup _ _ _ _ _ c H).
  destruct (nodes g !! c) as [n|] eqn:Hc; simpl; [|naive_solver].
  assert (dict_get d (neighbors
            (if decide (id2 = c) then set_neighbor id1 w
               (if decide (id1 = c) then set_neighbor id2 w n else n)
             else if decide (id1 = c) then set_neighbor id2 w n else n))
          = dict_get d (neighbors n)) as Heq.
  { destruct (decide (id2 = c)) as [->|], (decide (id1 = c)) as [->|]; simpl;
      rewrite ?dict_get_set_ne; try done; congruence. }
  split; intros (m & Hm & Hd).
  - injection Hm as <-. exists n. by rewrite <-Heq.
  - injection Hm as <-. eexists. split; [done|]. by rewrite Heq.
Qed.

(** The links after a call of [add_edge] that returns. *)
Lemma add_edge_lists g id1 id2 w g' a b v :
  add_edge g id1 id2 w = Ok g' ->
  lists_neighbor g' a b v <->
  (((a, b) = (id1, id2) \/ (a, b) = (id2, id1)) /\ v = w) \/
  ((a, b) ≠ (id1, id2) /\ (a, b) ≠ (id2, id1) /\ lists_neighbor g a b v).
Proof.
  intros H. destruct (add_edge_both_directions _ _ _ _ _ H) as [H12 H21].
  destruct (decide ((a, b) = (id1, id2))) as [[= -> ->]|Hn1].
  { split; [|by intros [[_ ->]|[? _]]].
    intros Hl. left. split; [by left|]. by eapply lists_neighbor_fun. }
  destruct (decide ((a, b) = (id2, id1))) as [[= -> ->]|Hn2].
  { split; [|by intros [[_ ->]|(_ & ? & _)]].
    intros Hl. left. split; [by right|]. by eapply lists_neighbor_fun. }
  rewrite (add_edge_other_links _ _ _ _ _ _ _ _ H Hn1 Hn2).
  split; [by right|]. by intros [[[?|?] _]|(_ & _ & ?)].
Qed.

Lemma add_edge_edges g id1 id2 w g' :
  add_edge g id1 id2 w = Ok g' -> edges g' = {[ sorted_pair id1 id2 ]} ∪ edges g.
Proof.
  unfold add_edge. destruct (nodes g !! id1), (nodes g !! id2); try done.
  by intros [= <-].
Qed.

Lemma add_edge_edges_match g id1 id2 w g' :
  edges_match_links g -> add_edge g id1 id2 w = Ok g' -> edges_match_links g'.
Proof.
  intros Hm H a b. rewrite (add_edge_edges _ _ _ _ _ H), elem_of_union, elem_of_singleton.
  destruct (add_edge_both_directions _ _ _ _ _ H) as [H12 H21].
  split.
  - intros [Hsp|Hold].
    + destruct (sorted_pair_cases id1 id2) as [[Heq Hle]|[Heq Hle]];
        rewrite Heq in Hsp; injection Hsp as -> ->; (split; [done|]); by eexists.
    + apply Hm in Hold as [Hle [v Hv]]. split; [done|].
      destruct (decide ((a, b) = (id1, id2))) as [[= -> ->]|Hn1]; [by eexists|].
      destruct (decide ((a, b) = (id2, id1))) as [[= -> ->]|Hn2]; [by eexists|].
      exists v. by apply (add_edge_other_links _ _ _ _ _ _ _ _ H).
  - intros [Hle [v Hv]].
    apply (add_edge_lists _ _ _ _ _ _ _ _ H) in Hv as [[[Heq|Heq] _]|(_ & _ & Hv)].
    + injection Heq as -> ->. left. unfold sorted_pair. by rewrite Hle.
    + injection Heq as -> ->. left. rewrite sorted_pair_sym. unfold sorted_pair.
      by rewrite Hle.
    + right. apply Hm. split; [done|]. by exists v.
Qed.

Lemma add_node_fresh_edges_match g nid x y g' :
  adjacency_symmetric g -> edges_match_links g -> nodes g !! nid = None ->
  add_node g nid x y = Ok g' -> edges_match_links g'.
Proof.
  intros Hsym Hm Hfresh [= <-] a b. simpl.
  assert (Hsame : forall v, lists_neighbor
            (mkGraph (<[nid := mkNode nid x y []]> (nodes g)) (edges g)) a b v
            <-> lists_neighbor g a b v).
  { intros v. unfold lists_neighbor. simpl. split; intros (n & Hn & Hd).
    - rewrite lookup_insert in Hn. destruct (decide (nid = a)) as [->|Hne].
      + injection Hn as <-. done.
      + by exists n.
    - exists n. split; [|done]. rewrite lookup_insert_ne; [done|]. intros ->. congruence. }
  rewrite (Hm a b). split; intros [Hle [v Hv]]; (split; [done|]); exists v; by apply Hsame.
Qed.

Lemma run_ops_edges_match ops : forall g,
  adjacency_symmetric g -> edges_match_links g -> fresh_adds g ops ->
  edges_match_links (run_ops g ops).
Proof.
  induction ops as [|o ops IH]; intros g Hsym Hm Hfresh; [done|].
  destruct Hfresh as [Ho Hrest]. simpl.
  destruct o as [nid x y|id1 id2 w]; simpl in *.
  - apply IH; [by eapply add_node_fresh_symmetric | | done].
    by eapply add_node_fresh_edges_match.
  - destruct (add_edge g id1 id2 w) as [g'|e] eqn:He; simpl in *; [|by apply IH].
    apply IH; [by eapply add_edge_symmetric | by eapply add_edge_edges_match | done].
Qed.

Lemma empty_graph_edges_match : edges_match_links empty_graph.
Proof.
  intros a b. simpl. split; [by intros ?%not_elem_of_empty|].
  intros [_ [w (n & Hn & _)]]. simpl in Hn. by rewrite lookup_empty in Hn.
Qed.

(** In every graph built from the empty graph by calls of [add_edge] and by
    calls of [add_node] on ids that are not registered yet, the edge set
    holds exactly the pairs [(a, b)] with [a <= b] such that [a] lists [b]
    as a neighbour: every link is recorded once, smaller id first. *)
Theorem edges_record_links ops :
  fresh_adds empty_graph ops ->
  forall a b, (a, b) ∈ edges (run_ops empty_graph ops) <->
    String.leb a b = true /\ exists w, lists_neighbor (run_ops empty_graph ops) a b w.
Proof.
  intros Hfresh.
  apply (run_ops_edges_match ops empty_graph empty_graph_symmetric
           empty_graph_edges_match Hfresh).
Qed.

(** *** Repeated edges *)

Lemma dict_set_set k v v' d : dict_set k v' (dict_set k v d) = dict_set k v' d.
Proof.
  induction d as [|[k0 v0] d IH]; simpl.
  - by rewrite decide_True.
  - destruct (decide (k = k0)) as [->|Hne]; simpl.
    + by rewrite decide_True.
    + rewrite decide_False by done. by rewrite IH.
Qed.

Lemma set_neighbor_set k v v' n :
  set_neighbor k v' (set_neighbor k v n) = set_neighbor k v' n.
Proof. unfold set_neighbor. simpl. by rewrite dict_set_set. Qed.

Lemma add_edge_Ok_inv g id1 id2 w g' :
  add_edge g id1 id2 w = Ok g' -> is_Some (nodes g !! id1) /\ is_Some (nodes g !! id2).
Proof. unfold add_edge. destruct (nodes g !! id1), (nodes g !! id2); by eauto. Qed.

Lemma add_edge_registered g id1 id2 w :
  is_Some (nodes g !! id1) -> is_Some (nodes g !! id2) ->
  exists g', add_edge g id1 id2 w = Ok g'.
Proof. intros [n1 H1] [n2 H2]. unfold add_edge. rewrite H1, H2. by eexists. Qed.

Lemma add_edge_keeps_registered g id1 id2 w g' k :
  add_edge g id1 id2 w = Ok g' -> is_Some (nodes g' !! k) <-> is_Some (nodes g !! k).
Proof.
  intros H. rewrite (add_edge_lookup _ _ _ _ _ k H), !fmap_is_Some. done.
Qed.

Lemma graph_eq g1 g2 :
  (forall k, nodes g1 !! k = nodes g2 !! k) -> edges g1 = edges g2 -> g1 = g2.
Proof.
  destruct g1 as [n1 e1], g2 as [n2 e2]. simpl. intros Hn ->. f_equal. by apply map_eq.
Qed.

(** Adding an edge that is already there, from either endpoint and with any
    weight, gives the graph that a single call with the new weight gives. *)
Theorem add_edge_again g id1 id2 w w' g1 :
  add_edge g id1 id2 w = Ok g1 ->
  add_edge g1 id1 id2 w' = add_edge g id1 id2 w' /\
  add_edge g1 id2 id1 w' = add_edge g id1 id2 w'.
Proof.
  intros H. destruct (add_edge_Ok_inv _ _ _ _ _ H) as [Hr1 Hr2].
  destruct (add_edge_registered g id1 id2 w' Hr1 Hr2) as [g' Hg'].
  assert (Hr1' : is_Some (nodes g1 !! id1)) by (by apply (add_edge_keeps_registered _ _ _ _ _ _ H)).
  assert (Hr2' : is_Some (nodes g1 !! id2)) by (by apply (add_edge_keeps_registered _ _ _ _ _ _ H)).
  destruct (add_edge_registered g1 id1 id2 w' Hr1' Hr2') as [ga Hga].
  destruct (add_edge_registered g1 id2 id1 w' Hr2' Hr1') as [gb Hgb].
  rewrite Hg', Hga, Hgb. split; f_equal; apply graph_eq.
  - intros k. rewrite (add_edge_lookup _ _ _ _ _ k Hga), (add_edge_lookup _ _ _ _ _ k Hg'),
      (add_edge_lookup _ _ _ _ _ k H).
    destruct (nodes g !! k) as [n|]; [|done]. simpl. f_equal.
    destruct (decide (id2 = k)) as [->|], (decide (id1 = k)) as [->|];
      by rewrite ?set_neighbor_set.
  - rewrite (add_edge_edges _ _ _ _ _ Hga), (add_edge_edges _ _ _ _ _ Hg'),
      (add_edge_edges _ _ _ _ _ H). by rewrite (assoc_L (∪)), (idemp_L (∪)).
  - intros k. rewrite (add_edge_lookup _ _ _ _ _ k Hgb), (add_edge_lookup _ _ _ _ _ k Hg'),
      (add_edge_lookup _ _ _ _ _ k H).
    destruct (nodes g !! k) as [n|]; [|done]. simpl. f_equal.
    destruct (decide (id2 = k)) as [->|], (decide (id1 = k)) as [->|];
      by rewrite ?set_neighbor_set.
  - rewrite (add_edge_edges _ _ _ _ _ Hgb), (add_edge_edges _ _ _ _ _ Hg'),
      (add_edge_edges _ _ _ _ _ H), (sorted_pair_sym id2 id1).
    by rewrite (assoc_L (∪)), (idemp_L (∪)).
Qed.

(** *** Distances *)

(** [euclidean] is infinite when one of the two ids is not registered, and
    it does not depend on the order of the two ids. *)
Theorem euclidean_inf_or_symmetric fsqrt g a b :
  respects_Qeq fsqrt ->
  (~ registered g a \/ ~ registered g b -> euclidean fsqrt g a b = Inf) /\
  fequiv (euclidean fsqrt g a b) (euclidean fsqrt g b a).
Proof.
  intros Hf. unfold euclidean, registered.
  destruct (nodes g !! a) as [na|], (nodes g !! b) as [nb|]; simpl; try done.
  split.
  - intros [Hn|Hn]; exfalso; apply Hn; by eexists.
  - apply Hf. ring.
Qed.
(** ** graph.py: the node nearest to a point *)

Section Nearest.
Context (fsqrt : Q -> Q) (x y : Q).

Local Abbreviation cd n := (coord_distance fsqrt n x y).
Local Abbreviation step :=
  (fun '(min_distance, nearest_id) '(nid, node) =>
     let dx := (node_x node - x)%Q in
     let dy := (node_y node - y)%Q in
     let distance := Fin (fsqrt (dx * dx + dy * dy)%Q) in
     if flt distance min_distance then (distance, Some nid)
     else (min_distance, nearest_id) : fnum * option string).

(** The state of the scan after the entries [seen]. *)
Lemma nearest_scan (seen : list (string * Node)) :
  match foldl step (Inf, None) seen with
  | (md, None) => md = Inf /\ seen = []
  | (md, Some nid) =>
      exists n, (nid, n) ∈ seen /\ md = Fin (cd n) /\
        forall k m, (k, m) ∈ seen -> (cd n <= cd m)%Q
  end.
Proof.
  induction seen as [|[k m] seen IH] using rev_ind; [done|].
  rewrite foldl_app. cbn [foldl].
  destruct (foldl step (Inf, None) seen) as [md [nid|]].
  - destruct IH as (n & Hin & -> & Hmin). cbv beta iota zeta. cbn [flt].
    destruct (Qlt_bool _ _) eqn:Hlt.
    + exists m. split_and!; [apply elem_of_app; right; left | done |].
      apply Qlt_bool_iff in Hlt. fold (cd m) in Hlt.
      intros k' m' [Hin'|[= -> ->]%list_elem_of_singleton]%elem_of_app.
      * specialize (Hmin _ _ Hin'). lra.
      * lra.
    + exists n. split_and!; [apply elem_of_app; by left | done |].
      apply Qlt_bool_false in Hlt. fold (cd m) in Hlt.
      intros k' m' [Hin'|[= -> ->]%list_elem_of_singleton]%elem_of_app; [by eapply Hmin | done].
  - destruct IH as [-> ->]. cbv beta iota zeta. cbn [flt].
    exists m. split_and!; [left | done |].
    intros k' m' [= -> ->]%list_elem_of_singleton. lra.
Qed.

End Nearest.

(** [nearest_node_to_coord] answers [None] on a graph without nodes; and
    when it answers an id, this is the id of a registered node and no
    registered node is closer to the point. *)
Theorem nearest_node_to_coord_minimal fsqrt nodes_items g x y :
  items_enumerate nodes_items ->
  (nodes g = ∅ -> nearest_node_to_coord fsqrt nodes_items g x y = None) /\
  forall nid, nearest_node_to_coord fsqrt nodes_items g x y = Some nid ->
    exists n, nodes g !! nid = Some n /\
      forall k m, nodes g !! k = Some m ->
        (coord_distance fsqrt n x y <= coord_distance fsqrt m x y)%Q.
Proof.
  intros Hitems. unfold nearest_node_to_coord.
  destruct (decide (nodes g = ∅)) as [Hempty|Hne]; [done|].
  pose proof (nearest_scan fsqrt x y (nodes_items (nodes g))) as Hscan.
  destruct (foldl _ _ _) as [md [best|]]; simpl; [|done].
  destruct Hscan as (n & Hin & _ & Hmin). split; [done|].
  intros nid [= <-]. exists n. split.
  - apply elem_of_map_to_list. by rewrite <-(Hitems (nodes g)).
  - intros k m Hk. apply (Hmin k). rewrite (Hitems (nodes g)).
    by apply elem_of_map_to_list.
Qed.
(** ** graph.py: the grid loader *)

(** *** Loops that may raise *)

Lemma for_each_app {S A} (body : S -> A -> result S) l1 l2 : forall s,
  for_each body s (l1 ++ l2) =
  match for_each body s l1 with
  | Ok s' => for_each body s' l2
  | Raise e => Raise e
  end.
Proof.
  induction l1 as [|a l1 IH]; intros s; simpl; [done|].
  destruct (body s a); [apply IH | done].
Qed.

Lemma for_each_ext {S A} (body1 body2 : S -> A -> result S) l : forall s,
  (forall s a, body1 s a = body2 s a) ->
  for_each body1 s l = for_each body2 s l.
Proof.
  intros s Hext. revert s. induction l as [|a l IH]; intros s; simpl; [done|].
  rewrite Hext. destruct (body2 s a); [apply IH | done].
Qed.

Lemma for_each_bind {S A B} (body : S -> B -> result S) (f : A -> list B) l : forall s,
  for_each (fun s a => for_each body s (f a)) s l = for_each body s (l ≫= f).
Proof.
  induction l as [|a l IH]; intros s; [done|].
  rewrite bind_cons, for_each_app. simpl.
  destruct (for_each body s (f a)); [apply IH | done].
Qed.

Lemma grid_add_nodes_ops g width height spacing obstacles_set :
  grid_add_nodes g width height spacing obstacles_set
  = for_each apply_op g (grid_node_ops width height spacing obstacles_set).
Proof.
  unfold grid_add_nodes, grid_node_ops.
  rewrite <-for_each_bind. apply for_each_ext. intros g1 i.
  rewrite <-for_each_bind. apply for_each_ext. intros g2 j.
  destruct (decide ((i, j) ∉ obstacles_set)); [|done]. done.
Qed.

Lemma grid_add_edges_ops g width height spacing obstacles_set :
  grid_add_edges g width height spacing obstacles_set
  = for_each apply_op g (grid_edge_ops width height spacing obstacles_set).
Proof.
  unfold grid_add_edges, grid_edge_ops.
  rewrite <-for_each_bind. apply for_each_ext. intros g1 i.
  rewrite <-for_each_bind. apply for_each_ext. intros g2 j.
  destruct (decide ((i, j) ∈ obstacles_set)); [done|].
  unfold cell_edge_ops. rewrite <-for_each_bind. apply for_each_ext.
  intros g3 [ni nj].
  destruct ((0 <=? ni) && (ni <? height) && ((0 <=? nj) && (nj <? width)))%Z; [|done].
  destruct (decide ((ni, nj) ∉ obstacles_set)); [|done].
  simpl. by destruct (add_edge _ _ _ _).
Qed.

(** A sequence of calls none of which raises. *)
Lemma for_each_run_ops (R : string -> Prop) ops : forall g,
  (forall id1 id2 w, AddEdge id1 id2 w ∈ ops -> R id1 /\ R id2) ->
  (forall k, R k -> registered g k) ->
  for_each apply_op g ops = Ok (run_ops g ops) /\
  forall k, R k \/ registered g k -> registered (run_ops g ops) k.
Proof.
  induction ops as [|o ops IH]; intros g Hops HR.
  { split; [done|]. intros k [?|?]; [by apply HR | done]. }
  assert (exists g', apply_op g o = Ok g' /\ forall k, registered g k -> registered g' k)
    as (g' & Hg' & Hkeep).
  { destruct o as [nid x y|id1 id2 w]; simpl.
    - eexists. split; [done|]. intros k [n Hn]. unfold registered. simpl.
      rewrite lookup_insert. destruct (decide (nid = k)); [by eexists | by exists n].
    - destruct (Hops id1 id2 w ltac:(left)) as [H1 H2].
      destruct (add_edge_registered g id1 id2 w (HR _ H1) (HR _ H2)) as [g' Hg'].
      exists g'. split; [done|]. intros k Hk.
      by apply (add_edge_keeps_registered _ _ _ _ _ k Hg'). }
  simpl. rewrite Hg'. simpl.
  destruct (IH g') as [Hrun Hreg].
  - intros id1 id2 w Hin. apply (Hops id1 id2 w). by right.
  - intros k Hk. by apply Hkeep, HR.
  - split; [done|]. intros k [Hk|Hk]; apply Hreg; [by left | right; by apply Hkeep].
Qed.

(** *** Cell ids *)

Lemma no_separator_app s1 s2 :
  no_separator s1 -> no_separator s2 -> no_separator (s1 +:+ s2).
Proof. induction s1 as [|c s1 IH]; simpl; [done|]. intros [? ?] ?. split; auto. Qed.

Lemma pretty_N_go_no_separator x : forall s,
  no_separator s -> no_separator (pretty_N_go x s).
Proof.
  induction (N.lt_wf_0 x) as [x _ IH]; intros s Hs.
  assert (x = 0 \/ 0 < x)%N as [->|Hpos] by lia.
  - by rewrite pretty_N_go_0.
  - rewrite pretty_N_go_step by done. apply IH; [by apply N.div_lt|].
    split; [|done]. unfold pretty_N_char. by repeat case_match.
Qed.

Lemma pretty_N_no_separator (x : N) : no_separator (pretty x).
Proof.
  unfold pretty, pretty_N. destruct (decide (x = 0%N)); [by simpl|].
  by apply pretty_N_go_no_separator.
Qed.

Lemma pretty_Z_no_separator (x : Z) : no_separator (pretty x).
Proof.
  destruct x as [|p|p]; unfold pretty, pretty_Z.
  - by simpl.
  - apply pretty_N_no_separator.
  - simpl. split; [done|]. apply pretty_N_no_separator.
Qed.

Lemma separator_split d1 : forall d2 r1 r2,
  no_separator d1 -> no_separator d2 ->
  d1 +:+ ("_" +:+ r1) = d2 +:+ ("_" +:+ r2) -> d1 = d2 /\ r1 = r2.
Proof.
  induction d1 as [|c d1 IH]; intros [|c' d2] r1 r2 H1 H2 Heq.
  - injection Heq as Heq. change (r1 = r2) in Heq. by subst.
  - injection Heq as Hc _. destruct H2 as [H2 _]. by rewrite <-Hc in H2.
  - injection Heq as Hc _. destruct H1 as [H1 _]. by rewrite Hc in H1.
  - injection Heq as -> Heq. destruct H1 as [_ H1], H2 as [_ H2].
    change (d1 +:+ ("_" +:+ r1) = d2 +:+ ("_" +:+ r2)) in Heq.
    destruct (IH d2 r1 r2 H1 H2 Heq) as [-> ->]. done.
Qed.

Lemma cell_id_inj i j i' j' : cell_id i j = cell_id i' j' -> i = i' /\ j = j'.
Proof.
  unfold cell_id. intros [= Heq].
  apply separator_split in Heq as [Hi Hj]; try apply pretty_Z_no_separator.
  split; by apply (inj pretty).
Qed.

Lemma elem_of_range n i : i ∈ range n <-> (0 <= i < n)%Z.
Proof.
  unfold range. rewrite list_elem_of_fmap. split.
  - intros (k & -> & Hk). apply elem_of_seq in Hk. lia.
  - intros Hi. exists (Z.to_nat i). split; [lia|]. apply elem_of_seq. lia.
Qed.

Lemma range_NoDup n : NoDup (range n).
Proof.
  unfold range. apply NoDup_fmap_2; [apply _ | apply NoDup_seq].
Qed.

(** *** The calls made by the loader *)

Lemma elem_of_grid_node_ops width height spacing (obstacles : list (Z * Z)) o :
  o ∈ grid_node_ops width height spacing (list_to_set obstacles) <->
  exists i j, free_cell width height obstacles i j /\
    o = AddNode (cell_id i j) (inject_Z j * spacing)%Q (inject_Z i * spacing)%Q.
Proof.
  unfold grid_node_ops, free_cell. rewrite list_elem_of_bind. split.
  - intros (i & Hin & Hi). apply list_elem_of_bind in Hin as (j & Hin & Hj).
    apply elem_of_range in Hi, Hj.
    destruct (decide ((i, j) ∉ list_to_set (C := gset (Z * Z)) obstacles)) as [Hfree|];
      [|by inversion Hin].
    apply list_elem_of_singleton in Hin as ->. exists i, j. split; [|done].
    split; [lia|]. split; [lia|]. by rewrite elem_of_list_to_set in Hfree.
  - intros (i & j & (Hi & Hj & Hfree) & ->). exists i. split; [|by apply elem_of_range].
    apply list_elem_of_bind. exists j. split; [|by apply elem_of_range].
    rewrite decide_True by (by rewrite elem_of_list_to_set). left.
Qed.

Lemma elem_of_cell_edge_ops width height spacing (obstacles : list (Z * Z)) i j o :
  o ∈ cell_edge_ops width height spacing (list_to_set obstacles) i j <->
  exists ni nj, free_cell width height obstacles ni nj /\ adjacent_cells i j ni nj /\
    o = AddEdge (cell_id i j) (cell_id ni nj) spacing.
Proof.
  unfold cell_edge_ops, free_cell, adjacent_cells. rewrite list_elem_of_bind. split.
  - intros ([ni nj] & Hin & Hnb).
    destruct ((0 <=? ni) && (ni <? height) && ((0 <=? nj) && (nj <? width)))%Z eqn:Hrange;
      [|by inversion Hin].
    destruct (decide ((ni, nj) ∉ list_to_set (C := gset (Z * Z)) obstacles)) as [Hfree|];
      [|by inversion Hin].
    apply list_elem_of_singleton in Hin as ->. exists ni, nj.
    rewrite elem_of_list_to_set in Hfree.
    split; [split; [lia|]; split; [lia|done]|]. split; [|done].
    repeat (apply elem_of_cons in Hnb as [[= -> ->]|Hnb]; [lia|]). by inversion Hnb.
  - intros (ni & nj & (Hi & Hj & Hfree) & Hadj & ->). exists (ni, nj). split.
    + replace ((0 <=? ni) && (ni <? height) && ((0 <=? nj) && (nj <? width)))%Z
        with true by (symmetry; apply andb_true_iff; split; apply andb_true_iff; lia).
      rewrite decide_True by (by rewrite elem_of_list_to_set). left.
    + destruct Hadj as [[-> [->| ->]]|[-> [->| ->]]].
      * do 2 right. left.
      * do 3 right. left.
      * left.
      * right. left.
Qed.

Lemma elem_of_grid_edge_ops width height spacing (obstacles : list (Z * Z)) o :
  o ∈ grid_edge_ops width height spacing (list_to_set obstacles) <->
  exists i j ni nj,
    free_cell width height obstacles i j /\ free_cell width height obstacles ni nj /\
    adjacent_cells i j ni nj /\
    o = AddEdge (cell_id i j) (cell_id ni nj) spacing.
Proof.
  unfold grid_edge_ops. rewrite list_elem_of_bind. split.
  - intros (i & Hin & Hi). apply list_elem_of_bind in Hin as (j & Hin & Hj).
    apply elem_of_range in Hi, Hj.
    destruct (decide ((i, j) ∈ list_to_set (C := gset (Z * Z)) obstacles)) as [|Hfree];
      [by inversion Hin|].
    apply elem_of_cell_edge_ops in Hin as (ni & nj & Hn & Hadj & ->).
    exists i, j, ni, nj. split_and!; try done.
    split; [lia|]. split; [lia|]. by rewrite elem_of_list_to_set in Hfree.
  - intros (i & j & ni & nj & (Hi & Hj & Hfree) & Hn & Hadj & ->).
    exists i. split; [|by apply elem_of_range].
    apply list_elem_of_bind. exists j. split; [|by apply elem_of_range].
    rewrite decide_False by (by rewrite elem_of_list_to_set).
    apply elem_of_cell_edge_ops. by exists ni, nj.
Qed.

(** *** Graphs after a sequence of calls *)

Lemma run_ops_app g ops1 ops2 : run_ops g (ops1 ++ ops2) = run_ops (run_ops g ops1) ops2.
Proof. apply foldl_app. Qed.

Lemma run_ok_registered g o k :
  registered g k -> registered (run_ok g (apply_op g o)) k.
Proof.
  intros Hk. destruct o as [nid x y|id1 id2 w]; simpl.
  - destruct Hk as [n Hn]. unfold registered. simpl. rewrite lookup_insert.
    destruct (decide (nid = k)); [by eexists | by exists n].
  - destruct (add_edge g id1 id2 w) as [g'|] eqn:He; simpl; [|done].
    by apply (add_edge_keeps_registered _ _ _ _ _ k He).
Qed.

Lemma run_ops_registered ops : forall g k,
  registered g k -> registered (run_ops g ops) k.
Proof.
  induction ops as [|o ops IH]; intros g k Hk; [done|].
  simpl. by apply IH, run_ok_registered.
Qed.

Lemma run_ops_added ops : forall g k x y,
  AddNode k x y ∈ ops -> registered (run_ops g ops) k.
Proof.
  induction ops as [|o ops IH]; intros g k x y Hin; [by inversion Hin|].
  apply elem_of_cons in Hin as [<-|Hin]; simpl.
  - apply run_ops_registered. unfold registered. simpl. rewrite lookup_insert_eq. by eexists.
  - by eapply IH.
Qed.

(** The nodes after calls of [add_node] only. *)
Lemma nodes_after_adds (P : string -> Q -> Q -> Prop) ops : forall g,
  (forall o, o ∈ ops -> exists k x y, o = AddNode k x y /\ P k x y) ->
  edges (run_ops g ops) = edges g /\
  forall k n, nodes (run_ops g ops) !! k = Some n ->
    nodes g !! k = Some n \/ exists x y, P k x y /\ n = mkNode k x y [].
Proof.
  induction ops as [|o ops IH]; intros g Hops; [by split; [|left]|].
  destruct (Hops o ltac:(left)) as (k0 & x0 & y0 & -> & HP).
  destruct (IH (run_ok g (apply_op g (AddNode k0 x0 y0)))) as [He Hn].
  { intros o Ho. apply Hops. by right. }
  split; [done|]. intros k n Hk. simpl in Hk.
  destruct (Hn k n Hk) as [Hold|Hnew]; [|by right].
  simpl in Hold. rewrite lookup_insert in Hold.
  destruct (decide (k0 = k)) as [->|Hne]; [|by left].
  injection Hold as <-. right. by exists x0, y0.
Qed.

(** Calls of [add_edge] keep the id and the coordinates of every node. *)
Lemma nodes_after_edges ops : forall g,
  (forall o, o ∈ ops -> exists a b w, o = AddEdge a b w) ->
  forall k n', nodes (run_ops g ops) !! k = Some n' ->
    exists n, nodes g !! k = Some n /\
      node_id n' = node_id n /\ node_x n' = node_x n /\ node_y n' = node_y n.
Proof.
  induction ops as [|o ops IH]; intros g Hops k n' Hk; [by exists n'|].
  destruct (Hops o ltac:(left)) as (a & b & w & ->).
  destruct (IH _ ltac:(intros o Ho; apply Hops; by right) k n' Hk)
    as (n1 & Hn1 & Hid & Hx & Hy).
  simpl in Hn1. destruct (add_edge g a b w) as [g'|] eqn:He; simpl in Hn1; [|by exists n1].
  rewrite (add_edge_lookup _ _ _ _ _ k He) in Hn1.
  destruct (nodes g !! k) as [n|]; [|done]. exists n. split; [done|].
  simpl in Hn1. injection Hn1 as <-. rewrite Hid, Hx, Hy.
  by destruct (decide (b = k)), (decide (a = k)).
Qed.

(** The links after calls of [add_edge] of one weight on a graph without
    links. *)
Lemma links_after_edges w ops : forall g,
  (forall o, o ∈ ops -> exists a b, o = AddEdge a b w /\ registered g a /\ registered g b) ->
  (forall a b v, ~ lists_neighbor g a b v) ->
  forall a b v, lists_neighbor (run_ops g ops) a b v <->
    v = w /\ exists x y, AddEdge x y w ∈ ops /\ ((a, b) = (x, y) \/ (a, b) = (y, x)).
Proof.
  induction ops as [|o ops IH] using rev_ind; intros g Hops Hnone a b v.
  { simpl. split; [by intros ?%Hnone|]. intros (_ & x & y & Hin & _). by inversion Hin. }
  destruct (Hops o ltac:(apply elem_of_app; right; left)) as (x0 & y0 & -> & Hx0 & Hy0).
  rewrite run_ops_app. simpl.
  destruct (add_edge_registered (run_ops g ops) x0 y0 w) as [g' Hg'];
    [by apply run_ops_registered..|].
  rewrite Hg'. simpl. rewrite (add_edge_lists _ _ _ _ _ a b v Hg').
  rewrite (IH g ltac:(intros o Ho; apply Hops, elem_of_app; by left) Hnone a b v).
  split.
  - intros [[Hab ->]|(_ & _ & -> & x & y & Hin & Hab)].
    + split; [done|]. exists x0, y0. split; [apply elem_of_app; right; left | done].
    + split; [done|]. exists x, y. split; [apply elem_of_app; by left | done].
  - intros (-> & x & y & Hin & Hab).
    destruct (decide ((a, b) = (x0, y0) \/ (a, b) = (y0, x0))) as [Hnew|Hold]; [by left|].
    right. split_and!; [tauto | tauto | done |].
    apply elem_of_app in Hin as [Hin|[= -> ->]%list_elem_of_singleton]; [|tauto].
    by exists x, y.
Qed.

Lemma fresh_adds_edges ops : forall g,
  (forall o, o ∈ ops -> exists a b w, o = AddEdge a b w) -> fresh_adds g ops.
Proof.
  induction ops as [|o ops IH]; intros g Hops; [done|].
  destruct (Hops o ltac:(left)) as (a & b & w & ->).
  split; [done|]. apply IH. intros o Ho. apply Hops. by right.
Qed.

(** *** The loader *)

Lemma load_from_grid_run g width height spacing obstacles :
  let obs := list_to_set (C := gset (Z * Z)) (default [] obstacles) in
  load_from_grid g width height spacing obstacles
  = Ok (run_ops (run_ops g (grid_node_ops width height spacing obs))
                (grid_edge_ops width height spacing obs)).
Proof.
  intros obs. unfold load_from_grid. fold obs.
  rewrite grid_add_nodes_ops.
  destruct (for_each_run_ops (fun _ => False)
              (grid_node_ops width height spacing obs) g) as [-> _].
  { intros id1 id2 w Hin. apply elem_of_grid_node_ops in Hin as (i & j & _ & Heq). done. }
  { done. }
  rewrite grid_add_edges_ops.
  destruct (for_each_run_ops
              (fun k => exists i j, free_cell width height (default [] obstacles) i j /\
                                    k = cell_id i j)
              (grid_edge_ops width height spacing obs)
              (run_ops g (grid_node_ops width height spacing obs))) as [-> _]; [| |done].
  - intros id1 id2 w Hin.
    apply elem_of_grid_edge_ops in Hin as (i & j & ni & nj & Hc & Hn & _ & [= -> -> _]).
    split; [by exists i, j | by exists ni, nj].
  - intros k (i & j & Hfree & ->). eapply run_ops_added.
    apply elem_of_grid_node_ops. by exists i, j.
Qed.

(** [load_from_grid] never raises, whatever the graph holds before the call,
    and the nodes registered before the call are registered after it. *)
Theorem load_from_grid_never_raises g width height spacing obstacles :
  exists g', load_from_grid g width height spacing obstacles = Ok g' /\
    forall k, registered g k -> registered g' k.
Proof.
  eexists. split; [apply load_from_grid_run|].
  intros k Hk. by do 2 apply run_ops_registered.
Qed.

(** On a new graph [load_from_grid] builds the grid: the registered nodes are
    the cells that are not blocked, each at its coordinates; two cells are
    linked exactly when they share a side, with weight [spacing]; and the
    adjacency is symmetric, with every link recorded once in the edge set. *)
Theorem load_from_grid_builds_grid width height spacing obstacles :
  let free := free_cell width height (default [] obstacles) in
  exists g, load_from_grid empty_graph width height spacing obstacles = Ok g /\
    (forall i j, free i j ->
       exists n, nodes g !! cell_id i j = Some n /\
         node_x n = (inject_Z j * spacing)%Q /\ node_y n = (inject_Z i * spacing)%Q) /\
    (forall k, registered g k -> exists i j, free i j /\ k = cell_id i j) /\
    (forall i j i' j' v,
       lists_neighbor g (cell_id i j) (cell_id i' j') v <->
       free i j /\ free i' j' /\ adjacent_cells i j i' j' /\ v = spacing) /\
    adjacency_symmetric g /\ dicts_wf g /\ edges_match_links g.
Proof.
  intros free.
  set (obs := list_to_set (C := gset (Z * Z)) (default [] obstacles)).
  set (nops := grid_node_ops width height spacing obs).
  set (eops := grid_edge_ops width height spacing obs).
  set (g1 := run_ops empty_graph nops).
  exists (run_ops g1 eops). split; [apply load_from_grid_run|].
  destruct (nodes_after_adds
              (fun k x y => exists i j, free i j /\ k = cell_id i j /\
                 x = (inject_Z j * spacing)%Q /\ y = (inject_Z i * spacing)%Q)
              nops empty_graph) as [Hedges1 Hnodes1].
  { intros o Ho. apply elem_of_grid_node_ops in Ho as (i & j & Hfree & ->).
    eexists _, _, _. split; [done|]. by exists i, j. }
  fold g1 in Hedges1, Hnodes1.
  assert (Hnode1 : forall k n, nodes g1 !! k = Some n ->
            neighbors n = [] /\ exists i j, free i j /\ k = cell_id i j /\
              node_x n = (inject_Z j * spacing)%Q /\ node_y n = (inject_Z i * spacing)%Q).
  { intros k n Hk. destruct (Hnodes1 k n Hk) as [Hold|(x & y & (i & j & ?) & ->)].
    - simpl in Hold. by rewrite lookup_empty in Hold.
    - split; [done|]. exists i, j. naive_solver. }
  assert (Hnone : forall a b v, ~ lists_neighbor g1 a b v).
  { intros a b v (n & Hn & Hd). destruct (Hnode1 a n Hn) as [Hnil _].
    by rewrite Hnil in Hd. }
  assert (Heops : forall o, o ∈ eops -> exists a b w, o = AddEdge a b w).
  { intros o Ho. apply elem_of_grid_edge_ops in Ho as (i & j & ni & nj & _ & _ & _ & ->).
    by eexists _, _, _. }
  assert (Hreg1 : forall i j, free i j -> registered g1 (cell_id i j)).
  { intros i j Hfree. eapply run_ops_added. apply elem_of_grid_node_ops. by exists i, j. }
  split_and!.
  - intros i j Hfree.
    destruct (run_ops_registered eops g1 _ (Hreg1 i j Hfree)) as [n' Hn'].
    exists n'. split; [done|].
    destruct (nodes_after_edges eops g1 Heops _ _ Hn') as (n & Hn & _ & -> & ->).
    destruct (Hnode1 _ n Hn) as (_ & i' & j' & _ & Heq & -> & ->).
    by apply cell_id_inj in Heq as [-> ->].
  - intros k [n' Hn'].
    destruct (nodes_after_edges eops g1 Heops _ _ Hn') as (n & Hn & _).
    destruct (Hnode1 _ n Hn) as (_ & i & j & Hfree & -> & _). by exists i, j.
  - intros i j i' j' v.
    rewrite (links_after_edges spacing eops g1); [|
      intros o Ho; apply elem_of_grid_edge_ops in Ho
        as (i0 & j0 & ni & nj & Hc & Hn & _ & ->);
      eexists _, _; split_and!; [done | by apply Hreg1..] | done].
    split.
    + intros (-> & x & y & Hin & Hxy).
      apply elem_of_grid_edge_ops in Hin as (i0 & j0 & ni & nj & Hc & Hn & Hadj & [= -> ->]).
      destruct Hxy as [Hxy|Hxy]; apply pair_equal_spec in Hxy as [H1 H2];
        apply cell_id_inj in H1 as [-> ->]; apply cell_id_inj in H2 as [-> ->].
      * done.
      * split_and!; try done. unfold adjacent_cells in *. lia.
    + intros (Hc & Hn & Hadj & ->). split; [done|].
      exists (cell_id i j), (cell_id i' j'). split; [|by left].
      apply elem_of_grid_edge_ops. by exists i, j, i', j'.
  - apply run_ops_symmetric; [|by apply fresh_adds_edges].
    intros a b v Hl. by apply Hnone in Hl.
  - apply run_ops_dicts_wf. intros k n Hk. destruct (Hnode1 k n Hk) as [-> _]. constructor.
  - apply run_ops_edges_match; [| |by apply fresh_adds_edges].
    + intros a b v Hl. by apply Hnone in Hl.
    + intros a b. rewrite Hedges1. simpl. split; [by intros ?%not_elem_of_empty|].
      intros [_ [v Hl]]. by apply Hnone in Hl.
Qed.
(** ** two_opt.py: the stops of a route, whole solutions, convergence *)

(** One reversal permutes the route and keeps its two ends. *)
Lemma two_opt_scan_shape fsqrt g r thr r' :
  two_opt_scan fsqrt g r thr = Some r' ->
  r' ≡ₚ r /\ head r' = head r /\ last r' = last r.
Proof.
  intros H.
  apply two_opt_scan_Some in H as (i & j & Hi & Hij & Hj & _ & ->).
  destruct (route_window r i j Hi Hij Hj) as (P & p & a & M & b & n & T & -> & -> & ->).
  destruct (window_lookups P p a M b n T) as (_ & _ & _ & _ & Hrev).
  cbv zeta in Hrev. rewrite Hrev. split_and!.
  - apply Permutation_app_head. apply perm_skip.
    etrans; [apply perm_skip, Permutation_app_tail, reverse_Permutation|].
    etrans; [apply perm_skip; symmetry; apply Permutation_middle|].
    etrans; [apply perm_swap|]. apply perm_skip, Permutation_middle.
  - by destruct P.
  - replace (P ++ p :: b :: reverse M ++ a :: n :: T)
      with ((P ++ p :: b :: reverse M ++ [a]) ++ n :: T) by (by flatten_app).
    replace (P ++ p :: a :: M ++ b :: n :: T)
      with ((P ++ p :: a :: M ++ [b]) ++ n :: T) by (by flatten_app).
    by rewrite !last_app_cons.
Qed.

Lemma two_opt_loop_shape fsqrt g thr n : forall r,
  let r' := fst (two_opt_loop fsqrt g thr n r) in
  r' ≡ₚ r /\ head r' = head r /\ last r' = last r.
Proof.
  induction n as [|n IH]; intros r; simpl; [done|].
  destruct (two_opt_scan fsqrt g r thr) as [r1|] eqn:Hs; simpl; [|done].
  destruct (two_opt_scan_shape _ _ _ _ _ Hs) as (Hp & Hh & Hl).
  destruct (IH r1) as (Hp' & Hh' & Hl'). split_and!.
  - by rewrite Hp'.
  - by rewrite Hh'.
  - by rewrite Hl'.
Qed.

(** A permutation with the same two ends keeps a route depot-framed. *)
Lemma framed_route_perm depot_id r r' :
  framed_route depot_id r -> r' ≡ₚ r -> head r' = head r -> last r' = last r ->
  exists stops stops',
    r = [depot_id] ++ stops ++ [depot_id] /\ r' = [depot_id] ++ stops' ++ [depot_id] /\
    stops' ≡ₚ stops /\ (depot_id ∉ stops').
Proof.
  intros (stops & -> & Hd) Hperm Hhead Hlast.
  destruct r' as [|x r']; [by apply Permutation_nil_cons in Hperm|].
  simpl in Hhead. injection Hhead as ->.
  apply Permutation_cons_inv in Hperm.
  destruct (decide (r' = [])) as [->|Hne].
  { apply Permutation_nil_l in Hperm. by destruct stops. }
  destruct (exists_last Hne) as (stops' & y & ->).
  change (depot_id :: stops' ++ [y]) with ((depot_id :: stops') ++ [y]) in Hlast.
  change ([depot_id] ++ stops ++ [depot_id]) with ((depot_id :: stops) ++ [depot_id]) in Hlast.
  rewrite !last_snoc in Hlast. injection Hlast as ->.
  rewrite <-!(Permutation_cons_append _ depot_id) in Hperm.
  apply Permutation_cons_inv in Hperm.
  exists stops, stops'. split_and!; try done. by rewrite Hperm.
Qed.

(** [two_opt_single_route] returns a rearrangement of the route it is given,
    with the same first and the same last entry; a depot-framed route stays
    depot-framed, with the same stops in some order. *)
Theorem two_opt_keeps_stops fsqrt g route thr max_iterations :
  let r' := two_opt_single_route fsqrt g route thr max_iterations in
  r' ≡ₚ route /\ head r' = head route /\ last r' = last route /\
  forall depot_id, framed_route depot_id route ->
    framed_route depot_id r' /\
    filter (fun n => n ≠ depot_id) r' ≡ₚ filter (fun n => n ≠ depot_id) route.
Proof.
  intros r'. destruct (two_opt_loop_shape fsqrt g thr max_iterations route) as (Hp & Hh & Hl).
  fold (two_opt_single_route fsqrt g route thr max_iterations) in Hp, Hh, Hl. fold r' in Hp, Hh, Hl.
  split_and!; try done.
  intros depot_id Hfr.
  destruct (framed_route_perm depot_id route r' Hfr Hp Hh Hl)
    as (stops & stops' & _ & Heq & _ & Hd).
  split; [by exists stops'|]. by rewrite Hp.
Qed.

(** *** Whole solutions *)

Lemma total_distance_foldr fsqrt g (routes : gmap string (list string)) :
  calculate_total_distance fsqrt g routes
  = foldr (fun '(_, route) total => fadd total (calculate_route_distance fsqrt g route))
          (Fin 0) (map_to_list routes).
Proof.
  unfold calculate_total_distance. rewrite map_fold_foldr.
  induction (map_to_list routes) as [|[k r] l IH]; [done|]. simpl. by rewrite IH.
Qed.

(** [optimize_routes_2opt] keeps the vehicles, gives every vehicle a
    rearrangement of its route with the same first and the same last entry,
    and keeps a depot-framed solution depot-framed. *)
Theorem optimize_routes_2opt_solution fsqrt g routes thr max_iterations :
  let out := optimize_routes_2opt fsqrt g routes thr max_iterations in
  dom out = dom routes /\
  (forall tid r, routes !! tid = Some r ->
     exists r', out !! tid = Some r' /\ r' ≡ₚ r /\ head r' = head r /\ last r' = last r) /\
  (forall depot_id, depot_framed routes depot_id ->
     depot_framed out depot_id /\
     forall tid r r', routes !! tid = Some r -> out !! tid = Some r' ->
       filter (fun n => n ≠ depot_id) r' ≡ₚ filter (fun n => n ≠ depot_id) r).
Proof.
  intros out. unfold out, optimize_routes_2opt. split_and!.
  - apply dom_fmap_L.
  - intros tid r Hr. rewrite lookup_fmap, Hr. simpl. eexists. split; [done|].
    apply two_opt_loop_shape.
  - intros depot_id Hfr. split.
    + intros tid r'. rewrite lookup_fmap.
      destruct (routes !! tid) as [r|] eqn:Hr; [|done]. simpl. intros [= <-].
      destruct (two_opt_loop_shape fsqrt g thr max_iterations r) as (Hp & Hh & Hl).
      destruct (framed_route_perm depot_id r _ (Hfr _ _ Hr) Hp Hh Hl)
        as (stops & stops' & _ & Heq & _ & Hd).
      by exists stops'.
    + intros tid r r' Hr. rewrite lookup_fmap, Hr. simpl. intros [= <-].
      destruct (two_opt_loop_shape fsqrt g thr max_iterations r) as (Hp & _).
      by rewrite Hp.
Qed.

(** *** Convergence *)

Section TwoOptConverge.
Context (fsqrt : Q -> Q) (g : Graph).
Hypothesis fsqrt_respects : respects_Qeq fsqrt.
Hypothesis fsqrt_nonneg : forall q, (0 <= fsqrt q)%Q.

Local Abbreviation QH := (qhops fsqrt g).

Lemma qdist_nonneg a b : (0 <= qdist fsqrt g a b)%Q.
Proof.
  unfold qdist, euclidean. destruct (nodes g !! a), (nodes g !! b); try apply fsqrt_nonneg; lra.
Qed.

Lemma qhops_nonneg l : (0 <= QH l)%Q.
Proof.
  induction l as [|a [|b l] IH]; simpl; try lra.
  pose proof (qdist_nonneg a b). simpl in IH. lra.
Qed.

(** An improving reversal shortens a route of registered nodes by more than
    the threshold. *)
Lemma two_opt_scan_gain r thr r' :
  Forall (registered g) r -> two_opt_scan fsqrt g r thr = Some r' ->
  Forall (registered g) r' /\ (QH r' + thr < QH r)%Q.
Proof.
  intros Hreg H.
  apply two_opt_scan_Some in H as (i & j & Hi & Hij & Hj & Himp & ->).
  destruct (route_window r i j Hi Hij Hj) as (P & p & a & M & b & n & T & -> & -> & ->).
  destruct (window_lookups P p a M b n T) as (Hp & Ha & Hb & Hn & Hrev).
  cbv zeta in *. unfold improving in Himp.
  rewrite Hp, Ha, Hb, Hn in Himp. rewrite Hrev.
  assert (Hall : Forall (registered g) P /\ registered g p /\ registered g a /\
                 Forall (registered g) M /\ registered g b /\ registered g n /\
                 Forall (registered g) T).
  { rewrite Forall_app, !Forall_cons, Forall_app, !Forall_cons in Hreg. tauto. }
  destruct Hall as (RP & Rp & Ra & RM & Rb & Rn & RT).
  rewrite !(euclidean_registered fsqrt g) in Himp by done.
  simpl in Himp. apply Qlt_bool_iff in Himp.
  split.
  - rewrite Forall_app, !Forall_cons, Forall_app, !Forall_cons, Forall_reverse. tauto.
  - pose proof (window_distance fsqrt g fsqrt_respects P p a M b n T Hreg) as Hw. lra.
Qed.

Lemma two_opt_loop_converges thr n : forall r,
  Forall (registered g) r -> (QH r < inject_Z (Z.of_nat n) * thr)%Q ->
  snd (two_opt_loop fsqrt g thr n r) = false.
Proof.
  induction n as [|n IH]; intros r Hreg Hbound.
  - pose proof (qhops_nonneg r). change (inject_Z (Z.of_nat 0)) with 0%Q in Hbound. lra.
  - simpl. destruct (two_opt_scan fsqrt g r thr) as [r'|] eqn:Hs; [|done].
    destruct (two_opt_scan_gain r thr r' Hreg Hs) as [Hreg' Hgain].
    apply IH; [done|].
    rewrite Nat2Z.inj_succ, <-Z.add_1_r, inject_Z_plus in Hbound.
    change (inject_Z 1) with 1%Q in Hbound. lra.
Qed.

End TwoOptConverge.

(** With a square root that is never negative, a positive threshold and a
    route of registered nodes, the loop of [two_opt_single_route] ends
    because a scan finds no move as soon as [max_iterations] times the
    threshold exceeds the length of the route; the result is then a route
    that no reversal improves. *)
Theorem two_opt_converges fsqrt g route thr max_iterations :
  respects_Qeq fsqrt -> (forall q, (0 <= fsqrt q)%Q) ->
  (0 < thr)%Q -> Forall (registered g) route ->
  (qhops fsqrt g route < inject_Z (Z.of_nat max_iterations) * thr)%Q ->
  snd (two_opt_loop fsqrt g thr max_iterations route) = false /\
  two_opt_scan fsqrt g (two_opt_single_route fsqrt g route thr max_iterations) thr = None.
Proof.
  intros Hf Hnn _ Hreg Hbound.
  pose proof (two_opt_loop_converges fsqrt g Hf Hnn thr max_iterations route Hreg Hbound) as Hc.
  split; [done|]. by apply two_opt_loop_converged.
Qed.
(** ** sa_optimizer.py: the stops of a solution *)

Lemma string_leb_trans a b c :
  String.leb a b = true -> String.leb b c = true -> String.leb a c = true.
Proof.
  unfold String.leb.
  change String.compare with OrderedTypeEx.String_as_OT.cmp.
  destruct (OrderedTypeEx.String_as_OT.cmp a b) eqn:Hab; [| |done];
    destruct (OrderedTypeEx.String_as_OT.cmp b c) eqn:Hbc; try done; intros _ _.
  - apply OrderedTypeEx.String_as_OT.cmp_eq in Hab, Hbc. subst.
    by rewrite (proj2 (OrderedTypeEx.String_as_OT.cmp_eq c c) eq_refl).
  - apply OrderedTypeEx.String_as_OT.cmp_eq in Hab. subst. by rewrite Hbc.
  - apply OrderedTypeEx.String_as_OT.cmp_eq in Hbc. subst. by rewrite Hab.
  - apply OrderedTypeEx.String_as_OT.cmp_lt in Hab, Hbc.
    by rewrite (proj2 (OrderedTypeEx.String_as_OT.cmp_lt a c)
                  (OrderedTypeEx.String_as_OT.lt_trans _ _ _ Hab Hbc)).
Qed.

(** [sorted] depends on the entries of a list only, not on their order. *)
Lemma py_sorted_unique l1 l2 : l1 ≡ₚ l2 -> py_sorted l1 = py_sorted l2.
Proof.
  intros Hperm. unfold py_sorted.
  set (R := fun a b : string => Is_true (String.leb a b)).
  assert (Htotal : Total R).
  { intros x y. unfold R. destruct (String.leb_total x y) as [->| ->]; [by left | by right]. }
  assert (Htrans : Transitive R).
  { intros x y z Hxy Hyz. unfold R in *.
    apply Is_true_true in Hxy, Hyz. apply Is_true_true. by eapply string_leb_trans. }
  apply (Sorted_unique_strong R).
  - intros x1 x2 _ _ H12 H21. unfold R in *.
    apply Is_true_true in H12, H21. by apply String.leb_antisym.
  - apply (Sorted_merge_sort R).
  - apply (Sorted_merge_sort R).
  - by rewrite !merge_sort_Permutation.
Qed.

Lemma keys_dom_perm {A B} (m1 : gmap string A) (m2 : gmap string B) :
  dom m1 = dom m2 -> keys m1 ≡ₚ keys m2.
Proof.
  intros Hdom. apply NoDup_Permutation; [apply keys_NoDup..|].
  intros k. rewrite !elem_of_keys, <-!elem_of_dom. by rewrite Hdom.
Qed.

Lemma swap_items_perm (l : list string) i j :
  (i < length l)%nat -> (j < length l)%nat -> swap_items l i j ≡ₚ l.
Proof.
  intros Hi Hj. apply Permutation_inj. split; [apply swap_items_length|].
  exists (fun k => if decide (k = i) then j else if decide (k = j) then i else k).
  split.
  - intros a b. repeat case_decide; lia.
  - intros k. unfold swap_items.
    destruct (decide (k = j)) as [->|Hkj].
    + rewrite list_lookup_insert_eq by (rewrite length_insert; lia).
      destruct (decide (j = i)) as [->|_]; by rewrite list_lookup_lookup_total_lt.
    + rewrite list_lookup_insert_ne by done.
      destruct (decide (k = i)) as [->|Hki].
      * rewrite list_lookup_insert_eq by lia. by rewrite list_lookup_lookup_total_lt.
      * by rewrite list_lookup_insert_ne.
Qed.

Lemma relocate_perm (l : list string) i j :
  (i < length l)%nat -> relocate l i j ≡ₚ l.
Proof.
  intros Hi. unfold relocate.
  rewrite <-Permutation_middle, take_drop.
  symmetry. apply delete_Permutation. by apply list_lookup_lookup_total_lt.
Qed.

Lemma elem_of_slice (l : list string) s e x : x ∈ slice l s e -> x ∈ l.
Proof.
  unfold slice. intros Hin. eapply elem_of_sublist; [exact Hin|].
  etrans; [apply sublist_take | apply sublist_drop].
Qed.

Section Unflatten.
Context (depot_id : string).

Local Abbreviation strip := (filter (fun node_id : string => node_id ≠ depot_id)).

Lemma offsets_lengths segs1 : forall segs2 start,
  length <$> segs1 = length <$> segs2 -> offsets start segs1 = offsets start segs2.
Proof.
  induction segs1 as [|s1 segs1 IH]; intros [|s2 segs2] start Hlen; try done.
  simpl in *. injection Hlen as -> Hlen. by rewrite (IH segs2).
Qed.

(** The slices cut out of a list by the index ranges of segments of the same
    total length lie side by side and make up the list. *)
Lemma slices_of_offsets segs : forall (pre l : list string),
  length l = length (concat segs) ->
  let slices := (fun '(s, e) => slice (pre ++ l) s e) <$> offsets (length pre) segs in
  concat slices = l /\ length <$> slices = length <$> segs.
Proof.
  induction segs as [|seg segs IH]; intros pre l Hlen.
  { simpl in *. split; [|done]. symmetry. by apply nil_length_inv. }
  cbn [offsets]. cbv zeta. rewrite !fmap_cons. cbn [concat] in *.
  rewrite length_app in Hlen.
  assert (Hsl : slice (pre ++ l) (length pre) (length pre + length seg) = take (length seg) l).
  { unfold slice. rewrite drop_app_length. f_equal. lia. }
  destruct (IH (pre ++ take (length seg) l) (drop (length seg) l)) as [Hc Hl].
  { rewrite length_drop. lia. }
  rewrite <-app_assoc, take_drop, length_app, length_take in Hc, Hl.
  replace (length seg `min` length l) with (length seg) in Hc, Hl by lia.
  rewrite Hsl. split.
  - rewrite Hc. apply take_drop.
  - rewrite Hl, length_take. f_equal. lia.
Qed.

(** Rebuilding routes from an order of the right length that does not hold
    the depot, and flattening them again, gives the order and the index
    ranges back. *)
Lemma rebuilt_flatten (routes : gmap string (list string)) (order' : list string) :
  length order' = length (routes_to_tps_order routes depot_id).1 ->
  depot_id ∉ order' ->
  let out := tps_order_to_routes order' (routes_to_tps_order routes depot_id).2
               (py_sorted (keys routes)) depot_id in
  dom out = dom routes /\
  routes_to_tps_order out depot_id = (order', (routes_to_tps_order routes depot_id).2).
Proof.
  intros Hlen Hd. cbv zeta.
  rewrite (routes_to_tps_order_eq depot_id routes) in *. cbn [fst snd] in *.
  set (ks := py_sorted (keys routes)) in *.
  set (segs := (fun k => strip (routes !!! k)) <$> ks) in *.
  set (out := tps_order_to_routes order' (offsets 0 segs) ks depot_id).
  assert (Hdom : dom out = dom routes).
  { apply set_eq. intros tid. rewrite !elem_of_dom.
    destruct (routes !! tid) as [r|] eqn:Hr.
    - destruct (rebuild_lookup depot_id routes order' tid r Hlen Hr) as (st & e & Hout & _).
      fold ks segs in Hout. fold out in Hout. rewrite Hout. split; by eauto.
    - unfold out. rewrite (rebuild_lookup_None depot_id routes order' _ tid Hr). done. }
  split; [done|].
  rewrite routes_to_tps_order_eq.
  rewrite <-(py_sorted_unique (keys routes) (keys out)) by (symmetry; by apply keys_dom_perm).
  fold ks.
  destruct (slices_of_offsets segs [] order' Hlen) as [Hc Hl]. simpl in Hc, Hl.
  assert (Hsegs : (fun k => strip (out !!! k)) <$> ks
                  = (fun '(s, e) => slice order' s e) <$> offsets 0 segs).
  { apply list_eq. intros i. rewrite !list_lookup_fmap.
    destruct (ks !! i) as [k|] eqn:Hk; simpl.
    - destruct (offsets 0 segs !! i) as [[s e]|] eqn:Hoff.
      2:{ apply lookup_ge_None in Hoff. apply lookup_lt_Some in Hk.
          rewrite offsets_length in Hoff. unfold segs in Hoff. rewrite length_fmap in Hoff. lia. }
      simpl. f_equal.
      destruct (rebuild_loop_lookup depot_id order' (zip ks (offsets 0 segs)) ∅) as [H1 _].
      { apply zip_fst_NoDup, sorted_keys_NoDup. }
      assert (Hin : (k, (s, e)) ∈ zip ks (offsets 0 segs)).
      { apply list_elem_of_lookup. exists i. rewrite lookup_zip_with, Hk. simpl. by rewrite Hoff. }
      specialize (H1 k s e Hin).
      unfold out, tps_order_to_routes. rewrite (lookup_total_correct _ _ _ H1).
      change ([depot_id] ++ slice order' s e ++ [depot_id])
        with (depot_id :: slice order' s e ++ [depot_id]).
      rewrite filter_cons_False by (by intros ?).
      rewrite filter_app, filter_cons_False by (by intros ?).
      rewrite filter_nil, app_nil_r. apply strip_all.
      intros Hin'. by apply Hd, (elem_of_slice _ s e).
    - apply lookup_ge_None in Hk. rewrite lookup_ge_None_2; [done|].
      rewrite offsets_length. unfold segs. by rewrite length_fmap. }
  rewrite Hsegs, Hc. f_equal. by apply offsets_lengths.
Qed.

End Unflatten.

(** [tps_order_to_routes] followed by [routes_to_tps_order]: for the index
    ranges and the sorted vehicle ids of a solution, and any order of the
    same length in which the depot does not occur, rebuilding the routes and
    flattening them again returns the order and the index ranges. *)
Theorem unflatten_flatten_roundtrip routes depot_id order' :
  length order' = length (routes_to_tps_order routes depot_id).1 ->
  depot_id ∉ order' ->
  routes_to_tps_order
    (tps_order_to_routes order' (routes_to_tps_order routes depot_id).2
       (py_sorted (keys routes)) depot_id) depot_id
  = (order', (routes_to_tps_order routes depot_id).2).
Proof. intros Hlen Hd. by apply rebuilt_flatten. Qed.

(** *** Neighbours *)

Section NeighborStops.
Context {rng : Type} (random_random : rng -> Q * rng) (randbelow : nat -> rng -> nat * rng).
Hypothesis randbelow_ok : randbelow_in_range randbelow.

(** The perturbed order is a rearrangement of the old one. *)
Lemma generate_neighbor_solution_perm routes depot_id s :
  exists order' s',
    generate_neighbor_solution random_random randbelow routes depot_id s
    = (tps_order_to_routes order' (routes_to_tps_order routes depot_id).2
         (py_sorted (keys routes)) depot_id, s') /\
    order' ≡ₚ (routes_to_tps_order routes depot_id).1.
Proof.
  unfold generate_neighbor_solution.
  destruct (routes_to_tps_order routes depot_id) as [order idxs]. cbn [fst snd].
  destruct (random_random s) as [u s1].
  destruct (2 <=? length order) eqn:Hlen.
  - apply Nat.leb_le in Hlen.
    pose proof (randint_range randbelow randbelow_ok 0 (length order - 1) s1 ltac:(lia)) as R1.
    destruct (randint randbelow 0 (length order - 1) s1) as [i1 s2].
    pose proof (randint_range randbelow randbelow_ok 0 (length order - 1) s2 ltac:(lia)) as R2.
    destruct (randint randbelow 0 (length order - 1) s2) as [i2 s3].
    cbn [fst] in R1, R2.
    destruct (Qlt_bool u (1 # 2)); cbn [andb];
      destruct (decide (i1 ≠ i2)); eexists _, _; (split; [reflexivity|]); try done.
    + apply swap_items_perm; lia.
    + apply relocate_perm. lia.
  - rewrite andb_false_r. eexists _, _. split; [reflexivity|]. done.
Qed.

Lemma neighbor_stops routes depot_id s :
  let out := fst (generate_neighbor_solution random_random randbelow routes depot_id s) in
  dom out = dom routes /\
  (routes_to_tps_order out depot_id).1 ≡ₚ (routes_to_tps_order routes depot_id).1 /\
  (routes_to_tps_order out depot_id).2 = (routes_to_tps_order routes depot_id).2 /\
  depot_framed out depot_id.
Proof.
  destruct (generate_neighbor_solution_perm routes depot_id s) as (order' & s' & -> & Hperm).
  cbn [fst].
  assert (Hd : depot_id ∉ order').
  { rewrite Hperm, routes_to_tps_order_eq. cbn [fst].
    pose proof (concat_strip_no_depot depot_id routes (py_sorted (keys routes))) as Hf.
    rewrite Forall_forall in Hf. intros Hin. by apply (Hf _ Hin). }
  destruct (rebuilt_flatten depot_id routes order' (Permutation_length Hperm) Hd) as [Hdom Heq].
  rewrite Heq. cbn [fst snd]. split_and!; try done.
  intros tid r Hr.
  assert (Hin : is_Some (routes !! tid)).
  { apply elem_of_dom. rewrite <-Hdom. apply elem_of_dom. by eexists. }
  destruct Hin as [r0 Hr0].
  pose proof (Permutation_length Hperm) as Hlen.
  rewrite routes_to_tps_order_eq in Hlen, Hr. cbn [fst snd] in Hlen, Hr.
  destruct (rebuild_lookup depot_id routes order' tid r0 Hlen Hr0) as (st & e & Hout & _).
  rewrite Hout in Hr. injection Hr as <-.
  exists (slice order' st e). split; [done|].
  intros Hin. by apply Hd, (elem_of_slice _ st e).
Qed.

End NeighborStops.

(** A neighbour produced by [generate_neighbor_solution] serves the same
    vehicles and holds the same stops as the solution it was made from (the
    flattened order is a rearrangement of the old one, cut at the same
    places), and every route of it is depot-framed. *)
Theorem neighbor_keeps_stops {rng : Type} (random_random : rng -> Q * rng)
    (randbelow : nat -> rng -> nat * rng) routes depot_id s :
  randbelow_in_range randbelow ->
  let out := fst (generate_neighbor_solution random_random randbelow routes depot_id s) in
  dom out = dom routes /\
  (routes_to_tps_order out depot_id).1 ≡ₚ (routes_to_tps_order routes depot_id).1 /\
  (routes_to_tps_order out depot_id).2 = (routes_to_tps_order routes depot_id).2 /\
  depot_framed out depot_id.
Proof. intros Hr. by apply neighbor_stops. Qed.

(** *** The annealing run *)

Section AnnealingStops.
Context (fsqrt : Q -> Q) {rng : Type}
        (random_random : rng -> Q * rng) (randbelow : nat -> rng -> nat * rng)
        (metropolis : Q -> fdiff -> Q -> result bool)
        (g : Graph) (depot_id : string).
Context (P : gmap string (list string) -> Prop).
Hypothesis P_neighbor : forall routes (s : rng),
  P routes -> P (fst (generate_neighbor_solution random_random randbelow routes depot_id s)).

Local Abbreviation trial := (sa_trial fsqrt random_random randbelow metropolis g depot_id).
Local Abbreviation trials := (sa_trials fsqrt random_random randbelow metropolis g depot_id).
Local Abbreviation cooling fuel := (sa_cooling fsqrt random_random randbelow metropolis fuel g depot_id).

(** A property of solutions that neighbours keep holds for the current and
    for the best solution of every state of the run. *)
Lemma sa_trial_routes temperature st st' :
  P (current_routes st) -> P (best_routes st) -> trial temperature st = Ok st' ->
  P (current_routes st') /\ P (best_routes st').
Proof.
  intros Hcur Hbest. unfold sa_trial.
  pose proof (P_neighbor (current_routes st) (sa_rng st) Hcur) as Hn.
  destruct (generate_neighbor_solution _ _ _ _ _) as [nr s1]. cbn [fst] in Hn.
  assert (Hacc : forall (s' : rng) st',
    (if flt (calculate_total_distance fsqrt g nr) (best_cost st)
     then Ok (mkSA nr nr (calculate_total_distance fsqrt g nr)
                (calculate_total_distance fsqrt g nr) s'
                (calculate_total_distance fsqrt g nr :: best_history st))
     else Ok (mkSA nr (best_routes st) (calculate_total_distance fsqrt g nr)
                (best_cost st) s' (best_cost st :: best_history st)))
    = Ok st' -> P (current_routes st') /\ P (best_routes st')).
  { intros s' st0. destruct (flt _ (best_cost st)); by intros [= <-]. }
  destruct (fdiff_neg _).
  - apply Hacc.
  - destruct (random_random s1) as [u s2].
    destruct (metropolis u _ temperature) as [[|]|e]; [apply Hacc | | done].
    by intros [= <-].
Qed.

Lemma sa_trials_routes temperature n : forall st st',
  P (current_routes st) -> P (best_routes st) -> trials temperature n st = Ok st' ->
  P (current_routes st') /\ P (best_routes st').
Proof.
  induction n as [|n IH]; intros st st' Hcur Hbest; simpl; [by intros [= <-]|].
  destruct (trial temperature st) as [st1|e] eqn:H1; [|done].
  destruct (sa_trial_routes _ _ _ Hcur Hbest H1). by apply IH.
Qed.

Lemma sa_cooling_routes rate n t_min fuel : forall temperature st st',
  P (current_routes st) -> P (best_routes st) ->
  cooling fuel rate n t_min temperature st = Some (Ok st') ->
  P (current_routes st') /\ P (best_routes st').
Proof.
  induction fuel as [|fuel IH]; intros temperature st st' Hcur Hbest; simpl.
  - destruct (Qlt_bool t_min temperature); [done | by intros [= <-]].
  - destruct (Qlt_bool t_min temperature); [|by intros [= <-]].
    destruct (trials temperature n st) as [st1|e] eqn:H1; [|done].
    destruct (sa_trials_routes _ _ _ _ Hcur Hbest H1). by apply IH.
Qed.

End AnnealingStops.

(** The solution returned by [simulated_annealing_optimize] serves the same
    vehicles and holds the same stops as the input solution (its flattened
    order is a rearrangement of the input's, cut at the same places), and it
    is depot-framed when the input is. *)
Theorem sa_keeps_stops fsqrt {rng : Type} (random_random : rng -> Q * rng)
    (randbelow : nat -> rng -> nat * rng) (metropolis : Q -> fdiff -> Q -> result bool)
    fuel g routes depot_id t0 rate n t_min (s : rng) out :
  randbelow_in_range randbelow ->
  simulated_annealing_optimize fsqrt random_random randbelow metropolis
    fuel g routes depot_id t0 rate n t_min s = Some (Ok out) ->
  dom out = dom routes /\
  (routes_to_tps_order out depot_id).1 ≡ₚ (routes_to_tps_order routes depot_id).1 /\
  (routes_to_tps_order out depot_id).2 = (routes_to_tps_order routes depot_id).2 /\
  (depot_framed routes depot_id -> depot_framed out depot_id).
Proof.
  intros Hrb. unfold simulated_annealing_optimize, sa_run.
  destruct (sa_cooling _ _ _ _ _ _ _ _ _ _ _ _) as [[st|e]|] eqn:Hrun; try done.
  intros [= <-].
  set (P := fun r : gmap string (list string) => dom r = dom routes /\
         (routes_to_tps_order r depot_id).1 ≡ₚ (routes_to_tps_order routes depot_id).1 /\
         (routes_to_tps_order r depot_id).2 = (routes_to_tps_order routes depot_id).2 /\
         (depot_framed routes depot_id -> depot_framed r depot_id)).
  assert (HP0 : P routes) by (by unfold P).
  assert (Hnb : forall r (s0 : rng), P r ->
            P (fst (generate_neighbor_solution random_random randbelow r depot_id s0))).
  { intros r s0 (Hd & Hp & Hi & _).
    destruct (neighbor_stops random_random randbelow Hrb r depot_id s0)
      as (Hd' & Hp' & Hi' & Hf').
    unfold P. split_and!; [by rewrite Hd' | by rewrite Hp' | by rewrite Hi' | done]. }
  destruct (sa_cooling_routes fsqrt random_random randbelow metropolis g depot_id P Hnb
              rate n t_min fuel t0 (sa_init fsqrt g routes s) st HP0 HP0 Hrun) as [_ Hbest].
  done.
Qed.
(** ** greedy_init.py: the shape of the routes and the loads *)

Lemma foldl_insert_dom {A B} (key : A -> string) (val : A -> B) l :
  forall (m0 : gmap string B),
    dom (foldl (fun m a => <[key a := val a]> m) m0 l)
    = list_to_set (key <$> l) ∪ dom m0.
Proof.
  induction l as [|a l IH]; intros m0; simpl.
  - by rewrite (left_id_L ∅ (∪)).
  - rewrite IH, dom_insert_L, (assoc_L (∪)), (comm_L (∪) (list_to_set _)). done.
Qed.

Lemma stops_in_alter sites routes tid n :
  stops_in sites routes -> n ∈ sites ->
  stops_in sites (alter (fun r => r ++ [n]) tid routes).
Proof.
  intros Hst Hn t r m Hr Hm. rewrite lookup_alter in Hr.
  destruct (decide (tid = t)) as [<-|]; [|by eapply Hst].
  destruct (routes !! tid) as [r0|] eqn:Hr0; [|done]. injection Hr as <-.
  apply elem_of_app in Hm as [Hm| ->%list_elem_of_singleton]; [by eapply Hst | done].
Qed.

Section GreedyShape.
Context (fsqrt : Q -> Q) (set_iter : gset string -> list string) (g : Graph).
Hypothesis set_iter_ok : enumerates set_iter.
Context (d : gmap string TPS) (sites : gset string).

Lemma fill_truck_stops tid fuel : forall routes remaining loc cc,
  stops_in sites routes -> remaining ⊆ sites ->
  let '(routes', remaining') :=
    fill_truck fsqrt set_iter fuel g d tid routes remaining loc cc in
  dom routes' = dom routes /\ stops_in sites routes' /\ remaining' ⊆ sites.
Proof.
  induction fuel as [|fuel IH]; intros routes remaining loc cc Hst Hsub; [done|].
  simpl. destruct (decide (remaining = ∅)); [done|].
  destruct (fst (nearest_feasible fsqrt g d loc cc (set_iter remaining))) as [b|] eqn:Hpick;
    [|done].
  apply nearest_feasible_Some in Hpick as [Hin _].
  apply (set_iter_elem set_iter set_iter_ok) in Hin.
  specialize (IH (alter (fun r => r ++ [b]) tid routes) (remaining ∖ {[ b ]}) b
                 (cc - demand (d !!! b))%Q).
  destruct (fill_truck _ _ _ _ _ _ _ _ _ _) as [routes' remaining'].
  destruct IH as (Hdom & Hst' & Hsub').
  - apply stops_in_alter; [done|]. by apply Hsub.
  - intros x [Hx _]%elem_of_difference. by apply Hsub.
  - split_and!; try done. by rewrite Hdom, dom_alter_L.
Qed.

Lemma pass_stops (caps : gmap string Q) loc todo : forall routes remaining,
  stops_in sites routes -> remaining ⊆ sites ->
  let '(routes', remaining') :=
    foldl (fun '(routes, remaining_tps) truck =>
             fill_truck fsqrt set_iter (size remaining_tps) g d (truck_id truck)
               routes remaining_tps loc (caps !!! truck_id truck))
          (routes, remaining) todo in
  dom routes' = dom routes /\ stops_in sites routes' /\ remaining' ⊆ sites.
Proof.
  induction todo as [|t todo IH]; intros routes remaining Hst Hsub; [done|].
  simpl.
  pose proof (fill_truck_stops (truck_id t) (size remaining) routes remaining loc
                (caps !!! truck_id t) Hst Hsub) as Hfill.
  destruct (fill_truck _ _ _ _ _ _ _ _ _ _) as [routes1 rem1].
  destruct Hfill as (Hdom & Hst1 & Hsub1).
  specialize (IH routes1 rem1 Hst1 Hsub1).
  destruct (foldl _ (routes1, rem1) todo) as [routes' remaining'].
  destruct IH as (Hdom' & ? & ?). split_and!; try done. by rewrite Hdom'.
Qed.

Lemma leftover_stops trucks leftover : forall routes caps,
  stops_in sites routes -> (forall n, n ∈ leftover -> n ∈ sites) ->
  dom (fst (leftover_pass d trucks routes caps leftover)) = dom routes /\
  stops_in sites (fst (leftover_pass d trucks routes caps leftover)).
Proof.
  unfold leftover_pass.
  induction leftover as [|n leftover IH]; intros routes caps Hst Hl; [done|].
  simpl.
  pose proof (first_fit_routes trucks n (demand (d !!! n)) routes caps) as Hff.
  destruct (first_fit trucks n (demand (d !!! n)) routes caps) as [routes1 caps1].
  simpl in Hff.
  assert (dom routes1 = dom routes /\ stops_in sites routes1) as [Hdom Hst1].
  { destruct Hff as [->|[tid ->]]; [done|]. split; [apply dom_alter_L|].
    apply stops_in_alter; [done|]. apply Hl. left. }
  destruct (IH routes1 caps1 Hst1) as [Hdom' Hst'].
  { intros m Hm. apply Hl. by right. }
  split; [by rewrite Hdom'|done].
Qed.

Lemma greedy_stops tps_list depot_id trucks :
  d = make_tps_dict tps_list ->
  sites = list_to_set (tps_node_id <$> tps_list) ->
  dom (greedy_initial_solution fsqrt set_iter g tps_list depot_id trucks)
  = list_to_set (truck_id <$> trucks) /\
  stops_in sites (greedy_initial_solution fsqrt set_iter g tps_list depot_id trucks).
Proof.
  intros Hd Hsites. unfold greedy_initial_solution, nearest_neighbour_pass.
  rewrite <-Hd, <-Hsites.
  assert (Hst0 : stops_in sites (empty_routes trucks)).
  { intros tid r n Hr Hn. apply empty_routes_lookup in Hr as ->. by inversion Hn. }
  assert (Hdom0 : dom (empty_routes trucks) = list_to_set (truck_id <$> trucks)).
  { unfold empty_routes. rewrite foldl_insert_dom, dom_empty_L. by rewrite (right_id_L ∅ (∪)). }
  pose proof (pass_stops (make_capacities trucks) depot_id trucks (empty_routes trucks) sites
                Hst0 ltac:(done)) as Hpass.
  destruct (foldl _ (empty_routes trucks, sites) trucks) as [routes1 rem1].
  destruct Hpass as (Hdom1 & Hst1 & Hsub1).
  destruct (decide (rem1 = ∅)) as [|Hne]; [by rewrite Hdom1|].
  destruct (leftover_stops trucks (set_iter rem1) routes1 (make_capacities trucks) Hst1)
    as [Hdom2 Hst2].
  { intros n Hn. apply (set_iter_elem set_iter set_iter_ok) in Hn. by apply Hsub1. }
  split; [by rewrite Hdom2, Hdom1 | done].
Qed.

End GreedyShape.

(** When the depot is not one of the site nodes, the routes of
    [greedy_initial_solution] with the depot put around them by
    [format_routes_with_depot] form a depot-framed solution with one route
    for every vehicle, and every stop of it is a site node. *)
Theorem greedy_routes_framed fsqrt set_iter g tps_list depot_id trucks :
  enumerates set_iter ->
  depot_id ∉ tps_node_id <$> tps_list ->
  let routes := greedy_initial_solution fsqrt set_iter g tps_list depot_id trucks in
  let formatted := format_routes_with_depot routes depot_id in
  dom formatted = list_to_set (truck_id <$> trucks) /\
  depot_framed formatted depot_id /\
  forall tid r n, routes !! tid = Some r -> n ∈ r -> n ∈ tps_node_id <$> tps_list.
Proof.
  intros Henum Hdepot routes formatted.
  destruct (greedy_stops fsqrt set_iter g Henum (make_tps_dict tps_list)
              (list_to_set (tps_node_id <$> tps_list)) tps_list depot_id trucks
              eq_refl eq_refl) as [Hdom Hst].
  fold routes in Hdom, Hst.
  assert (Hin : forall tid r n, routes !! tid = Some r -> n ∈ r -> n ∈ tps_node_id <$> tps_list).
  { intros tid r n Hr Hn. specialize (Hst tid r n Hr Hn). by apply elem_of_list_to_set in Hst. }
  split_and!; [| |done].
  - unfold formatted, format_routes_with_depot. by rewrite dom_fmap_L.
  - intros tid r. unfold formatted, format_routes_with_depot. rewrite lookup_fmap.
    destruct (routes !! tid) as [r0|] eqn:Hr0; [|done]. simpl. intros [= <-].
    exists r0. split; [done|]. intros Hd. apply Hdepot. by eapply Hin.
Qed.

(** ** greedy_init.py: the first stop *)

(** The search loop picks a nearest candidate among those that fit, and it
    picks none only when every candidate that fits is infinitely far. *)
Lemma nearest_feasible_scan fsqrt g d loc cap (seen : list string) :
  match nearest_feasible fsqrt g d loc cap seen with
  | (None, dist) =>
      dist = Inf /\
      forall c, c ∈ seen -> (demand (d !!! c) <= cap)%Q -> euclidean fsqrt g loc c = Inf
  | (Some b, dist) =>
      dist = euclidean fsqrt g loc b /\
      forall c, c ∈ seen -> (demand (d !!! c) <= cap)%Q ->
        fle (euclidean fsqrt g loc b) (euclidean fsqrt g loc c)
  end.
Proof.
  unfold nearest_feasible.
  induction seen as [|x seen IH] using rev_ind.
  { simpl. split; [done|]. intros c Hc. by inversion Hc. }
  rewrite foldl_app. cbn [foldl].
  destruct (foldl _ (None, Inf) seen) as [[b|] dist]; cbv beta iota zeta.
  - destruct IH as [-> Hmin].
    destruct (Qlt_bool cap (demand (d !!! x))) eqn:Hfit.
    + split; [done|]. apply Qlt_bool_iff in Hfit.
      intros c [Hc| ->%list_elem_of_singleton]%elem_of_app Hc'; [by apply Hmin | lra].
    + destruct (flt _ _) eqn:Hlt.
      * split; [done|].
        intros c [Hc| ->%list_elem_of_singleton]%elem_of_app Hc'; [|apply fle_refl].
        eapply fle_trans; [by apply flt_fle | by apply Hmin].
      * split; [done|].
        intros c [Hc| ->%list_elem_of_singleton]%elem_of_app Hc'; [by apply Hmin|].
        by apply flt_false_fle.
  - destruct IH as [-> Hinf].
    destruct (Qlt_bool cap (demand (d !!! x))) eqn:Hfit.
    + split; [done|]. apply Qlt_bool_iff in Hfit.
      intros c [Hc| ->%list_elem_of_singleton]%elem_of_app Hc'; [by apply Hinf | lra].
    + destruct (flt _ Inf) eqn:Hlt.
      * split; [done|].
        intros c [Hc| ->%list_elem_of_singleton]%elem_of_app Hc'; [|apply fle_refl].
        rewrite (Hinf c Hc Hc'). apply fle_Inf.
      * split; [done|].
        intros c [Hc| ->%list_elem_of_singleton]%elem_of_app Hc'; [by apply Hinf|].
        by destruct (euclidean fsqrt g loc x).
Qed.

Lemma appends_only_refl routes : appends_only routes routes.
Proof. intros k r0 Hr. exists []. by rewrite app_nil_r. Qed.

Lemma appends_only_trans r1 r2 r3 :
  appends_only r1 r2 -> appends_only r2 r3 -> appends_only r1 r3.
Proof.
  intros H12 H23 k r0 Hr. destruct (H12 k r0 Hr) as [e1 H1].
  destruct (H23 k _ H1) as [e2 H2]. exists (e1 ++ e2). by rewrite app_assoc.
Qed.

Lemma appends_only_alter routes tid n :
  appends_only routes (alter (fun r => r ++ [n]) tid routes).
Proof.
  intros k r0 Hr. rewrite lookup_alter.
  destruct (decide (tid = k)) as [->|]; [|exists []; by rewrite app_nil_r].
  rewrite Hr. by exists [n].
Qed.

Section GreedyAppends.
Context (fsqrt : Q -> Q) (set_iter : gset string -> list string) (g : Graph).
Context (d : gmap string TPS).

Lemma fill_truck_appends tid fuel : forall routes remaining loc cc,
  appends_only routes (fill_truck fsqrt set_iter fuel g d tid routes remaining loc cc).1.
Proof.
  induction fuel as [|fuel IH]; intros routes remaining loc cc; [apply appends_only_refl|].
  simpl. destruct (decide (remaining = ∅)); [apply appends_only_refl|].
  destruct (fst (nearest_feasible fsqrt g d loc cc (set_iter remaining))) as [b|];
    [|apply appends_only_refl].
  eapply appends_only_trans; [apply appends_only_alter | apply IH].
Qed.

Lemma pass_appends (caps : gmap string Q) loc todo : forall routes remaining,
  appends_only routes
    (foldl (fun '(routes, remaining_tps) truck =>
              fill_truck fsqrt set_iter (size remaining_tps) g d (truck_id truck)
                routes remaining_tps loc (caps !!! truck_id truck))
           (routes, remaining) todo).1.
Proof.
  induction todo as [|t todo IH]; intros routes remaining; [apply appends_only_refl|].
  simpl.
  pose proof (fill_truck_appends (truck_id t) (size remaining) routes remaining loc
                (caps !!! truck_id t)) as Hfill.
  destruct (fill_truck _ _ _ _ _ _ _ _ _ _) as [routes1 rem1].
  eapply appends_only_trans; [exact Hfill | apply IH].
Qed.

Lemma leftover_appends trucks leftover : forall routes caps,
  appends_only routes (fst (leftover_pass d trucks routes caps leftover)).
Proof.
  unfold leftover_pass.
  induction leftover as [|n leftover IH]; intros routes caps; [apply appends_only_refl|].
  simpl.
  pose proof (first_fit_routes trucks n (demand (d !!! n)) routes caps) as Hff.
  destruct (first_fit trucks n (demand (d !!! n)) routes caps) as [routes1 caps1].
  simpl in Hff. eapply appends_only_trans; [|apply IH].
  destruct Hff as [->|[tid ->]]; [apply appends_only_refl | apply appends_only_alter].
Qed.

End GreedyAppends.

(** The first stop of the first vehicle is a site nearest to the depot among
    the sites whose demand fits the capacity of the vehicle. *)
Theorem greedy_first_stop_nearest fsqrt set_iter g tps_list depot_id t rest n r :
  enumerates set_iter ->
  NoDup (tps_node_id <$> tps_list) ->
  NoDup (truck_id <$> t :: rest) ->
  greedy_initial_solution fsqrt set_iter g tps_list depot_id (t :: rest) !! truck_id t
    = Some (n :: r) ->
  forall tps, tps ∈ tps_list -> (demand tps <= capacity t)%Q ->
    fle (euclidean fsqrt g depot_id n) (euclidean fsqrt g depot_id (tps_node_id tps)).
Proof.
  intros Henum Hsites Htrucks Hroute tps Htps Hfit.
  set (d := make_tps_dict tps_list) in *.
  set (sites := (list_to_set (tps_node_id <$> tps_list) : gset string)) in *.
  set (caps := make_capacities (t :: rest)).
  assert (Hcap : caps !!! truck_id t = capacity t).
  { apply lookup_total_correct, (foldl_insert_lookup truck_id capacity); [done | left]. }
  assert (Hdem : d !!! tps_node_id tps = tps).
  { apply lookup_total_correct, (foldl_insert_lookup tps_node_id (fun x => x)); done. }
  assert (Hsite : tps_node_id tps ∈ set_iter sites).
  { apply (set_iter_elem set_iter Henum), elem_of_list_to_set. by apply list_elem_of_fmap_2. }
  assert (Hempty : empty_routes (t :: rest) !! truck_id t = Some []).
  { apply (foldl_insert_lookup truck_id (fun _ => [])); [done | left]. }
  unfold greedy_initial_solution, nearest_neighbour_pass in Hroute.
  fold d sites caps in Hroute. cbn [foldl] in Hroute.
  assert (Hfirst : exists routes1 rem1,
            fill_truck fsqrt set_iter (size sites) g d (truck_id t)
              (empty_routes (t :: rest)) sites depot_id (caps !!! truck_id t)
            = (routes1, rem1) /\
            exists first, routes1 !! truck_id t = Some first /\
              forall ext, first ++ ext = n :: r ->
                fle (euclidean fsqrt g depot_id n)
                    (euclidean fsqrt g depot_id (tps_node_id tps))).
  { destruct (size sites) as [|fuel] eqn:Hsize.
    { apply size_empty_iff in Hsize. apply (set_iter_elem set_iter Henum) in Hsite.
      by apply Hsize in Hsite. }
    simpl. destruct (decide (sites = ∅)) as [Hemp|_].
    { apply (set_iter_elem set_iter Henum) in Hsite. rewrite Hemp in Hsite.
      by apply not_elem_of_empty in Hsite. }
    pose proof (nearest_feasible_scan fsqrt g d depot_id (caps !!! truck_id t)
                  (set_iter sites)) as Hscan.
    destruct (nearest_feasible _ _ _ _ _ _) as [[b|] dist]; cbn [fst].
    - destruct Hscan as [_ Hmin].
      match goal with
      | |- context [fill_truck ?a1 ?a2 ?a3 ?a4 ?a5 ?a6 ?a7 ?a8 ?a9 ?a10] =>
          pose proof (fill_truck_appends a1 a2 a4 a5 a6 a3 a7 a8 a9 a10) as Happ;
          destruct (fill_truck a1 a2 a3 a4 a5 a6 a7 a8 a9 a10) as [routes1 rem1]
      end.
      cbn [fst] in Happ.
      destruct (Happ (truck_id t) [b]) as [ext Hext].
      { by rewrite lookup_alter_eq, Hempty. }
      eexists _, _. split; [done|]. eexists. split; [exact Hext|].
      intros ext' Heq. rewrite <-app_assoc in Heq. injection Heq as <- _.
      apply Hmin; [done|]. by rewrite Hdem, Hcap.
    - destruct Hscan as [_ Hinf].
      eexists _, _. split; [done|]. exists []. split; [done|].
      intros ext' _. rewrite (Hinf (tps_node_id tps) Hsite); [apply fle_Inf|].
      by rewrite Hdem, Hcap. }
  destruct Hfirst as (routes1 & rem1 & Hfill & first & Hfirst & Hconcl).
  rewrite Hfill in Hroute.
  pose proof (pass_appends fsqrt set_iter g d caps depot_id rest routes1 rem1) as Hpass.
  destruct (foldl _ (routes1, rem1) rest) as [routes2 rem2]. cbn [fst] in Hpass.
  destruct (Hpass _ _ Hfirst) as [e2 He2].
  destruct (decide (rem2 = ∅)) as [|Hne].
  - rewrite He2 in Hroute. injection Hroute as Hroute.
    by apply (Hconcl e2).
  - destruct (leftover_appends d (t :: rest) (set_iter rem2) routes2 caps _ _ He2) as [e3 He3].
    rewrite He3 in Hroute. injection Hroute as Hroute. rewrite <-app_assoc in Hroute.
    by apply (Hconcl (e2 ++ e3)).
Qed.
(** ** vrp_solver.py: full paths as walks, stops on the path, metrics *)

Lemma walk_app g a s1 b s2 c :
  walk g a s1 b -> walk g b s2 c -> walk g a (s1 ++ s2) c.
Proof.
  revert a. induction s1 as [|[v w] s1 IH]; intros a H1 H2; simpl in *.
  - by subst.
  - destruct H1 as [He H1]. split; [done|]. by apply IH.
Qed.

Lemma route_segments_cons fsqrt g a b rest :
  route_segments fsqrt g (a :: b :: rest)
  = segment_path fsqrt g a b :: route_segments fsqrt g (b :: rest).
Proof. done. Qed.

(** The joined path of a route: the first segment, then the joined path of
    the rest of the route without its first node. *)
Lemma join_route_cons fsqrt g a b c rest :
  join_segments (route_segments fsqrt g (a :: b :: c :: rest))
  = segment_path fsqrt g a b
    ++ drop 1 (join_segments (route_segments fsqrt g (b :: c :: rest))).
Proof.
  rewrite !route_segments_cons. cbn [join_segments fmap list_fmap concat].
  destruct (segment_path_endpoints fsqrt g b c) as [Hh _].
  destruct (segment_path fsqrt g b c) as [|x t]; [done|]. done.
Qed.

Lemma join_route_two fsqrt g a b :
  join_segments (route_segments fsqrt g [a; b]) = segment_path fsqrt g a b.
Proof. unfold route_segments. simpl. by rewrite app_nil_r. Qed.

(** The segment between two linked registered nodes lists a walk. *)
Lemma segment_path_walk fsqrt g a b :
  registered g a -> registered g b -> (exists steps, walk g a steps b) ->
  exists steps, walk g a steps b /\ segment_path fsqrt g a b = a :: steps.*1.
Proof.
  intros Ha Hb Hw. unfold segment_path.
  destruct (astar_connected_Some fsqrt g a b Ha Hb Hw) as [p Hp]. rewrite Hp.
  by apply astar_walk_nodes in Hp.
Qed.

Lemma joined_route_walk fsqrt g rest : forall a b,
  (forall x y, (x, y) ∈ zip (a :: b :: rest) (b :: rest) ->
     registered g x /\ registered g y /\ exists steps, walk g x steps y) ->
  exists steps z,
    last (a :: b :: rest) = Some z /\ walk g a steps z /\
    join_segments (route_segments fsqrt g (a :: b :: rest)) = a :: steps.*1.
Proof.
  induction rest as [|c rest IH]; intros a b Hlinks.
  - destruct (Hlinks a b ltac:(left)) as (Ha & Hb & Hw).
    destruct (segment_path_walk fsqrt g a b Ha Hb Hw) as (steps & Hwalk & Heq).
    exists steps, b. by rewrite join_route_two.
  - destruct (Hlinks a b ltac:(left)) as (Ha & Hb & Hw).
    destruct (segment_path_walk fsqrt g a b Ha Hb Hw) as (s1 & Hw1 & Heq1).
    destruct (IH b c) as (s2 & z & Hz & Hw2 & Heq2).
    { intros x y Hin. apply Hlinks. by right. }
    exists (s1 ++ s2), z. split_and!.
    + done.
    + by eapply walk_app.
    + rewrite join_route_cons, Heq1, Heq2. simpl. by rewrite fmap_app.
Qed.

(** When every two consecutive stops of a route are registered nodes linked
    by some walk of the graph, the full path of the vehicle is the list of
    the nodes of a walk from the first stop of the route to its last stop:
    every hop of the full path is an edge of the graph. *)
Theorem full_path_is_walk fsqrt g routes tid a b rest :
  routes !! tid = Some (a :: b :: rest) ->
  (forall x y, (x, y) ∈ zip (a :: b :: rest) (b :: rest) ->
     registered g x /\ registered g y /\ exists steps, walk g x steps y) ->
  exists steps z,
    last (a :: b :: rest) = Some z /\ walk g a steps z /\
    compute_full_paths_as_single_list fsqrt g routes !! tid = Some (a :: steps.*1).
Proof.
  intros Hr Hlinks.
  destruct (joined_route_walk fsqrt g rest a b Hlinks) as (steps & z & Hz & Hw & Heq).
  exists steps, z. split_and!; try done.
  by rewrite full_paths_fmap, lookup_fmap, Hr, <-Heq.
Qed.

(** *** Stops on the full path *)

Lemma segment_path_two fsqrt g a b :
  a ≠ b -> exists t, segment_path fsqrt g a b = a :: t /\ last t = Some b.
Proof.
  intros Hne. destruct (segment_path_endpoints fsqrt g a b) as [Hh Hl].
  destruct (segment_path fsqrt g a b) as [|x t]; [done|]. injection Hh as ->.
  exists t. split; [done|]. destruct t as [|y t]; [by injection Hl|]. done.
Qed.

Lemma last_sublist {A} (t : list A) b : last t = Some b -> [b] `sublist_of` t.
Proof. intros H. apply singleton_sublist_l. by apply last_Some_elem_of. Qed.

Lemma joined_route_sublist fsqrt g rest : forall a b,
  (forall x y, (x, y) ∈ zip (a :: b :: rest) (b :: rest) -> x ≠ y) ->
  exists F, join_segments (route_segments fsqrt g (a :: b :: rest)) = a :: F /\
    (b :: rest) `sublist_of` F.
Proof.
  induction rest as [|c rest IH]; intros a b Hne.
  - destruct (segment_path_two fsqrt g a b) as (t & Heq & Hl); [apply Hne; left|].
    exists t. rewrite join_route_two. split; [done|]. by apply last_sublist.
  - destruct (segment_path_two fsqrt g a b) as (t & Heq & Hl); [apply Hne; left|].
    destruct (IH b c) as (F & HF & Hsub).
    { intros x y Hin. apply Hne. by right. }
    exists (t ++ F). rewrite join_route_cons, Heq, HF. split; [done|].
    change (b :: c :: rest) with ([b] ++ c :: rest).
    apply sublist_app; [by apply last_sublist | done].
Qed.

(** When no two consecutive entries of a route are equal, the full path of
    the vehicle passes through the entries of the route in their order: the
    route is obtained from the full path by leaving nodes out. *)
Theorem full_path_visits_stops fsqrt g routes tid a b rest :
  routes !! tid = Some (a :: b :: rest) ->
  (forall x y, (x, y) ∈ zip (a :: b :: rest) (b :: rest) -> x ≠ y) ->
  exists full,
    compute_full_paths_as_single_list fsqrt g routes !! tid = Some full /\
    (a :: b :: rest) `sublist_of` full.
Proof.
  intros Hr Hne.
  destruct (joined_route_sublist fsqrt g rest a b Hne) as (F & HF & Hsub).
  exists (a :: F). split.
  - by rewrite full_paths_fmap, lookup_fmap, Hr, <-HF.
  - by apply sublist_skip.
Qed.

(** *** Metrics *)

Lemma sum_hops_route_distance fsqrt g route :
  sum_hops fsqrt g route = calculate_route_distance fsqrt g route.
Proof.
  unfold calculate_route_distance. destruct (length route <? 2) eqn:Hlen; [|done].
  apply Nat.ltb_lt in Hlen. by destruct route as [|a [|b route]]; [..|simpl in Hlen; lia].
Qed.

Lemma evaluate_fold (D : list string -> fnum) (S : list string -> Z)
    (l : list (string * list string)) :
  foldr (uncurry (fun (tid : string) (route : list string) '(distances, total, stops) =>
           (<[tid := D route]> distances, fadd total (D route), (stops + S route)%Z)))
        ((∅ : gmap string fnum), Fin 0, 0%Z) l
  = ((list_to_map (prod_map id D <$> l) : gmap string fnum),
     foldr (fun '(_, route) total => fadd total (D route)) (Fin 0) l,
     foldr (fun '(_, route) stops => (stops + S route)%Z) 0%Z l).
Proof.
  induction l as [|[tid route] l IH]; [done|]. simpl. by rewrite IH.
Qed.

Lemma fmap_as_list_to_map {A B} (f : A -> B) (m : gmap string A) :
  list_to_map (prod_map id f <$> map_to_list m) = f <$> m.
Proof.
  transitivity (f <$> (list_to_map (map_to_list m) : gmap string A)).
  - apply list_to_map_fmap.
  - by rewrite list_to_map_to_list.
Qed.

(** Both evaluators report as [total_distance] the value of
    [calculate_total_distance] on the routes they are given, as
    [distances_per_truck] the value of [calculate_route_distance] on every
    route, and as [num_trucks] the number of routes. *)
Theorem evaluate_matches_objective fsqrt g depot_id routes :
  let simple := evaluate_routes_simple fsqrt g depot_id routes in
  let full := evaluate_routes fsqrt g routes in
  total_distance simple = calculate_total_distance fsqrt g routes /\
  distances_per_truck simple = calculate_route_distance fsqrt g <$> routes /\
  num_trucks simple = size routes /\
  total_distance full = calculate_total_distance fsqrt g routes /\
  distances_per_truck full = calculate_route_distance fsqrt g <$> routes /\
  num_trucks full = size routes.
Proof.
  intros simple full. unfold simple, full, evaluate_routes_simple, evaluate_routes.
  rewrite !map_fold_foldr.
  rewrite (evaluate_fold (sum_hops fsqrt g)
             (fun route => Z.of_nat (length (filter (fun n => n ≠ depot_id) route)))).
  rewrite (evaluate_fold (compute_path_distance fsqrt g)
             (fun route => (Z.of_nat (length route) - 2)%Z)).
  cbn [total_distance distances_per_truck num_trucks].
  rewrite !fmap_as_list_to_map, total_distance_foldr.
  split_and!; try done.
  - induction (map_to_list routes) as [|[tid route] l IH]; [done|].
    simpl. by rewrite IH, sum_hops_route_distance.
  - apply map_fmap_ext. intros tid route _. apply sum_hops_route_distance.
Qed.
(** ** sa_optimizer.py: the helpers *)

Lemma concat_perm {A} (l1 l2 : list (list A)) : l1 ≡ₚ l2 -> concat l1 ≡ₚ concat l2.
Proof.
  induction 1 as [|x l l' _ IH|x y l|l l' l'' _ IH1 _ IH2]; simpl.
  - done.
  - by rewrite IH.
  - rewrite !app_assoc. f_equiv. apply Permutation_app_comm.
  - by rewrite IH1.
Qed.

Lemma collect_route depot_id (route : list string) : forall all_tps,
  foldl (fun all_tps node_id =>
           if decide (node_id ≠ depot_id) then all_tps ++ [node_id] else all_tps)
        all_tps route
  = all_tps ++ filter (fun node_id => node_id ≠ depot_id) route.
Proof.
  induction route as [|n route IH]; intros all_tps; simpl.
  - by rewrite app_nil_r.
  - rewrite IH. destruct (decide (n ≠ depot_id)) as [Hn|Hn].
    + rewrite filter_cons_True by done. by rewrite <-app_assoc.
    + by rewrite filter_cons_False.
Qed.

Lemma collect_routes depot_id (rs : list (list string)) : forall all_tps,
  foldl (fun all_tps route =>
           foldl (fun all_tps node_id =>
                    if decide (node_id ≠ depot_id) then all_tps ++ [node_id] else all_tps)
                 all_tps route)
        all_tps rs
  = all_tps ++ concat (filter (fun node_id => node_id ≠ depot_id) <$> rs).
Proof.
  induction rs as [|r rs IH]; intros all_tps; simpl.
  - by rewrite app_nil_r.
  - by rewrite IH, collect_route, <-app_assoc.
Qed.

Lemma sorted_values_perm (routes : gmap string (list string)) :
  (fun k => routes !!! k) <$> py_sorted (keys routes) ≡ₚ (map_to_list routes).*2.
Proof.
  rewrite py_sorted_perm. unfold keys. rewrite <-list_fmap_compose.
  assert (Heq : ((fun k => routes !!! k) ∘ fst) <$> map_to_list routes
                = snd <$> map_to_list routes); [|by rewrite Heq].
  apply Forall_fmap_ext, Forall_forall. intros [k v] Hin. simpl.
  apply elem_of_map_to_list in Hin. by apply lookup_total_correct.
Qed.

(** [get_all_tps_from_routes] lists the stops that [routes_to_tps_order]
    lists, in some order; and [create_route_from_tps_order] puts the depot
    around an order: when the depot is not in the order the route is
    depot-framed, and leaving the depot out of it gives the order back. *)
Theorem flatten_helpers_agree routes_values routes depot_id tps_order :
  values_enumerate routes_values ->
  get_all_tps_from_routes routes_values routes depot_id
    ≡ₚ (routes_to_tps_order routes depot_id).1 /\
  (depot_id ∉ tps_order ->
   framed_route depot_id (create_route_from_tps_order tps_order depot_id) /\
   filter (fun n => n ≠ depot_id) (create_route_from_tps_order tps_order depot_id)
   = tps_order).
Proof.
  intros Hvalues. split.
  - unfold get_all_tps_from_routes. rewrite collect_routes, routes_to_tps_order_eq.
    cbn [fst app]. apply concat_perm.
    rewrite (Hvalues routes), <-sorted_values_perm, <-list_fmap_compose. done.
  - intros Hd.
    assert (Hfr : framed_route depot_id (create_route_from_tps_order tps_order depot_id))
      by (by exists tps_order).
    split; [done|].
    destruct (strip_framed depot_id _ Hfr) as (stops & Heq & Hst & _).
    unfold create_route_from_tps_order in Heq.
    apply app_inv_head, app_inv_tail in Heq. by subst stops.
Qed.

(** ** run.py: the three solutions of [main] *)

Section MainRoutes.
Context (fsqrt : Q -> Q) {rng : Type}
        (random_random : rng -> Q * rng) (randbelow : nat -> rng -> nat * rng)
        (metropolis : Q -> fdiff -> Q -> result bool)
        (set_iter : gset string -> list string).
Hypothesis fsqrt_respects : respects_Qeq fsqrt.
Hypothesis randbelow_ok : randbelow_in_range randbelow.
Hypothesis set_iter_ok : enumerates set_iter.

Local Abbreviation cost g := (calculate_total_distance fsqrt g).

Lemma sa_output fuel g routes depot_id t0 rate n t_min (s : rng) out :
  optimize_routes_sa fsqrt random_random randbelow metropolis
    fuel g routes depot_id t0 rate n t_min s = Some (Ok out) ->
  fle (cost g out) (cost g routes) /\
  dom out = dom routes /\
  (routes_to_tps_order out depot_id).1 ≡ₚ (routes_to_tps_order routes depot_id).1 /\
  (routes_to_tps_order out depot_id).2 = (routes_to_tps_order routes depot_id).2 /\
  (depot_framed routes depot_id -> depot_framed out depot_id).
Proof.
  unfold optimize_routes_sa, simulated_annealing_optimize, sa_run.
  destruct (sa_cooling _ _ _ _ _ _ _ _ _ _ _ _) as [[st|e]|] eqn:Hrun; try done.
  intros [= <-].
  split.
  - destruct (sa_cooling_inv fsqrt random_random randbelow metropolis g depot_id
                (cost g routes) rate n t_min fuel t0 _ st
                (sa_init_inv fsqrt g routes s) Hrun) as (Hbest & Hhead & Hlast & Hasc).
    rewrite <-Hbest. by eapply each_at_most_next_head_last.
  - set (P := fun r : gmap string (list string) => dom r = dom routes /\
           (routes_to_tps_order r depot_id).1 ≡ₚ (routes_to_tps_order routes depot_id).1 /\
           (routes_to_tps_order r depot_id).2 = (routes_to_tps_order routes depot_id).2 /\
           (depot_framed routes depot_id -> depot_framed r depot_id)).
    assert (HP0 : P routes) by (by unfold P).
    assert (Hnb : forall r (s0 : rng), P r ->
              P (fst (generate_neighbor_solution random_random randbelow r depot_id s0))).
    { intros r s0 (Hd & Hp & Hi & _).
      destruct (neighbor_stops random_random randbelow randbelow_ok r depot_id s0)
        as (Hd' & Hp' & Hi' & Hf').
      unfold P. split_and!; [by rewrite Hd' | by rewrite Hp' | by rewrite Hi' | done]. }
    by destruct (sa_cooling_routes fsqrt random_random randbelow metropolis g depot_id P Hnb
                rate n t_min fuel t0 (sa_init fsqrt g routes s) st HP0 HP0 Hrun) as [_ Hbest].
Qed.

Lemma main_routes_returns g tps_list depot_id trucks (s : rng) :
  metropolis_defined metropolis ->
  exists fuel p,
    main_routes fsqrt random_random randbelow metropolis set_iter
      fuel g tps_list depot_id trucks s = Some (Ok p).
Proof.
  intros Hm. unfold main_routes, optimize_routes_sa, simulated_annealing_optimize, sa_run.
  destruct (enough_levels 100 (1 # 10) (995 # 1000) ltac:(done) ltac:(done)) as [N HN].
  set (r0 := format_routes_with_depot _ _).
  destruct (sa_cooling_returns fsqrt random_random randbelow metropolis g depot_id
              (995 # 1000) 200 (1 # 10) Hm ltac:(done) ltac:(done) ltac:(done) N 100
              (sa_init fsqrt g r0 s) HN) as [st' Hst'].
  exists N. rewrite Hst'. by eexists.
Qed.

End MainRoutes.

(** The three solutions computed by [main]: when the depot is not a site
    node, the greedy solution with the depot around it is depot-framed with
    one route per vehicle; the 2-opt solution and the annealed solution are
    depot-framed, serve the same vehicles and hold the same stops, and the
    annealed solution costs at most the greedy one.  And the run returns when
    the acceptance test does not raise. *)
Theorem main_routes_sound fsqrt {rng : Type} (random_random : rng -> Q * rng)
    (randbelow : nat -> rng -> nat * rng) (metropolis : Q -> fdiff -> Q -> result bool)
    set_iter g tps_list depot_id trucks (s : rng) :
  randbelow_in_range randbelow -> enumerates set_iter ->
  depot_id ∉ tps_node_id <$> tps_list ->
  (forall fuel p,
     main_routes fsqrt random_random randbelow metropolis set_iter
       fuel g tps_list depot_id trucks s = Some (Ok p) ->
     let initial := routes_initial_with_depot p in
     dom initial = list_to_set (truck_id <$> trucks) /\
     depot_framed initial depot_id /\
     (dom (routes_2opt p) = dom initial /\ depot_framed (routes_2opt p) depot_id /\
      (forall tid r, initial !! tid = Some r ->
         exists r', routes_2opt p !! tid = Some r' /\ r' ≡ₚ r)) /\
     (dom (routes_sa p) = dom initial /\ depot_framed (routes_sa p) depot_id /\
      (routes_to_tps_order (routes_sa p) depot_id).1
        ≡ₚ (routes_to_tps_order initial depot_id).1 /\
      fle (calculate_total_distance fsqrt g (routes_sa p))
          (calculate_total_distance fsqrt g initial))) /\
  (metropolis_defined metropolis ->
   exists fuel p,
     main_routes fsqrt random_random randbelow metropolis set_iter
       fuel g tps_list depot_id trucks s = Some (Ok p)).
Proof.
  intros Hrb Henum Hdepot. split; [|by apply main_routes_returns].
  intros fuel p. unfold main_routes.
  set (routes := greedy_initial_solution fsqrt set_iter g tps_list depot_id trucks).
  set (initial := format_routes_with_depot routes depot_id).
  destruct (optimize_routes_sa _ _ _ _ _ _ _ _ _ _ _ _ _) as [[rsa|e]|] eqn:Hsa; try done.
  intros [= <-]. cbn [routes_initial_with_depot routes_2opt routes_sa].
  destruct (greedy_stops fsqrt set_iter g Henum (make_tps_dict tps_list)
              (list_to_set (tps_node_id <$> tps_list)) tps_list depot_id trucks
              eq_refl eq_refl) as [Hdom Hst].
  fold routes in Hdom, Hst.
  assert (Hframed : depot_framed initial depot_id).
  { intros tid r. unfold initial, format_routes_with_depot. rewrite lookup_fmap.
    destruct (routes !! tid) as [r0|] eqn:Hr0; [|done]. simpl. intros [= <-].
    exists r0. split; [done|]. intros Hd. apply Hdepot.
    specialize (Hst tid r0 depot_id Hr0 Hd). by apply elem_of_list_to_set in Hst. }
  destruct (sa_output fsqrt random_random randbelow metropolis Hrb
              fuel g initial depot_id _ _ _ _ s rsa Hsa) as (Hle & Hd & Hp & _ & Hfr).
  split_and!; try done.
  - unfold initial, format_routes_with_depot. by rewrite dom_fmap_L.
  - unfold optimize_routes_2opt. apply dom_fmap_L.
  - intros tid r'. unfold optimize_routes_2opt. rewrite lookup_fmap.
    destruct (initial !! tid) as [r|] eqn:Hr; [|done]. simpl. intros [= <-].
    destruct (two_opt_loop_shape fsqrt g (1 # 1000) 1000 r) as (Hperm & Hh & Hl).
    destruct (framed_route_perm depot_id r _ (Hframed _ _ Hr) Hperm Hh Hl)
      as (stops & stops' & _ & Heq & _ & Hnd).
    by exists stops'.
  - intros tid r Hr. unfold optimize_routes_2opt. rewrite lookup_fmap, Hr. simpl.
    eexists. split; [done|]. apply two_opt_loop_shape.
  - by apply Hfr.
Qed.
(** ** astar.py: following the links back *)

Section Reconstruct.
Context (cf : gmap string string) (start : string).
Hypothesis start_root : cf !! start = None.

Lemma chain_functional n p1 : chain cf start n p1 -> forall p2, chain cf start n p2 -> p1 = p2.
Proof.
  induction 1 as [|n m p1 Hcf Hch IH]; intros p2 H2.
  - inversion H2 as [|n' m' p' Hcf' Hch' Heq]; subst; [done|]. congruence.
  - inversion H2 as [|n' m' p' Hcf' Hch' Heq]; subst; [congruence|].
    rewrite Hcf in Hcf'. injection Hcf' as <-. by rewrite (IH p').
Qed.

Lemma chain_earlier n p x :
  chain cf start n p -> x ∈ p -> exists q, chain cf start x q /\ length q <= length p.
Proof.
  induction 1 as [|n m p Hcf Hch IH]; intros Hx.
  - apply list_elem_of_singleton in Hx as ->. exists [start]. split; [constructor | done].
  - apply elem_of_app in Hx as [Hx| ->%list_elem_of_singleton].
    + destruct (IH Hx) as (q & Hq & Hlen). exists q. split; [done|].
      rewrite length_app. lia.
    + exists (p ++ [n]). split; [by econstructor | done].
Qed.

Lemma chain_simple n p : chain cf start n p -> NoDup p.
Proof.
  induction 1 as [|n m p Hcf Hch IH]; [apply NoDup_singleton|].
  apply NoDup_app. split_and!; [done | | apply NoDup_singleton].
  intros x Hx ->%list_elem_of_singleton.
  destruct (chain_earlier m p n Hch Hx) as (q & Hq & Hlen).
  assert (Heq : q = p ++ [n]) by (eapply chain_functional; [done | by econstructor]).
  rewrite Heq, length_app in Hlen. simpl in Hlen. lia.
Qed.

Lemma chain_keys n p : chain cf start n p -> exists t, p = start :: t /\ Forall (fun x => x ∈ dom cf) t.
Proof.
  induction 1 as [|n m p Hcf Hch (t & -> & Ht)]; [by exists []|].
  exists (t ++ [n]). split; [done|]. apply Forall_app. split; [done|].
  constructor; [|done]. apply elem_of_dom. by eexists.
Qed.

Lemma chain_length n p : chain cf start n p -> length p <= S (size cf).
Proof.
  intros Hch. pose proof (chain_simple n p Hch) as Hnd.
  destruct (chain_keys n p Hch) as (t & -> & Ht).
  apply NoDup_cons in Hnd as [_ Hnd]. simpl. apply le_n_S.
  rewrite <-size_dom. unfold size, set_size. simpl.
  apply submseteq_length, NoDup_submseteq; [done|].
  intros x Hx. apply elem_of_elements. rewrite Forall_forall in Ht. by apply Ht.
Qed.

End Reconstruct.

(** [reconstruct_path] follows the links of [came_from] back from a node:
    when they lead to a node without a link, it returns the nodes passed,
    that node first; and when every link leads to a node that has a link
    again, the loop never ends. *)
Theorem reconstruct_path_follows_links cf n :
  (forall start p, cf !! start = None -> chain cf start n p ->
     reconstruct_path cf n = Some p) /\
  ((forall k v, cf !! k = Some v -> is_Some (cf !! v)) -> is_Some (cf !! n) ->
   forall fuel path, reconstruct_loop fuel cf n path = None).
Proof.
  split.
  - intros start p Hroot Hch. eapply reconstruct_path_chain; [done..|].
    by eapply chain_length.
  - intros Hclosed Hn fuel. revert n Hn.
    induction fuel as [|fuel IH]; intros n [prev Hprev] path; simpl; rewrite Hprev; [done|].
    apply IH. by eapply Hclosed.
Qed.
(** ** astar.py: what the returned path is *)

(** C2, as the code has it: between registered nodes [astar] returns a path
    exactly when some walk of the graph leads from the start node to the goal
    node; the path starts at the start node and ends at the goal node, every
    hop of it is an edge of the graph, and no node occurs twice on it.  Its
    cost is not promised to be the least one. *)
Theorem astar_path_iff_connected fsqrt g start goal :
  registered g start -> registered g goal ->
  ((exists steps, walk g start steps goal) <->
   exists p, astar fsqrt g start goal = Some p) /\
  forall p, astar fsqrt g start goal = Some p ->
    NoDup p /\ head p = Some start /\ last p = Some goal /\
    exists steps, walk g start steps goal /\ p = start :: steps.*1.
Proof.
  intros Hstart Hgoal.
  assert (Hpath : forall p, astar fsqrt g start goal = Some p ->
            NoDup p /\ head p = Some start /\ last p = Some goal /\
            exists steps, walk g start steps goal /\ p = start :: steps.*1).
  { intros p Hp.
    destruct (astar_endpoints fsqrt g start goal p Hp) as [Hh Hl].
    split_and!; try done; [|by apply (astar_walk_nodes fsqrt)].
    revert Hp. unfold astar.
    destruct (nodes g !! start); [|done]. destruct (nodes g !! goal); [|done].
    destruct (decide (start = goal)) as [<-|Hne].
    { intros [= <-]. apply NoDup_singleton. }
    destruct (astar_loop_total fsqrt g start goal Hne) as (r & -> & Hr).
    intros ->. destruct (Hr p eq_refl) as (st & Hs & Hch). by eapply chain_NoDup. }
  split; [|done]. split.
  - by apply astar_connected_Some.
  - intros [p Hp]. destruct (Hpath p Hp) as (_ & _ & _ & steps & Hw & _). by exists steps.
Qed.
(** * The numerical kernels on binary64: what the code keeps *)

(** ** two_opt.py *)

(** A reversal inside the route permutes it and keeps its two ends. *)
Lemma reverse_segment_keeps_ends (r : list string) (i j : nat) :
  F64.scanned (length r) i j ->
  reverse_segment r i j ≡ₚ r /\
  head (reverse_segment r i j) = head r /\ last (reverse_segment r i j) = last r.
Proof.
  intros (Hi & Hij & Hj).
  destruct (route_window r i j Hi Hij Hj) as (P & p & a & M & b & n & T & -> & -> & ->).
  destruct (window_lookups P p a M b n T) as (_ & _ & _ & _ & Hrev).
  cbv zeta in Hrev. rewrite Hrev. split_and!.
  - apply Permutation_app_head. apply perm_skip.
    etrans; [apply perm_skip, Permutation_app_tail, reverse_Permutation|].
    etrans; [apply perm_skip; symmetry; apply Permutation_middle|].
    etrans; [apply perm_swap|]. apply perm_skip, Permutation_middle.
  - by destruct P.
  - replace (P ++ p :: b :: reverse M ++ a :: n :: T)
      with ((P ++ p :: b :: reverse M ++ [a]) ++ n :: T) by (by flatten_app).
    replace (P ++ p :: a :: M ++ b :: n :: T)
      with ((P ++ p :: a :: M ++ [b]) ++ n :: T) by (by flatten_app).
    by rewrite !last_app_cons.
Qed.

Section Binary64TwoOpt.
Import Floats.
Context (g : F64.Graph) (thr : float).

Lemma scan_j_binary64 r i js :
  match F64.scan_j g r thr i js with
  | Some r' => exists j, j ∈ js /\ F64.improving g r thr i j = true /\
                         r' = reverse_segment r i j
  | None => forall j, j ∈ js -> F64.improving g r thr i j = false
  end.
Proof.
  induction js as [|j js IH]; simpl; [intros j Hj; by inversion Hj|].
  fold (F64.improving g r thr i j).
  destruct (F64.improving g r thr i j) eqn:Himp.
  - exists j. split; [left|done].
  - destruct (F64.scan_j g r thr i js) as [r'|].
    + destruct IH as (j' & Hin & ?). exists j'. split; [by right|done].
    + intros j' [->|Hj']%elem_of_cons; [done | by apply IH].
Qed.

Lemma scan_i_binary64 r rows :
  match F64.scan_i g r thr rows with
  | Some r' => exists i j, i ∈ rows /\ j ∈ seq (i + 1) (length r - 1 - (i + 1)) /\
                 F64.improving g r thr i j = true /\ r' = reverse_segment r i j
  | None => forall i j, i ∈ rows -> j ∈ seq (i + 1) (length r - 1 - (i + 1)) ->
                 F64.improving g r thr i j = false
  end.
Proof.
  induction rows as [|i rows IH]; simpl; [intros i j Hi; by inversion Hi|].
  pose proof (scan_j_binary64 r i (seq (i + 1) (length r - 1 - (i + 1)))) as Hj.
  destruct (F64.scan_j g r thr i _) as [r0|].
  - destruct Hj as (j & Hin & Himp & ->). exists i, j. split; [left|done].
  - destruct (F64.scan_i g r thr rows) as [r'|].
    + destruct IH as (i' & j' & Hin & ?). exists i', j'. split; [by right|done].
    + intros i' j' [->|Hi']%elem_of_cons Hj'; [by apply Hj | by apply IH].
Qed.

(** One scan either performs a reversal that it accepts or finds the route
    settled. *)
Lemma two_opt_scan_binary64 r :
  match F64.two_opt_scan g r thr with
  | Some r' => F64.two_opt_move g thr r r'
  | None => F64.two_opt_settled g thr r
  end.
Proof.
  unfold F64.two_opt_scan.
  pose proof (scan_i_binary64 r (seq 1 (length r - 2 - 1))) as H.
  destruct (F64.scan_i g r thr _) as [r'|].
  - destruct H as (i & j & Hi & Hj & Himp & ->).
    apply elem_of_seq in Hi. apply elem_of_seq in Hj.
    constructor; [|done]. unfold F64.scanned. lia.
  - intros i j (Hi & Hij & Hj). apply H; apply elem_of_seq; lia.
Qed.

Lemma two_opt_loop_binary64 n : forall r,
  let out := F64.two_opt_loop g thr n r in
  (exists k, k <= n /\ nsteps (F64.two_opt_move g thr) k r out.1) /\
  (out.2 = false -> F64.two_opt_scan g out.1 thr = None).
Proof.
  induction n as [|n IH]; intros r; simpl.
  { split; [|done]. exists 0. split; [lia|constructor]. }
  pose proof (two_opt_scan_binary64 r) as Hs.
  destruct (F64.two_opt_scan g r thr) as [r1|] eqn:Hscan; simpl.
  - destruct (IH r1) as ((k & Hk & Hsteps) & Hconv). split; [|done].
    exists (S k). split; [lia|]. by econstructor.
  - split; [|done]. exists 0. split; [lia|constructor].
Qed.

Lemma two_opt_moves_keep_ends k : forall r r',
  nsteps (F64.two_opt_move g thr) k r r' ->
  r' ≡ₚ r /\ head r' = head r /\ last r' = last r.
Proof.
  induction k as [|k IH]; intros r r' Hsteps.
  - by inversion Hsteps; subst.
  - inversion Hsteps as [|? ? r1 ? Hmove Hrest]; subst.
    destruct (IH _ _ Hrest) as (Hp & Hh & Hl).
    inversion Hmove as [? i j Hsc _]; subst.
    destruct (reverse_segment_keeps_ends r i j Hsc) as (Hp1 & Hh1 & Hl1).
    split_and!; [by rewrite Hp | by rewrite Hh | by rewrite Hl].
Qed.

End Binary64TwoOpt.

(** C4, as the code has it on doubles: [two_opt_single_route] performs at
    most [max_iterations] reversals, each at positions that its scan visits
    and each accepted by the test of the scan (the rounded difference of the
    rounded sums exceeds the threshold); the result is a rearrangement of
    the route with the same two ends.  When the loop stops with [improved]
    false, the scan accepts no reversal on the result, and running the
    function again on the result returns the result unchanged. *)
Theorem two_opt_accepted_moves_and_fixed_point g route thr max_iterations :
  let r' := F64.two_opt_single_route g route thr max_iterations in
  (exists k, k <= max_iterations /\ nsteps (F64.two_opt_move g thr) k route r') /\
  r' ≡ₚ route /\ head r' = head route /\ last r' = last route /\
  (snd (F64.two_opt_loop g thr max_iterations route) = false ->
   F64.two_opt_settled g thr r' /\
   F64.two_opt_single_route g r' thr max_iterations = r').
Proof.
  intros r'. unfold F64.two_opt_single_route in r'.
  destruct (two_opt_loop_binary64 g thr max_iterations route) as ((k & Hk & Hsteps) & Hconv).
  fold r' in Hsteps, Hconv.
  destruct (two_opt_moves_keep_ends g thr k _ _ Hsteps) as (Hp & Hh & Hl).
  split_and!; try done; [by exists k|].
  intros Hfalse. specialize (Hconv Hfalse).
  split.
  - pose proof (two_opt_scan_binary64 g thr r') as Hs. by rewrite Hconv in Hs.
  - destruct max_iterations as [|n]; [done|].
    unfold F64.two_opt_single_route. simpl. by rewrite Hconv.
Qed.
(** ** greedy_init.py *)

Lemma admitted_snoc room ds x :
  F64.admitted room (ds ++ [x]) <->
  F64.admitted room ds /\ PrimFloat.ltb (foldl PrimFloat.sub room ds) x = false.
Proof.
  revert room. induction ds as [|d ds IH]; intros room; simpl.
  - tauto.
  - rewrite IH. tauto.
Qed.

(** The site picked by the search loop is one of the candidates and passed
    the capacity test. *)
Lemma nearest_feasible_binary64 g d loc cap cands b :
  fst (F64.nearest_feasible g d loc cap cands) = Some b ->
  b ∈ cands /\ PrimFloat.ltb cap (F64.demand (d !!! b)) = false.
Proof.
  unfold F64.nearest_feasible.
  assert (H : forall l init,
    (forall b0, fst init = Some b0 ->
       b0 ∈ cands /\ PrimFloat.ltb cap (F64.demand (d !!! b0)) = false) ->
    Forall (fun x => x ∈ cands) l ->
    fst (foldl (fun '(best_tps_node, best_distance) tps_node_id =>
           let tps := d !!! tps_node_id in
           if PrimFloat.ltb cap (F64.demand tps) then (best_tps_node, best_distance)
           else
             let distance := F64.euclidean g loc tps_node_id in
             if PrimFloat.ltb distance best_distance then (Some tps_node_id, distance)
             else (best_tps_node, best_distance)) init l) = Some b ->
    b ∈ cands /\ PrimFloat.ltb cap (F64.demand (d !!! b)) = false).
  { induction l as [|x l IH]; intros [bn bd] Hinit Hsub; simpl; [apply Hinit|].
    inversion Hsub as [|? ? Hx Hl]; subst.
    apply IH; [|done].
    destruct (PrimFloat.ltb cap (F64.demand (d !!! x))) eqn:Hfit; [done|].
    destruct (PrimFloat.ltb _ bd); [|done]. simpl. by intros b0 [= <-]. }
  apply (H cands (None, PrimFloat.infinity)); [done|]. by apply Forall_forall.
Qed.

Section Binary64Greedy.
Context (set_iter : gset string -> list string) (g : F64.Graph).
Hypothesis set_iter_ok : enumerates set_iter.
Context (d : gmap string F64.TPS) (sites : gset string) (trucks : list F64.Truck).
Hypothesis trucks_NoDup : NoDup (F64.truck_id <$> trucks).

(** The loop of one vehicle; [cc] is [current_capacity]. *)
Lemma fill_truck_binary64 t (routes0 : gmap string (list string)) fuel :
  forall routes remaining loc cc,
  t ∈ trucks ->
  at_most_once routes ->
  remaining ⊆ sites ->
  (forall tid r n, routes !! tid = Some r -> n ∈ r -> (n ∉ remaining) /\ (n ∈ sites)) ->
  (forall n, n ∈ sites -> n ∈ remaining \/ exists tid, on_route routes tid n) ->
  (exists r, routes !! F64.truck_id t = Some r /\
     F64.admitted (F64.capacity t) (F64.route_demands d r) /\
     cc = foldl PrimFloat.sub (F64.capacity t) (F64.route_demands d r)) ->
  (forall k, k ≠ F64.truck_id t -> routes !! k = routes0 !! k) ->
  let '(routes', remaining') :=
    F64.fill_truck set_iter fuel g d (F64.truck_id t) routes remaining loc cc in
  at_most_once routes' /\
  remaining' ⊆ sites /\
  (forall tid r n, routes' !! tid = Some r -> n ∈ r -> (n ∉ remaining') /\ (n ∈ sites)) /\
  (forall n, n ∈ sites -> n ∈ remaining' \/ exists tid, on_route routes' tid n) /\
  (exists r, routes' !! F64.truck_id t = Some r /\
     F64.admitted (F64.capacity t) (F64.route_demands d r)) /\
  (forall k, k ≠ F64.truck_id t -> routes' !! k = routes0 !! k).
Proof.
  induction fuel as [|fuel IH]; intros routes remaining loc cc Ht Hamo Hsub Hb Hc Hl Ho.
  { simpl. split_and!; try done. destruct Hl as (r & Hr & Had & _). by exists r. }
  simpl. destruct (decide (remaining = ∅)) as [Hemp|Hne].
  { split_and!; try done. destruct Hl as (r & Hr & Had & _). by exists r. }
  destruct (fst (F64.nearest_feasible g d loc cc (set_iter remaining))) as [b|] eqn:Hpick.
  2:{ split_and!; try done. destruct Hl as (r & Hr & Had & _). by exists r. }
  apply nearest_feasible_binary64 in Hpick as [Hin Hfit].
  apply (set_iter_elem set_iter set_iter_ok) in Hin.
  destruct Hl as (r & Hr & Had & Hcc).
  assert (Hfresh : forall t0 r0, routes !! t0 = Some r0 -> b ∉ r0).
  { intros t0 r0 Hr0 Hb0. by destruct (Hb _ _ _ Hr0 Hb0). }
  assert (Hmem : forall tid r1 n,
    alter (fun r => r ++ [b]) (F64.truck_id t) routes !! tid = Some r1 -> n ∈ r1 ->
    n = b \/ exists r0, routes !! tid = Some r0 /\ n ∈ r0).
  { intros tid r1 n H1 Hn. rewrite lookup_alter in H1.
    destruct (decide (F64.truck_id t = tid)) as [<-|]; [|right; by eauto].
    rewrite Hr in H1. injection H1 as <-.
    apply elem_of_app in Hn as [Hn|Hn%list_elem_of_singleton]; [right; by eauto | by left]. }
  apply IH; try done.
  - by apply at_most_once_append.
  - etrans; [|exact Hsub]. apply subseteq_difference_l. done.
  - intros tid r1 n H1 Hn.
    destruct (Hmem _ _ _ H1 Hn) as [->|(r0 & Hr0 & Hn0)].
    + split; [|by apply Hsub]. rewrite elem_of_difference, elem_of_singleton. tauto.
    + destruct (Hb _ _ _ Hr0 Hn0) as [Hnr Hns]. split; [|done].
      rewrite elem_of_difference. tauto.
  - intros n Hn. destruct (decide (n = b)) as [->|Hnb].
    + right. exists (F64.truck_id t), (r ++ [b]). split.
      * by rewrite lookup_alter_eq, Hr.
      * apply elem_of_app. right. by apply list_elem_of_singleton.
    + destruct (Hc n Hn) as [Hrem|(tid & r0 & Hr0 & Hn0)].
      * left. rewrite elem_of_difference, elem_of_singleton. tauto.
      * right. exists tid. destruct (decide (F64.truck_id t = tid)) as [<-|Hk].
        -- exists (r ++ [b]). rewrite lookup_alter_eq, Hr. split; [done|].
           rewrite Hr in Hr0. injection Hr0 as <-. apply elem_of_app. by left.
        -- exists r0. by rewrite lookup_alter_ne.
  - exists (r ++ [b]). split; [by rewrite lookup_alter_eq, Hr|].
    unfold F64.route_demands. rewrite fmap_app. simpl. split.
    + apply admitted_snoc. split; [done|]. fold (F64.route_demands d r). by rewrite <-Hcc.
    + rewrite foldl_app. simpl. fold (F64.route_demands d r). by rewrite <-Hcc.
  - intros k Hk. rewrite lookup_alter_ne by done. by apply Ho.
Qed.

(** The pass over the vehicles. *)
Lemma pass_loop_binary64 (caps : gmap string PrimFloat.float) loc todo :
  forall routes remaining,
  (forall t, t ∈ todo -> t ∈ trucks) ->
  NoDup (F64.truck_id <$> todo) ->
  (forall t, t ∈ todo -> caps !!! F64.truck_id t = F64.capacity t) ->
  F64.pass_inv d sites trucks todo routes remaining ->
  let '(routes', remaining') :=
    foldl (fun '(routes, remaining_tps) truck =>
             F64.fill_truck set_iter (size remaining_tps) g d (F64.truck_id truck)
               routes remaining_tps loc (caps !!! F64.truck_id truck))
          (routes, remaining) todo in
  F64.pass_inv d sites trucks [] routes' remaining'.
Proof.
  induction todo as [|t todo IH]; intros routes remaining Hin Hnd Hcap Hinv; [done|].
  simpl. simpl in Hnd. apply NoDup_cons in Hnd as [Ht Hnd].
  destruct Hinv as (Hamo & Hsub & Hb & Hc & He & Htodo).
  pose proof (Hcap t ltac:(left)) as Hcapt.
  pose proof (fill_truck_binary64 t routes (size remaining) routes remaining loc
                (caps !!! F64.truck_id t)) as Hfill.
  destruct (F64.fill_truck set_iter (size remaining) g d (F64.truck_id t)
              routes remaining loc (caps !!! F64.truck_id t)) as [routes1 rem1].
  destruct Hfill as (Hamo1 & Hsub1 & Hb1 & Hc1 & Hl1 & Ho1); try done.
  { apply Hin. left. }
  { exists []. split; [apply Htodo; left|]. simpl. by rewrite Hcapt. }
  apply IH; try done.
  - intros t' Ht'. apply Hin. by right.
  - intros t' Ht'. apply Hcap. by right.
  - split_and!; try done.
    + intros t' Ht'. destruct (decide (F64.truck_id t' = F64.truck_id t)) as [Heq|Hne].
      * assert (t' = t) as ->.
        { eapply (NoDup_fmap_eq F64.truck_id trucks); try done. apply Hin. left. }
        done.
      * rewrite Ho1 by done. by apply He.
    + intros t' Ht'. rewrite Ho1; [apply Htodo; by right|].
      intros Heq. apply Ht. rewrite <-Heq. by apply list_elem_of_fmap_2.
Qed.

End Binary64Greedy.

Lemma first_fit_binary64 trucks n dm :
  forall (routes : gmap string (list string)) caps,
  fst (F64.first_fit trucks n dm routes caps) = routes \/
  exists tid, fst (F64.first_fit trucks n dm routes caps)
              = alter (fun r => r ++ [n]) tid routes.
Proof.
  induction trucks as [|t trucks IH]; intros routes caps; simpl; [by left|].
  destruct (PrimFloat.leb dm _); [right; by eexists | apply IH].
Qed.

Lemma leftover_pass_binary64 d trucks leftover : forall routes caps,
  NoDup leftover ->
  at_most_once routes ->
  (forall n t r, n ∈ leftover -> routes !! t = Some r -> n ∉ r) ->
  at_most_once (fst (F64.leftover_pass d trucks routes caps leftover)).
Proof.
  unfold F64.leftover_pass.
  induction leftover as [|n leftover IH]; intros routes caps Hnd Hamo Hfresh; [done|].
  simpl. apply NoDup_cons in Hnd as [Hn Hnd].
  destruct (F64.first_fit trucks n (F64.demand (d !!! n)) routes caps)
    as [routes1 caps1] eqn:Hff.
  assert (Hr1 : routes1 = routes \/ exists tid, routes1 = alter (fun r => r ++ [n]) tid routes).
  { pose proof (first_fit_binary64 trucks n (F64.demand (d !!! n)) routes caps) as H.
    by rewrite Hff in H. }
  apply IH; [done | |].
  - destruct Hr1 as [->|[tid ->]]; [done|].
    apply at_most_once_append; [done|]. intros t r Hr. eapply Hfresh; [left|done].
  - intros m t r Hm Hr. destruct Hr1 as [->|[tid ->]].
    + eapply Hfresh; [by right|done].
    + rewrite lookup_alter in Hr.
      destruct (decide (tid = t)) as [<-|]; [|eapply Hfresh; [by right|done]].
      destruct (routes !! tid) as [r0|] eqn:Hr0; [|done]. injection Hr as <-.
      rewrite elem_of_app, list_elem_of_singleton. intros [Hin| ->]; [|done].
      eapply Hfresh; [by right | exact Hr0 | done].
Qed.

Lemma empty_routes_binary64 trucks tid r :
  F64.empty_routes trucks !! tid = Some r -> r = [].
Proof.
  unfold F64.empty_routes. intros H.
  apply (foldl_insert_lookup_Some F64.truck_id (fun _ => [])) in H as [H|(a & _ & _ & <-)];
    [|done].
  by rewrite lookup_empty in H.
Qed.

(** C1, as the code has it on doubles: for sites on distinct nodes and
    vehicles with distinct ids, no site is put on two routes (or twice on
    one); the route that the nearest-neighbour pass gives a vehicle passed
    the capacity test stop by stop (no demand above the capacity left by the
    stops before it, as the loop computes it); and when that pass leaves no
    site over, its routes are returned and every site is on exactly one of
    them. *)
Theorem greedy_assigns_admitted_sites set_iter g tps_list depot_id trucks :
  enumerates set_iter ->
  NoDup (F64.tps_node_id <$> tps_list) ->
  NoDup (F64.truck_id <$> trucks) ->
  let pass := F64.nearest_neighbour_pass set_iter g tps_list depot_id trucks in
  let routes := F64.greedy_initial_solution set_iter g tps_list depot_id trucks in
  at_most_once routes /\
  (forall t, t ∈ trucks ->
     exists r, pass.1 !! F64.truck_id t = Some r /\
       F64.admitted (F64.capacity t) (F64.route_demands (F64.make_tps_dict tps_list) r)) /\
  (pass.2 = ∅ ->
   routes = pass.1 /\
   forall tps, tps ∈ tps_list ->
     exists tid, on_route routes tid (F64.tps_node_id tps) /\
       forall tid', on_route routes tid' (F64.tps_node_id tps) -> tid' = tid).
Proof.
  intros set_iter_ok Hsites Htrucks pass routes.
  set (d := F64.make_tps_dict tps_list).
  set (sites := (list_to_set (F64.tps_node_id <$> tps_list) : gset string)).
  pose proof (pass_loop_binary64 set_iter g set_iter_ok d sites trucks Htrucks
                (F64.make_capacities trucks) depot_id trucks
                (F64.empty_routes trucks) sites) as Hpass.
  subst pass routes.
  unfold F64.greedy_initial_solution, F64.nearest_neighbour_pass.
  fold d. fold sites.
  destruct (foldl _ (F64.empty_routes trucks, sites) trucks) as [routes1 rem1].
  destruct Hpass as (Hamo & Hsub & Hb & Hc & He & _); try done.
  { intros t Ht. apply lookup_total_correct.
    by apply (foldl_insert_lookup F64.truck_id F64.capacity). }
  { split_and!.
    - intros t1 t2 r1 r2 i j n H1 _ Hi _. apply empty_routes_binary64 in H1 as ->. done.
    - done.
    - intros tid r n Hr Hn. apply empty_routes_binary64 in Hr as ->. by inversion Hn.
    - intros n Hn. by left.
    - intros t Ht. exists []. split; [|done].
      by apply (foldl_insert_lookup F64.truck_id (fun _ => [])).
    - intros t Ht. by apply (foldl_insert_lookup F64.truck_id (fun _ => [])). }
  simpl. split_and!.
  - destruct (decide (rem1 = ∅)) as [|Hne]; [done|].
    apply leftover_pass_binary64; [by apply (set_iter_NoDup set_iter set_iter_ok) | done |].
    intros n t r Hn Hr Hin. apply (set_iter_elem set_iter set_iter_ok) in Hn.
    by destruct (Hb _ _ _ Hr Hin).
  - done.
  - intros ->. rewrite decide_True by done. split; [done|].
    intros tps Htps.
    destruct (Hc (F64.tps_node_id tps)) as [Hrem|(tid & Hon)].
    { apply elem_of_list_to_set. by apply list_elem_of_fmap_2. }
    { by apply not_elem_of_empty in Hrem. }
    exists tid. split; [done|].
    intros tid' (r' & Hr' & Hin'). destruct Hon as (r & Hr & Hin).
    apply list_elem_of_lookup in Hin as [i Hi]. apply list_elem_of_lookup in Hin' as [j Hj].
    by destruct (Hamo _ _ _ _ _ _ _ Hr' Hr Hj Hi).
Qed.
(** * Worked examples *)

(** C7 at a concrete input: ["A"] is registered and [add_node] on ["A"]
    returns normally. *)
Lemma add_node_duplicate_returns :
  is_Some (nodes one_node_graph !! "A") /\
  ~ raises (add_node one_node_graph "A" 5 5).
Proof. split; [by eexists | by intros []]. Qed.

Lemma add_node_registered_replaces_example :
  exists g', add_node one_node_graph "A" 5 5 = Ok g' /\
    nodes g' !! "A" = Some (mkNode "A" 5 5 []) /\
    (forall other, other ≠ "A" -> nodes g' !! other = nodes one_node_graph !! other) /\
    edges g' = edges one_node_graph.
Proof. apply (add_node_registered_replaces one_node_graph "A" 5 5). by eexists. Defined.

(** C8 at a concrete input: after the second [add_node "A"], node ["B"] still
    lists ["A"] while the new node ["A"] lists nothing. *)
Lemma readd_breaks_symmetry : ~ adjacency_symmetric (run_ops empty_graph readd_ops).
Proof.
  intros Hsym.
  destruct (Hsym "B" "A" 1%Q) as (n & Hn & Hd).
  - eexists. split; [by vm_compute | by vm_compute].
  - vm_compute in Hn. injection Hn as <-. discriminate Hd.
Qed.

Lemma adjacency_symmetric_fresh_adds_example :
  adjacency_symmetric (run_ops empty_graph link_ops) /\
  (forall g id1 id2 w,
     (raises (add_edge g id1 id2 w) <->
      nodes g !! id1 = None \/ nodes g !! id2 = None) /\
     (forall g', add_edge g id1 id2 w = Ok g' ->
        lists_neighbor g' id1 id2 w /\ lists_neighbor g' id2 id1 w)).
Proof.
  apply (adjacency_symmetric_fresh_adds link_ops).
  simpl. repeat split; reflexivity.
Defined.

Lemma astar_unknown_endpoint_example :
  astar Qsqrt one_node_graph "A" "Z" = None.
Proof.
  apply (proj1 (astar_unknown_endpoint Qsqrt one_node_graph "A" "Z")).
  right. reflexivity.
Defined.

Lemma Qsqrt_respects : respects_Qeq Qsqrt.
Proof. intros p q Hpq. unfold Qsqrt. by rewrite (Qred_complete p q Hpq). Qed.

Lemma lcg_randbelow_in_range : randbelow_in_range lcg_randbelow.
Proof.
  intros n s Hn. unfold lcg_randbelow. simpl.
  pose proof (Z.mod_pos_bound s (Z.of_nat n) ltac:(lia)). lia.
Qed.

Lemma metropolis_rational_defined : metropolis_defined metropolis_rational.
Proof.
  intros u delta temperature HT _. unfold metropolis_rational.
  destruct (Qeq_bool temperature 0) eqn:H0.
  - apply Qeq_bool_iff in H0. lra.
  - destruct delta; by eexists.
Qed.

Lemma elements_enumerates : enumerates elements.
Proof. intros s. reflexivity. Qed.

(** 2-opt on a route that doubles back: one reversal straightens it. *)
Example two_opt_doubling_route :
  two_opt_single_route Qsqrt line_graph doubling_route (1 # 1000) 1000
  = ["D"; "A"; "B"; "C"; "D"].
Proof. by vm_compute. Qed.

Lemma two_opt_never_longer_and_fixed_point_example :
  fle (calculate_route_distance Qsqrt line_graph
         (two_opt_single_route Qsqrt line_graph doubling_route (1 # 1000) 1000))
      (calculate_route_distance Qsqrt line_graph doubling_route) /\
  (snd (two_opt_loop Qsqrt line_graph (1 # 1000) 1000 doubling_route) = false ->
   two_opt_single_route Qsqrt line_graph
     (two_opt_single_route Qsqrt line_graph doubling_route (1 # 1000) 1000)
     (1 # 1000) 1000
   = two_opt_single_route Qsqrt line_graph doubling_route (1 # 1000) 1000).
Proof.
  apply (two_opt_never_longer_and_fixed_point Qsqrt line_graph Qsqrt_respects).
  discriminate.
Defined.

Lemma two_routes_framed : depot_framed two_routes "D".
Proof.
  intros tid r. unfold two_routes.
  rewrite lookup_insert_Some, lookup_insert_Some, lookup_empty.
  intros [[_ <-]|[_ [[_ <-]|[_ ?]]]]; [| |done].
  - exists ["B"; "A"]. split; [done|].
    rewrite !not_elem_of_cons. split_and!; try done. apply not_elem_of_nil.
  - exists ["C"]. split; [done|].
    rewrite !not_elem_of_cons. split_and!; try done. apply not_elem_of_nil.
Qed.

Lemma flatten_roundtrip_and_neighbor_shape_example :
  tps_order_to_routes (routes_to_tps_order two_routes "D").1
                      (routes_to_tps_order two_routes "D").2
                      (py_sorted (keys two_routes)) "D" = two_routes /\
  let out := fst (generate_neighbor_solution lcg_random lcg_randbelow two_routes "D" 5%Z) in
  dom out = dom two_routes /\
  forall tid r, two_routes !! tid = Some r ->
    exists r', out !! tid = Some r' /\
      framed_route "D" r' /\
      stop_count "D" r' = stop_count "D" r /\
      length r' = length r.
Proof.
  apply (flatten_roundtrip_and_neighbor_shape lcg_random lcg_randbelow
           lcg_randbelow_in_range two_routes "D" 5%Z two_routes_framed).
Defined.

(** A neighbour of [two_routes]: two stops change places across the two
    vehicles. *)
Example neighbor_of_two_routes :
  fst (generate_neighbor_solution lcg_random lcg_randbelow two_routes "D" 5%Z)
  = <["T1" := ["D"; "C"; "A"; "D"]]> (<["T2" := ["D"; "B"; "D"]]> ∅).
Proof. by vm_compute. Qed.

(** The greedy fill on small integers, where the rational model and the
    doubles agree: the demands are within the fleet capacity and every site
    fits the largest vehicle, yet vehicle [T1] ends with two sites (load 12
    against capacity 10) and one site is on no route. *)
Example greedy_uneven_fleet :
  map_to_list (greedy_initial_solution Qsqrt elements line_graph three_sites "D" uneven_fleet)
  = [("T3", []); ("T1", ["A"; "C"]); ("T2", []); ("T4", [])].
Proof. by vm_compute. Qed.

Lemma greedy_overloads_and_drops :
  (total_demand three_sites <= total_capacity uneven_fleet)%Q /\
  (forall tps, tps ∈ three_sites ->
     exists truck, truck ∈ uneven_fleet /\ (demand tps <= capacity truck)%Q) /\
  ~ all_assigned_within_capacity three_sites uneven_fleet
      (greedy_initial_solution Qsqrt elements line_graph three_sites "D" uneven_fleet).
Proof.
  split_and!.
  - discriminate.
  - intros tps Htps. exists (mkTruck "T1" 10). split; [left|].
    repeat (apply elem_of_cons in Htps as [->|Htps]; [discriminate|]).
    by inversion Htps.
  - intros [_ Hcap].
    destruct (Hcap (mkTruck "T1" 10)) as (r & Hr & Hload); [left|].
    vm_compute in Hr. injection Hr as <-. by vm_compute in Hload.
Qed.

Lemma greedy_assignment_example :
  at_most_once (greedy_initial_solution Qsqrt elements line_graph three_sites "D" roomy_fleet) /\
  (snd (nearest_neighbour_pass Qsqrt elements line_graph three_sites "D" roomy_fleet) = ∅ ->
   all_assigned_within_capacity three_sites roomy_fleet
     (greedy_initial_solution Qsqrt elements line_graph three_sites "D" roomy_fleet)).
Proof.
  apply (greedy_assignment Qsqrt elements line_graph elements_enumerates
           three_sites "D" roomy_fleet).
  - apply (bool_decide_unpack _). by vm_compute.
  - apply (bool_decide_unpack _). by vm_compute.
  - intros t Ht.
    repeat (apply elem_of_cons in Ht as [->|Ht]; [discriminate|]).
    by inversion Ht.
Defined.

(** On [roomy_fleet] the first pass places every site. *)
Example greedy_roomy_fleet_no_leftover :
  snd (nearest_neighbour_pass Qsqrt elements line_graph three_sites "D" roomy_fleet) = ∅.
Proof. by vm_compute. Qed.

(** C3 on [two_routes]: three trials at temperature 2 bring the best cost
    from 10 down to 8. *)
Example sa_two_routes_history :
  (best_history <$>
     match sa_run Qsqrt lcg_random lcg_randbelow metropolis_rational 5 line_graph
                  two_routes "D" 2 (1 # 2) 3 1 5%Z with
     | Some (Ok st) => Some st
     | _ => None
     end) = Some [Fin 8; Fin 8; Fin 10; Fin 10].
Proof. by vm_compute. Qed.

Lemma sa_best_is_monotone_example :
  exists fuel st,
    sa_run Qsqrt lcg_random lcg_randbelow metropolis_rational fuel line_graph
           two_routes "D" 2 (1 # 2) 3 1 5%Z = Some (Ok st).
Proof.
  apply (proj2 (sa_best_is_monotone Qsqrt lcg_random lcg_randbelow metropolis_rational
                  line_graph "D" two_routes 2 (1 # 2) 3 1 5%Z));
    [apply metropolis_rational_defined | by vm_compute | reflexivity | reflexivity].
Defined.

(** C2 at a concrete input: on [detour_graph] the walk over ["A"] costs 2,
    and [astar] returns the direct link of weight 5 (the straight-line
    estimate of ["A"], 5, overrates its remaining cost 1). *)
Lemma astar_misses_cheaper_detour :
  registered detour_graph "S" /\ registered detour_graph "G" /\
  walk detour_graph "S" [("A", 1%Q); ("G", 1%Q)] "G" /\
  walk_cost [("A", 1%Q); ("G", 1%Q)] = 2%Q /\
  astar Qsqrt detour_graph "S" "G" = Some ["S"; "G"] /\
  path_weight detour_graph ["S"; "G"] = Some 5%Q.
Proof.
  split_and!; try (by vm_compute); try (by eexists).
  simpl. split_and!; try done; apply list_elem_of_In; vm_compute; tauto.
Qed.

Lemma astar_optimal_when_consistent_example :
  exists p c,
    astar Qsqrt road_graph "D" "A" = Some p /\
    head p = Some "D" /\ last p = Some "A" /\
    path_weight road_graph p = Some c /\
    forall steps, walk road_graph "D" steps "A" -> (c <= walk_cost steps)%Q.
Proof.
  apply (astar_optimal_when_consistent Qsqrt road_graph "D" "A").
  - apply build_graph_dicts_wf.
  - apply consistent_check_ok. by vm_compute.
  - by eexists.
  - by eexists.
  - exists [("X", 1%Q); ("A", 1%Q)].
    simpl. split_and!; try done; apply list_elem_of_In; vm_compute; tauto.
Defined.

Example astar_road : astar Qsqrt road_graph "D" "A" = Some ["D"; "X"; "A"].
Proof. by vm_compute. Qed.

Lemma visit_routes_framed : depot_framed visit_routes "D".
Proof.
  intros tid r Hr. unfold visit_routes in Hr.
  apply lookup_singleton_Some in Hr as [_ <-]. exists ["A"]. split; [done|].
  rewrite !not_elem_of_cons. split; [done | apply not_elem_of_nil].
Qed.

Lemma hop_routes_framed : depot_framed hop_routes "D".
Proof.
  intros tid r Hr. unfold hop_routes in Hr.
  apply lookup_singleton_Some in Hr as [_ <-]. exists ["X"]. split; [done|].
  rewrite !not_elem_of_cons. split; [done | apply not_elem_of_nil].
Qed.

(** C6 on [visit_routes]: the junction ["X"] is passed on the way out and on
    the way back, the site ["A"] is written once. *)
Example full_path_visit :
  compute_full_paths_as_single_list Qsqrt road_graph visit_routes !! "T1"
  = Some ["D"; "X"; "A"; "X"; "D"].
Proof. by vm_compute. Qed.

Lemma full_path_junctions_example :
  exists segs full,
    compute_full_paths Qsqrt road_graph visit_routes !! "T1" = Some segs /\
    compute_full_paths_as_single_list Qsqrt road_graph visit_routes !! "T1" = Some full /\
    length segs = length ["D"; "A"; "D"] - 1 /\
    (forall i seg, segs !! i = Some seg ->
       exists a b, ["D"; "A"; "D"] !! i = Some a /\ ["D"; "A"; "D"] !! S i = Some b /\
                   head seg = Some a /\ last seg = Some b) /\
    full = join_segments segs /\
    head full = Some "D" /\ last full = Some "D".
Proof.
  apply (full_path_junctions Qsqrt road_graph visit_routes "D" "T1" ["D"; "A"; "D"]
           visit_routes_framed).
  reflexivity.
Defined.

(** C9 at a concrete input: the full path of [visit_routes] has five nodes, so
    [evaluate_routes] counts three stops where [evaluate_routes_simple]
    counts one. *)
Lemma evaluate_variants_differ :
  depot_framed visit_routes "D" /\
  num_stops (evaluate_routes Qsqrt road_graph
               (compute_full_paths_as_single_list Qsqrt road_graph visit_routes)) = 3%Z /\
  num_stops (evaluate_routes_simple Qsqrt road_graph "D" visit_routes) = 1%Z.
Proof. split_and!; [apply visit_routes_framed | by vm_compute | by vm_compute]. Qed.

(** A vehicle that stays at the depot: its full path is the depot alone, and
    [evaluate_routes] counts minus one stop for it. *)
Example evaluate_routes_idle_vehicle :
  depot_framed idle_routes "D" /\
  compute_full_paths_as_single_list Qsqrt road_graph idle_routes !! "T1" = Some ["D"] /\
  num_stops (evaluate_routes Qsqrt road_graph
               (compute_full_paths_as_single_list Qsqrt road_graph idle_routes)) = (-1)%Z /\
  num_stops (evaluate_routes_simple Qsqrt road_graph "D" idle_routes) = 0%Z.
Proof.
  split_and!; try by vm_compute.
  intros tid route Hr. unfold idle_routes in Hr.
  apply lookup_singleton_Some in Hr as [_ <-]. exists []. split; [done|].
  apply not_elem_of_nil.
Qed.

(** The agreement on [hop_routes], whose segments are direct links. *)
Lemma evaluate_variants_agree_example :
  num_trucks (evaluate_routes Qsqrt road_graph
                (compute_full_paths_as_single_list Qsqrt road_graph hop_routes))
  = num_trucks (evaluate_routes_simple Qsqrt road_graph "D" hop_routes) /\
  ((forall tid route a b,
      hop_routes !! tid = Some route -> (a, b) ∈ zip route (tail route) ->
      length (segment_path Qsqrt road_graph a b) = 2) ->
   num_stops (evaluate_routes Qsqrt road_graph
                (compute_full_paths_as_single_list Qsqrt road_graph hop_routes))
   = num_stops (evaluate_routes_simple Qsqrt road_graph "D" hop_routes)).
Proof.
  apply (evaluate_variants_agree Qsqrt road_graph hop_routes "D" hop_routes_framed).
Defined.

(** On [hop_routes] every segment is a direct link. *)
Example hop_routes_direct tid route a b :
  hop_routes !! tid = Some route -> (a, b) ∈ zip route (tail route) ->
  length (segment_path Qsqrt road_graph a b) = 2.
Proof.
  intros Hr Hin. unfold hop_routes in Hr.
  apply lookup_singleton_Some in Hr as [_ <-]. simpl in Hin.
  repeat (apply elem_of_cons in Hin as [[= -> ->]|Hin]; [by vm_compute|]).
  by inversion Hin.
Qed.
(** * Worked examples for the further properties *)

Lemma Qsqrt_nonneg q : (0 <= Qsqrt q)%Q.
Proof. unfold Qsqrt, Qle. simpl. pose proof (Z.sqrt_nonneg (Qnum (Qred q))). lia. Qed.

Lemma map_items_enumerate : items_enumerate map_items.
Proof. intros m. reflexivity. Qed.

Lemma map_values_enumerate : values_enumerate map_values.
Proof. intros m. reflexivity. Qed.

(** ** Graphs *)

Lemma edges_record_links_example :
  ("A", "B") ∈ edges (run_ops empty_graph link_ops) <->
    String.leb "A" "B" = true /\
    exists w, lists_neighbor (run_ops empty_graph link_ops) "A" "B" w.
Proof.
  apply (edges_record_links link_ops).
  simpl. repeat split; reflexivity.
Defined.

Example linked_pair_edges : elements (edges linked_pair_graph) = [("A", "B")].
Proof. by vm_compute. Qed.

Lemma add_edge_again_example :
  add_edge linked_pair_graph "A" "B" 7 = add_edge pair_graph "A" "B" 7 /\
  add_edge linked_pair_graph "B" "A" 7 = add_edge pair_graph "A" "B" 7.
Proof.
  apply (add_edge_again pair_graph "A" "B" 1 7 linked_pair_graph).
  reflexivity.
Defined.

Lemma euclidean_inf_or_symmetric_example :
  (~ registered line_graph "D" \/ ~ registered line_graph "Z" ->
   euclidean Qsqrt line_graph "D" "Z" = Inf) /\
  fequiv (euclidean Qsqrt line_graph "D" "Z") (euclidean Qsqrt line_graph "Z" "D").
Proof.
  apply (euclidean_inf_or_symmetric Qsqrt line_graph "D" "Z"), Qsqrt_respects.
Defined.

Lemma nearest_node_to_coord_minimal_example :
  (nodes line_graph = ∅ ->
   nearest_node_to_coord Qsqrt map_items line_graph (5 # 2) 0 = None) /\
  forall nid, nearest_node_to_coord Qsqrt map_items line_graph (5 # 2) 0 = Some nid ->
    exists n, nodes line_graph !! nid = Some n /\
      forall k m, nodes line_graph !! k = Some m ->
        (coord_distance Qsqrt n (5 # 2) 0 <= coord_distance Qsqrt m (5 # 2) 0)%Q.
Proof.
  apply (nearest_node_to_coord_minimal Qsqrt map_items line_graph (5 # 2) 0),
    map_items_enumerate.
Defined.

(** The node nearest to the point [(9/4, 0)] of the line is ["B"], at [2]. *)
Example nearest_on_line :
  nearest_node_to_coord Qsqrt map_items line_graph (9 # 4) 0 = Some "B".
Proof. by vm_compute. Qed.

(** The small grid: five nodes and four links. *)
Example small_grid_loaded :
  match small_grid with
  | Ok g =>
      (py_sorted (keys (nodes g)), elements (edges g),
       (get_neighbors g "N1_1").*1)
  | Raise _ => ([], [], [])
  end
  = (["N0_0"; "N0_2"; "N1_0"; "N1_1"; "N1_2"],
     elements (list_to_set [("N0_0", "N1_0"); ("N0_2", "N1_2");
                            ("N1_0", "N1_1"); ("N1_1", "N1_2")] : gset (string * string)),
     ["N1_0"; "N1_2"]).
Proof. by vm_compute. Qed.

(** ** A-star *)

Lemma astar_returns_simple_walk_example :
  NoDup ["D"; "X"; "A"] /\
  exists steps, walk road_graph "D" steps "A" /\ ["D"; "X"; "A"] = "D" :: steps.*1.
Proof.
  apply (astar_returns_simple_walk Qsqrt road_graph "D" "A" ["D"; "X"; "A"]).
  by vm_compute.
Defined.

Lemma astar_finds_connected_example :
  exists p, astar Qsqrt road_graph "D" "A" = Some p /\
    head p = Some "D" /\ last p = Some "A".
Proof.
  apply (astar_finds_connected Qsqrt road_graph "D" "A").
  - by eexists.
  - by eexists.
  - exists [("X", 1%Q); ("A", 1%Q)].
    simpl. split_and!; try done; apply list_elem_of_In; vm_compute; tauto.
Defined.

Lemma reconstruct_path_follows_links_example :
  (forall start p, ({[ "A" := "X"; "X" := "D" ]} : gmap string string) !! start = None ->
     chain {[ "A" := "X"; "X" := "D" ]} start "A" p ->
     reconstruct_path {[ "A" := "X"; "X" := "D" ]} "A" = Some p) /\
  ((forall k v, ({[ "A" := "X"; "X" := "D" ]} : gmap string string) !! k = Some v ->
      is_Some (({[ "A" := "X"; "X" := "D" ]} : gmap string string) !! v)) ->
   is_Some (({[ "A" := "X"; "X" := "D" ]} : gmap string string) !! "A") ->
   forall fuel path, reconstruct_loop fuel {[ "A" := "X"; "X" := "D" ]} "A" path = None).
Proof.
  apply (reconstruct_path_follows_links {[ "A" := "X"; "X" := "D" ]} "A").
Defined.

Example reconstruct_path_links :
  reconstruct_path {[ "A" := "X"; "X" := "D" ]} "A" = Some ["D"; "X"; "A"] /\
  reconstruct_path {[ "A" := "B"; "B" := "A" ]} "A" = None.
Proof. by vm_compute. Qed.

(** ** 2-opt *)

Lemma doubling_route_registered : Forall (registered line_graph) doubling_route.
Proof. repeat constructor; by eexists. Qed.

Example optimize_routes_2opt_doubling :
  optimize_routes_2opt Qsqrt line_graph doubling_routes (1 # 1000) 1000
  = {[ "T1" := ["D"; "A"; "B"; "C"; "D"] ]}.
Proof. by vm_compute. Qed.

Lemma two_opt_converges_example :
  snd (two_opt_loop Qsqrt line_graph 1 9 doubling_route) = false /\
  two_opt_scan Qsqrt line_graph (two_opt_single_route Qsqrt line_graph doubling_route 1 9) 1
  = None.
Proof.
  apply (two_opt_converges Qsqrt line_graph doubling_route 1 9).
  - apply Qsqrt_respects.
  - apply Qsqrt_nonneg.
  - reflexivity.
  - apply doubling_route_registered.
  - reflexivity.
Defined.

(** ** Annealing *)

Lemma unflatten_flatten_roundtrip_example :
  routes_to_tps_order
    (tps_order_to_routes ["C"; "B"; "A"] (routes_to_tps_order two_routes "D").2
       (py_sorted (keys two_routes)) "D") "D"
  = (["C"; "B"; "A"], (routes_to_tps_order two_routes "D").2).
Proof.
  apply (unflatten_flatten_roundtrip two_routes "D" ["C"; "B"; "A"]).
  - reflexivity.
  - rewrite !not_elem_of_cons. split_and!; try done. apply not_elem_of_nil.
Defined.

Lemma neighbor_keeps_stops_example :
  let out := fst (generate_neighbor_solution lcg_random lcg_randbelow two_routes "D" 5%Z) in
  dom out = dom two_routes /\
  (routes_to_tps_order out "D").1 ≡ₚ (routes_to_tps_order two_routes "D").1 /\
  (routes_to_tps_order out "D").2 = (routes_to_tps_order two_routes "D").2 /\
  depot_framed out "D".
Proof.
  apply (neighbor_keeps_stops lcg_random lcg_randbelow two_routes "D" 5%Z),
    lcg_randbelow_in_range.
Defined.

Example sa_two_routes_best :
  simulated_annealing_optimize Qsqrt lcg_random lcg_randbelow metropolis_rational
    5 line_graph two_routes "D" 2 (1 # 2) 3 1 5%Z
  = Some (Ok (<["T1" := ["D"; "C"; "B"; "D"]]> (<["T2" := ["D"; "A"; "D"]]> ∅))).
Proof. by vm_compute. Qed.

Lemma sa_keeps_stops_example :
  let out : gmap string (list string) :=
    <["T1" := ["D"; "C"; "B"; "D"]]> (<["T2" := ["D"; "A"; "D"]]> ∅) in
  dom out = dom two_routes /\
  (routes_to_tps_order out "D").1 ≡ₚ (routes_to_tps_order two_routes "D").1 /\
  (routes_to_tps_order out "D").2 = (routes_to_tps_order two_routes "D").2 /\
  (depot_framed two_routes "D" -> depot_framed out "D").
Proof.
  apply (sa_keeps_stops Qsqrt lcg_random lcg_randbelow metropolis_rational
           5 line_graph two_routes "D" 2 (1 # 2) 3 1 5%Z).
  - apply lcg_randbelow_in_range.
  - by vm_compute.
Defined.

(** ** Greedy routes *)

Lemma depot_not_a_site : "D" ∉ tps_node_id <$> three_sites.
Proof. simpl. rewrite !not_elem_of_cons. split_and!; try done. apply not_elem_of_nil. Qed.

Lemma three_sites_NoDup : NoDup (tps_node_id <$> three_sites).
Proof. apply (bool_decide_unpack _). by vm_compute. Qed.

Lemma uneven_fleet_NoDup : NoDup (truck_id <$> uneven_fleet).
Proof. apply (bool_decide_unpack _). by vm_compute. Qed.

Lemma roomy_fleet_NoDup : NoDup (truck_id <$> roomy_fleet).
Proof. apply (bool_decide_unpack _). by vm_compute. Qed.

Lemma greedy_routes_framed_example :
  let routes := greedy_initial_solution Qsqrt elements line_graph three_sites "D" uneven_fleet in
  let formatted := format_routes_with_depot routes "D" in
  dom formatted = list_to_set (truck_id <$> uneven_fleet) /\
  depot_framed formatted "D" /\
  forall tid r n, routes !! tid = Some r -> n ∈ r -> n ∈ tps_node_id <$> three_sites.
Proof.
  apply (greedy_routes_framed Qsqrt elements line_graph three_sites "D" uneven_fleet).
  - apply elements_enumerates.
  - apply depot_not_a_site.
Defined.

Lemma greedy_first_stop_nearest_example :
  fle (euclidean Qsqrt line_graph "D" "A") (euclidean Qsqrt line_graph "D" "C").
Proof.
  apply (greedy_first_stop_nearest Qsqrt elements line_graph three_sites "D"
           (mkTruck "T1" 10) [mkTruck "T2" 4; mkTruck "T3" 4; mkTruck "T4" 4]%Q "A" ["C"]
           elements_enumerates three_sites_NoDup uneven_fleet_NoDup
           ltac:(by vm_compute) (mkTPS "TPS_3" "C" 6)).
  - do 2 apply list_elem_of_further. apply list_elem_of_here.
  - by vm_compute.
Defined.

(** ** Full paths *)

Lemma full_path_is_walk_example :
  exists steps z,
    last ["D"; "A"; "D"] = Some z /\ walk road_graph "D" steps z /\
    compute_full_paths_as_single_list Qsqrt road_graph visit_routes !! "T1"
    = Some ("D" :: steps.*1).
Proof.
  apply (full_path_is_walk Qsqrt road_graph visit_routes "T1" "D" "A" ["D"]).
  - reflexivity.
  - intros x y Hin.
    repeat (apply elem_of_cons in Hin as [[= -> ->]|Hin];
      [split_and!; [by eexists | by eexists |]|]).
    + exists [("X", 1%Q); ("A", 1%Q)].
      simpl. split_and!; try done; apply list_elem_of_In; vm_compute; tauto.
    + exists [("X", 1%Q); ("D", 1%Q)].
      simpl. split_and!; try done; apply list_elem_of_In; vm_compute; tauto.
    + by inversion Hin.
Defined.

Lemma full_path_visits_stops_example :
  exists full,
    compute_full_paths_as_single_list Qsqrt road_graph visit_routes !! "T1" = Some full /\
    ["D"; "A"; "D"] `sublist_of` full.
Proof.
  apply (full_path_visits_stops Qsqrt road_graph visit_routes "T1" "D" "A" ["D"]).
  - reflexivity.
  - intros x y Hin.
    repeat (apply elem_of_cons in Hin as [[= -> ->]|Hin]; [done|]).
    by inversion Hin.
Defined.

(** The metrics of [two_routes] on the line. *)
Example evaluate_two_routes :
  total_distance (evaluate_routes_simple Qsqrt line_graph "D" two_routes) = Fin 10 /\
  calculate_total_distance Qsqrt line_graph two_routes = Fin 10 /\
  num_trucks (evaluate_routes_simple Qsqrt line_graph "D" two_routes) = 2.
Proof. by vm_compute. Qed.

(** ** Helpers and the main routes *)

Lemma flatten_helpers_agree_example :
  get_all_tps_from_routes map_values two_routes "D"
    ≡ₚ (routes_to_tps_order two_routes "D").1 /\
  ("D" ∉ ["C"; "B"; "A"] ->
   framed_route "D" (create_route_from_tps_order ["C"; "B"; "A"] "D") /\
   filter (fun n => n ≠ "D") (create_route_from_tps_order ["C"; "B"; "A"] "D")
   = ["C"; "B"; "A"]).
Proof.
  apply (flatten_helpers_agree map_values two_routes "D" ["C"; "B"; "A"]),
    map_values_enumerate.
Defined.

Lemma main_routes_sound_example :
  (forall fuel p,
     main_routes Qsqrt lcg_random lcg_randbelow metropolis_rational elements
       fuel line_graph three_sites "D" roomy_fleet 5%Z = Some (Ok p) ->
     let initial := routes_initial_with_depot p in
     dom initial = list_to_set (truck_id <$> roomy_fleet) /\
     depot_framed initial "D" /\
     (dom (routes_2opt p) = dom initial /\ depot_framed (routes_2opt p) "D" /\
      (forall tid r, initial !! tid = Some r ->
         exists r', routes_2opt p !! tid = Some r' /\ r' ≡ₚ r)) /\
     (dom (routes_sa p) = dom initial /\ depot_framed (routes_sa p) "D" /\
      (routes_to_tps_order (routes_sa p) "D").1
        ≡ₚ (routes_to_tps_order initial "D").1 /\
      fle (calculate_total_distance Qsqrt line_graph (routes_sa p))
          (calculate_total_distance Qsqrt line_graph initial))) /\
  (metropolis_defined metropolis_rational ->
   exists fuel p,
     main_routes Qsqrt lcg_random lcg_randbelow metropolis_rational elements
       fuel line_graph three_sites "D" roomy_fleet 5%Z = Some (Ok p)).
Proof.
  apply (main_routes_sound Qsqrt lcg_random lcg_randbelow metropolis_rational elements
           line_graph three_sites "D" roomy_fleet 5%Z).
  - apply lcg_randbelow_in_range.
  - apply elements_enumerates.
  - apply depot_not_a_site.
Defined.


(** ** The returned path of A-star, at a concrete input *)

Lemma astar_path_iff_connected_example :
  ((exists steps, walk road_graph "D" steps "A") <->
   exists p, astar Qsqrt road_graph "D" "A" = Some p) /\
  forall p, astar Qsqrt road_graph "D" "A" = Some p ->
    NoDup p /\ head p = Some "D" /\ last p = Some "A" /\
    exists steps, walk road_graph "D" steps "A" /\ p = "D" :: steps.*1.
Proof.
  apply (astar_path_iff_connected Qsqrt road_graph "D" "A"); by eexists.
Defined.

(** ** The binary64 kernels at concrete inputs *)

Section Binary64Examples.
Import Floats.
Local Open Scope float_scope.

(** C4 at a concrete input, on doubles: the route is depot-framed and the
    threshold is 0; the scan accepts the reversal of ["B"; "C"] on a rounded
    gain of about 1.8e-15 and then finds nothing more, and the route
    returned measures 19.798989873223334 against 19.79898987322333 for the
    input. *)
Lemma two_opt_lengthens_by_rounding :
  framed_route "D" F64.diagonal_route /\
  (0 <=? 0) = true /\
  F64.two_opt_loop F64.diagonal_graph 0 1000 F64.diagonal_route
  = (["D"; "A"; "C"; "B"; "D"], false) /\
  F64.calculate_route_distance F64.diagonal_graph F64.diagonal_route
  = 0x1.3cc8a99af5453p+4 /\
  F64.calculate_route_distance F64.diagonal_graph ["D"; "A"; "C"; "B"; "D"]
  = 0x1.3cc8a99af5454p+4 /\
  (F64.calculate_route_distance F64.diagonal_graph
     (F64.two_opt_single_route F64.diagonal_graph F64.diagonal_route 0 1000)
   <=? F64.calculate_route_distance F64.diagonal_graph F64.diagonal_route) = false.
Proof.
  split_and!; try (by vm_compute).
  exists ["A"; "B"; "C"]. split; [done|].
  rewrite !not_elem_of_cons. split_and!; try done. apply not_elem_of_nil.
Qed.

(** The reversal of that run is one accepted move, after which the route is
    settled. *)
Example two_opt_diagonal_settles :
  F64.improving F64.diagonal_graph F64.diagonal_route 0 2 3 = true /\
  F64.two_opt_scan F64.diagonal_graph ["D"; "A"; "C"; "B"; "D"] 0 = None.
Proof. split; by vm_compute. Qed.

Lemma binary64_sites_NoDup : NoDup (F64.tps_node_id <$> F64.three_sites).
Proof. apply (bool_decide_unpack _). by vm_compute. Qed.

Lemma binary64_uneven_fleet_NoDup : NoDup (F64.truck_id <$> F64.uneven_fleet).
Proof. apply (bool_decide_unpack _). by vm_compute. Qed.

Lemma binary64_roomy_fleet_NoDup : NoDup (F64.truck_id <$> F64.roomy_fleet).
Proof. apply (bool_decide_unpack _). by vm_compute. Qed.

(** C1 at a concrete input, on doubles: the demands are within the fleet
    capacity and every site fits the largest vehicle, yet vehicle [T1] ends
    with two sites (load 12 against capacity 10) and one site is on no
    route. *)
Example greedy_binary64_uneven_fleet :
  map_to_list (F64.greedy_initial_solution elements F64.line_graph F64.three_sites "D"
                 F64.uneven_fleet)
  = [("T3", []); ("T1", ["A"; "C"]); ("T2", []); ("T4", [])].
Proof. by vm_compute. Qed.

Lemma greedy_binary64_overloads_and_drops :
  (F64.total_demand F64.three_sites <=? F64.total_capacity F64.uneven_fleet) = true /\
  (forall tps, tps ∈ F64.three_sites ->
     exists truck, truck ∈ F64.uneven_fleet /\
       (F64.demand tps <=? F64.capacity truck) = true) /\
  ~ F64.all_assigned_within_capacity F64.three_sites F64.uneven_fleet
      (F64.greedy_initial_solution elements F64.line_graph F64.three_sites "D"
         F64.uneven_fleet).
Proof.
  split_and!.
  - by vm_compute.
  - intros tps Htps. exists (F64.mkTruck "T1" 10). split; [left|].
    repeat (apply elem_of_cons in Htps as [->|Htps]; [by vm_compute|]).
    by inversion Htps.
  - intros [_ Hcap].
    destruct (Hcap (F64.mkTruck "T1" 10)) as (r & Hr & Hload); [left|].
    vm_compute in Hr. injection Hr as <-. by vm_compute in Hload.
Qed.

(** The capacity test on doubles: [1 - 2 ** -54] rounds to 1, so after three
    sites of demand [2 ** -54] the loop still sees a capacity of 1 and admits
    the site of demand 1.  The first pass leaves no site over, every stop was
    admitted, and the four demands on [T1] add up to [1 + 2 ** -52], above
    its capacity. *)
Example greedy_rounding_overloads :
  F64.nearest_neighbour_pass elements F64.line_graph F64.dust_sites "D" F64.unit_fleet
  = (<["T1" := ["A"; "B"; "C"; "E"]]> (<["T2" := []]> ∅), ∅) /\
  F64.admitted 1 (F64.route_demands (F64.make_tps_dict F64.dust_sites) ["A"; "B"; "C"; "E"]) /\
  F64.route_load (F64.make_tps_dict F64.dust_sites) ["A"; "B"; "C"; "E"]
  = 0x1.0000000000001p+0 /\
  (F64.route_load (F64.make_tps_dict F64.dust_sites) ["A"; "B"; "C"; "E"] <=? 1) = false.
Proof. split_and!; by vm_compute. Qed.

Lemma greedy_assigns_admitted_sites_example :
  let pass := F64.nearest_neighbour_pass elements F64.line_graph F64.three_sites "D"
                F64.roomy_fleet in
  let routes := F64.greedy_initial_solution elements F64.line_graph F64.three_sites "D"
                  F64.roomy_fleet in
  at_most_once routes /\
  (forall t, t ∈ F64.roomy_fleet ->
     exists r, pass.1 !! F64.truck_id t = Some r /\
       F64.admitted (F64.capacity t)
         (F64.route_demands (F64.make_tps_dict F64.three_sites) r)) /\
  (pass.2 = ∅ ->
   routes = pass.1 /\
   forall tps, tps ∈ F64.three_sites ->
     exists tid, on_route routes tid (F64.tps_node_id tps) /\
       forall tid', on_route routes tid' (F64.tps_node_id tps) -> tid' = tid).
Proof.
  apply (greedy_assigns_admitted_sites elements F64.line_graph F64.three_sites "D"
           F64.roomy_fleet).
  - apply elements_enumerates.
  - apply binary64_sites_NoDup.
  - apply binary64_roomy_fleet_NoDup.
Defined.

(** On [roomy_fleet] the first pass places every site. *)
Example greedy_binary64_roomy_fleet :
  F64.nearest_neighbour_pass elements F64.line_graph F64.three_sites "D" F64.roomy_fleet
  = (<["T1" := ["A"; "B"; "C"]]> (<["T2" := []]> ∅), ∅).
Proof. by vm_compute. Qed.

(** A-star on doubles, with straight-line weights: no link of [kite_graph]
    shortens the straight-line distance to ["E"] by more than its weight, yet
    the rounded sums [g + h] of ["C"] and ["D"] tie, ["C"] was pushed first,
    and the path over ["C"] is returned although the path over ["D"] is
    cheaper (by about 2.2e-16; the rounded sums of the two costs tie as
    well). *)
Example astar_rounding_misses_cheaper_path :
  F64.consistent_check F64.kite_graph "E" = true /\
  F64.astar 10 F64.kite_graph "A" "E" = Some (Some ["A"; "C"; "E"]) /\
  (F64.get_neighbors F64.kite_graph "A").*1 = ["C"; "D"] /\
  (F64.get_neighbors F64.kite_graph "E").*1 = ["C"; "D"] /\
  (F64.exact (F64.euclidean F64.kite_graph "A" "D") +
   F64.exact (F64.euclidean F64.kite_graph "D" "E")
   < F64.exact (F64.euclidean F64.kite_graph "A" "C") +
     F64.exact (F64.euclidean F64.kite_graph "C" "E"))%Q.
Proof. split_and!; by vm_compute. Qed.

(** Cooling below the least normal double: at [99 * 2 ** -1074] the product
    with 0.995 rounds back to the temperature, which is still above a floor
    of 1e-322 (the double [20 * 2 ** -1074]), while every temperature above
    the least normal double [2 ** -1022] comes out smaller. *)
Example cooling_sticks_below_normal :
  0x63p-1074 * 0x1.fd70a3d70a3d7p-1 = 0x63p-1074 /\
  (0x14p-1074 <? 0x63p-1074) = true /\
  (F64.exact 0x1p-1022 == min_normal)%Q /\
  (0x1.0000000000001p-1022 * 0x1.fd70a3d70a3d7p-1 <? 0x1.0000000000001p-1022) = true.
Proof. split_and!; by vm_compute. Qed.

End Binary64Examples.
